(** * Bezier fitting of digitized curves

    A shallow embedding of [src/qtloops/beziers.cpp] (Schneider's curve
    fitting algorithm as adapted for QPointF), and the properties of its
    fitting driver, parameterizer, root finder and error evaluator. *)

From Stdlib Require Import ZArith List Bool Lia QArith Floats Uint63 Reals Lra.
Import ListNotations.
Close Scope Q_scope.

(** ** The arithmetic of [double]

    The source computes on C [double]s.  The embedding is written once over
    the operations the source uses; [Binary64] below instantiates them with
    the kernel's IEEE-754 binary64 numbers, which is what the program runs
    on.  [hypot], [isNaN] and [isFinite] come from headers that are not part
    of the repository ([math.h], [isnan.h]). *)

Class Arith : Type := {
  double : Type;
  of_Z : Z -> double;                     (* conversion of an integer *)
  dadd : double -> double -> double;
  dsub : double -> double -> double;
  dmul : double -> double -> double;
  ddiv : double -> double -> double;
  dneg : double -> double;
  dsqrt : double -> double;
  fabs : double -> double;
  hypot : double -> double -> double;
  deqb : double -> double -> bool;        (* x == y *)
  dltb : double -> double -> bool;        (* x < y *)
  dleb : double -> double -> bool;        (* x <= y *)
  isNaN : double -> bool;
  isFinite : double -> bool
}.

Declare Scope dbl_scope.
Delimit Scope dbl_scope with D.
Notation "x + y" := (dadd x y) : dbl_scope.
Notation "x - y" := (dsub x y) : dbl_scope.
Notation "x * y" := (dmul x y) : dbl_scope.
Notation "x / y" := (ddiv x y) : dbl_scope.
Notation "- x" := (dneg x) : dbl_scope.
Notation "x =? y" := (deqb x y) (at level 70, no associativity) : dbl_scope.
Notation "x <? y" := (dltb x y) (at level 70, no associativity) : dbl_scope.
Notation "x <=? y" := (dleb x y) (at level 70, no associativity) : dbl_scope.
Notation "x >? y" := (dltb y x) (at level 70, no associativity, only parsing) : dbl_scope.
Notation "x >=? y" := (dleb y x) (at level 70, no associativity, only parsing) : dbl_scope.
Notation "x !=? y" := (negb (deqb x y)) (at level 70, no associativity) : dbl_scope.

(** The result of a call: it returns, it stops in [abort()] (a failed
    [g_assert]), or the model ran out of the fuel that bounds a loop or a
    recursion the source does not bound syntactically. *)
Inductive res (A : Type) : Type :=
| Ret (a : A)
| Abort
| OutOfFuel.
Arguments Ret {A} a.
Arguments Abort {A}.
Arguments OutOfFuel {A}.

Definition bind {A B : Type} (m : res A) (k : A -> res B) : res B :=
  match m with
  | Ret a => k a
  | Abort => Abort
  | OutOfFuel => OutOfFuel
  end.

Notation "x <- m ;; k" := (bind m (fun x => k))
  (at level 61, m at next level, right associativity).
Notation "' p <- m ;; k" := (bind m (fun x => let p := x in k))
  (at level 61, p pattern, m at next level, right associativity).
Notation "'g_assert' b ;; k" := (if b then k else Abort)
  (at level 61, b at next level, right associativity).

(** Arrays are lists; [upd] is the assignment [a[i] = v] (inside the array). *)
Fixpoint upd {A : Type} (i : nat) (v : A) (l : list A) : list A :=
  match l, i with
  | [], _ => []
  | _ :: t, O => v :: t
  | h :: t, S i' => h :: upd i' v t
  end.

Section Beziers.
Context {AR : Arith}.

(** A decimal literal of the source: the double nearest to the rational. *)
Definition dlit (q : Q) : double := (of_Z (Qnum q) / of_Z (Zpos (Qden q)))%D.
Definition d0 : double := of_Z 0.
Definition d1 : double := of_Z 1.

(** *** QPointF *)

Record QPointF : Type := mkPoint { px : double; py : double }.

Definition pt_add (a b : QPointF) := mkPoint (px a + px b)%D (py a + py b)%D.
Definition pt_sub (a b : QPointF) := mkPoint (px a - px b)%D (py a - py b)%D.
Definition pt_neg (a : QPointF) := mkPoint (- px a)%D (- py a)%D.
Definition pt_mul (c : double) (p : QPointF) := mkPoint (px p * c)%D (py p * c)%D.
Definition pt_div (p : QPointF) (c : double) := mkPoint (px p / c)%D (py p / c)%D.

(** Modelled from the spec: QPointF belongs to Qt and is not in the
    repository; its equality is taken coordinate by coordinate. *)
Definition pt_eqb (a b : QPointF) : bool := (px a =? px b)%D && (py a =? py b)%D.
Definition pt_neqb (a b : QPointF) : bool := negb (pt_eqb a b).
Definition isNull (p : QPointF) : bool := (px p =? d0)%D && (py p =? d0)%D.

Definition pt0 : QPointF := mkPoint d0 d0.
Definition at_ (d : list QPointF) (i : nat) : QPointF := nth i d pt0.
Definition uat (u : list double) (i : nat) : double := nth i u d0.

Definition is_zero (pt : QPointF) : bool := isNull pt.

Definition unit_vector (pt : QPointF) : QPointF :=
  let mag := dsqrt (px pt * px pt + py pt * py pt)%D in
  pt_div pt mag.

Definition dot (a b : QPointF) : double := (px a * px b + py a * py b)%D.

Definition L2 (p : QPointF) : double := hypot (px p) (py p).

Definition rot90 (p : QPointF) : QPointF := mkPoint (- py p)%D (px p).

Definition unconstrained_tangent : QPointF := mkPoint d0 d0.

Definition B0 (u : double) : double := ((d1 - u) * (d1 - u) * (d1 - u))%D.
Definition B1 (u : double) : double := (of_Z 3 * u * (d1 - u) * (d1 - u))%D.
Definition B2 (u : double) : double := (of_Z 3 * u * u * (d1 - u))%D.
Definition B3 (u : double) : double := (u * u * u)%D.

Definition lensq (p : QPointF) : double := dot p p.

(** *** bezier_pt *)

Definition pascal (degree i : nat) : Z :=
  nth i (nth degree [[1]; [1; 1]; [1; 2; 1]; [1; 3; 3; 1]] [])%Z 0%Z.

(** [spow[k]] of the source: [spow[0] = 1.0], [spow[1] = s],
    [spow[i + 1] = spow[i] * s]. *)
Fixpoint dpow (s : double) (k : nat) : double :=
  match k with
  | O => d1
  | S k' => match k' with O => s | S _ => (dpow s k' * s)%D end
  end.

Definition bezier_pt (degree : nat) (V : list QPointF) (t : double) : res QPointF :=
  g_assert (degree <? 4)%nat ;;
  let s := (d1 - t)%D in
  let ret := pt_mul (dpow s degree) (at_ V 0) in
  Ret (fold_left
         (fun ret i =>
            pt_add ret (pt_mul (of_Z (pascal degree i) * dpow s (degree - i) * dpow t i)%D
                               (at_ V i)))
         (seq 1 degree) ret).

(** *** Tangents at the ends and at a split point *)

Definition sp_darray_left_tangent (d : list QPointF) (len : nat) : res QPointF :=
  g_assert (2 <=? len)%nat ;;
  g_assert (pt_neqb (at_ d 0) (at_ d 1)) ;;
  Ret (unit_vector (pt_sub (at_ d 1) (at_ d 0))).

Definition sp_darray_right_tangent (d : list QPointF) (len : nat) : res QPointF :=
  g_assert (2 <=? len)%nat ;;
  let last := (len - 1)%nat in
  let prev := (last - 1)%nat in
  g_assert (pt_neqb (at_ d last) (at_ d prev)) ;;
  Ret (unit_vector (pt_sub (at_ d prev) (at_ d last))).

(** The loop [for (unsigned i = 1;;)] of the three-argument
    [sp_darray_left_tangent]; it leaves when [i] reaches [len]. *)
Fixpoint left_tangent_loop (fuel : nat) (d : list QPointF) (len : nat)
         (tolerance_sq : double) (i : nat) : res QPointF :=
  match fuel with
  | O => OutOfFuel
  | S fuel' =>
      let pi := at_ d i in
      let t := pt_sub pi (at_ d 0) in
      let distsq := dot t t in
      if (tolerance_sq <? distsq)%D then Ret (unit_vector t)
      else
        let i := S i in
        if (i =? len)%nat then
          (if (distsq =? d0)%D then sp_darray_left_tangent d len
           else Ret (unit_vector t))
        else left_tangent_loop fuel' d len tolerance_sq i
  end.

Definition sp_darray_left_tangent_tol (d : list QPointF) (len : nat)
           (tolerance_sq : double) : res QPointF :=
  g_assert (2 <=? len)%nat ;;
  g_assert (d0 <=? tolerance_sq)%D ;;
  left_tangent_loop len d len tolerance_sq 1.

(** The loop [for (unsigned i = last - 1;; i--)]; it leaves at [i == 0]. *)
Fixpoint right_tangent_loop (fuel : nat) (d : list QPointF) (len : nat)
         (tolerance_sq : double) (i : nat) : res QPointF :=
  match fuel with
  | O => OutOfFuel
  | S fuel' =>
      let last := (len - 1)%nat in
      let pi := at_ d i in
      let t := pt_sub pi (at_ d last) in
      let distsq := dot t t in
      if (tolerance_sq <? distsq)%D then Ret (unit_vector t)
      else if (i =? 0)%nat then
        (if (distsq =? d0)%D then sp_darray_right_tangent d len
         else Ret (unit_vector t))
      else right_tangent_loop fuel' d len tolerance_sq (i - 1)%nat
  end.

Definition sp_darray_right_tangent_tol (d : list QPointF) (len : nat)
           (tolerance_sq : double) : res QPointF :=
  g_assert (2 <=? len)%nat ;;
  g_assert (d0 <=? tolerance_sq)%D ;;
  let last := (len - 1)%nat in
  right_tangent_loop len d len tolerance_sq (last - 1)%nat.

(** [len] is [unsigned] in the source; its only caller passes [len >= 3],
    where [len - 1] does not wrap. *)
Definition sp_darray_center_tangent (d : list QPointF) (center len : nat) : res QPointF :=
  g_assert (negb (center =? 0)%nat) ;;
  g_assert (center <? len - 1)%nat ;;
  let ret :=
    if pt_eqb (at_ d (center + 1)) (at_ d (center - 1)) then
      let diff := pt_sub (at_ d center) (at_ d (center - 1)) in
      rot90 diff
    else pt_sub (at_ d (center - 1)) (at_ d (center + 1)) in
  Ret (unit_vector ret).

(** *** chord_length_parameterize

    The diagnostic printed when [u[len - 1]] is off by more than [1e-13]
    has no effect on the result and is left out. *)
Definition chord_length_parameterize (d : list QPointF) (u : list double) (len : nat)
  : list double :=
  if negb (2 <=? len)%nat then u
  else
    let u := upd 0 d0 u in
    let u :=
      fold_left
        (fun u i =>
           let dist := L2 (pt_sub (at_ d i) (at_ d (i - 1))) in
           upd i (uat u (i - 1) + dist)%D u)
        (seq 1 (len - 1)) u in
    let tot_len := uat u (len - 1) in
    if (tot_len =? d0)%D then u
    else
      let u :=
        if isFinite tot_len then
          fold_left (fun u i => upd i (uat u i / tot_len)%D u) (seq 1 (len - 1)) u
        else
          fold_left
            (fun u i => upd i (of_Z (Z.of_nat i) / of_Z (Z.of_nat (len - 1)))%D u)
            (seq 1 (len - 1)) u in
      if (uat u (len - 1) !=? d1)%D then upd (len - 1) d1 u else u.

(** *** estimate_lengths, estimate_bi, generate_bezier

    [bezier] is the window [bezier[0..3]] of the output buffer. *)

Record lsq : Type := mkLsq {
  C00 : double; C01 : double; C10 : double; C11 : double;
  X0 : double; X1 : double
}.

Definition estimate_lengths (bezier : list QPointF) (data : list QPointF)
           (uPrime : list double) (len : nat) (tHat1 tHat2 : QPointF) : list QPointF :=
  let bezier := upd 0 (at_ data 0) bezier in
  let bezier := upd 3 (at_ data (len - 1)) bezier in
  let cx :=
    fold_left
      (fun cx i =>
         let b0 := B0 (uat uPrime i) in
         let b1 := B1 (uat uPrime i) in
         let b2 := B2 (uat uPrime i) in
         let b3 := B3 (uat uPrime i) in
         let a1 := pt_mul b1 tHat1 in
         let a2 := pt_mul b2 tHat2 in
         let c00 := (C00 cx + dot a1 a1)%D in
         let c01 := (C01 cx + dot a1 a2)%D in
         let c10 := c01 in
         let c11 := (C11 cx + dot a2 a2)%D in
         let shortfall :=
           pt_sub (pt_sub (at_ data i) (pt_mul (b0 + b1)%D (at_ bezier 0)))
                  (pt_mul (b2 + b3)%D (at_ bezier 3)) in
         mkLsq c00 c01 c10 c11
               (X0 cx + dot a1 shortfall)%D (X1 cx + dot a2 shortfall)%D)
      (seq 0 len) (mkLsq d0 d0 d0 d0 d0 d0) in
  let det_C0_C1 := (C00 cx * C11 cx - C10 cx * C01 cx)%D in
  let '(alpha_l, alpha_r) :=
    if (det_C0_C1 !=? d0)%D then
      let det_C0_X := (C00 cx * X1 cx - C01 cx * X0 cx)%D in
      let det_X_C1 := (X0 cx * C11 cx - X1 cx * C01 cx)%D in
      ((det_X_C1 / det_C0_C1)%D, (det_C0_X / det_C0_C1)%D)
    else
      let c0 := (C00 cx + C01 cx)%D in
      if (c0 !=? d0)%D then ((X0 cx / c0)%D, (X0 cx / c0)%D)
      else
        let c1 := (C10 cx + C11 cx)%D in
        if (c1 !=? d0)%D then ((X1 cx / c1)%D, (X1 cx / c1)%D)
        else (d0, d0) in
  let '(alpha_l, alpha_r) :=
    if (alpha_l <? dlit 1.0e-6)%D || (alpha_r <? dlit 1.0e-6)%D then
      let a := (L2 (pt_sub (at_ data (len - 1)) (at_ data 0)) * (d1 / of_Z 3))%D in
      (a, a)
    else (alpha_l, alpha_r) in
  let bezier := upd 1 (pt_add (pt_mul alpha_l tHat1) (at_ bezier 0)) bezier in
  let bezier := upd 2 (pt_add (pt_mul alpha_r tHat2) (at_ bezier 3)) bezier in
  bezier.

Definition estimate_bi (bezier : list QPointF) (ei : nat) (data : list QPointF)
           (u : list double) (len : nat) : list QPointF :=
  if negb ((1 <=? ei)%nat && (ei <=? 2)%nat) then bezier
  else
    let oi := (3 - ei)%nat in
    let '(num, den) :=
      fold_left
        (fun '(num, den) i =>
           let ui := uat u i in
           let b := [B0 ui; B1 ui; B2 ui; B3 ui] in
           let numx :=
             (px num + uat b ei * (uat b 0 * px (at_ bezier 0)
                                   + uat b oi * px (at_ bezier 0)
                                   + uat b 3 * px (at_ bezier 3)
                                   + - px (at_ data i)))%D in
           let numy :=
             (py num + uat b ei * (uat b 0 * py (at_ bezier 0)
                                   + uat b oi * py (at_ bezier 0)
                                   + uat b 3 * py (at_ bezier 3)
                                   + - py (at_ data i)))%D in
           (mkPoint numx numy, (den - uat b ei * uat b ei)%D))
        (seq 0 len) (mkPoint d0 d0, d0) in
    if (den !=? d0)%D then upd ei (pt_div num den) bezier
    else
      upd ei (pt_mul (d1 / of_Z 3)%D
                     (pt_add (pt_mul (of_Z (Z.of_nat oi)) (at_ bezier 0))
                             (pt_mul (of_Z (Z.of_nat ei)) (at_ bezier 3))))
          bezier.

Definition generate_bezier (bezier : list QPointF) (data : list QPointF)
           (u : list double) (len : nat) (tHat1 tHat2 : QPointF)
           (tolerance_sq : double) : res (list QPointF) :=
  let est1 := is_zero tHat1 in
  let est2 := is_zero tHat2 in
  est_tHat1 <- (if est1 then sp_darray_left_tangent_tol data len tolerance_sq
                else Ret tHat1) ;;
  est_tHat2 <- (if est2 then sp_darray_right_tangent_tol data len tolerance_sq
                else Ret tHat2) ;;
  let bezier := estimate_lengths bezier data u len est_tHat1 est_tHat2 in
  if est1 then
    let bezier := estimate_bi bezier 1 data u len in
    let est_tHat1 :=
      if pt_neqb (at_ bezier 1) (at_ bezier 0)
      then unit_vector (pt_sub (at_ bezier 1) (at_ bezier 0))
      else est_tHat1 in
    Ret (estimate_lengths bezier data u len est_tHat1 est_tHat2)
  else Ret bezier.

(** *** NewtonRaphsonRootFind, reparameterize *)

(** The loop [for (double proportion = .125; ; proportion += .125)]. *)
Fixpoint nr_blend (fuel : nat) (Q : list QPointF) (P : QPointF) (u diff_lensq : double)
         (proportion improved_u : double) : res double :=
  match fuel with
  | O => OutOfFuel
  | S fuel' =>
      q <- bezier_pt 3 Q improved_u ;;
      if (lensq (pt_sub q P) >? diff_lensq)%D then
        if (proportion >? d1)%D then Ret u
        else
          let improved_u := ((d1 - proportion) * improved_u + proportion * u)%D in
          nr_blend fuel' Q P u diff_lensq (proportion + dlit 0.125)%D improved_u
      else Ret improved_u
  end.

(** The value of [proportion] after [k] rounds of the loop. *)
Definition proportion (k : nat) : double :=
  Nat.iter k (fun p => (p + dlit 0.125)%D) (dlit 0.125).

(** Rounds the blending loop may take before the model stops; the loop
    leaves at the latest in the round where [proportion > 1.0]. *)
Definition nr_fuel : nat := 16.

(** [improved_u] as the Newton-Raphson step, or the arbitrary move in the
    right direction, leaves it: before it is checked and clamped. *)
Definition newton_step (u numerator denominator : double) : double :=
  if (denominator >? d0)%D then (u - numerator / denominator)%D
  else if (numerator >? d0)%D then (u * dlit 0.98 - dlit 0.01)%D
  else if (numerator <? d0)%D then (dlit 0.031 + u * dlit 0.98)%D
  else u.

Definition NewtonRaphsonRootFind (Q : list QPointF) (P : QPointF) (u : double)
  : res double :=
  g_assert (d0 <=? u)%D ;;
  g_assert (u <=? d1)%D ;;
  let Q1 := map (fun i => pt_mul (of_Z 3) (pt_sub (at_ Q (i + 1)) (at_ Q i))) (seq 0 3) in
  let Q2 := map (fun i => pt_mul (of_Z 2) (pt_sub (at_ Q1 (i + 1)) (at_ Q1 i))) (seq 0 2) in
  Q_u <- bezier_pt 3 Q u ;;
  Q1_u <- bezier_pt 2 Q1 u ;;
  Q2_u <- bezier_pt 1 Q2 u ;;
  let diff := pt_sub Q_u P in
  let numerator := dot diff Q1_u in
  let denominator := (dot Q1_u Q1_u + dot diff Q2_u)%D in
  let improved_u := newton_step u numerator denominator in
  let improved_u :=
    if negb (isFinite improved_u) then u
    else if (improved_u <? d0)%D then d0
    else if (improved_u >? d1)%D then d1
    else improved_u in
  let diff_lensq := lensq diff in
  nr_blend nr_fuel Q P u diff_lensq (dlit 0.125) improved_u.

Definition reparameterize (d : list QPointF) (len : nat) (u : list double)
           (bezCurve : list QPointF) : res (list double) :=
  g_assert (2 <=? len)%nat ;;
  let last := (len - 1)%nat in
  g_assert (pt_eqb (at_ bezCurve 0) (at_ d 0)) ;;
  g_assert (pt_eqb (at_ bezCurve 3) (at_ d last)) ;;
  g_assert (uat u 0 =? d0)%D ;;
  g_assert (uat u last =? d1)%D ;;
  fold_left
    (fun ru i => u <- ru ;;
                 ui <- NewtonRaphsonRootFind bezCurve (at_ d i) (uat u i) ;;
                 Ret (upd i ui u))
    (seq 1 (last - 1)) (Ret u).

(** *** compute_hook, compute_max_error_ratio *)

Definition compute_hook (a b : QPointF) (u : double) (bezCurve : list QPointF)
           (tolerance : double) : res double :=
  P <- bezier_pt 3 bezCurve u ;;
  let diff := pt_sub (pt_mul (dlit 0.5) (pt_add a b)) P in
  let dist := L2 diff in
  if (dist <? tolerance)%D then Ret d0
  else
    let allowed := (L2 (pt_sub b a) * dlit 0.2 + tolerance)%D in
    Ret (dist / allowed)%D.

(** The variables of the loop of [compute_max_error_ratio].  [splitPoint]
    is the caller's [unsigned], [None] as long as nothing was stored in it. *)
Record mer_state : Type := mkMer {
  maxDistsq : double;
  max_hook_ratio : double;
  snap_end : nat;
  prev : QPointF;
  splitPoint : option nat
}.

Definition mer_step (d : list QPointF) (u : list double) (bezCurve : list QPointF)
           (tolerance : double) (st : mer_state) (i : nat) : res mer_state :=
  curr <- bezier_pt 3 bezCurve (uat u i) ;;
  let distsq := lensq (pt_sub curr (at_ d i)) in
  let '(maxDistsq', splitPoint') :=
    if (distsq >? maxDistsq st)%D then (distsq, Some i)
    else (maxDistsq st, splitPoint st) in
  hook_ratio <- compute_hook (prev st) curr (dlit 0.5 * (uat u (i - 1) + uat u i))%D
                             bezCurve tolerance ;;
  let '(max_hook_ratio', snap_end') :=
    if (max_hook_ratio st <? hook_ratio)%D then (hook_ratio, i)
    else (max_hook_ratio st, snap_end st) in
  Ret (mkMer maxDistsq' max_hook_ratio' snap_end' curr splitPoint').

Definition mer_loop (d : list QPointF) (u : list double) (bezCurve : list QPointF)
           (tolerance : double) (l : list nat) (st : mer_state) : res mer_state :=
  fold_left (fun rst i => st <- rst ;; mer_step d u bezCurve tolerance st i) l (Ret st).

(** [compute_max_error_ratio] up to its last assertion: the value [ret] and
    what is then in [*splitPoint]. *)
Definition mer_result (d : list QPointF) (u : list double) (len : nat)
           (bezCurve : list QPointF) (tolerance : double) (splitPoint0 : option nat)
  : res (double * option nat) :=
  g_assert (2 <=? len)%nat ;;
  let last := (len - 1)%nat in
  g_assert (pt_eqb (at_ bezCurve 0) (at_ d 0)) ;;
  g_assert (pt_eqb (at_ bezCurve 3) (at_ d last)) ;;
  g_assert (uat u 0 =? d0)%D ;;
  g_assert (uat u last =? d1)%D ;;
  st <- mer_loop d u bezCurve tolerance (seq 1 last)
                 (mkMer d0 d0 0 (at_ bezCurve 0) splitPoint0) ;;
  let dist_ratio := (dsqrt (maxDistsq st) / tolerance)%D in
  if (max_hook_ratio st <=? dist_ratio)%D then Ret (dist_ratio, splitPoint st)
  else
    g_assert (0 <? snap_end st)%nat ;;
    Ret ((- max_hook_ratio st)%D, Some (snap_end st - 1)%nat).

(** The condition of the last assertion,
    [ret == 0.0 || (( *splitPoint < last) && ( *splitPoint != 0 || ret < 0.))].
    Reading [*splitPoint] before anything was stored in it is undefined in
    C; the model lets the assertion fail. *)
Definition mer_post (last : nat) (ret : double) (sp : option nat) : bool :=
  (ret =? d0)%D
  || match sp with
     | Some s => (s <? last)%nat && (negb (s =? 0)%nat || (ret <? d0)%D)
     | None => false
     end.

Definition compute_max_error_ratio (d : list QPointF) (u : list double) (len : nat)
           (bezCurve : list QPointF) (tolerance : double) (splitPoint0 : option nat)
  : res (double * option nat) :=
  ' (ret, sp) <- mer_result d u len bezCurve tolerance splitPoint0 ;;
  g_assert (mer_post (len - 1) ret sp) ;;
  Ret (ret, sp).

(** *** copy_without_nans_or_adjacent_duplicates *)

(** The first loop, [for (;;)]: it looks at [src[si]] until it finds a point
    without NaN; the source does not advance [si] when the point has one. *)
Fixpoint copy_first (fuel : nat) (src : list QPointF) (src_len si : nat)
  : res (option nat) :=
  match fuel with
  | O => OutOfFuel
  | S fuel' =>
      if (si =? src_len)%nat then Ret None
      else if negb (isNaN (px (at_ src si))) && negb (isNaN (py (at_ src si)))
      then Ret (Some si)
      else copy_first fuel' src src_len si
  end.

(** The body of the second loop, [for (; si < src_len; ++si)]. *)
Definition copy_step (src : list QPointF) (acc : nat * list QPointF) (si : nat)
  : nat * list QPointF :=
  let '(di, dest) := acc in
  let src_pt := at_ src si in
  if pt_neqb src_pt (at_ dest di)
     && negb (isNaN (px src_pt)) && negb (isNaN (py src_pt))
  then (S di, upd (S di) src_pt dest)
  else (di, dest).

Definition copy_without_nans_or_adjacent_duplicates (fuel : nat) (src : list QPointF)
           (src_len : nat) (dest : list QPointF) : res (nat * list QPointF) :=
  found <- copy_first fuel src src_len 0 ;;
  match found with
  | None => Ret (0%nat, dest)
  | Some si =>
      let dest := upd 0 (at_ src si) dest in
      let si := S si in
      let '(di, dest) := fold_left (copy_step src) (seq si (src_len - si)) (0%nat, dest) in
      let dest_len := (di + 1)%nat in
      g_assert (dest_len <=? src_len)%nat ;;
      Ret (dest_len, dest)
  end.

(** *** The fitting driver

    The caller's output arrays: [bez] is the array behind [bezier],
    [splits] the one behind [split_points].  A pointer into one of them is
    an offset, [None] for [NULL]; [data + k] is [skipn k data]. *)
Record store : Type := mkStore { bez : list QPointF; splits : list Z }.

Definition load4 (st : store) (b : nat) : list QPointF := firstn 4 (skipn b (bez st)).

Definition store4 (st : store) (b : nat) (c : list QPointF) : store :=
  mkStore (upd (b + 3) (at_ c 3)
            (upd (b + 2) (at_ c 2) (upd (b + 1) (at_ c 1) (upd b (at_ c 0) (bez st)))))
          (splits st).

Definition store_split (st : store) (split_points : option nat) (i : nat) (v : Z) : store :=
  match split_points with
  | None => st
  | Some sp => mkStore (bez st) (upd (sp + i) v (splits st))
  end.

(** [unsigned] is 32 bits wide. *)
Definition u32 (z : Z) : Z := (z mod 2 ^ 32)%Z.

Definition maxIterations : nat := 4.

(** What the attempts at one segment end in: the segment is accepted, or
    the last error ratio and split point are handed to the recursion. *)
Inductive attempt : Type :=
| Accepted (bezier : list QPointF)
| Rejected (bezier : list QPointF) (maxErrorRatio : double) (splitPoint : option nat).

(** The loop [for (int i = 0; i < maxIterations; i++)]. *)
Fixpoint iterate (k : nat) (data : list QPointF) (len : nat) (tHat1 tHat2 : QPointF)
         (error tolerance : double) (bezier : list QPointF) (u : list double)
         (maxErrorRatio : double) (splitPoint : option nat) : res attempt :=
  match k with
  | O => Ret (Rejected bezier maxErrorRatio splitPoint)
  | S k' =>
      bezier <- generate_bezier bezier data u len tHat1 tHat2 error ;;
      u <- reparameterize data len u bezier ;;
      ' (maxErrorRatio, splitPoint) <-
        compute_max_error_ratio data u len bezier tolerance splitPoint ;;
      if (fabs maxErrorRatio <=? d1)%D then Ret (Accepted bezier)
      else iterate k' data len tHat1 tHat2 error tolerance bezier u maxErrorRatio splitPoint
  end.

(** "Parameterize points, and attempt to fit curve": the block between the
    two-point case and the corner handling.  [None] is the early [return 0]
    of a zero-length path. *)
Definition fit_attempts (bezier : list QPointF) (data : list QPointF) (len : nat)
           (tHat1 tHat2 : QPointF) (error : double) : res (option attempt) :=
  let u := repeat d0 len in
  let u := chord_length_parameterize data u len in
  if (uat u (len - 1) =? d0)%D then Ret None
  else
    bezier <- generate_bezier bezier data u len tHat1 tHat2 error ;;
    u <- reparameterize data len u bezier ;;
    let tolerance := dsqrt (error + dlit 1e-9)%D in
    ' (maxErrorRatio, splitPoint) <-
      compute_max_error_ratio data u len bezier tolerance None ;;
    if (fabs maxErrorRatio <=? d1)%D then Ret (Some (Accepted bezier))
    else if (d0 <=? maxErrorRatio)%D && (maxErrorRatio <=? of_Z 3)%D then
      a <- iterate maxIterations data len tHat1 tHat2 error tolerance bezier u
                   maxErrorRatio splitPoint ;;
      Ret (Some a)
    else Ret (Some (Rejected bezier maxErrorRatio splitPoint)).

(** The two-point case. *)
Definition fit_two_points (bezier : list QPointF) (data : list QPointF) (len : nat)
           (tHat1 tHat2 : QPointF) : list QPointF :=
  let bezier := upd 0 (at_ data 0) bezier in
  let bezier := upd 3 (at_ data (len - 1)) bezier in
  let dist := (L2 (pt_sub (at_ data (len - 1)) (at_ data 0)) * (d1 / of_Z 3))%D in
  if isNaN dist then
    let bezier := upd 1 (at_ bezier 0) bezier in
    upd 2 (at_ bezier 3) bezier
  else
    let bezier :=
      upd 1 (if is_zero tHat1
             then pt_mul (d1 / of_Z 3)%D
                         (pt_add (pt_mul (of_Z 2) (at_ bezier 0)) (at_ bezier 3))
             else pt_add (at_ bezier 0) (pt_mul dist tHat1)) bezier in
    upd 2 (if is_zero tHat2
           then pt_mul (d1 / of_Z 3)%D
                       (pt_add (at_ bezier 0) (pt_mul (of_Z 2) (at_ bezier 3)))
           else pt_add (at_ bezier 3) (pt_mul dist tHat2)) bezier.

(** The block [if (is_corner) { ... }]: it moves a corner off the ends of
    the range, or makes the call return what a retry with that end's tangent
    unconstrained returns. *)
Inductive corner_action : Type :=
| Proceed (splitPoint : option nat)
| RetryLeft
| RetryRight
| AssertionFailed.

(** [g_assert(splitPoint < unsigned(len))] reads [splitPoint]; while
    nothing was stored in it that is undefined in C, and the model lets the
    assertion fail. *)
Definition corner_block (is_corner : bool) (splitPoint : option nat) (n : nat)
           (tHat1 tHat2 : QPointF) : corner_action :=
  if is_corner then
    match splitPoint with
    | None => AssertionFailed
    | Some s =>
        if negb (s <? n)%nat then AssertionFailed
        else if (s =? 0)%nat then
          if is_zero tHat1 then Proceed (Some (S s)) else RetryLeft
        else if (s =? n - 1)%nat then
          if is_zero tHat2 then Proceed (Some (s - 1)%nat) else RetryRight
        else Proceed (Some s)
    end
  else Proceed splitPoint.

(** The block [if ( 1 < max_beziers ) { ... } else { return -1; }]: split at
    [splitPoint] and fit the two halves; [self] is the function itself.
    Reading a [splitPoint] in which nothing was stored makes the model stop. *)
Definition split_block
           (self : store -> option nat -> option nat -> option (list QPointF) -> Z ->
                   QPointF -> QPointF -> double -> Z -> res (Z * store))
           (st : store) (b : nat) (split_points : option nat) (d : list QPointF) (len : Z)
           (tHat1 tHat2 : QPointF) (error : double) (max_beziers : Z)
           (is_corner : bool) (splitPoint : option nat) : res (Z * store) :=
  let n := Z.to_nat len in
  if (1 <? max_beziers)%Z then
    let rec_max_beziers1 := u32 (max_beziers - 1) in
    match splitPoint with
    | None => Abort
    | Some s =>
        if is_corner && negb ((0 <? s)%nat && (s <? n - 1)%nat) then Ret ((-1)%Z, st)
        else
          recTHat2 <- (if is_corner then Ret unconstrained_tangent
                       else sp_darray_center_tangent d s n) ;;
          let recTHat1 := if is_corner then unconstrained_tangent else pt_neg recTHat2 in
          ' (nsegs1, st) <- self st (Some b) split_points (Some d) (Z.of_nat s + 1)%Z
                                 tHat1 recTHat2 error rec_max_beziers1 ;;
          if (nsegs1 <? 0)%Z then Ret ((-1)%Z, st)
          else
            g_assert (negb (nsegs1 =? 0)%Z) ;;
            let st := store_split st split_points (Z.to_nat (nsegs1 - 1)) (Z.of_nat s) in
            let rec_max_beziers2 := u32 (max_beziers - nsegs1) in
            ' (nsegs2, st) <- self st (Some (b + Z.to_nat nsegs1 * 4)%nat)
                                   (option_map (fun sp => (sp + Z.to_nat nsegs1)%nat)
                                               split_points)
                                   (Some (skipn s d)) (len - Z.of_nat s)%Z
                                   recTHat1 tHat2 error rec_max_beziers2 ;;
            if (nsegs2 <? 0)%Z then Ret ((-1)%Z, st)
            else Ret ((nsegs1 + nsegs2)%Z, st)
    end
  else Ret ((-1)%Z, st).

(** [fuel] bounds the depth of the recursion: every recursive call, a retry
    with an unconstrained end tangent as well as a call on a half, runs on
    one unit less. *)
Fixpoint sp_bezier_fit_cubic_full (fuel : nat) (st : store)
         (bezier split_points : option nat) (data : option (list QPointF)) (len : Z)
         (tHat1 tHat2 : QPointF) (error : double) (max_beziers : Z)
  : res (Z * store) :=
  match fuel with
  | O => OutOfFuel
  | S fuel' =>
  match bezier, data with
  | None, _ => Ret ((-1)%Z, st)
  | _, None => Ret ((-1)%Z, st)
  | Some b, Some d =>
  if negb (0 <? len)%Z then Ret ((-1)%Z, st)
  else if negb (1 <=? max_beziers)%Z then Ret ((-1)%Z, st)
  else if negb (error >=? d0)%D then Ret ((-1)%Z, st)
  else if (len <? 2)%Z then Ret (0%Z, st)
  else
  let n := Z.to_nat len in
  if (len =? 2)%Z then
    Ret (1%Z, store4 st b (fit_two_points (load4 st b) d n tHat1 tHat2))
  else
  a <- fit_attempts (load4 st b) d n tHat1 tHat2 error ;;
  match a with
  | None => Ret (0%Z, st)
  | Some (Accepted bz) => Ret (1%Z, store4 st b bz)
  | Some (Rejected bz maxErrorRatio splitPoint) =>
      let st := store4 st b bz in
      let is_corner := (maxErrorRatio <? d0)%D in
      match corner_block is_corner splitPoint n tHat1 tHat2 with
      | AssertionFailed => Abort
      | RetryLeft =>
          sp_bezier_fit_cubic_full fuel' st bezier split_points data len
                                   unconstrained_tangent tHat2 error max_beziers
      | RetryRight =>
          sp_bezier_fit_cubic_full fuel' st bezier split_points data len
                                   tHat1 unconstrained_tangent error max_beziers
      | Proceed splitPoint =>
          split_block (sp_bezier_fit_cubic_full fuel') st b split_points d len
                      tHat1 tHat2 error max_beziers is_corner splitPoint
      end
  end
  end
  end.

(** [fuel] also bounds the first loop of the sanitation. *)
Definition sp_bezier_fit_cubic_r (fuel : nat) (st : store) (bezier : option nat)
           (data : option (list QPointF)) (len : Z) (error : double) (max_beziers : Z)
  : res (Z * store) :=
  match bezier, data with
  | None, _ => Ret ((-1)%Z, st)
  | _, None => Ret ((-1)%Z, st)
  | Some _, Some d =>
  if negb (0 <? len)%Z then Ret ((-1)%Z, st)
  else if negb (max_beziers <? Z.shiftl 1 (31 - 2 - 1 - 3))%Z then Ret ((-1)%Z, st)
  else
    let uniqued_data := repeat pt0 (Z.to_nat len) in
    ' (uniqued_len, uniqued_data) <-
      copy_without_nans_or_adjacent_duplicates fuel d (Z.to_nat len) uniqued_data ;;
    if (uniqued_len <? 2)%nat then Ret (0%Z, st)
    else
      sp_bezier_fit_cubic_full fuel st bezier None (Some uniqued_data)
                               (Z.of_nat uniqued_len)
                               unconstrained_tangent unconstrained_tangent
                               error max_beziers
  end.

Definition sp_bezier_fit_cubic (fuel : nat) (st : store) (bezier : option nat)
           (data : option (list QPointF)) (len : Z) (error : double)
  : res (Z * store) :=
  sp_bezier_fit_cubic_r fuel st bezier data len error 1.

End Beziers.

(** ** Facts of the arithmetic the proofs rely on

    Each holds of IEEE-754 arithmetic; [Binary64_laws] proves them of
    [Binary64] from the specification of the kernel's operations. *)

(** [x] is a zero or a NaN. *)
Definition zn {AR : Arith} (x : double) : Prop := (x =? d0)%D = true \/ isNaN x = true.

(** [c == x], or [c] is a NaN. *)
Definition eq_or_nan {AR : Arith} (c x : double) : Prop :=
  (c =? x)%D = true \/ isNaN c = true.

Class ArithLaws (AR : Arith) : Prop := {
  (* constants *)
  zero_eq_zero : (d0 =? d0)%D = true;
  zero_le_zero : (d0 <=? d0)%D = true;
  sqrt_zero : dsqrt d0 = d0;
  (* [.125 + .125 + ... + .125], nine times, exceeds [1.0] *)
  proportion_exceeds : (proportion 8 >? d1)%D = true;
  (* the Bernstein weights at [t = 1.0] are 0, 0, 0 and 1 *)
  bernstein_one_0 : dpow (d1 - d1)%D 3 = d0;
  bernstein_one_1 : (of_Z 3 * dpow (d1 - d1)%D 2 * dpow d1 1)%D = d0;
  bernstein_one_2 : (of_Z 3 * dpow (d1 - d1)%D 1 * dpow d1 2)%D = d0;
  bernstein_one_3 : (of_Z 1 * dpow (d1 - d1)%D 0 * dpow d1 3)%D = d1;
  (* order *)
  lt0_not_ge0 : forall x : double, (x <? d0)%D = true -> (d0 <=? x)%D = false;
  le_lt_trans0 : forall m x : double,
      (d0 <=? m)%D = true -> (m <? x)%D = true -> (d0 <=? x)%D = true;
  le_not_nan_r : forall a b : double, (a <=? b)%D = true -> isNaN b = false;
  eq_one_leibniz : forall x : double, (x =? d1)%D = true -> x = d1;
  neg_nonneg : forall h : double,
      (d0 <=? h)%D = true -> ((- h) <? d0)%D = true \/ ((- h) =? d0)%D = true;
  eq0_accepted : forall r : double, (r =? d0)%D = true -> (fabs r <=? d1)%D = true;
  (* zeros and NaNs *)
  mul_zero_r : forall x : double, zn (x * d0)%D;
  mul_zn : forall a b : double, zn a -> zn (a * b)%D;
  add_zn : forall a b : double, zn a -> zn b -> zn (a + b)%D;
  zn_add_l : forall a x : double, zn a -> eq_or_nan (a + x)%D x;
  sub_zn : forall c x y : double, eq_or_nan c x -> (x =? y)%D = true -> zn (c - y)%D;
  div_zero_l : forall t : double, zn (d0 / t)%D;
  zn_not_gt : forall z m : double, zn z -> (d0 <=? m)%D = true -> (m <? z)%D = false;
  (* exact and sign-preserving operations *)
  mul_one_r : forall x : double, (x * d1)%D = x;
  sqrt_nonneg : forall x : double, (d0 <=? x)%D = true -> (d0 <=? dsqrt x)%D = true;
  div_nonneg : forall a t : double,
      (d0 <=? a)%D = true -> (d0 <? t)%D = true -> isFinite t = true ->
      (d0 <=? a / t)%D = true
}.

(** A parameter value of the curve: in [[0.0, 1.0]]. *)
Definition in_unit {AR : Arith} (x : double) : Prop :=
  (d0 <=? x)%D = true /\ (x <=? d1)%D = true.

(** Facts that rest on the rounding of IEEE-754 being monotone: the order of
    the exact results is kept by the rounded ones.  They are proved for
    binary64 below. *)
Class RoundingLaws (AR : Arith) : Prop := {
  zero_le_one : (d0 <=? d1)%D = true;
  one_le_one : (d1 <=? d1)%D = true;
  ltb_irrefl : forall x : double, (x <? x)%D = false;
  lt_neq0 : forall x : double, (d0 <? x)%D = true -> (x =? d0)%D = false;
  finite_not_nan : forall x : double, isFinite x = true -> isNaN x = false;
  not_lt_ge : forall a b : double,
      isNaN a = false -> isNaN b = false -> (a <? b)%D = false -> (b <=? a)%D = true;
  (* [(1 - proportion) * improved_u + proportion * u] for the proportions
     [.125], ..., [1.0] *)
  blend_unit : forall (k : nat) (a u : double),
      (k <= 7)%nat -> in_unit a -> in_unit u ->
      in_unit ((d1 - proportion k) * a + proportion k * u)%D;
  add_finite : forall a b : double,
      isFinite (a + b)%D = true -> isFinite a = true /\ isFinite b = true;
  hypot_nonneg : forall x y : double,
      isFinite (hypot x y) = true -> (d0 <=? hypot x y)%D = true;
  add_nonneg : forall a b : double,
      (d0 <=? a)%D = true -> (d0 <=? b)%D = true -> (d0 <=? a + b)%D = true;
  add_nonneg_le : forall a b : double,
      (d0 <=? a)%D = true -> (d0 <=? b)%D = true -> (a <=? a + b)%D = true;
  div_mono : forall a b t : double,
      (d0 <=? a)%D = true -> (a <=? b)%D = true -> isFinite b = true ->
      (d0 <? t)%D = true -> isFinite t = true ->
      (a / t <=? b / t)%D = true;
  div_le_one : forall a t : double,
      (d0 <=? a)%D = true -> (a <=? t)%D = true ->
      (d0 <? t)%D = true -> isFinite t = true ->
      (a / t <=? d1)%D = true
}.

(** More facts of IEEE-754 arithmetic: the order of the numbers that are
    not NaN, the rounded square root and quotient, and the conversion of
    the integers.  They are proved for binary64 below. *)
Class FitLaws (AR : Arith) : Prop := {
  one_eq_one : (d1 =? d1)%D = true;
  deqb_sym : forall a b : double, (a =? b)%D = (b =? a)%D;
  deqb_refl : forall x : double, isNaN x = false -> (x =? x)%D = true;
  dlt_le : forall a b : double, (a <? b)%D = true -> (a <=? b)%D = true;
  le_trans0 : forall a b c : double,
      (d0 <=? a)%D = true -> (a <=? b)%D = true -> (b <=? c)%D = true ->
      (a <=? c)%D = true;
  le_neq_lt0 : forall x : double,
      (d0 <=? x)%D = true -> (x =? d0)%D = false -> (d0 <? x)%D = true;
  not_le_ge : forall a b : double,
      isNaN a = false -> isNaN b = false -> (a <=? b)%D = false -> (b <=? a)%D = true;
  sum_squares_nonneg : forall x y : double,
      isNaN (x * x + y * y)%D = false -> (d0 <=? x * x + y * y)%D = true;
  sqrt_mono : forall a b : double,
      (d0 <=? a)%D = true -> (a <=? b)%D = true -> (dsqrt a <=? dsqrt b)%D = true;
  div_mono_pos : forall a b t : double,
      (d0 <=? a)%D = true -> (a <=? b)%D = true ->
      (d0 <? t)%D = true -> isFinite t = true ->
      (a / t <=? b / t)%D = true;
  fabs_nonneg_le : forall x c : double,
      (d0 <=? x)%D = true -> (fabs x <=? c)%D = (x <=? c)%D;
  fabs_neg_le : forall h c : double,
      (d0 <=? h)%D = true -> (fabs (- h) <=? c)%D = (h <=? c)%D;
  (* [tolerance = sqrt(error + 1e-9)] *)
  tolerance_pos : forall e : double,
      (d0 <=? e)%D = true -> isFinite e = true ->
      (d0 <? dsqrt (e + dlit 1e-9))%D = true /\ isFinite (dsqrt (e + dlit 1e-9)%D) = true;
  (* [i / (double) (len - 1)] *)
  of_nat_ratio : forall i n : nat,
      (1 <= i <= n)%nat -> (Z.of_nat n < 2 ^ 32)%Z ->
      in_unit (of_Z (Z.of_nat i) / of_Z (Z.of_nat n))%D
}.

(** Facts of IEEE-754 subtraction and addition, and of the C library's
    [hypot], which computes the Euclidean norm "without undue overflow or
    underflow": the difference of two numbers that are not equal is not a
    zero, the norm of a vector with a coordinate that is not a zero is not
    a zero and not negative, and neither is what is added to it along a
    path.  They are proved for binary64, with a [hypot] that scales, below. *)
Class ChordLaws (AR : Arith) : Prop := {
  one_neq_zero : (d1 =? d0)%D = false;
  eq_one_neq_zero : forall x : double, (x =? d1)%D = true -> (x =? d0)%D = false;
  zero_not_neg : (d0 <? d0)%D = false;
  sub_neq : forall x y : double, (x =? y)%D = false -> (x - y =? d0)%D = false;
  hypot_pos : forall x y : double,
      (x =? d0)%D = false \/ (y =? d0)%D = false ->
      (hypot x y =? d0)%D = false /\ (hypot x y <? d0)%D = false;
  add_pos : forall a b : double,
      (a <? d0)%D = false -> (b =? d0)%D = false -> (b <? d0)%D = false ->
      (a + b =? d0)%D = false /\ (a + b <? d0)%D = false
}.

(** ** IEEE-754 binary64 *)

Definition f_of_Z (z : Z) : float :=
  match z with
  | Z0 => PrimFloat.zero
  | Zpos _ => PrimFloat.of_uint63 (Uint63.of_Z z)
  | Zneg p => PrimFloat.opp (PrimFloat.of_uint63 (Uint63.of_Z (Zpos p)))
  end.

(** Modelled from the spec: [hypot] is the C library's and not in the
    repository; it is the Euclidean norm, computed here as the rounded
    square root of the rounded sum of squares. *)
Definition f_hypot (x y : float) : float :=
  PrimFloat.sqrt (PrimFloat.add (PrimFloat.mul x x) (PrimFloat.mul y y)).

Definition Binary64 : Arith := {|
  double := float;
  of_Z := f_of_Z;
  dadd := PrimFloat.add;
  dsub := PrimFloat.sub;
  dmul := PrimFloat.mul;
  ddiv := PrimFloat.div;
  dneg := PrimFloat.opp;
  dsqrt := PrimFloat.sqrt;
  fabs := PrimFloat.abs;
  hypot := f_hypot;
  deqb := PrimFloat.eqb;
  dltb := PrimFloat.ltb;
  dleb := PrimFloat.leb;
  isNaN := PrimFloat.is_nan;
  isFinite := PrimFloat.is_finite
|}.

(** Modelled from the spec: [hypot] is the C library's and not in the
    repository; by the C standard it "computes the square root of the sum of
    the squares of [x] and [y], without undue overflow or underflow", and
    returns the infinity when an argument is infinite.  It is computed here
    by scaling with the larger magnitude, [hi * sqrt (1 + (lo / hi)^2)]. *)
Definition f_hypot_scaled (x y : float) : float :=
  let a := PrimFloat.abs x in
  let b := PrimFloat.abs y in
  if PrimFloat.eqb a PrimFloat.infinity || PrimFloat.eqb b PrimFloat.infinity
  then PrimFloat.infinity
  else if PrimFloat.is_nan a || PrimFloat.is_nan b then PrimFloat.nan
  else
    let hi := if PrimFloat.ltb a b then b else a in
    let lo := if PrimFloat.ltb a b then a else b in
    if PrimFloat.eqb hi PrimFloat.zero then hi
    else
      let r := PrimFloat.div lo hi in
      PrimFloat.mul hi (PrimFloat.sqrt (PrimFloat.add PrimFloat.one (PrimFloat.mul r r))).

(** Binary64 with that [hypot]. *)
Definition Binary64_scaled : Arith := {|
  double := float;
  of_Z := f_of_Z;
  dadd := PrimFloat.add;
  dsub := PrimFloat.sub;
  dmul := PrimFloat.mul;
  ddiv := PrimFloat.div;
  dneg := PrimFloat.opp;
  dsqrt := PrimFloat.sqrt;
  fabs := PrimFloat.abs;
  hypot := f_hypot_scaled;
  deqb := PrimFloat.eqb;
  dltb := PrimFloat.ltb;
  dleb := PrimFloat.leb;
  isNaN := PrimFloat.is_nan;
  isFinite := PrimFloat.is_finite
|}.

(** ** Arrays *)

Lemma length_upd {A : Type} (i : nat) (v : A) (l : list A) :
  length (upd i v l) = length l.
Proof.
  revert i; induction l as [|h t IH]; intros [|i]; simpl; auto.
Qed.

Lemma nth_upd_eq {A : Type} (i : nat) (v dflt : A) (l : list A) :
  (i < length l)%nat -> nth i (upd i v l) dflt = v.
Proof.
  revert i; induction l as [|h t IH]; intros [|i] H; simpl in *; try lia; auto.
  apply IH; lia.
Qed.

Lemma nth_upd_neq {A : Type} (i j : nat) (v dflt : A) (l : list A) :
  i <> j -> nth j (upd i v l) dflt = nth j l dflt.
Proof.
  revert i j; induction l as [|h t IH]; intros [|i] [|j] H; simpl; auto; try lia.
Qed.

Lemma upd_out {A : Type} (i : nat) (v : A) (l : list A) :
  (length l <= i)%nat -> upd i v l = l.
Proof.
  revert i; induction l as [|h t IH]; intros [|i] H; simpl in *; auto; try lia.
  f_equal; apply IH; lia.
Qed.

(** Reads of an array after assignments to it. *)
Ltac upd_simpl :=
  repeat first
    [ rewrite nth_upd_neq by lia
    | rewrite nth_upd_eq by (rewrite ?length_upd; lia) ].

Section Properties.
Context {AR : Arith}.

Lemma bind_Ret {A B : Type} (m : res A) (k : A -> res B) (b : B) :
  bind m k = Ret b -> exists a, m = Ret a /\ k a = Ret b.
Proof.
  destruct m; simpl; intros H; try discriminate; eauto.
Qed.

(** *** The window [bezier[0..3]] *)

Lemma length_load4 (st : store) (b : nat) :
  (b + 4 <= length (bez st))%nat -> length (load4 st b) = 4%nat.
Proof.
  intros H; unfold load4.
  rewrite length_firstn, length_skipn; lia.
Qed.

Lemma length_store4 (st : store) (b : nat) (c : list QPointF) :
  length (bez (store4 st b c)) = length (bez st).
Proof.
  unfold store4; simpl; now rewrite !length_upd.
Qed.

Lemma splits_store4 (st : store) (b : nat) (c : list QPointF) :
  splits (store4 st b c) = splits st.
Proof. reflexivity. Qed.

Lemma store4_at (st : store) (b : nat) (c : list QPointF) (k : nat) :
  (b + 4 <= length (bez st))%nat -> (k < 4)%nat ->
  at_ (bez (store4 st b c)) (b + k) = at_ c k.
Proof.
  intros Hb Hk; unfold store4, at_; simpl.
  destruct k as [|[|[|[|k]]]]; try lia.
  - rewrite Nat.add_0_r, !nth_upd_neq by lia. apply nth_upd_eq; lia.
  - rewrite !nth_upd_neq by lia. apply nth_upd_eq; rewrite length_upd; lia.
  - rewrite !nth_upd_neq by lia. apply nth_upd_eq; rewrite !length_upd; lia.
  - apply nth_upd_eq; rewrite !length_upd; lia.
Qed.

Lemma store4_frame (st : store) (b : nat) (c : list QPointF) (i : nat) :
  (i < b \/ b + 4 <= i)%nat ->
  at_ (bez (store4 st b c)) i = at_ (bez st) i.
Proof.
  intros H; unfold store4, at_; simpl.
  rewrite !nth_upd_neq by lia; reflexivity.
Qed.

(** *** The two-point case *)

Lemma fit_two_points_ends (w d : list QPointF) (len : nat) (tHat1 tHat2 : QPointF) :
  length w = 4%nat ->
  at_ (fit_two_points w d len tHat1 tHat2) 0 = at_ d 0 /\
  at_ (fit_two_points w d len tHat1 tHat2) 3 = at_ d (len - 1).
Proof.
  intros Hw; unfold fit_two_points, at_.
  destruct (isNaN _); split; upd_simpl; reflexivity.
Qed.

Lemma full_two_points (fuel : nat) (st : store) (b : nat) (sp : option nat)
      (d : list QPointF) (tHat1 tHat2 : QPointF) (error : double) (max_beziers : Z) :
  (b + 4 <= length (bez st))%nat ->
  (d0 <=? error)%D = true ->
  (1 <= max_beziers)%Z ->
  exists st',
    sp_bezier_fit_cubic_full (S fuel) st (Some b) sp (Some d) 2 tHat1 tHat2 error max_beziers
    = Ret (1%Z, st')
    /\ at_ (bez st') b = at_ d 0
    /\ at_ (bez st') (b + 3) = at_ d 1
    /\ (forall i, (i < b \/ b + 4 <= i)%nat -> at_ (bez st') i = at_ (bez st) i).
Proof.
  intros Hb He Hm.
  exists (store4 st b (fit_two_points (load4 st b) d 2 tHat1 tHat2)).
  split; [|split; [|split]].
  - simpl. rewrite He. simpl.
    destruct (1 <=? max_beziers)%Z eqn:E; [|apply Z.leb_gt in E; lia].
    reflexivity.
  - pose proof (store4_at st b (fit_two_points (load4 st b) d 2 tHat1 tHat2) 0 Hb) as H.
    rewrite Nat.add_0_r in H. rewrite H by lia.
    apply fit_two_points_ends, length_load4, Hb.
  - rewrite store4_at by lia.
    apply (fit_two_points_ends (load4 st b) d 2), length_load4, Hb.
  - intros i Hi. now apply store4_frame.
Qed.

(** *** Sanitized input *)

Definition no_nan (p : QPointF) : bool := negb (isNaN (px p)) && negb (isNaN (py p)).

(** "data is uniqued, i.e. not exist i: data[i] == data[i + 1]". *)
Fixpoint uniqued (d : list QPointF) : bool :=
  match d with
  | a :: (b :: _) as t => pt_neqb b a && uniqued t
  | _ => true
  end.

Definition sanitized (d : list QPointF) : bool := forallb no_nan d && uniqued d.

Lemma copy_first_found (fuel : nat) (src : list QPointF) (src_len : nat) :
  (0 < src_len)%nat -> no_nan (at_ src 0) = true ->
  copy_first (S fuel) src src_len 0 = Ret (Some 0%nat).
Proof.
  intros Hl Hn; simpl.
  destruct src_len; [lia|]. simpl.
  unfold no_nan in Hn. now rewrite Hn.
Qed.

(** A leading point with a NaN keeps the first loop of the sanitation
    turning on the spot: no amount of fuel lets it return. *)
Lemma copy_first_stuck (fuel : nat) (src : list QPointF) (src_len : nat) :
  (0 < src_len)%nat -> no_nan (at_ src 0) = false ->
  copy_first fuel src src_len 0 = OutOfFuel.
Proof.
  intros Hl Hn; induction fuel as [|fuel IH]; simpl; [reflexivity|].
  destruct src_len; [lia|]. simpl.
  unfold no_nan in Hn. now rewrite Hn.
Qed.

Lemma copy_step_count (src : list QPointF) (l : list nat) (acc : nat * list QPointF) :
  (fst (fold_left (copy_step src) l acc) <= fst acc + length l)%nat.
Proof.
  revert acc; induction l as [|i l IH]; intros [di dest]; simpl; [lia|].
  etransitivity; [apply IH|].
  destruct (_ && _); simpl; lia.
Qed.

Lemma copy_returns (fuel : nat) (src : list QPointF) (src_len : nat) (dest : list QPointF) :
  (0 < src_len)%nat -> no_nan (at_ src 0) = true ->
  exists n dest',
    copy_without_nans_or_adjacent_duplicates (S fuel) src src_len dest = Ret (n, dest')
    /\ (1 <= n <= src_len)%nat.
Proof.
  intros Hl Hn. unfold copy_without_nans_or_adjacent_duplicates.
  rewrite copy_first_found by assumption. cbn [bind].
  pose proof (copy_step_count src (seq 1 (src_len - 1)) (0%nat, upd 0 (at_ src 0) dest)) as Hc.
  destruct (fold_left _ _ _) as [di dest'] eqn:E. simpl in Hc.
  rewrite length_seq in Hc.
  destruct (di + 1 <=? src_len)%nat eqn:E2; [|apply Nat.leb_gt in E2; lia].
  exists (di + 1)%nat, dest'. split; [reflexivity|lia].
Qed.

Lemma copy_two_points (fuel : nat) (p0 p1 : QPointF) :
  sanitized [p0; p1] = true ->
  copy_without_nans_or_adjacent_duplicates (S fuel) [p0; p1] 2 (repeat pt0 2)
  = Ret (2%nat, [p0; p1]).
Proof.
  unfold sanitized; simpl. rewrite !andb_true_r.
  intros H. apply andb_prop in H as [H Hne]. apply andb_prop in H as [H0 H1].
  unfold copy_without_nans_or_adjacent_duplicates.
  rewrite copy_first_found by (simpl; auto; lia). simpl.
  unfold at_; simpl. rewrite Hne.
  unfold no_nan in H1. apply andb_prop in H1 as [Hx Hy].
  rewrite Hx, Hy. reflexivity.
Qed.

Definition one_segment_between (r : res (Z * store)) (b : nat) (p0 p3 : QPointF) : Prop :=
  exists st', r = Ret (1%Z, st') /\ at_ (bez st') b = p0 /\ at_ (bez st') (b + 3) = p3.

(** C8: a sanitized input of exactly two points is fitted by exactly one
    segment, whose first control point is the first input point and whose
    last control point is the second, whether the call enters through
    [sp_bezier_fit_cubic_full] (with any tangent hints),
    [sp_bezier_fit_cubic_r] or [sp_bezier_fit_cubic]; the tolerance is not
    negative, the budget is at least one (and below the limit of
    [sp_bezier_fit_cubic_r]) and the buffer has room for the segment. *)
Theorem two_point_fit (fuel : nat) (st : store) (b : nat) (p0 p1 : QPointF)
        (error : double) (max_beziers : Z) :
  sanitized [p0; p1] = true ->
  (b + 4 <= length (bez st))%nat ->
  (d0 <=? error)%D = true ->
  (1 <= max_beziers < 2 ^ 25)%Z ->
  (forall sp tHat1 tHat2,
      one_segment_between
        (sp_bezier_fit_cubic_full (S fuel) st (Some b) sp (Some [p0; p1]) 2
                                  tHat1 tHat2 error max_beziers) b p0 p1)
  /\ one_segment_between
       (sp_bezier_fit_cubic_r (S fuel) st (Some b) (Some [p0; p1]) 2 error max_beziers)
       b p0 p1
  /\ one_segment_between
       (sp_bezier_fit_cubic (S fuel) st (Some b) (Some [p0; p1]) 2 error) b p0 p1.
Proof.
  intros Hs Hb He Hm.
  assert (Hfull : forall sp tHat1 tHat2 m, (1 <= m)%Z ->
             one_segment_between
               (sp_bezier_fit_cubic_full (S fuel) st (Some b) sp (Some [p0; p1]) 2
                                         tHat1 tHat2 error m) b p0 p1).
  { intros sp tHat1 tHat2 m Hm1.
    destruct (full_two_points fuel st b sp [p0; p1] tHat1 tHat2 error m Hb He Hm1)
      as (st' & E & H0 & H3 & _).
    exists st'. auto. }
  assert (Hr : forall m, (1 <= m < 2 ^ 25)%Z ->
             one_segment_between
               (sp_bezier_fit_cubic_r (S fuel) st (Some b) (Some [p0; p1]) 2 error m)
               b p0 p1).
  { intros m Hm1. unfold sp_bezier_fit_cubic_r.
    change (0 <? 2)%Z with true. cbn [negb].
    change (Z.shiftl 1 (31 - 2 - 1 - 3)) with (2 ^ 25)%Z.
    destruct (m <? 2 ^ 25)%Z eqn:E; [|apply Z.ltb_ge in E; lia]. cbn [negb].
    change (Z.to_nat 2) with 2%nat.
    rewrite copy_two_points by assumption. cbn [bind].
    change (2 <? 2)%nat with false. cbv iota.
    apply Hfull; lia. }
  split; [|split].
  - intros; apply Hfull; lia.
  - apply Hr; lia.
  - apply Hr; lia.
Qed.

(** *** The checks of [sp_bezier_fit_cubic_r] *)

(** C4 (amended): with buffers that are not NULL and a positive length,
    [sp_bezier_fit_cubic_r] gives the budget check up exactly when
    [max_beziers] is not below [1ul << (31 - 2 - 1 - 3)], which is 2^25:
    such a call returns -1 and leaves the buffer alone, and every smaller
    budget passes the check and goes on to the sanitation and the fit. *)
Theorem budget_check (fuel : nat) (st : store) (b : nat) (d : list QPointF) (len : Z)
        (error : double) (max_beziers : Z) :
  (0 < len)%Z ->
  ((2 ^ 25 <= max_beziers)%Z ->
   sp_bezier_fit_cubic_r fuel st (Some b) (Some d) len error max_beziers = Ret ((-1)%Z, st))
  /\ ((max_beziers < 2 ^ 25)%Z ->
      sp_bezier_fit_cubic_r fuel st (Some b) (Some d) len error max_beziers
      = (' (uniqued_len, uniqued_data) <-
           copy_without_nans_or_adjacent_duplicates fuel d (Z.to_nat len)
                                                    (repeat pt0 (Z.to_nat len)) ;;
         if (uniqued_len <? 2)%nat then Ret (0%Z, st)
         else sp_bezier_fit_cubic_full fuel st (Some b) None (Some uniqued_data)
                                       (Z.of_nat uniqued_len)
                                       unconstrained_tangent unconstrained_tangent
                                       error max_beziers)).
Proof.
  intros Hl. unfold sp_bezier_fit_cubic_r.
  destruct (0 <? len)%Z eqn:E; [|apply Z.ltb_ge in E; lia]. cbn [negb].
  change (Z.shiftl 1 (31 - 2 - 1 - 3)) with (2 ^ 25)%Z.
  split; intros Hm.
  - destruct (max_beziers <? 2 ^ 25)%Z eqn:E2; [apply Z.ltb_lt in E2; lia|]. reflexivity.
  - destruct (max_beziers <? 2 ^ 25)%Z eqn:E2; [|apply Z.ltb_ge in E2; lia]. reflexivity.
Qed.

(** C5 (amended): a call of [sp_bezier_fit_cubic_r] with buffers that are
    not NULL, a positive length, a budget below the limit and a negative
    tolerance, on an input whose first point has no NaN, returns at once:
    0 when fewer than two points are left by the sanitation, and the
    negative sentinel -1 otherwise; the buffer is left alone. *)
Theorem negative_tolerance {L : ArithLaws AR} (fuel : nat) (st : store) (b : nat)
        (d : list QPointF) (len : Z) (error : double) (max_beziers : Z) :
  (0 < len)%Z ->
  (max_beziers < 2 ^ 25)%Z ->
  (error <? d0)%D = true ->
  no_nan (at_ d 0) = true ->
  exists uniqued_len uniqued_data,
    copy_without_nans_or_adjacent_duplicates (S fuel) d (Z.to_nat len)
                                             (repeat pt0 (Z.to_nat len))
    = Ret (uniqued_len, uniqued_data)
    /\ sp_bezier_fit_cubic_r (S fuel) st (Some b) (Some d) len error max_beziers
       = Ret ((if (uniqued_len <? 2)%nat then 0 else -1)%Z, st).
Proof.
  intros Hl Hm He Hn.
  destruct (copy_returns fuel d (Z.to_nat len) (repeat pt0 (Z.to_nat len)))
    as (n & dest & Hc & Hn1); [lia|assumption|].
  exists n, dest. split; [assumption|].
  unfold sp_bezier_fit_cubic_r.
  destruct (0 <? len)%Z eqn:E; [|apply Z.ltb_ge in E; lia]. cbn [negb].
  change (Z.shiftl 1 (31 - 2 - 1 - 3)) with (2 ^ 25)%Z.
  destruct (max_beziers <? 2 ^ 25)%Z eqn:E2; [|apply Z.ltb_ge in E2; lia]. cbn [negb].
  rewrite Hc. cbn [bind].
  destruct (n <? 2)%nat eqn:E3; [reflexivity|].
  apply Nat.ltb_ge in E3.
  cbn [sp_bezier_fit_cubic_full].
  destruct (0 <? Z.of_nat n)%Z eqn:E4; [|apply Z.ltb_ge in E4; lia]. cbn [negb].
  destruct (1 <=? max_beziers)%Z; cbn [negb]; [|reflexivity].
  rewrite (lt0_not_ge0 _ He). reflexivity.
Qed.

(** *** The end points of a generated segment *)

(** [bz] is a segment from [d[0]] to [d[n - 1]]. *)
Definition spans (bz d : list QPointF) (n : nat) : Prop :=
  length bz = 4%nat /\ at_ bz 0 = at_ d 0 /\ at_ bz 3 = at_ d (n - 1).

Lemma estimate_lengths_spans (w d : list QPointF) (u : list double) (n : nat)
      (tHat1 tHat2 : QPointF) :
  length w = 4%nat -> spans (estimate_lengths w d u n tHat1 tHat2) d n.
Proof.
  intros Hw. unfold estimate_lengths, spans.
  destruct (if (_ !=? _)%D then _ else _) as [al ar].
  destruct (if (_ || _) then _ else _) as [al' ar'].
  rewrite !length_upd. unfold at_.
  split; [assumption|]. split; upd_simpl; reflexivity.
Qed.

Lemma estimate_bi_length (w d : list QPointF) (ei : nat) (u : list double) (n : nat) :
  length (estimate_bi w ei d u n) = length w.
Proof.
  unfold estimate_bi.
  destruct (negb _); [reflexivity|].
  destruct (fold_left _ _ _) as [num den].
  destruct (_ !=? _)%D; now rewrite length_upd.
Qed.

Lemma generate_bezier_spans (w d : list QPointF) (u : list double) (n : nat)
      (tHat1 tHat2 : QPointF) (e : double) (bz : list QPointF) :
  length w = 4%nat ->
  generate_bezier w d u n tHat1 tHat2 e = Ret bz -> spans bz d n.
Proof.
  intros Hw H. unfold generate_bezier in H.
  apply bind_Ret in H as (t1 & _ & H).
  apply bind_Ret in H as (t2 & _ & H).
  destruct (is_zero tHat1); injection H as <-.
  - apply estimate_lengths_spans.
    rewrite estimate_bi_length.
    apply estimate_lengths_spans, Hw.
  - apply estimate_lengths_spans, Hw.
Qed.

Definition attempt_bezier (a : attempt) : list QPointF :=
  match a with
  | Accepted bz => bz
  | Rejected bz _ _ => bz
  end.

Lemma iterate_spans (k : nat) (d : list QPointF) (n : nat) (tHat1 tHat2 : QPointF)
      (e tol : double) (bz : list QPointF) (u : list double) (r : double)
      (sp : option nat) (a : attempt) :
  spans bz d n ->
  iterate k d n tHat1 tHat2 e tol bz u r sp = Ret a -> spans (attempt_bezier a) d n.
Proof.
  revert bz u r sp; induction k as [|k IH]; intros bz u r sp Hbz H; simpl in H.
  - injection H as <-. exact Hbz.
  - apply bind_Ret in H as (bz' & Hg & H).
    apply bind_Ret in H as (u' & _ & H).
    apply bind_Ret in H as ([r' sp'] & _ & H).
    assert (Hs : spans bz' d n) by (eapply generate_bezier_spans; [apply Hbz|apply Hg]).
    destruct (_ <=? _)%D.
    + injection H as <-. exact Hs.
    + eapply IH; [apply Hs|apply H].
Qed.

(** The path has no length: [u[len - 1] == 0.0] after the parameterization. *)
Definition zero_length (d : list QPointF) (n : nat) : bool :=
  (uat (chord_length_parameterize d (repeat d0 n) n) (n - 1) =? d0)%D.

Lemma fit_attempts_None (w d : list QPointF) (n : nat) (tHat1 tHat2 : QPointF) (e : double) :
  fit_attempts w d n tHat1 tHat2 e = Ret None -> zero_length d n = true.
Proof.
  unfold fit_attempts, zero_length. intros H.
  destruct (_ =? _)%D; [reflexivity|].
  apply bind_Ret in H as (bz & _ & H).
  apply bind_Ret in H as (u & _ & H).
  apply bind_Ret in H as ([r sp] & _ & H).
  destruct (_ <=? _)%D; [discriminate|].
  destruct (_ && _); [|discriminate].
  apply bind_Ret in H as (a & _ & H). discriminate.
Qed.

Lemma fit_attempts_Some (w d : list QPointF) (n : nat) (tHat1 tHat2 : QPointF) (e : double)
      (a : attempt) :
  length w = 4%nat ->
  fit_attempts w d n tHat1 tHat2 e = Ret (Some a) ->
  zero_length d n = false /\ spans (attempt_bezier a) d n.
Proof.
  unfold fit_attempts, zero_length. intros Hw H.
  destruct (_ =? _)%D; [discriminate|]. split; [reflexivity|].
  apply bind_Ret in H as (bz & Hg & H).
  apply bind_Ret in H as (u & _ & H).
  apply bind_Ret in H as ([r sp] & _ & H).
  assert (Hs : spans bz d n) by (eapply generate_bezier_spans; [apply Hw|apply Hg]).
  destruct (_ <=? _)%D; [injection H as <-; exact Hs|].
  destruct (_ && _).
  - apply bind_Ret in H as (a' & Hi & H). injection H as <-.
    eapply iterate_spans; [apply Hs|apply Hi].
  - injection H as <-. exact Hs.
Qed.

(** *** The shape of a run of the driver

    [fits st b sp d n m N st']: the call on the [n] points [d], with budget
    [m], output pointer [b] and the arrays [st], returns the count [N >= 0]
    and leaves the arrays [st']. *)
Inductive fits :
  store -> nat -> option nat -> list QPointF -> nat -> Z -> Z -> store -> Prop :=
| fits_none st b sp d n m :
    (n < 2)%nat \/ zero_length d n = true ->
    fits st b sp d n m 0 st
| fits_one st b sp d n m bz :
    (2 <= n)%nat -> (1 <= m)%Z ->
    ((b + 4 <= length (bez st))%nat -> spans bz d n) ->
    n = 2%nat \/ zero_length d n = false ->
    fits st b sp d n m 1 (store4 st b bz)
| fits_retry st b sp d n m bz N st' :
    (3 <= n)%nat -> zero_length d n = false -> (1 <= m)%Z ->
    fits (store4 st b bz) b sp d n m N st' ->
    fits st b sp d n m N st'
| fits_split st b sp d n m bz s n1 st2 n2 st' :
    (3 <= n)%nat -> zero_length d n = false -> (1 < m)%Z ->
    (0 < s < n - 1)%nat ->
    fits (store4 st b bz) b sp d (s + 1) (u32 (m - 1)) n1 st2 ->
    (0 < n1)%Z ->
    fits (store_split st2 sp (Z.to_nat (n1 - 1)) (Z.of_nat s))
         (b + Z.to_nat n1 * 4) (option_map (fun p => (p + Z.to_nat n1)%nat) sp)
         (skipn s d) (n - s) (u32 (m - n1)) n2 st' ->
    (0 <= n2)%Z ->
    fits st b sp d n m (n1 + n2) st'.

Lemma u32_small (z : Z) : (0 <= z < 2 ^ 32)%Z -> u32 z = z.
Proof. intros H; unfold u32; apply Z.mod_small; lia. Qed.

Lemma fits_count st b sp d n m N st' :
  fits st b sp d n m N st' -> (0 <= m < 2 ^ 32)%Z -> (0 <= N <= m)%Z.
Proof.
  intros H; induction H as
    [ st b sp d n m Hn
    | st b sp d n m bz Hn Hm1 Hs Hz
    | st b sp d n m bz N st' Hn Hz Hm1 HF IHF
    | st b sp d n m bz s n1 st2 n2 st' Hn Hz Hm2 Hsr HF1 IH1 Hn1 HF2 IH2 Hn2 ];
    intros Hm; try lia.
  rewrite u32_small in IH1 by lia. specialize (IH1 ltac:(lia)).
  rewrite u32_small in IH2 by lia. specialize (IH2 ltac:(lia)). lia.
Qed.

Lemma fits_zero st b sp d n m st' :
  fits st b sp d n m 0 st' -> st' = st /\ ((n < 2)%nat \/ zero_length d n = true).
Proof.
  intros H. remember 0%Z as N eqn:EN.
  induction H as
    [ st b sp d n m Hn
    | st b sp d n m bz Hn Hm1 Hs Hz
    | st b sp d n m bz N st' Hn Hz Hm1 HF IHF
    | st b sp d n m bz s n1 st2 n2 st' Hn Hz Hm2 Hsr HF1 IH1 Hn1 HF2 IH2 Hn2 ].
  - auto.
  - discriminate.
  - destruct (IHF EN) as [_ [C|C]]; [lia|congruence].
  - lia.
Qed.

Lemma center_tangent_range (d : list QPointF) (s n : nat) (t : QPointF) :
  sp_darray_center_tangent d s n = Ret t -> (0 < s < n - 1)%nat.
Proof.
  unfold sp_darray_center_tangent. intros H.
  destruct (s =? 0)%nat eqn:E; [discriminate|]. cbn [negb] in H.
  destruct (s <? n - 1)%nat eqn:E2; [|discriminate].
  apply Nat.eqb_neq in E. apply Nat.ltb_lt in E2. lia.
Qed.

Lemma store_split_bez (st : store) (sp : option nat) (i : nat) (v : Z) :
  bez (store_split st sp i v) = bez st.
Proof. destruct sp; reflexivity. Qed.

Lemma fit_two_points_spans (w d : list QPointF) (n : nat) (t1 t2 : QPointF) :
  length w = 4%nat -> spans (fit_two_points w d n t1 t2) d n.
Proof.
  intros Hw. destruct (fit_two_points_ends w d n t1 t2 Hw) as [H0 H3].
  split; [|split; assumption].
  unfold fit_two_points. destruct (isNaN _); now rewrite !length_upd.
Qed.

(** Every run that returns a count is of that shape. *)
Lemma full_fits (fuel : nat) : forall st b sp d len t1 t2 e m N st',
  (0 <= m < 2 ^ 32)%Z ->
  sp_bezier_fit_cubic_full fuel st (Some b) sp (Some d) len t1 t2 e m = Ret (N, st') ->
  length (bez st') = length (bez st) /\
  ((0 <= N)%Z -> fits st b sp d (Z.to_nat len) m N st').
Proof.
  induction fuel as [|fuel IH]; intros st b sp d len t1 t2 e m N st' Hm H;
    [discriminate|].
  cbn [sp_bezier_fit_cubic_full] in H.
  destruct (0 <? len)%Z eqn:Hlen; cbn [negb] in H;
    [|injection H as <- <-; split; [reflexivity|lia]].
  destruct (1 <=? m)%Z eqn:Hm1; cbn [negb] in H;
    [|injection H as <- <-; split; [reflexivity|lia]].
  destruct (d0 <=? e)%D eqn:He; cbn [negb] in H;
    [|injection H as <- <-; split; [reflexivity|lia]].
  apply Z.ltb_lt in Hlen. apply Z.leb_le in Hm1.
  destruct (len <? 2)%Z eqn:Hl2.
  { injection H as <- <-. split; [reflexivity|]. intros _.
    apply fits_none. left. apply Z.ltb_lt in Hl2. lia. }
  apply Z.ltb_ge in Hl2.
  destruct (len =? 2)%Z eqn:Hl3.
  { injection H as <- <-. split; [apply length_store4|]. intros _.
    apply Z.eqb_eq in Hl3. subst len.
    apply fits_one; try lia.
    intros Hroom. apply fit_two_points_spans, length_load4, Hroom. }
  apply Z.eqb_neq in Hl3.
  apply bind_Ret in H as (a & Ha & H).
  destruct a as [a|]; cycle 1.
  { injection H as <- <-. split; [reflexivity|]. intros _.
    apply fits_none. right. eapply fit_attempts_None, Ha. }
  assert (Hz : zero_length d (Z.to_nat len) = false).
  { unfold fit_attempts in Ha. unfold zero_length.
    destruct (_ =? _)%D; [discriminate|reflexivity]. }
  destruct a as [bz|bz r spt].
  { injection H as <- <-. split; [apply length_store4|]. intros _.
    apply fits_one; try lia; [|right; assumption].
    intros Hroom. eapply (fit_attempts_Some _ _ _ _ _ _ (Accepted bz)); [|apply Ha].
    apply length_load4, Hroom. }
  cbv zeta in H.
  destruct (corner_block _ _ _ _ _) as [spt'| | |] eqn:Hcb.
  - unfold split_block in H.
    destruct (1 <? m)%Z eqn:Hm2; [|injection H as <- <-; split; [apply length_store4|lia]].
    apply Z.ltb_lt in Hm2.
    destruct spt' as [s|]; [|discriminate].
    cbv zeta in H.
    destruct (_ && negb _) eqn:Hg; [injection H as <- <-; split; [apply length_store4|lia]|].
    apply bind_Ret in H as (recT2 & HT & H).
    assert (Hs_range : (0 < s < Z.to_nat len - 1)%nat).
    { destruct (r <? d0)%D; cbn [andb] in Hg.
      - apply negb_false_iff, andb_prop in Hg as [G1 G2].
        apply Nat.ltb_lt in G1, G2. lia.
      - eapply center_tangent_range, HT. }
    apply bind_Ret in H as ([n1 st2] & H1 & H).
    destruct (fun A => IH _ _ _ _ _ _ _ _ _ _ _ A H1) as [L1 F1];
      [rewrite u32_small; lia|].
    destruct (n1 <? 0)%Z eqn:Hn1.
    { injection H as <- <-. split; [now rewrite L1, length_store4|lia]. }
    apply Z.ltb_ge in Hn1. specialize (F1 Hn1).
    destruct (n1 =? 0)%Z eqn:Hn10; [discriminate|]. cbn [negb] in H.
    apply Z.eqb_neq in Hn10.
    pose proof (fits_count _ _ _ _ _ _ _ _ F1 ltac:(rewrite u32_small; lia)) as Hc1.
    rewrite u32_small in Hc1 by lia.
    apply bind_Ret in H as ([n2 st4] & H2 & H).
    destruct (fun A => IH _ _ _ _ _ _ _ _ _ _ _ A H2) as [L2 F2];
      [rewrite u32_small; lia|].
    rewrite store_split_bez in L2.
    destruct (n2 <? 0)%Z eqn:Hn2.
    { injection H as <- <-. split; [now rewrite L2, L1, length_store4|lia]. }
    apply Z.ltb_ge in Hn2. specialize (F2 Hn2).
    injection H as <- <-. split; [now rewrite L2, L1, length_store4|]. intros _.
    replace (Z.to_nat (Z.of_nat s + 1)) with (s + 1)%nat in F1 by lia.
    replace (Z.to_nat (len - Z.of_nat s)) with (Z.to_nat len - s)%nat in F2 by lia.
    eapply fits_split; eauto; lia.
  - destruct (IH _ _ _ _ _ _ _ _ _ _ _ Hm H) as [L F].
    split; [now rewrite L, length_store4|]. intros HN.
    eapply fits_retry; eauto; lia.
  - destruct (IH _ _ _ _ _ _ _ _ _ _ _ Hm H) as [L F].
    split; [now rewrite L, length_store4|]. intros HN.
    eapply fits_retry; eauto; lia.
  - discriminate.
Qed.

Lemma fits_frame st b sp d n m N st' :
  fits st b sp d n m N st' -> (0 <= m < 2 ^ 32)%Z ->
  length (bez st') = length (bez st) /\
  forall i, (i < b \/ b + 4 * Z.to_nat N <= i)%nat -> at_ (bez st') i = at_ (bez st) i.
Proof.
  intros H; induction H as
    [ st b sp d n m Hn
    | st b sp d n m bz Hn Hm1 Hs Hz
    | st b sp d n m bz N st' Hn Hz Hm1 HF IHF
    | st b sp d n m bz s n1 st2 n2 st' Hn Hz Hm2 Hsr HF1 IH1 Hn1 HF2 IH2 Hn2 ];
    intros Hm.
  - auto.
  - split; [apply length_store4|]. intros i Hi. apply store4_frame. lia.
  - destruct (IHF Hm) as [L F]. split; [now rewrite L, length_store4|].
    intros i Hi. rewrite F by assumption. apply store4_frame.
    pose proof (fits_count _ _ _ _ _ _ _ _ HF Hm) as Hc.
    destruct (Z.eq_dec N 0) as [->|HN].
    + apply fits_zero in HF as [_ [C|C]]; [lia|congruence].
    + lia.
  - pose proof (fits_count _ _ _ _ _ _ _ _ HF1 ltac:(rewrite u32_small; lia)) as Hc1.
    rewrite u32_small in Hc1 by lia.
    destruct IH1 as [L1 F1]; [rewrite u32_small; lia|].
    destruct IH2 as [L2 F2]; [rewrite u32_small; lia|].
    rewrite store_split_bez in L2, F2.
    split; [now rewrite L2, L1, length_store4|].
    intros i Hi. rewrite F2, F1 by lia. apply store4_frame. lia.
Qed.

(** *** The segments of a result, end to end

    [chained buf b d n N]: the [N] segments at [buf[b ..]] run through the
    data points [d[bnd 0] = d[0]], [d[bnd 1]], ..., [d[bnd N] = d[n - 1]]:
    segment [k] goes from [d[bnd k]] to [d[bnd (k + 1)]], so each one starts
    where the one before it ends. *)
Definition chained (buf : list QPointF) (b : nat) (d : list QPointF) (n N : nat) : Prop :=
  exists bnd : nat -> nat,
    bnd 0%nat = 0%nat /\ bnd N = (n - 1)%nat
    /\ (forall k, (k < N)%nat -> (bnd k < bnd (S k))%nat)
    /\ (forall k, (k < N)%nat ->
                  at_ buf (b + 4 * k) = at_ d (bnd k)
                  /\ at_ buf (b + 4 * k + 3) = at_ d (bnd (S k)))
    /\ (forall k, (k + 1 < N)%nat -> at_ buf (b + 4 * k + 3) = at_ buf (b + 4 * (k + 1))).

(** No stretch of at least two consecutive points has chord length 0.0. *)
Definition no_zero_length_range (d : list QPointF) (n : nat) : Prop :=
  forall i k, (2 <= k)%nat -> (i + k <= n)%nat -> zero_length (skipn i d) k = false.

Lemma at_skipn (d : list QPointF) (s i : nat) : at_ (skipn s d) i = at_ d (s + i).
Proof. unfold at_. apply nth_skipn. Qed.

Lemma fits_chained st b sp d n m N st' :
  fits st b sp d n m N st' -> (0 <= m < 2 ^ 32)%Z ->
  (b + 4 * Z.to_nat m <= length (bez st))%nat ->
  no_zero_length_range d n -> (1 <= N)%Z ->
  chained (bez st') b d n (Z.to_nat N).
Proof.
  intros H; induction H as
    [ st b sp d n m Hn
    | st b sp d n m bz Hn Hm1 Hs Hz
    | st b sp d n m bz N st' Hn Hz Hm1 HF IHF
    | st b sp d n m bz s n1 st2 n2 st' Hn Hz Hm2 Hsr HF1 IH1 Hn1 HF2 IH2 Hn2 ];
    intros Hm Hroom Hnz HN.
  - lia.
  - destruct Hs as (Hl & H0 & H3); [lia|].
    exists (fun k => match k with O => 0 | S _ => n - 1 end)%nat.
    change (Z.to_nat 1) with 1%nat.
    split; [reflexivity|]. split; [reflexivity|].
    split; [intros k Hk; destruct k; [lia|lia]|].
    split; [|intros k Hk; lia].
    intros k Hk. destruct k; [|lia].
    rewrite <- H0, <- H3. split.
    + rewrite store4_at by lia. reflexivity.
    + rewrite <- Nat.add_assoc. rewrite store4_at by lia. reflexivity.
  - apply IHF; auto. now rewrite length_store4.
  - pose proof (fits_count _ _ _ _ _ _ _ _ HF1 ltac:(rewrite u32_small; lia)) as Hc1.
    rewrite u32_small in Hc1 by lia.
    destruct (fits_frame _ _ _ _ _ _ _ _ HF1 ltac:(rewrite u32_small; lia)) as [L1 _].
    destruct (fits_frame _ _ _ _ _ _ _ _ HF2 ltac:(rewrite u32_small; lia)) as [_ F2].
    rewrite store_split_bez in F2.
    assert (Hn2' : (1 <= n2)%Z).
    { destruct (Z.eq_dec n2 0) as [->|]; [|lia].
      apply fits_zero in HF2 as [_ [C|C]]; [lia|].
      specialize (Hnz s (n - s)%nat ltac:(lia) ltac:(lia)). congruence. }
    destruct IH1 as (bnd1 & A0 & AN & Ainc & Aseg & _);
      [rewrite u32_small; lia
      |rewrite u32_small, length_store4 by lia; lia
      |intros i k Hk Hik; apply Hnz; lia
      |lia|].
    destruct IH2 as (bnd2 & B0 & BN & Binc & Bseg & _);
      [rewrite u32_small; lia
      |rewrite u32_small, store_split_bez, L1, length_store4 by lia; lia
      |intros i k Hk Hik; rewrite skipn_skipn; apply Hnz; lia
      |lia|].
    set (N1 := Z.to_nat n1) in *. set (N2 := Z.to_nat n2) in *.
    assert (HN1 : (1 <= N1)%nat) by lia. assert (HN2 : (1 <= N2)%nat) by lia.
    replace (Z.to_nat (n1 + n2)) with (N1 + N2)%nat by lia.
    set (bnd := fun k => if (k <=? N1)%nat then bnd1 k else (s + bnd2 (k - N1))%nat).
    assert (Hseg : forall k, (k < N1 + N2)%nat ->
                     at_ (bez st') (b + 4 * k) = at_ d (bnd k)
                     /\ at_ (bez st') (b + 4 * k + 3) = at_ d (bnd (S k))).
    { intros k Hk. unfold bnd.
      destruct (Nat.ltb_spec k N1) as [Hlt|Hge].
      - destruct (Aseg k Hlt) as [P0 P3].
        rewrite !F2 by lia.
        destruct (k <=? N1)%nat eqn:E1; [|apply Nat.leb_gt in E1; lia].
        destruct (S k <=? N1)%nat eqn:E2; [|apply Nat.leb_gt in E2; lia].
        auto.
      - destruct (Bseg (k - N1)%nat ltac:(lia)) as [P0 P3].
        rewrite at_skipn in P0, P3.
        replace (b + N1 * 4 + 4 * (k - N1))%nat with (b + 4 * k)%nat in P0, P3 by lia.
        destruct (S k <=? N1)%nat eqn:E2; [apply Nat.leb_le in E2; lia|].
        replace (S k - N1)%nat with (S (k - N1)) by lia.
        split; [|exact P3].
        destruct (k <=? N1)%nat eqn:E1; [|exact P0].
        apply Nat.leb_le in E1. assert (k = N1) by lia. subst k.
        rewrite P0, Nat.sub_diag, B0, AN. f_equal. lia. }
    exists bnd. split; [|split; [|split; [|split]]].
    + unfold bnd. simpl. exact A0.
    + unfold bnd. destruct (N1 + N2 <=? N1)%nat eqn:E; [apply Nat.leb_le in E; lia|].
      replace (N1 + N2 - N1)%nat with N2 by lia. rewrite BN. lia.
    + intros k Hk. unfold bnd.
      destruct (Nat.ltb_spec k N1) as [Hlt|Hge].
      * destruct (k <=? N1)%nat eqn:E1; [|apply Nat.leb_gt in E1; lia].
        destruct (S k <=? N1)%nat eqn:E2; [|apply Nat.leb_gt in E2; lia].
        apply Ainc, Hlt.
      * destruct (S k <=? N1)%nat eqn:E2; [apply Nat.leb_le in E2; lia|].
        replace (S k - N1)%nat with (S (k - N1)) by lia.
        pose proof (Binc (k - N1)%nat ltac:(lia)) as Hb.
        destruct (k <=? N1)%nat eqn:E1; [|lia].
        apply Nat.leb_le in E1. assert (k = N1) by lia. subst k.
        rewrite Nat.sub_diag in *. rewrite B0 in Hb. rewrite AN. lia.
    + exact Hseg.
    + intros k Hk.
      destruct (Hseg k ltac:(lia)) as [_ P3].
      destruct (Hseg (k + 1)%nat ltac:(lia)) as [P0 _].
      rewrite P3, P0. f_equal. f_equal. lia.
Qed.

Lemma full_shape (fuel : nat) st b sp d len t1 t2 e m N st' :
  sp_bezier_fit_cubic_full fuel st (Some b) sp (Some d) len t1 t2 e m = Ret (N, st') ->
  (0 <= m < 2 ^ 32)%Z -> (0 <= N)%Z ->
  fits st b sp d (Z.to_nat len) m N st'.
Proof.
  intros H Hm HN. now apply (full_fits fuel _ _ _ _ _ _ _ _ _ _ _ Hm H).
Qed.

(** Where the two halves of a split leave their segments. *)
Lemma split_block_merge (fuel : nat) (st : store) (b : nat) (sp : option nat)
      (d : list QPointF) (len : Z) (t1 t2 : QPointF) (e : double) (m : Z)
      (is_corner : bool) (splitPoint : option nat) (N : Z) (st' : store) :
  (0 <= m < 2 ^ 32)%Z ->
  split_block (sp_bezier_fit_cubic_full fuel) st b sp d len t1 t2 e m is_corner splitPoint
  = Ret (N, st') ->
  (0 <= N)%Z ->
  exists s recTHat2 recTHat1 nsegs1 st1 nsegs2,
    splitPoint = Some s
    /\ sp_bezier_fit_cubic_full fuel st (Some b) sp (Some d) (Z.of_nat s + 1) t1 recTHat2
                                e (m - 1) = Ret (nsegs1, st1)
    /\ (1 <= nsegs1 <= m - 1)%Z
    /\ sp_bezier_fit_cubic_full fuel
         (store_split st1 sp (Z.to_nat (nsegs1 - 1)) (Z.of_nat s))
         (Some (b + Z.to_nat nsegs1 * 4)%nat)
         (option_map (fun p => (p + Z.to_nat nsegs1)%nat) sp)
         (Some (skipn s d)) (len - Z.of_nat s) recTHat1 t2
         e (m - nsegs1) = Ret (nsegs2, st')
    /\ (0 <= nsegs2)%Z
    /\ N = (nsegs1 + nsegs2)%Z
    /\ (forall i, (i < b + 4 * Z.to_nat nsegs1)%nat -> at_ (bez st') i = at_ (bez st1) i).
Proof.
  intros Hm H HN. unfold split_block in H.
  destruct (1 <? m)%Z eqn:Hm2; [|injection H as <- <-; lia].
  apply Z.ltb_lt in Hm2.
  destruct splitPoint as [s|]; [|discriminate].
  cbv zeta in H.
  destruct (_ && negb _); [injection H as <- <-; lia|].
  apply bind_Ret in H as (recT2 & HT & H).
  apply bind_Ret in H as ([n1 st1] & H1 & H).
  rewrite u32_small in H1 by lia.
  destruct (n1 <? 0)%Z eqn:Hn1; [injection H as <- <-; lia|].
  apply Z.ltb_ge in Hn1.
  destruct (n1 =? 0)%Z eqn:Hn10; [discriminate|]. cbn [negb] in H.
  apply Z.eqb_neq in Hn10.
  pose proof (full_shape _ _ _ _ _ _ _ _ _ _ _ _ H1 ltac:(lia) Hn1) as F1.
  pose proof (fits_count _ _ _ _ _ _ _ _ F1 ltac:(lia)) as Hc1.
  rewrite u32_small in H by lia.
  apply bind_Ret in H as ([n2 st4] & H2 & H).
  destruct (n2 <? 0)%Z eqn:Hn2; [injection H as <- <-; lia|].
  apply Z.ltb_ge in Hn2.
  injection H as <- <-.
  pose proof (full_shape _ _ _ _ _ _ _ _ _ _ _ _ H2 ltac:(lia) Hn2) as F2.
  destruct (fits_frame _ _ _ _ _ _ _ _ F2 ltac:(lia)) as [_ Fr].
  rewrite store_split_bez in Fr.
  exists s, recT2, (if is_corner then unconstrained_tangent else pt_neg recT2), n1, st1, n2.
  repeat split; auto; try lia.
  intros i Hi. apply Fr. lia.
Qed.

(** *** What the first [4 * N] entries hold *)

(** The tangent the driver gives a segment at its first point [d[g]]: the
    caller's at the first point of the data, the reverse of the centre
    tangent at a split point, or none, where a corner was found or a retry
    dropped it. *)
Definition left_tangent_of (d : list QPointF) (n : nat) (tHat1 : QPointF) (g : nat)
           (t : QPointF) : Prop :=
  t = unconstrained_tangent
  \/ (g = 0%nat /\ t = tHat1)
  \/ (exists c, sp_darray_center_tangent d g n = Ret c /\ t = pt_neg c).

(** The same at its last point [d[g]]. *)
Definition right_tangent_of (d : list QPointF) (n : nat) (tHat2 : QPointF) (g : nat)
           (t : QPointF) : Prop :=
  t = unconstrained_tangent
  \/ (g = (n - 1)%nat /\ t = tHat2)
  \/ sp_darray_center_tangent d g n = Ret t.

(** [c] is the segment the driver fits to the points [d[lo] .. d[hi]] of
    the [n] points [d]: what the two-point case computes, or what the
    attempts accept, with the tangents the driver gives that range and
    whatever the window held before. *)
Definition fitted (c d : list QPointF) (n : nat) (tHat1 tHat2 : QPointF) (e : double)
           (lo hi : nat) : Prop :=
  exists (w : list QPointF) (t1 t2 : QPointF),
    length w = 4%nat
    /\ left_tangent_of d n tHat1 lo t1
    /\ right_tangent_of d n tHat2 hi t2
    /\ (hi = (lo + 1)%nat /\ c = fit_two_points w (skipn lo d) 2 t1 t2
        \/ (lo + 2 <= hi)%nat
           /\ fit_attempts w (skipn lo d) (hi - lo + 1) t1 t2 e = Ret (Some (Accepted c))).

(** [holds_segments buf b d n tHat1 tHat2 e N]: the first [4 * N] entries
    of [buf] from [b] on are [N] segments: entries [b + 4 * k .. b + 4 * k + 3]
    are the segment fitted to the points [d[lo k] .. d[hi k]], from the one
    to the other, and the ranges follow each other in [d]. *)
Definition holds_segments (buf : list QPointF) (b : nat) (d : list QPointF) (n : nat)
           (tHat1 tHat2 : QPointF) (e : double) (N : nat) : Prop :=
  exists lo hi : nat -> nat,
    ((1 <= N)%nat -> lo 0%nat = 0%nat)
    /\ forall k, (k < N)%nat ->
         (lo k < hi k <= n - 1)%nat
         /\ ((k + 1 < N)%nat -> (hi k <= lo (k + 1))%nat)
         /\ fitted (firstn 4 (skipn (b + 4 * k) buf)) d n tHat1 tHat2 e (lo k) (hi k)
         /\ at_ buf (b + 4 * k) = at_ d (lo k)
         /\ at_ buf (b + 4 * k + 3) = at_ d (hi k).

Lemma window_eq (l l' : list QPointF) (p : nat) :
  length l = length l' -> (p + 4 <= length l)%nat ->
  (forall i, (p <= i < p + 4)%nat -> at_ l i = at_ l' i) ->
  firstn 4 (skipn p l) = firstn 4 (skipn p l').
Proof.
  intros L Hp H.
  apply nth_ext with (d := pt0) (d' := pt0).
  - rewrite !length_firstn, !length_skipn. lia.
  - intros i Hi. rewrite length_firstn, length_skipn in Hi.
    rewrite !nth_firstn.
    destruct (i <? 4)%nat eqn:E; [|reflexivity].
    apply Nat.ltb_lt in E.
    rewrite !nth_skipn. apply (H (p + i)%nat). lia.
Qed.

Lemma load4_store4 (st : store) (b : nat) (c : list QPointF) :
  (b + 4 <= length (bez st))%nat -> length c = 4%nat ->
  load4 (store4 st b c) b = c.
Proof.
  intros Hb Hc. unfold load4.
  apply nth_ext with (d := pt0) (d' := pt0).
  - rewrite length_firstn, length_skipn, length_store4. lia.
  - intros i Hi. rewrite length_firstn, length_skipn, length_store4 in Hi.
    rewrite nth_firstn.
    destruct (i <? 4)%nat eqn:E; [|apply Nat.ltb_ge in E; lia].
    apply Nat.ltb_lt in E.
    rewrite nth_skipn. apply (store4_at st b c i Hb E).
Qed.

(** The centre tangent looks at the neighbours of [d[center]] only. *)
Lemma center_tangent_longer (d : list QPointF) (g n n' : nat) (t : QPointF) :
  (n <= n')%nat -> sp_darray_center_tangent d g n = Ret t ->
  sp_darray_center_tangent d g n' = Ret t.
Proof.
  intros Hn H. pose proof (center_tangent_range _ _ _ _ H) as R.
  unfold sp_darray_center_tangent in *.
  destruct (g =? 0)%nat; [discriminate|]. cbn [negb] in *.
  destruct (g <? n - 1)%nat; [|discriminate].
  replace (g <? n' - 1)%nat with true by (symmetry; apply Nat.ltb_lt; lia).
  exact H.
Qed.

Lemma center_tangent_skipn (d : list QPointF) (s g n n' : nat) (t : QPointF) :
  (s + n <= n')%nat -> sp_darray_center_tangent (skipn s d) g n = Ret t ->
  sp_darray_center_tangent d (s + g) n' = Ret t.
Proof.
  intros Hn H. pose proof (center_tangent_range _ _ _ _ H) as R.
  unfold sp_darray_center_tangent in *.
  destruct (g =? 0)%nat eqn:G; [discriminate|]. cbn [negb] in *.
  destruct (g <? n - 1)%nat; [|discriminate].
  replace (s + g =? 0)%nat with false by (symmetry; apply Nat.eqb_neq; lia).
  replace (s + g <? n' - 1)%nat with true by (symmetry; apply Nat.ltb_lt; lia).
  cbn [negb]. rewrite !at_skipn in H.
  replace (s + g + 1)%nat with (s + (g + 1))%nat by lia.
  replace (s + g - 1)%nat with (s + (g - 1))%nat by lia.
  exact H.
Qed.

Lemma one_segment_holds (st : store) (b : nat) (c d : list QPointF) (n : nat)
      (t1 t2 : QPointF) (e : double) :
  (b + 4 <= length (bez st))%nat -> (2 <= n)%nat ->
  spans c d n -> fitted c d n t1 t2 e 0 (n - 1) ->
  holds_segments (bez (store4 st b c)) b d n t1 t2 e 1.
Proof.
  intros Hb Hn (Hl & H0 & H3) Hf.
  exists (fun _ => 0%nat), (fun _ => (n - 1)%nat).
  split; [reflexivity|].
  intros k Hk. assert (k = 0%nat) by lia. subst k.
  split; [lia|]. split; [lia|].
  rewrite Nat.mul_0_r, Nat.add_0_r.
  change (firstn 4 (skipn b (bez (store4 st b c)))) with (load4 (store4 st b c) b).
  rewrite load4_store4 by assumption.
  split; [exact Hf|].
  pose proof (store4_at st b c 0 Hb ltac:(lia)) as E0. rewrite Nat.add_0_r in E0.
  pose proof (store4_at st b c 3 Hb ltac:(lia)) as E3.
  split; congruence.
Qed.

(** The tangents of a split, as [split_block] computes them. *)
Lemma split_block_tangents (fuel : nat) (st : store) (b : nat) (sp : option nat)
      (d : list QPointF) (len : Z) (t1 t2 : QPointF) (e : double) (m : Z)
      (is_corner : bool) (splitPoint : option nat) (N : Z) (st' : store) :
  (0 <= m < 2 ^ 32)%Z ->
  split_block (sp_bezier_fit_cubic_full fuel) st b sp d len t1 t2 e m is_corner splitPoint
  = Ret (N, st') ->
  (0 <= N)%Z ->
  exists s recTHat2 nsegs1 st1 nsegs2,
    (0 < s < Z.to_nat len - 1)%nat
    /\ (is_corner = true /\ recTHat2 = unconstrained_tangent
        \/ is_corner = false /\ sp_darray_center_tangent d s (Z.to_nat len) = Ret recTHat2)
    /\ sp_bezier_fit_cubic_full fuel st (Some b) sp (Some d) (Z.of_nat s + 1) t1 recTHat2
                                e (m - 1) = Ret (nsegs1, st1)
    /\ (1 <= nsegs1 <= m - 1)%Z
    /\ sp_bezier_fit_cubic_full fuel
         (store_split st1 sp (Z.to_nat (nsegs1 - 1)) (Z.of_nat s))
         (Some (b + Z.to_nat nsegs1 * 4)%nat)
         (option_map (fun p => (p + Z.to_nat nsegs1)%nat) sp)
         (Some (skipn s d)) (len - Z.of_nat s)
         (if is_corner then unconstrained_tangent else pt_neg recTHat2) t2
         e (m - nsegs1) = Ret (nsegs2, st')
    /\ (0 <= nsegs2)%Z
    /\ N = (nsegs1 + nsegs2)%Z
    /\ (forall i, (i < b + 4 * Z.to_nat nsegs1)%nat -> at_ (bez st') i = at_ (bez st1) i).
Proof.
  intros Hm H HN. unfold split_block in H.
  destruct (1 <? m)%Z eqn:Hm2; [|injection H as <- <-; lia].
  apply Z.ltb_lt in Hm2.
  destruct splitPoint as [s|]; [|discriminate].
  cbv zeta in H.
  destruct (_ && negb _) eqn:Hg; [injection H as <- <-; lia|].
  apply bind_Ret in H as (recT2 & HT & H).
  assert (Hs_range : (0 < s < Z.to_nat len - 1)%nat).
  { destruct is_corner; cbn [andb] in Hg.
    - apply negb_false_iff, andb_prop in Hg as [G1 G2].
      apply Nat.ltb_lt in G1, G2. lia.
    - eapply center_tangent_range, HT. }
  apply bind_Ret in H as ([n1 st1] & H1 & H).
  rewrite u32_small in H1 by lia.
  destruct (n1 <? 0)%Z eqn:Hn1; [injection H as <- <-; lia|].
  apply Z.ltb_ge in Hn1.
  destruct (n1 =? 0)%Z eqn:Hn10; [discriminate|]. cbn [negb] in H.
  apply Z.eqb_neq in Hn10.
  pose proof (full_shape _ _ _ _ _ _ _ _ _ _ _ _ H1 ltac:(lia) Hn1) as F1.
  pose proof (fits_count _ _ _ _ _ _ _ _ F1 ltac:(lia)) as Hc1.
  rewrite u32_small in H by lia.
  apply bind_Ret in H as ([n2 st4] & H2 & H).
  destruct (n2 <? 0)%Z eqn:Hn2; [injection H as <- <-; lia|].
  apply Z.ltb_ge in Hn2.
  injection H as <- <-.
  pose proof (full_shape _ _ _ _ _ _ _ _ _ _ _ _ H2 ltac:(lia) Hn2) as F2.
  destruct (fits_frame _ _ _ _ _ _ _ _ F2 ltac:(lia)) as [_ Fr].
  rewrite store_split_bez in Fr.
  exists s, recT2, n1, st1, n2.
  split; [exact Hs_range|]. split.
  { destruct is_corner; [left; split; [reflexivity|]; now injection HT|right; auto]. }
  repeat split; auto; try lia.
  intros i Hi. apply Fr. lia.
Qed.

(** A retry drops a tangent: what it fits is fitted for the call. *)
Lemma holds_segments_retry (buf : list QPointF) (b : nat) (d : list QPointF) (n : nat)
      (t1 t2 t1' t2' : QPointF) (e : double) (N : nat) :
  t1' = t1 \/ t1' = unconstrained_tangent ->
  t2' = t2 \/ t2' = unconstrained_tangent ->
  holds_segments buf b d n t1' t2' e N -> holds_segments buf b d n t1 t2 e N.
Proof.
  intros H1 H2 (lo & hi & L0 & H). exists lo, hi. split; [exact L0|].
  intros k Hk. destruct (H k Hk) as (R & O & (w & a1 & a2 & Hw & T1 & T2 & F) & E).
  split; [exact R|]. split; [exact O|]. split; [|exact E].
  exists w, a1, a2. split; [exact Hw|]. split; [|split; [|exact F]].
  - destruct T1 as [T|[[G T]|T]]; [left; exact T| |right; right; exact T].
    destruct H1 as [->| ->]; [right; left; auto|left; exact T].
  - destruct T2 as [T|[[G T]|T]]; [left; exact T| |right; right; exact T].
    destruct H2 as [->| ->]; [right; left; auto|left; exact T].
Qed.

Lemma full_holds (fuel : nat) : forall st b sp d len t1 t2 e m N st',
  (0 <= m < 2 ^ 32)%Z ->
  (b + 4 * Z.to_nat m <= length (bez st))%nat ->
  sp_bezier_fit_cubic_full fuel st (Some b) sp (Some d) len t1 t2 e m = Ret (N, st') ->
  (0 <= N)%Z ->
  holds_segments (bez st') b d (Z.to_nat len) t1 t2 e (Z.to_nat N).
Proof.
  induction fuel as [|fuel IH]; intros st b sp d len t1 t2 e m N st' Hm Hroom H HN;
    [discriminate|].
  assert (Hnone : holds_segments (bez st') b d (Z.to_nat len) t1 t2 e 0).
  { exists (fun _ => 0%nat), (fun _ => 0%nat). split; [lia|]. intros k Hk. lia. }
  cbn [sp_bezier_fit_cubic_full] in H.
  destruct (0 <? len)%Z eqn:Hlen; cbn [negb] in H; [|injection H as <- <-; lia].
  destruct (1 <=? m)%Z eqn:Hm1; cbn [negb] in H; [|injection H as <- <-; lia].
  destruct (d0 <=? e)%D eqn:He; cbn [negb] in H; [|injection H as <- <-; lia].
  apply Z.ltb_lt in Hlen. apply Z.leb_le in Hm1.
  destruct (len <? 2)%Z eqn:Hl2.
  { injection H as <- <-. exact Hnone. }
  apply Z.ltb_ge in Hl2.
  assert (Hw : length (load4 st b) = 4%nat) by (apply length_load4; lia).
  assert (Hone : forall c,
             spans c d (Z.to_nat len) ->
             (len = 2%Z /\ c = fit_two_points (load4 st b) d 2 t1 t2
              \/ (3 <= len)%Z
                 /\ fit_attempts (load4 st b) d (Z.to_nat len) t1 t2 e
                    = Ret (Some (Accepted c))) ->
             holds_segments (bez (store4 st b c)) b d (Z.to_nat len) t1 t2 e 1).
  { intros c Hs Hc. apply one_segment_holds; [lia|lia|exact Hs|].
    exists (load4 st b), t1, t2. split; [exact Hw|].
    split; [right; left; auto|]. split; [right; left; auto|].
    cbn [skipn]. destruct Hc as [[E ->]|[E F]].
    - left. split; [lia|reflexivity].
    - right. split; [lia|]. replace (Z.to_nat len - 1 - 0 + 1)%nat with (Z.to_nat len) by lia.
      exact F. }
  destruct (len =? 2)%Z eqn:Hl3.
  { injection H as <- <-. apply Z.eqb_eq in Hl3. subst len.
    change (Z.to_nat 1) with 1%nat.
    apply Hone; [apply fit_two_points_spans, Hw|left; auto]. }
  apply Z.eqb_neq in Hl3.
  apply bind_Ret in H as (a & Ha & H).
  destruct a as [a|]; [|injection H as <- <-; exact Hnone].
  destruct a as [bz|bz r spt].
  { injection H as <- <-. change (Z.to_nat 1) with 1%nat.
    destruct (fit_attempts_Some _ _ _ _ _ _ _ Hw Ha) as [_ Hs].
    apply Hone; [exact Hs|right; split; [lia|exact Ha]]. }
  clear Hone. cbv zeta in H.
  destruct (corner_block _ _ _ _ _) as [spt'| | |] eqn:Hcb.
  - destruct (split_block_tangents _ _ _ _ _ _ _ _ _ _ _ _ _ _ Hm H HN)
      as (s & rT2 & n1 & st1 & n2 & Hs_range & HT & H1 & Hn1 & H2 & Hn2 & -> & Fr).
    destruct (fun A => full_fits _ _ _ _ _ _ _ _ _ _ _ _ A H1) as [L1 _]; [lia|].
    rewrite length_store4 in L1.
    destruct (fun A => full_fits _ _ _ _ _ _ _ _ _ _ _ _ A H2) as [L2 _]; [lia|].
    rewrite store_split_bez in L2.
    destruct (fun A B C => IH _ _ _ _ _ _ _ _ _ _ _ A B H1 C)
      as (lo1 & hi1 & A0 & A); [lia|rewrite length_store4; lia|lia|].
    destruct (fun A B => IH _ _ _ _ _ _ _ _ _ _ _ A B H2 Hn2)
      as (lo2 & hi2 & B0 & B); [lia|rewrite store_split_bez, L1; lia|].
    set (n := Z.to_nat len) in *.
    set (N1 := Z.to_nat n1) in *. set (N2 := Z.to_nat n2) in *.
    replace (Z.to_nat (Z.of_nat s + 1)) with (s + 1)%nat in A by lia.
    replace (Z.to_nat (len - Z.of_nat s)) with (n - s)%nat in B by lia.
    replace (Z.to_nat (n1 + n2)) with (N1 + N2)%nat by lia.
    assert (HN1 : (1 <= N1)%nat) by lia.
    assert (HT2 : rT2 = unconstrained_tangent \/ sp_darray_center_tangent d s n = Ret rT2)
      by (destruct HT as [[_ T]|[_ T]]; auto).
    assert (HT1 : (if (r <? d0)%D then unconstrained_tangent else pt_neg rT2)
                  = unconstrained_tangent
                  \/ exists c, sp_darray_center_tangent d s n = Ret c
                               /\ (if (r <? d0)%D then unconstrained_tangent else pt_neg rT2)
                                  = pt_neg c).
    { destruct HT as [[-> _]|[-> T]]; [left; reflexivity|right; eauto]. }
    exists (fun k => if (k <? N1)%nat then lo1 k else (s + lo2 (k - N1))%nat),
           (fun k => if (k <? N1)%nat then hi1 k else (s + hi2 (k - N1))%nat).
    split.
    { intros _. destruct (Nat.ltb_spec 0 N1); [apply A0; lia|lia]. }
    intros k Hk.
    destruct (Nat.ltb_spec k N1) as [Hlt|Hge].
    + destruct (A k Hlt) as (R & O & (w & a1 & a2 & Hw' & T1 & T2 & F) & E0 & E3).
      split; [lia|]. split.
      { intros Hk1. destruct (Nat.ltb_spec (k + 1) N1) as [Hlt1|Hge1].
        - apply O, Hlt1.
        - lia. }
      rewrite (window_eq (bez st') (bez st1) (b + 4 * k)); [
        |exact L2|rewrite L2, L1; lia|intros i Hi; apply Fr; lia].
      rewrite !Fr by lia. split; [|auto].
      exists w, a1, a2. split; [exact Hw'|]. split; [|split; [|exact F]].
      * destruct T1 as [T|[T|(c & T & Tc)]]; [left; exact T|right; left; exact T|].
        right; right. exists c. split; [|exact Tc].
        apply (center_tangent_longer d _ (s + 1)); [lia|exact T].
      * destruct T2 as [T|[[G T]|T]]; [left; exact T| |].
        -- subst a2. destruct HT2 as [T|T]; [left; exact T|].
           right; right. replace (hi1 k) with s by lia. exact T.
        -- right; right. apply (center_tangent_longer d _ (s + 1)); [lia|exact T].
    + destruct (B (k - N1)%nat ltac:(lia)) as (R & O & (w & a1 & a2 & Hw' & T1 & T2 & F) & E0 & E3).
      replace (b + N1 * 4 + 4 * (k - N1))%nat with (b + 4 * k)%nat in F, E0, E3 by lia.
      rewrite skipn_skipn in F. rewrite !at_skipn in E0, E3.
      split; [lia|]. split.
      { intros Hk1. destruct (Nat.ltb_spec (k + 1) N1) as [Hlt1|Hge1]; [lia|].
        replace (k + 1 - N1)%nat with (k - N1 + 1)%nat by lia.
        specialize (O ltac:(lia)). lia. }
      split; [|auto].
      exists w, a1, a2. split; [exact Hw'|]. split; [|split].
      * destruct T1 as [T|[[G T]|(c & T & Tc)]]; [left; exact T| |].
        -- subst a1. rewrite G, Nat.add_0_r.
           destruct HT1 as [T|(c & T & Tc)]; [left; exact T|].
           right; right. exists c. auto.
        -- right; right. exists c. split; [|exact Tc].
           apply (center_tangent_skipn d s _ (n - s)); [lia|exact T].
      * destruct T2 as [T|[[G T]|T]]; [left; exact T| |].
        -- right; left. split; [lia|exact T].
        -- right; right. apply (center_tangent_skipn d s _ (n - s)); [lia|exact T].
      * replace (lo2 (k - N1) + s)%nat with (s + lo2 (k - N1))%nat in F by lia.
        replace (hi2 (k - N1) - lo2 (k - N1) + 1)%nat
          with (s + hi2 (k - N1) - (s + lo2 (k - N1)) + 1)%nat in F by lia.
        destruct F as [[F1 F2]|[F1 F2]]; [left|right]; (split; [lia|exact F2]).
  - apply (holds_segments_retry _ _ _ _ t1 t2 unconstrained_tangent t2); auto.
    refine (IH _ _ _ _ _ _ _ _ _ _ _ Hm _ H HN). rewrite length_store4; lia.
  - apply (holds_segments_retry _ _ _ _ t1 t2 t1 unconstrained_tangent); auto.
    refine (IH _ _ _ _ _ _ _ _ _ _ _ Hm _ H HN). rewrite length_store4; lia.
  - discriminate.
Qed.

(** C2: a call of [sp_bezier_fit_cubic_full] with a budget [max_beziers >= 1]
    that returns a count [N >= 0] returns [N <= max_beziers].  When the
    output buffer has room for the budget, its first [4 * N] entries (from
    [bezier] on) hold the [N] result segments: entries [4 * k .. 4 * k + 3]
    are the segment fitted to a range of the data (the segment of the
    two-point case, or one the attempts accepted, with the tangents the
    driver gives the ends of the range), from the first to the last point of
    the range, and the ranges follow each other in the data.
    Nothing of the buffer outside these [4 * N] entries is changed.  When the
    call splits, the left half's segments start at [bezier], the right half's
    at [bezier + 4 * nsegs1], right behind them and without touching them,
    and [N = nsegs1 + nsegs2]. *)
Theorem count_within_budget (fuel : nat) (st : store) (b : nat) (sp : option nat)
        (d : list QPointF) (len : Z) (tHat1 tHat2 : QPointF) (error : double)
        (max_beziers : Z) (N : Z) (st' : store) :
  (1 <= max_beziers < 2 ^ 32)%Z ->
  sp_bezier_fit_cubic_full fuel st (Some b) sp (Some d) len tHat1 tHat2 error max_beziers
  = Ret (N, st') ->
  (0 <= N)%Z ->
  (N <= max_beziers)%Z
  /\ length (bez st') = length (bez st)
  /\ ((b + 4 * Z.to_nat max_beziers <= length (bez st))%nat ->
      holds_segments (bez st') b d (Z.to_nat len) tHat1 tHat2 error (Z.to_nat N))
  /\ (forall i, (i < b \/ b + 4 * Z.to_nat N <= i)%nat -> at_ (bez st') i = at_ (bez st) i)
  /\ (forall fuel' st0 is_corner splitPoint,
         fuel = S fuel' ->
         split_block (sp_bezier_fit_cubic_full fuel') st0 b sp d len tHat1 tHat2 error
                     max_beziers is_corner splitPoint = Ret (N, st') ->
         exists s recTHat2 recTHat1 nsegs1 st1 nsegs2,
           splitPoint = Some s
           /\ sp_bezier_fit_cubic_full fuel' st0 (Some b) sp (Some d) (Z.of_nat s + 1)
                tHat1 recTHat2 error (max_beziers - 1) = Ret (nsegs1, st1)
           /\ (1 <= nsegs1 <= max_beziers - 1)%Z
           /\ sp_bezier_fit_cubic_full fuel'
                (store_split st1 sp (Z.to_nat (nsegs1 - 1)) (Z.of_nat s))
                (Some (b + Z.to_nat nsegs1 * 4)%nat)
                (option_map (fun p => (p + Z.to_nat nsegs1)%nat) sp)
                (Some (skipn s d)) (len - Z.of_nat s) recTHat1 tHat2
                error (max_beziers - nsegs1) = Ret (nsegs2, st')
           /\ (0 <= nsegs2)%Z
           /\ N = (nsegs1 + nsegs2)%Z
           /\ (forall i, (i < b + 4 * Z.to_nat nsegs1)%nat ->
                         at_ (bez st') i = at_ (bez st1) i)).
Proof.
  intros Hm H HN.
  pose proof (full_shape _ _ _ _ _ _ _ _ _ _ _ _ H ltac:(lia) HN) as F.
  pose proof (fits_count _ _ _ _ _ _ _ _ F ltac:(lia)) as Hc.
  destruct (fits_frame _ _ _ _ _ _ _ _ F ltac:(lia)) as [L Fr].
  split; [lia|]. split; [exact L|]. split; [|split; [exact Fr|]].
  - intros Hroom. refine (full_holds fuel _ _ _ _ _ _ _ _ _ _ _ _ Hroom H HN). lia.
  - intros fuel' st0 is_corner splitPoint _ Hs.
    eapply split_block_merge; eauto. lia.
Qed.

(** *** The hook ratio of a pair of consecutive points *)

(** The point of the cubic [bz] at parameter [t]. *)
Definition curve_pt (bz : list QPointF) (t : double) : QPointF :=
  let s := (d1 - t)%D in
  fold_left
    (fun ret i =>
       pt_add ret (pt_mul (of_Z (pascal 3 i) * dpow s (3 - i) * dpow t i)%D (at_ bz i)))
    (seq 1 3) (pt_mul (dpow s 3) (at_ bz 0)).

Lemma bezier_pt_cubic (bz : list QPointF) (t : double) :
  bezier_pt 3 bz t = Ret (curve_pt bz t).
Proof. reflexivity. Qed.

(** The first of the two points [compute_max_error_ratio] hands to
    [compute_hook] in round [i]: its variable [prev]. *)
Definition pair_prev (u : list double) (bz : list QPointF) (i : nat) : QPointF :=
  if (i =? 1)%nat then at_ bz 0 else curve_pt bz (uat u (i - 1)).

(** The hook ratio of round [i], as the code computes it. *)
Definition hook_ratio (u : list double) (bz : list QPointF) (tolerance : double) (i : nat)
  : double :=
  let prev := pair_prev u bz i in
  let curr := curve_pt bz (uat u i) in
  let P := curve_pt bz (dlit 0.5 * (uat u (i - 1) + uat u i))%D in
  let dist := L2 (pt_sub (pt_mul (dlit 0.5) (pt_add prev curr)) P) in
  if (dist <? tolerance)%D then d0
  else (dist / (L2 (pt_sub curr prev) * dlit 0.2 + tolerance))%D.

(** The hook ratio of round [i] in the words of the claim C3: the distance
    from the curve at the midpoint parameter to the midpoint of the two data
    points, over the allowance when it exceeds the tolerance, else 0. *)
Definition hook_ratio_as_claimed (d : list QPointF) (u : list double) (bz : list QPointF)
           (tolerance : double) (i : nat) : double :=
  let P := curve_pt bz (dlit 0.5 * (uat u (i - 1) + uat u i))%D in
  let dist := L2 (pt_sub (pt_mul (dlit 0.5) (pt_add (at_ d (i - 1)) (at_ d i))) P) in
  if (dist >? tolerance)%D
  then (dist / (dlit 0.2 * L2 (pt_sub (at_ d i) (at_ d (i - 1))) + tolerance))%D
  else d0.

(** The running maximum of the hook ratios and the round it was found in. *)
Definition hook_max (u : list double) (bz : list QPointF) (tolerance : double)
           (acc : double * nat) (i : nat) : double * nat :=
  if (fst acc <? hook_ratio u bz tolerance i)%D then (hook_ratio u bz tolerance i, i)
  else acc.

Lemma mer_step_hook (d : list QPointF) (u : list double) (bz : list QPointF)
      (tol : double) (st : mer_state) (k : nat) :
  prev st = pair_prev u bz (S k) ->
  exists st',
    mer_step d u bz tol st (S k) = Ret st'
    /\ prev st' = pair_prev u bz (S (S k))
    /\ (max_hook_ratio st', snap_end st')
       = hook_max u bz tol (max_hook_ratio st, snap_end st) (S k).
Proof.
  intros Hp. unfold mer_step, compute_hook.
  rewrite !bezier_pt_cubic. cbn [bind].
  unfold hook_max, hook_ratio. cbv zeta. rewrite <- Hp. cbn [fst].
  set (dist := L2 _).
  destruct (_ <? lensq _)%D; destruct (dist <? tol)%D; cbn [bind];
    destruct (max_hook_ratio st <? _)%D; eexists; (split; [reflexivity|]);
      (split; reflexivity).
Qed.

(** The loop over the rounds [1 .. k] returns, with the running maximum of
    the hook ratios. *)
(** C3 (amended): in [compute_max_error_ratio] the hook ratio of the pair
    of consecutive points [i - 1], [i] is [hook_ratio]: the curve is
    evaluated at the midpoint parameter [0.5 * (u[i-1] + u[i])] and that
    point's distance is taken to the midpoint of the two curve points at
    [u[i-1]] and [u[i]] (for [i = 1] the first is the curve's first control
    point), not of the two data points; the ratio is 0 when the distance is
    below the tolerance, and else the distance over the allowance
    [0.2 * (distance between those two curve points) + tolerance].  The loop
    over the rounds [1 .. k] keeps the running maximum of these ratios. *)
Theorem hook_ratio_of_pairs (d : list QPointF) (u : list double) (bz : list QPointF)
        (tolerance : double) (splitPoint0 : option nat) (k : nat) :
  exists st,
    mer_loop d u bz tolerance (seq 1 k) (mkMer d0 d0 0 (at_ bz 0) splitPoint0) = Ret st
    /\ prev st = pair_prev u bz (S k)
    /\ (max_hook_ratio st, snap_end st)
       = fold_left (hook_max u bz tolerance) (seq 1 k) (d0, 0%nat).
Proof.
  unfold mer_loop.
  induction k as [|k (st & Hl & Hp & Hm)].
  - eexists. simpl. repeat split.
  - destruct (mer_step_hook d u bz tolerance st k Hp) as (st' & Hs & Hp' & Hm').
    exists st'. rewrite seq_S, !fold_left_app. cbn [fold_left Nat.add].
    rewrite Hl. cbn [bind]. split; [exact Hs|]. split; [exact Hp'|].
    rewrite Hm'. now rewrite Hm.
Qed.

(** *** Termination

    [stops r]: the computation did not run out of fuel, that is, the call
    it models comes to an end (it returns, or it aborts). *)
Definition stops {A : Type} (r : res A) : Prop := r <> OutOfFuel.

Lemma stops_Ret {A : Type} (a : A) : stops (Ret a).
Proof. discriminate. Qed.

Lemma stops_Abort {A : Type} : stops (@Abort A).
Proof. discriminate. Qed.

Lemma stops_bind {A B : Type} (m : res A) (k : A -> res B) :
  stops m -> (forall a, m = Ret a -> stops (k a)) -> stops (bind m k).
Proof.
  intros Hm Hk. destruct m; simpl; [now apply Hk|discriminate|now elim Hm].
Qed.

Create HintDb stops.
#[local] Hint Resolve stops_Ret stops_Abort : stops.

Lemma bezier_pt_stops (degree : nat) (V : list QPointF) (t : double) :
  stops (bezier_pt degree V t).
Proof. unfold bezier_pt. destruct (degree <? 4)%nat; auto with stops. Qed.

Lemma left_tangent_stops (d : list QPointF) (len : nat) :
  stops (sp_darray_left_tangent d len).
Proof.
  unfold sp_darray_left_tangent.
  destruct (2 <=? len)%nat; auto with stops.
  destruct (pt_neqb _ _); auto with stops.
Qed.

Lemma right_tangent_stops (d : list QPointF) (len : nat) :
  stops (sp_darray_right_tangent d len).
Proof.
  unfold sp_darray_right_tangent.
  destruct (2 <=? len)%nat; auto with stops.
  destruct (pt_neqb _ _); auto with stops.
Qed.

Lemma left_tangent_loop_stops (fuel : nat) : forall d len tol i,
  (i < len)%nat -> (len - i <= fuel)%nat ->
  stops (left_tangent_loop fuel d len tol i).
Proof.
  induction fuel as [|fuel IH]; intros d len tol i Hi Hf; [lia|].
  cbn [left_tangent_loop]. cbv zeta. destruct (_ <? _)%D; auto with stops.
  destruct (S i =? len)%nat eqn:E.
  - destruct (_ =? _)%D; auto with stops. apply left_tangent_stops.
  - apply Nat.eqb_neq in E. apply IH; lia.
Qed.

Lemma right_tangent_loop_stops (fuel : nat) : forall d len tol i,
  (i < fuel)%nat -> stops (right_tangent_loop fuel d len tol i).
Proof.
  induction fuel as [|fuel IH]; intros d len tol i Hi; [lia|].
  cbn [right_tangent_loop]. cbv zeta. destruct (_ <? _)%D; auto with stops.
  destruct (i =? 0)%nat eqn:E.
  - destruct (_ =? _)%D; auto with stops. apply right_tangent_stops.
  - apply Nat.eqb_neq in E. apply IH; lia.
Qed.

Lemma left_tangent_tol_stops (d : list QPointF) (len : nat) (tol : double) :
  stops (sp_darray_left_tangent_tol d len tol).
Proof.
  unfold sp_darray_left_tangent_tol.
  destruct (2 <=? len)%nat eqn:E; auto with stops. apply Nat.leb_le in E.
  destruct (_ <=? _)%D; auto with stops.
  apply left_tangent_loop_stops; lia.
Qed.

Lemma right_tangent_tol_stops (d : list QPointF) (len : nat) (tol : double) :
  stops (sp_darray_right_tangent_tol d len tol).
Proof.
  unfold sp_darray_right_tangent_tol.
  destruct (2 <=? len)%nat eqn:E; auto with stops. apply Nat.leb_le in E.
  destruct (_ <=? _)%D; auto with stops.
  apply right_tangent_loop_stops; lia.
Qed.

Lemma generate_bezier_stops (w d : list QPointF) (u : list double) (n : nat)
      (t1 t2 : QPointF) (e : double) :
  stops (generate_bezier w d u n t1 t2 e).
Proof.
  unfold generate_bezier.
  apply stops_bind.
  { destruct (is_zero t1); auto with stops. apply left_tangent_tol_stops. }
  intros a _. apply stops_bind.
  { destruct (is_zero t2); auto with stops. apply right_tangent_tol_stops. }
  intros a' _. destruct (is_zero t1); auto with stops.
Qed.

Section WithLaws.
Context {L : ArithLaws AR}.

(** The blending loop leaves at the latest in its ninth round. *)
Lemma nr_blend_stops (j : nat) : forall k fuel Q P u dl iu,
  (k + j = 8)%nat -> (j < fuel)%nat ->
  stops (nr_blend fuel Q P u dl (proportion k) iu).
Proof.
  induction j as [|j IH]; intros k fuel Q P u dl iu Hk Hf;
    (destruct fuel as [|fuel]; [lia|]); simpl.
  - replace k with 8%nat by lia.
    destruct (_ <? lensq _)%D; auto with stops.
    rewrite proportion_exceeds. auto with stops.
  - destruct (_ <? lensq _)%D; auto with stops.
    destruct (_ <? proportion k)%D; auto with stops.
    apply (IH (S k)); lia.
Qed.

Lemma NewtonRaphsonRootFind_stops (Q : list QPointF) (P : QPointF) (u : double) :
  stops (NewtonRaphsonRootFind Q P u).
Proof.
  unfold NewtonRaphsonRootFind.
  destruct (_ <=? u)%D; auto with stops.
  destruct (u <=? _)%D; auto with stops.
  cbn [bezier_pt Nat.ltb Nat.leb bind].
  apply (nr_blend_stops 8 0); unfold nr_fuel; lia.
Qed.

Lemma reparameterize_stops (d : list QPointF) (n : nat) (u : list double)
      (bz : list QPointF) :
  stops (reparameterize d n u bz).
Proof.
  unfold reparameterize.
  repeat (match goal with |- stops (if ?c then _ else _) => destruct c end;
          auto with stops).
  assert (H : forall l ru, stops ru ->
            stops (fold_left
                     (fun ru i => u <- ru ;;
                                  ui <- NewtonRaphsonRootFind bz (at_ d i) (uat u i) ;;
                                  Ret (upd i ui u)) l ru)).
  { induction l as [|i l IH]; intros ru Hru; simpl; [exact Hru|].
    apply IH. apply stops_bind; [exact Hru|].
    intros a _. apply stops_bind; [apply NewtonRaphsonRootFind_stops|].
    auto with stops. }
  apply H. auto with stops.
Qed.

End WithLaws.

Lemma compute_hook_stops (a b : QPointF) (u : double) (bz : list QPointF) (tol : double) :
  stops (compute_hook a b u bz tol).
Proof.
  unfold compute_hook. apply stops_bind; [apply bezier_pt_stops|].
  intros P _. destruct (_ <? _)%D; auto with stops.
Qed.

Lemma mer_step_stops d u bz tol st i : stops (mer_step d u bz tol st i).
Proof.
  unfold mer_step. apply stops_bind; [apply bezier_pt_stops|].
  intros c _. destruct (_ <? _)%D; (apply stops_bind; [apply compute_hook_stops|]);
    intros h _; destruct (_ <? _)%D; auto with stops.
Qed.

Lemma mer_loop_stops d u bz tol l : forall st, stops (mer_loop d u bz tol l (st)).
Proof.
  unfold mer_loop.
  assert (H : forall rst, stops rst ->
            stops (fold_left (fun rst i => st <- rst ;; mer_step d u bz tol st i) l rst)).
  { induction l as [|i l IH]; intros rst Hr; simpl; [exact Hr|].
    apply IH. apply stops_bind; [exact Hr|]. intros; apply mer_step_stops. }
  intros st. apply H. auto with stops.
Qed.

Lemma compute_max_error_ratio_stops d u n bz tol sp :
  stops (compute_max_error_ratio d u n bz tol sp).
Proof.
  unfold compute_max_error_ratio, mer_result.
  apply stops_bind.
  { repeat (match goal with |- stops (if ?c then _ else _) => destruct c end;
            auto with stops).
    apply stops_bind; [apply mer_loop_stops|]. intros st _.
    destruct (_ <=? _)%D; auto with stops. destruct (0 <? _)%nat; auto with stops. }
  intros [r s] _. destruct (mer_post _ _ _); auto with stops.
Qed.

Section Termination.
Context {L : ArithLaws AR}.

Lemma iterate_stops (k : nat) : forall d n t1 t2 e tol bz u r sp,
  stops (iterate k d n t1 t2 e tol bz u r sp).
Proof.
  induction k as [|k IH]; intros; simpl; auto with stops.
  apply stops_bind; [apply generate_bezier_stops|]. intros bz' _.
  apply stops_bind; [apply reparameterize_stops|]. intros u' _.
  apply stops_bind; [apply compute_max_error_ratio_stops|]. intros [r' sp'] _.
  destruct (_ <=? _)%D; auto with stops.
Qed.

Lemma fit_attempts_stops (w d : list QPointF) (n : nat) (t1 t2 : QPointF) (e : double) :
  stops (fit_attempts w d n t1 t2 e).
Proof.
  unfold fit_attempts.
  destruct (_ =? _)%D; auto with stops.
  apply stops_bind; [apply generate_bezier_stops|]. intros bz' _.
  apply stops_bind; [apply reparameterize_stops|]. intros u' _.
  apply stops_bind; [apply compute_max_error_ratio_stops|]. intros [r' sp'] _.
  destruct (_ <=? _)%D; auto with stops.
  destruct (_ && _); auto with stops.
  apply stops_bind; [apply iterate_stops|]. auto with stops.
Qed.

(** The end tangents that can still be given up in a retry. *)
Definition constrained (t1 t2 : QPointF) : nat :=
  ((if is_zero t1 then 0 else 1) + (if is_zero t2 then 0 else 1))%nat.

Lemma is_zero_unconstrained : is_zero unconstrained_tangent = true.
Proof.
  unfold is_zero, isNull, unconstrained_tangent; simpl.
  now rewrite zero_eq_zero.
Qed.

Lemma corner_block_RetryLeft c sp n t1 t2 :
  corner_block c sp n t1 t2 = RetryLeft -> is_zero t1 = false.
Proof.
  unfold corner_block.
  destruct c; [|discriminate]. destruct sp as [s|]; [|discriminate].
  destruct (negb _); [discriminate|].
  destruct (s =? 0)%nat.
  - destruct (is_zero t1); [discriminate|reflexivity].
  - destruct (s =? n - 1)%nat; [|discriminate].
    destruct (is_zero t2); discriminate.
Qed.

Lemma corner_block_RetryRight c sp n t1 t2 :
  corner_block c sp n t1 t2 = RetryRight -> is_zero t2 = false.
Proof.
  unfold corner_block.
  destruct c; [|discriminate]. destruct sp as [s|]; [|discriminate].
  destruct (negb _); [discriminate|].
  destruct (s =? 0)%nat.
  - destruct (is_zero t1); discriminate.
  - destruct (s =? n - 1)%nat; [|discriminate].
    destruct (is_zero t2); [discriminate|reflexivity].
Qed.

Lemma constrained_le_2 (t1 t2 : QPointF) : (constrained t1 t2 <= 2)%nat.
Proof. unfold constrained. destruct (is_zero t1), (is_zero t2); simpl; lia. Qed.

(** A call with budget [m] and [c] constrained end tangents nests at most
    [3 * (m - 1) + c + 1] calls: a retry gives up one constrained tangent
    and keeps the budget, a call on a half has a smaller budget. *)
Lemma full_stops (fuel : nat) : forall st bezier sp data len t1 t2 e m,
  (0 <= m < 2 ^ 32)%Z ->
  (1 <= fuel)%nat ->
  (3 * Z.to_nat m + constrained t1 t2 <= fuel + 2)%nat ->
  stops (sp_bezier_fit_cubic_full fuel st bezier sp data len t1 t2 e m).
Proof.
  induction fuel as [|fuel IH]; intros st bezier sp data len t1 t2 e m Hm Hf1 Hf; [lia|].
  cbn [sp_bezier_fit_cubic_full].
  destruct bezier as [b|]; [|destruct data; auto with stops].
  destruct data as [d|]; auto with stops.
  destruct (negb (0 <? len)%Z); auto with stops.
  destruct (1 <=? m)%Z eqn:Hm1; cbn [negb]; auto with stops.
  apply Z.leb_le in Hm1.
  destruct (negb (_ <=? _)%D); auto with stops.
  destruct (len <? 2)%Z; auto with stops.
  destruct (len =? 2)%Z; auto with stops.
  apply stops_bind; [apply fit_attempts_stops|]. intros a _.
  destruct a as [[bz|bz r spt]|]; auto with stops.
  cbv zeta.
  destruct (corner_block _ _ _ _ _) as [spt'| | |] eqn:Hcb; auto with stops.
  - unfold split_block.
    destruct (1 <? m)%Z eqn:Hm2; auto with stops. apply Z.ltb_lt in Hm2.
    destruct spt' as [s|]; auto with stops. cbv zeta.
    destruct (_ && negb _); auto with stops.
    apply stops_bind.
    { destruct (_ <? _)%D; auto with stops.
      unfold sp_darray_center_tangent.
      destruct (negb _); auto with stops. destruct (_ <? _)%nat; auto with stops. }
    intros recT2 _.
    apply stops_bind.
    { apply IH; rewrite ?u32_small by lia; try lia.
      pose proof (constrained_le_2 t1 recT2). lia. }
    intros [n1 st2] H1.
    destruct (n1 <? 0)%Z eqn:Hn1; auto with stops. apply Z.ltb_ge in Hn1.
    destruct (n1 =? 0)%Z eqn:Hn10; cbn [negb]; auto with stops.
    apply Z.eqb_neq in Hn10.
    rewrite u32_small in H1 by lia.
    pose proof (full_shape _ _ _ _ _ _ _ _ _ _ _ _ H1 ltac:(lia) Hn1) as F1.
    pose proof (fits_count _ _ _ _ _ _ _ _ F1 ltac:(lia)) as Hc1.
    apply stops_bind.
    { apply IH; rewrite ?u32_small by lia; try lia.
      match goal with |- context [constrained ?a ?b] =>
        pose proof (constrained_le_2 a b) end. lia. }
    intros [n2 st4] _. destruct (n2 <? 0)%Z; auto with stops.
  - apply corner_block_RetryLeft in Hcb.
    unfold constrained in Hf. rewrite Hcb in Hf.
    apply IH; unfold constrained; rewrite ?is_zero_unconstrained; lia.
  - apply corner_block_RetryRight in Hcb.
    unfold constrained in Hf. rewrite Hcb in Hf.
    apply IH; unfold constrained; rewrite ?is_zero_unconstrained;
      destruct (is_zero t1); lia.
Qed.

(** C9 (amended): every call of [sp_bezier_fit_cubic_full] with a budget
    [max_beziers >= 1] comes to an end, and the depth of its recursion,
    retries with an unconstrained end tangent and calls on the two halves
    counted alike, is at most [3 * max_beziers]: that much fuel is never
    used up.  (A retry keeps the budget of its caller, so the budget alone
    does not bound the depth.) *)
Theorem recursion_depth (fuel : nat) (st : store) (bezier split_points : option nat)
        (data : option (list QPointF)) (len : Z) (tHat1 tHat2 : QPointF)
        (error : double) (max_beziers : Z) :
  (1 <= max_beziers < 2 ^ 32)%Z ->
  (3 * Z.to_nat max_beziers <= fuel)%nat ->
  sp_bezier_fit_cubic_full fuel st bezier split_points data len tHat1 tHat2
                           error max_beziers <> OutOfFuel.
Proof.
  intros Hm Hf. apply full_stops; try lia.
  pose proof (constrained_le_2 tHat1 tHat2). lia.
Qed.

End Termination.

(** *** The split point [compute_max_error_ratio] leaves *)

Section ErrorRatio.
Context {L : ArithLaws AR}.

Lemma curve_pt_one_x (bz : list QPointF) : eq_or_nan (px (curve_pt bz d1)) (px (at_ bz 3)).
Proof.
  unfold curve_pt. cbn [seq fold_left pascal nth Nat.sub].
  rewrite bernstein_one_0, bernstein_one_1, bernstein_one_2, bernstein_one_3.
  cbn [pt_add pt_mul px py]. rewrite mul_one_r.
  apply zn_add_l. apply add_zn; [apply add_zn|]; apply mul_zero_r.
Qed.

Lemma curve_pt_one_y (bz : list QPointF) : eq_or_nan (py (curve_pt bz d1)) (py (at_ bz 3)).
Proof.
  unfold curve_pt. cbn [seq fold_left pascal nth Nat.sub].
  rewrite bernstein_one_0, bernstein_one_1, bernstein_one_2, bernstein_one_3.
  cbn [pt_add pt_mul px py]. rewrite mul_one_r.
  apply zn_add_l. apply add_zn; [apply add_zn|]; apply mul_zero_r.
Qed.

Lemma distsq_last (bz : list QPointF) (p : QPointF) :
  pt_eqb (at_ bz 3) p = true -> zn (lensq (pt_sub (curve_pt bz d1) p)).
Proof.
  unfold pt_eqb. intros H. apply andb_prop in H as [Hx Hy].
  unfold lensq, dot. cbn [pt_sub px py].
  apply add_zn; apply mul_zn.
  - eapply sub_zn; [apply curve_pt_one_x|exact Hx].
  - eapply sub_zn; [apply curve_pt_one_y|exact Hy].
Qed.

(** What the loop keeps true, after the rounds [1 .. k]. *)
Definition mer_inv (last : nat) (sp0 : option nat) (k : nat) (st : mer_state) : Prop :=
  (d0 <=? maxDistsq st)%D = true
  /\ ((exists i, splitPoint st = Some i /\ 1 <= i <= k /\ i < last)%nat
      \/ (maxDistsq st = d0 /\ splitPoint st = sp0))
  /\ (d0 <=? max_hook_ratio st)%D = true
  /\ ((snap_end st = 0%nat /\ max_hook_ratio st = d0) \/ (1 <= snap_end st <= k)%nat).

Lemma mer_step_inv d u bz tol last sp0 k st st' :
  pt_eqb (at_ bz 3) (at_ d last) = true ->
  (uat u last =? d1)%D = true ->
  (k < last)%nat ->
  mer_inv last sp0 k st ->
  mer_step d u bz tol st (S k) = Ret st' ->
  mer_inv last sp0 (S k) st'.
Proof.
  intros Hb Hu Hk (Im & Isp & Ih & Ise) H.
  unfold mer_step in H. rewrite bezier_pt_cubic in H. cbn [bind] in H.
  assert (Hlast : S k = last -> (maxDistsq st <? lensq (pt_sub (curve_pt bz (uat u (S k))) (at_ d (S k))))%D = false).
  { intros E. rewrite E. rewrite (eq_one_leibniz _ Hu).
    apply zn_not_gt; [apply distsq_last, Hb|exact Im]. }
  destruct (maxDistsq st <? lensq _)%D eqn:E1.
  - apply bind_Ret in H as (h & _ & H).
    assert (Hk' : (S k < last)%nat).
    { destruct (Nat.eq_dec (S k) last) as [E|E]; [specialize (Hlast E); discriminate|lia]. }
    destruct (max_hook_ratio st <? h)%D eqn:E2; injection H as <-;
      unfold mer_inv; cbn [maxDistsq max_hook_ratio snap_end splitPoint].
    + split; [apply (le_lt_trans0 _ _ Im E1)|].
      split; [left; exists (S k); repeat split; lia|].
      split; [apply (le_lt_trans0 _ _ Ih E2)|right; lia].
    + split; [apply (le_lt_trans0 _ _ Im E1)|].
      split; [left; exists (S k); repeat split; lia|].
      split; [exact Ih|].
      destruct Ise as [?|?]; [left; assumption|right; lia].
  - apply bind_Ret in H as (h & _ & H).
    assert (Isp' : (exists i, splitPoint st = Some i /\ 1 <= i <= S k /\ i < last)%nat
                   \/ (maxDistsq st = d0 /\ splitPoint st = sp0)).
    { destruct Isp as [(i & ? & ? & ?)|?]; [left; exists i; repeat split; auto; lia|right; assumption]. }
    destruct (max_hook_ratio st <? h)%D eqn:E2; injection H as <-;
      unfold mer_inv; cbn [maxDistsq max_hook_ratio snap_end splitPoint].
    + split; [exact Im|]. split; [exact Isp'|].
      split; [apply (le_lt_trans0 _ _ Ih E2)|right; lia].
    + split; [exact Im|]. split; [exact Isp'|]. split; [exact Ih|].
      destruct Ise as [?|?]; [left; assumption|right; lia].
Qed.

Lemma mer_loop_inv d u bz tol last sp0 (k : nat) : forall st,
  pt_eqb (at_ bz 3) (at_ d last) = true ->
  (uat u last =? d1)%D = true ->
  (k <= last)%nat ->
  mer_loop d u bz tol (seq 1 k) (mkMer d0 d0 0 (at_ bz 0) sp0) = Ret st ->
  mer_inv last sp0 k st.
Proof.
  induction k as [|k IH]; intros st Hb Hu Hk H.
  - injection H as <-. unfold mer_inv; cbn.
    repeat split; try apply zero_le_zero; auto.
  - unfold mer_loop in H. rewrite seq_S, fold_left_app in H. cbn [fold_left Nat.add] in H.
    apply bind_Ret in H as (st1 & H1 & H).
    eapply mer_step_inv; eauto. apply IH; auto. lia.
Qed.

Lemma mer_result_post d u n bz tol sp0 ret sp :
  mer_result d u n bz tol sp0 = Ret (ret, sp) -> mer_post (n - 1) ret sp = true.
Proof.
  unfold mer_result. intros H.
  destruct (2 <=? n)%nat eqn:Hn; [|discriminate].
  destruct (pt_eqb (at_ bz 0) _); [|discriminate].
  destruct (pt_eqb (at_ bz 3) _) eqn:Hb; [|discriminate].
  destruct (uat u 0 =? d0)%D; [|discriminate].
  destruct (uat u (n - 1) =? d1)%D eqn:Hu; [|discriminate].
  apply bind_Ret in H as (st & Hl & H).
  apply mer_loop_inv with (last := (n - 1)%nat) in Hl; auto.
  destruct Hl as (Im & Isp & Ih & Ise).
  unfold mer_post.
  destruct (max_hook_ratio st <=? _)%D eqn:E.
  - injection H as <- <-.
    destruct Isp as [(i & -> & Hi1 & Hi2)|[Hm0 Hsp]].
    + apply orb_true_iff. right.
      destruct (Nat.ltb_spec i (n - 1)); [|lia].
      destruct (Nat.eqb_spec i 0); [lia|]. reflexivity.
    + apply orb_true_iff. left.
      rewrite Hm0, sqrt_zero.
      destruct (div_zero_l tol) as [Z|Z]; [exact Z|].
      rewrite Hm0, sqrt_zero in E. apply le_not_nan_r in E. congruence.
  - destruct (0 <? snap_end st)%nat eqn:E2; [|discriminate].
    injection H as <- <-. apply Nat.ltb_lt in E2.
    destruct Ise as [[? ?]|?]; [lia|].
    destruct (neg_nonneg _ Ih) as [N|N]; rewrite N.
    + rewrite orb_true_r, andb_true_r.
      destruct (Nat.ltb_spec (snap_end st - 1) (n - 1)); [|lia]. apply orb_true_r.
    + reflexivity.
Qed.
Lemma mer_loop_Ret d u bz tol l : forall st, exists st', mer_loop d u bz tol l st = Ret st'.
Proof.
  unfold mer_loop.
  induction l as [|i l IH] using rev_ind; intros st.
  - eexists; reflexivity.
  - destruct (IH st) as (st1 & H1). rewrite fold_left_app, H1. cbn [fold_left bind].
    unfold mer_step, compute_hook. rewrite !bezier_pt_cubic. cbn [bind].
    destruct (_ <? lensq _)%D; destruct (L2 _ <? tol)%D; cbn [bind];
      destruct (max_hook_ratio st1 <? _)%D; eexists; reflexivity.
Qed.

Lemma mer_result_returns d u n bz tol sp0 :
  (2 <= n)%nat ->
  pt_eqb (at_ bz 0) (at_ d 0) = true ->
  pt_eqb (at_ bz 3) (at_ d (n - 1)) = true ->
  (uat u 0 =? d0)%D = true ->
  (uat u (n - 1) =? d1)%D = true ->
  (d0 <? tol)%D = true -> isFinite tol = true ->
  exists ret sp, mer_result d u n bz tol sp0 = Ret (ret, sp).
Proof.
  intros Hn H0 H3 Hu0 Hu1 Ht Hf. unfold mer_result.
  destruct (Nat.leb_spec 2 n); [|lia].
  rewrite H0, H3, Hu0, Hu1.
  destruct (mer_loop_Ret d u bz tol (seq 1 (n - 1)) (mkMer d0 d0 0 (at_ bz 0) sp0))
    as (st & Hl).
  rewrite Hl. cbn [bind].
  pose proof (mer_loop_inv d u bz tol (n - 1) sp0 (n - 1) st H3 Hu1 (le_n _) Hl)
    as (Im & Isp & Ih & Ise).
  destruct (max_hook_ratio st <=? _)%D eqn:E; [eexists; eexists; reflexivity|].
  destruct Ise as [[Hs Hm]|Hs].
  - rewrite Hm in E.
    rewrite (div_nonneg _ _ (sqrt_nonneg _ Im) Ht Hf) in E. discriminate.
  - destruct (Nat.ltb_spec 0 (snap_end st)); [|lia]. eexists; eexists; reflexivity.
Qed.

Lemma compute_Ret_post d u n bz tol sp0 r sp :
  compute_max_error_ratio d u n bz tol sp0 = Ret (r, sp) -> mer_post (n - 1) r sp = true.
Proof.
  unfold compute_max_error_ratio. intros H.
  apply bind_Ret in H as ([r' sp'] & _ & H). cbv zeta in H.
  destruct (mer_post (n - 1) r' sp') eqn:E; [|discriminate].
  injection H as <- <-. exact E.
Qed.

Lemma iterate_rejected (k : nat) : forall d n t1 t2 e tol bz u r0 sp0 bz' r sp,
  mer_post (n - 1) r0 sp0 = true -> (fabs r0 <=? d1)%D = false ->
  iterate k d n t1 t2 e tol bz u r0 sp0 = Ret (Rejected bz' r sp) ->
  mer_post (n - 1) r sp = true /\ (fabs r <=? d1)%D = false.
Proof.
  induction k as [|k IH]; intros d n t1 t2 e tol bz u r0 sp0 bz' r sp Hp Hf H; simpl in H.
  - injection H as _ <- <-. auto.
  - apply bind_Ret in H as (bz1 & _ & H).
    apply bind_Ret in H as (u1 & _ & H).
    apply bind_Ret in H as ([r1 sp1] & Hc & H).
    destruct (fabs r1 <=? d1)%D eqn:E; [discriminate|].
    eapply IH; [| |exact H]; [eapply compute_Ret_post, Hc|exact E].
Qed.

Lemma fit_attempts_rejected w d n t1 t2 e bz r sp :
  fit_attempts w d n t1 t2 e = Ret (Some (Rejected bz r sp)) ->
  mer_post (n - 1) r sp = true /\ (fabs r <=? d1)%D = false.
Proof.
  unfold fit_attempts. intros H.
  destruct (_ =? _)%D; [discriminate|].
  apply bind_Ret in H as (bz1 & _ & H).
  apply bind_Ret in H as (u1 & _ & H).
  apply bind_Ret in H as ([r1 sp1] & Hc & H).
  destruct (fabs r1 <=? d1)%D eqn:E; [discriminate|].
  apply compute_Ret_post in Hc.
  destruct (_ && _).
  - apply bind_Ret in H as (a & Hi & H). injection H as ->.
    eapply iterate_rejected; eauto.
  - injection H as _ <- <-. auto.
Qed.

Lemma corner_block_in_range (n : nat) (r : double) (sp : option nat) (t1 t2 : QPointF) :
  (3 <= n)%nat ->
  mer_post (n - 1) r sp = true -> (fabs r <=? d1)%D = false ->
  corner_block (r <? d0)%D sp n t1 t2 = RetryLeft
  \/ exists s, corner_block (r <? d0)%D sp n t1 t2 = Proceed (Some s)
               /\ (0 < s < n - 1)%nat.
Proof.
  intros Hn Hp Hf. unfold mer_post in Hp.
  destruct (r =? d0)%D eqn:E0.
  { rewrite (eq0_accepted _ E0) in Hf. discriminate. }
  cbn [orb] in Hp. destruct sp as [s|]; [|discriminate].
  apply andb_prop in Hp as [Hs Hp]. apply Nat.ltb_lt in Hs.
  unfold corner_block.
  destruct (r <? d0)%D.
  - destruct (Nat.ltb_spec s n); [|lia]. cbn [negb].
    destruct (Nat.eqb_spec s 0) as [->|Hs0].
    + destruct (is_zero t1); [|left; reflexivity].
      right. exists 1%nat. split; [reflexivity|lia].
    + destruct (Nat.eqb_spec s (n - 1)); [lia|].
      right. exists s. split; [reflexivity|lia].
  - rewrite orb_false_r in Hp. apply negb_true_iff, Nat.eqb_neq in Hp.
    right. exists s. split; [reflexivity|lia].
Qed.

(** C10: on an input with [len >= 2], [u[0] == 0], [u[len - 1] == 1] and a
    curve whose end points are [d[0]] and [d[len - 1]], the last assertion
    of [compute_max_error_ratio] holds whenever it is reached, and with a
    positive finite tolerance the call returns: a value [== 0.0], or a value
    [v] with [*splitPoint < len - 1] and ([*splitPoint != 0] or [v < 0]).
    With the driver's handling of corners, a rejected attempt on at least
    three points either is retried with the left tangent unconstrained, or
    goes on to the split with [0 < splitPoint < len - 1], so that both
    halves, [splitPoint + 1] and [len - splitPoint] points, have at least
    two points. *)
Theorem split_point_in_range :
  (forall d u n bz tol sp0,
      (2 <= n)%nat ->
      pt_eqb (at_ bz 0) (at_ d 0) = true ->
      pt_eqb (at_ bz 3) (at_ d (n - 1)) = true ->
      (uat u 0 =? d0)%D = true ->
      (uat u (n - 1) =? d1)%D = true ->
      (forall ret sp, mer_result d u n bz tol sp0 = Ret (ret, sp) ->
                      mer_post (n - 1) ret sp = true)
      /\ ((d0 <? tol)%D = true -> isFinite tol = true ->
          exists ret sp,
            compute_max_error_ratio d u n bz tol sp0 = Ret (ret, sp)
            /\ ((ret =? d0)%D = true
                \/ exists s, sp = Some s /\ (s < n - 1)%nat
                             /\ (s <> 0%nat \/ (ret <? d0)%D = true))))
  /\ (forall w d n tHat1 tHat2 error bz r sp,
         (3 <= n)%nat ->
         fit_attempts w d n tHat1 tHat2 error = Ret (Some (Rejected bz r sp)) ->
         corner_block (r <? d0)%D sp n tHat1 tHat2 = RetryLeft
         \/ exists s, corner_block (r <? d0)%D sp n tHat1 tHat2 = Proceed (Some s)
                      /\ (2 <= s + 1)%nat /\ (2 <= n - s)%nat).
Proof.
  split.
  - intros d u n bz tol sp0 Hn H0 H3 Hu0 Hu1. split.
    + intros ret sp H. eapply mer_result_post, H.
    + intros Ht Hf.
      destruct (mer_result_returns d u n bz tol sp0 Hn H0 H3 Hu0 Hu1 Ht Hf)
        as (ret & sp & H).
      pose proof (mer_result_post _ _ _ _ _ _ _ _ H) as Hp.
      exists ret, sp. split.
      * unfold compute_max_error_ratio. rewrite H. cbn [bind]. now rewrite Hp.
      * unfold mer_post in Hp. apply orb_prop in Hp as [Hp|Hp]; [left; exact Hp|].
        right. destruct sp as [s|]; [|discriminate]. exists s.
        apply andb_prop in Hp as [Hs Hp]. apply Nat.ltb_lt in Hs.
        split; [reflexivity|]. split; [exact Hs|].
        apply orb_prop in Hp as [Hp|Hp]; [|right; exact Hp].
        left. apply negb_true_iff, Nat.eqb_neq in Hp. exact Hp.
  - intros w d n t1 t2 e bz r sp Hn H.
    destruct (fit_attempts_rejected _ _ _ _ _ _ _ _ _ H) as [Hp Hf].
    destruct (corner_block_in_range n r sp t1 t2 Hn Hp Hf) as [C|(s & C & Hs)];
      [left; exact C|].
    right. exists s. split; [exact C|lia].
Qed.

End ErrorRatio.

(** *** NewtonRaphsonRootFind *)

Section NewtonRaphson.
Context {L : ArithLaws AR} {RL : RoundingLaws AR}.

Definition sq_dist (Q : list QPointF) (P : QPointF) (t : double) : double :=
  lensq (pt_sub (curve_pt Q t) P).

Lemma nr_blend_improves (j : nat) : forall k fuel Q P u iu,
  (k + j = 8)%nat -> (j < fuel)%nat -> in_unit u -> in_unit iu ->
  exists u',
    nr_blend fuel Q P u (sq_dist Q P u) (proportion k) iu = Ret u'
    /\ in_unit u'
    /\ (sq_dist Q P u' >? sq_dist Q P u)%D = false.
Proof.
  induction j as [|j IH]; intros k fuel Q P u iu Hk Hf Hu Hi;
    (destruct fuel as [|fuel]; [lia|]); cbn [nr_blend]; rewrite bezier_pt_cubic;
    cbn [bind]; change (lensq (pt_sub (curve_pt Q iu) P)) with (sq_dist Q P iu).
  - replace k with 8%nat by lia.
    destruct (sq_dist Q P u <? sq_dist Q P iu)%D eqn:E.
    + rewrite proportion_exceeds. exists u. split; [reflexivity|].
      split; [exact Hu|apply ltb_irrefl].
    + exists iu. auto.
  - destruct (sq_dist Q P u <? sq_dist Q P iu)%D eqn:E.
    + destruct (d1 <? proportion k)%D.
      * exists u. split; [reflexivity|]. split; [exact Hu|apply ltb_irrefl].
      * apply (IH (S k)); try lia; [exact Hu|].
        apply blend_unit; [lia|exact Hi|exact Hu].
    + exists iu. auto.
Qed.

Lemma in_unit_0 : in_unit d0.
Proof. split; [apply zero_le_zero|apply zero_le_one]. Qed.

Lemma in_unit_1 : in_unit d1.
Proof. split; [apply zero_le_one|apply one_le_one]. Qed.

(** The step of [NewtonRaphsonRootFind] for [Q], [P] and [u]. *)
Definition newton_step_of (Q : list QPointF) (P : QPointF) (u : double) : res double :=
  let Q1 := map (fun i => pt_mul (of_Z 3) (pt_sub (at_ Q (i + 1)) (at_ Q i))) (seq 0 3) in
  let Q2 := map (fun i => pt_mul (of_Z 2) (pt_sub (at_ Q1 (i + 1)) (at_ Q1 i))) (seq 0 2) in
  Q_u <- bezier_pt 3 Q u ;;
  Q1_u <- bezier_pt 2 Q1 u ;;
  Q2_u <- bezier_pt 1 Q2 u ;;
  let diff := pt_sub Q_u P in
  Ret (newton_step u (dot diff Q1_u) (dot Q1_u Q1_u + dot diff Q2_u)%D).

Lemma clamp_in_unit (u x : double) :
  in_unit u ->
  in_unit (if negb (isFinite x) then u
           else if (x <? d0)%D then d0
           else if (x >? d1)%D then d1
           else x).
Proof.
  intros Hu. destruct (isFinite x) eqn:F; cbn [negb]; [|exact Hu].
  pose proof (finite_not_nan _ F) as N.
  pose proof (le_not_nan_r _ _ zero_le_zero) as N0.
  pose proof (le_not_nan_r _ _ zero_le_one) as N1.
  destruct (x <? d0)%D eqn:E0; [apply in_unit_0|].
  destruct (d1 <? x)%D eqn:E1; [apply in_unit_1|].
  split; apply not_lt_ge; assumption.
Qed.

(** C7: for a curve [Q], a point [P] and [u] in [[0, 1]],
    [NewtonRaphsonRootFind] returns a parameter [u'] in [[0, 1]] for which
    the squared distance from [P] to [Q(u')] is not greater than the one
    from [P] to [Q(u)]: the comparison [>] of the code is false, and [<=]
    holds when neither distance is a NaN.  When the Newton step is not
    finite, the [u] given is returned. *)
Theorem newton_raphson_improves (Q : list QPointF) (P : QPointF) (u : double) :
  in_unit u ->
  exists u' q q' step,
    NewtonRaphsonRootFind Q P u = Ret u'
    /\ in_unit u'
    /\ bezier_pt 3 Q u = Ret q /\ bezier_pt 3 Q u' = Ret q'
    /\ (lensq (pt_sub q' P) >? lensq (pt_sub q P))%D = false
    /\ (isNaN (lensq (pt_sub q' P)) = false -> isNaN (lensq (pt_sub q P)) = false ->
        (lensq (pt_sub q' P) <=? lensq (pt_sub q P))%D = true)
    /\ newton_step_of Q P u = Ret step
    /\ (isFinite step = false -> u' = u).
Proof.
  intros Hu. pose proof Hu as [H0 H1].
  unfold NewtonRaphsonRootFind, newton_step_of. rewrite H0, H1.
  cbn [bezier_pt Nat.ltb Nat.leb bind].
  match goal with
  | |- context [nr_blend nr_fuel Q P u ?dl ?p (if negb (isFinite ?st) then _ else _)] =>
      set (step := st); change dl with (sq_dist Q P u); change p with (proportion 0)
  end.
  destruct (nr_blend_improves 8 0 nr_fuel Q P u _ eq_refl ltac:(unfold nr_fuel; lia) Hu
                              (clamp_in_unit u step Hu)) as (u' & E & Hu' & Hd).
  exists u', (curve_pt Q u), (curve_pt Q u'), step.
  split; [exact E|]. split; [exact Hu'|].
  split; [reflexivity|]. split; [reflexivity|].
  split; [exact Hd|]. split; [intros N' N; apply not_lt_ge; assumption|].
  split; [reflexivity|].
  intros F. rewrite F in E. cbn [negb] in E.
  unfold nr_fuel in E. cbn [nr_blend] in E. rewrite bezier_pt_cubic in E. cbn [bind] in E.
  change (lensq (pt_sub (curve_pt Q u) P)) with (sq_dist Q P u) in E.
  rewrite ltb_irrefl in E. congruence.
Qed.


End NewtonRaphson.

(** *** chord_length_parameterize *)

(** The distance travelled along the path from [d[0]] to [d[i]], summed as
    the first loop of [chord_length_parameterize] sums it. *)
Fixpoint path_length (d : list QPointF) (i : nat) : double :=
  match i with
  | O => d0
  | S j => (path_length d j + L2 (pt_sub (at_ d (S j)) (at_ d j)))%D
  end.


Section ChordLength.
Context {L : ArithLaws AR} {RL : RoundingLaws AR}.

Lemma sums_loop (d : list QPointF) (n : nat) : forall s u,
  (1 <= s)%nat -> (s + n <= length u)%nat ->
  (forall j, (j < s)%nat -> uat u j = path_length d j) ->
  let u' := fold_left
              (fun u i =>
                 let dist := L2 (pt_sub (at_ d i) (at_ d (i - 1))) in
                 upd i (uat u (i - 1) + dist)%D u)
              (seq s n) u in
  length u' = length u
  /\ forall j, (j < s + n)%nat -> uat u' j = path_length d j.
Proof.
  induction n as [|n IH]; intros s u Hs Hl Hu; cbn [seq fold_left]; cbv zeta.
  - split; [reflexivity|]. intros j Hj. apply Hu. lia.
  - destruct (IH (S s) (upd s (uat u (s - 1) + L2 (pt_sub (at_ d s) (at_ d (s - 1))))%D u))
      as [E1 E2].
    + lia.
    + rewrite length_upd. lia.
    + intros j Hj. unfold uat in *. destruct (Nat.eq_dec j s) as [->|N].
      * rewrite nth_upd_eq by lia. rewrite (Hu (s - 1)%nat) by lia.
        destruct s as [|s]; [lia|]. cbn [path_length].
        replace (S s - 1)%nat with s by lia. reflexivity.
      * rewrite nth_upd_neq by lia. apply Hu. lia.
    + cbv zeta in E1, E2. rewrite E1, length_upd. split; [reflexivity|].
      intros j Hj. apply E2. lia.
Qed.

Lemma scale_loop (tot : double) (n : nat) : forall s u,
  (s + n <= length u)%nat ->
  let u' := fold_left (fun u i => upd i (uat u i / tot)%D u) (seq s n) u in
  length u' = length u
  /\ forall j, uat u' j = if ((s <=? j) && (j <? s + n))%nat then (uat u j / tot)%D
                          else uat u j.
Proof.
  induction n as [|n IH]; intros s u Hl; cbn [seq fold_left]; cbv zeta.
  - split; [reflexivity|]. intros j.
    destruct (s <=? j)%nat eqn:A, (j <? s + 0)%nat eqn:B; try reflexivity.
    apply Nat.leb_le in A. apply Nat.ltb_lt in B. lia.
  - destruct (IH (S s) (upd s (uat u s / tot)%D u)) as [E1 E2].
    + rewrite length_upd. lia.
    + cbv zeta in E1, E2. rewrite E1, length_upd. split; [reflexivity|].
      intros j. rewrite E2. unfold uat.
      destruct (Nat.eq_dec j s) as [->|N].
      * replace ((S s <=? s) && (s <? S s + n))%nat with false
          by (symmetry; apply andb_false_iff; left; apply Nat.leb_gt; lia).
        replace ((s <=? s) && (s <? s + S n))%nat with true
          by (symmetry; apply andb_true_iff; split;
              [apply Nat.leb_le|apply Nat.ltb_lt]; lia).
        rewrite nth_upd_eq by lia. reflexivity.
      * rewrite !nth_upd_neq by lia.
        replace ((S s <=? j) && (j <? S s + n))%nat
          with ((s <=? j) && (j <? s + S n))%nat; [reflexivity|].
        destruct (s <=? j)%nat eqn:A, (S s <=? j)%nat eqn:A',
                 (j <? s + S n)%nat eqn:B, (j <? S s + n)%nat eqn:B'; try reflexivity;
          repeat match goal with
                 | H : (_ <=? _)%nat = true |- _ => apply Nat.leb_le in H
                 | H : (_ <=? _)%nat = false |- _ => apply Nat.leb_gt in H
                 | H : (_ <? _)%nat = true |- _ => apply Nat.ltb_lt in H
                 | H : (_ <? _)%nat = false |- _ => apply Nat.ltb_ge in H
                 end; lia.
Qed.

Lemma path_finite (d : list QPointF) (n : nat) :
  isFinite (path_length d n) = true ->
  forall i, (i <= n)%nat ->
    isFinite (path_length d i) = true
    /\ (d0 <=? path_length d i)%D = true
    /\ (i < n -> (path_length d i <=? path_length d (S i))%D = true)%nat.
Proof.
  induction n as [|n IH]; intros F i Hi.
  - replace i with 0%nat by lia. split; [exact F|]. split; [apply zero_le_zero|lia].
  - cbn [path_length] in F. destruct (add_finite _ _ F) as [F1 F2].
    pose proof (hypot_nonneg _ _ F2) as P2.
    destruct (IH F1 n (le_n n)) as (_ & Pn & _).
    destruct (Nat.eq_dec i (S n)) as [->|N].
    + split; [exact F|]. split; [|lia]. cbn [path_length]. apply add_nonneg; assumption.
    + destruct (IH F1 i ltac:(lia)) as (Fi & Pi & Mi).
      split; [exact Fi|]. split; [exact Pi|]. intros Hlt.
      destruct (Nat.eq_dec i n) as [->|N'].
      * cbn [path_length]. apply add_nonneg_le; assumption.
      * apply Mi. lia.
Qed.

(** C6: for [len >= 2] points whose total chord length, summed as the
    code sums it, is positive and finite, [chord_length_parameterize] leaves
    [u[0] = 0.0], [u[len - 1] = 1.0] and [u[i - 1] <= u[i]] for every [i] in
    [[1, len - 1]]. *)
Theorem chord_length_parameters (d : list QPointF) (u : list double) (len : nat) :
  (2 <= len)%nat -> (len <= length u)%nat ->
  (d0 <? path_length d (len - 1))%D = true ->
  isFinite (path_length d (len - 1)) = true ->
  let u' := chord_length_parameterize d u len in
  uat u' 0 = d0
  /\ uat u' (len - 1) = d1
  /\ forall i, (1 <= i <= len - 1)%nat -> (uat u' (i - 1) <=? uat u' i)%D = true.
Proof.
  intros Hn Hl Hp Hf. unfold chord_length_parameterize.
  replace (2 <=? len)%nat with true by (symmetry; apply Nat.leb_le; lia).
  cbn [negb].
  destruct (sums_loop d (len - 1) 1 (upd 0 d0 u)) as [E1 E2].
  { lia. }
  { rewrite length_upd. lia. }
  { intros j Hj. replace j with 0%nat by lia. unfold uat.
    rewrite nth_upd_eq by lia. reflexivity. }
  cbv zeta in E1, E2. rewrite length_upd in E1.
  set (u1 := fold_left _ (seq 1 (len - 1)) (upd 0 d0 u)) in *.
  rewrite (E2 (len - 1)%nat) by lia.
  set (tot := path_length d (len - 1)) in *.
  rewrite (lt_neq0 _ Hp), Hf.
  destruct (scale_loop tot (len - 1) 1 u1) as [E3 E4]; [lia|].
  cbv zeta in E3, E4.
  set (u2 := fold_left _ (seq 1 (len - 1)) u1) in *.
  assert (U0 : uat u2 0 = d0).
  { rewrite E4. cbn [Nat.leb andb]. rewrite E2 by lia. reflexivity. }
  assert (Ui : forall j, (1 <= j < len)%nat -> uat u2 j = (path_length d j / tot)%D).
  { intros j Hj. rewrite E4.
    replace ((1 <=? j) && (j <? 1 + (len - 1)))%nat with true
      by (symmetry; apply andb_true_iff; split;
          [apply Nat.leb_le|apply Nat.ltb_lt]; lia).
    rewrite E2 by lia. reflexivity. }
  pose proof (path_finite d (len - 1) Hf) as PF. fold tot in PF.
  (* the entries below the last one *)
  assert (Below : forall v, v = d1 -> forall i, (1 <= i <= len - 1)%nat ->
            ((if (i - 1 =? len - 1)%nat then v else uat u2 (i - 1))
             <=? (if (i =? len - 1)%nat then v else uat u2 i))%D = true).
  { intros v -> i Hi.
    replace (i - 1 =? len - 1)%nat with false by (symmetry; apply Nat.eqb_neq; lia).
    destruct (Nat.eqb_spec i (len - 1)) as [->|N].
    - destruct (Nat.eq_dec (len - 1 - 1) 0) as [Z|Z].
      + rewrite Z, U0. apply zero_le_one.
      + rewrite Ui by lia.
        destruct (PF (len - 1 - 1)%nat ltac:(lia)) as (Fi & Pi & Mi).
        apply div_le_one; try assumption.
        replace (S (len - 1 - 1)) with (len - 1)%nat in Mi by lia.
        apply Mi. lia.
    - destruct (Nat.eq_dec (i - 1) 0) as [Z|Z].
      + rewrite Z, U0, Ui by lia.
        destruct (PF i ltac:(lia)) as (Fi & Pi & Mi).
        apply div_nonneg; assumption.
      + rewrite !Ui by lia.
        destruct (PF (i - 1)%nat ltac:(lia)) as (Fi & Pi & Mi).
        destruct (PF i ltac:(lia)) as (Fi' & Pi' & _).
        replace (S (i - 1)) with i in Mi by lia.
        apply div_mono; try assumption. apply Mi. lia. }
  destruct (uat u2 (len - 1) =? d1)%D eqn:E; cbn [negb].
  - apply eq_one_leibniz in E.
    split; [exact U0|]. split; [exact E|].
    intros i Hi. pose proof (Below _ E i Hi) as B.
    destruct (Nat.eqb_spec (i - 1) (len - 1)) as [A|A]; [lia|].
    destruct (Nat.eqb_spec i (len - 1)) as [A'|A']; [subst i; exact B|exact B].
  - unfold uat. split; [rewrite nth_upd_neq by lia; exact U0|].
    split; [rewrite nth_upd_eq by lia; reflexivity|].
    intros i Hi. pose proof (Below d1 eq_refl i Hi) as B.
    destruct (Nat.eqb_spec (i - 1) (len - 1)) as [A|A]; [lia|].
    rewrite (nth_upd_neq (len - 1) (i - 1)) by lia.
    destruct (Nat.eqb_spec i (len - 1)) as [A'|A'].
    + subst i. rewrite nth_upd_eq by lia. exact B.
    + rewrite nth_upd_neq by lia. exact B.
Qed.


End ChordLength.

(** ** The sanitation *)

(** The first [n] entries of [dest] have no NaN, and no two neighbours
    among them are equal. *)
Definition clean (dest : list QPointF) (n : nat) : Prop :=
  forall k, (k < n)%nat ->
    no_nan (at_ dest k) = true
    /\ ((S k < n)%nat -> pt_neqb (at_ dest (S k)) (at_ dest k) = true).

Lemma sanitized_clean (l : list QPointF) :
  clean l (length l) -> sanitized l = true.
Proof.
  unfold sanitized. induction l as [|a l IH]; intros H; [reflexivity|].
  assert (Hl : clean l (length l)).
  { intros k Hk. destruct (H (S k) ltac:(simpl; lia)) as [H1 H2].
    split; [exact H1|]. intros Hk'. apply H2. simpl. lia. }
  apply IH in Hl. apply andb_prop in Hl as [F U].
  destruct (H 0%nat ltac:(simpl; lia)) as [H1 H2].
  cbn [forallb]. unfold at_ in H1. simpl in H1. rewrite H1, F. cbn [andb].
  destruct l as [|b l]; [reflexivity|].
  change (uniqued (a :: b :: l)) with (pt_neqb b a && uniqued (b :: l)).
  rewrite U. specialize (H2 ltac:(simpl; lia)).
  unfold at_ in H2. simpl in H2. rewrite H2. reflexivity.
Qed.

Lemma clean_sanitized (l : list QPointF) :
  sanitized l = true -> clean l (length l).
Proof.
  unfold sanitized. induction l as [|a l IH]; intros H k Hk; [simpl in Hk; lia|].
  apply andb_prop in H as [F U]. cbn [forallb] in F. apply andb_prop in F as [Fa F].
  assert (Ul : uniqued l = true).
  { destruct l as [|b l]; [reflexivity|].
    change (uniqued (a :: b :: l)) with (pt_neqb b a && uniqued (b :: l)) in U.
    apply andb_prop in U as [_ U]. exact U. }
  specialize (IH ltac:(rewrite F, Ul; reflexivity)).
  destruct k as [|k].
  - split; [exact Fa|]. intros Hk'. destruct l as [|b l]; [simpl in Hk'; lia|].
    change (uniqued (a :: b :: l)) with (pt_neqb b a && uniqued (b :: l)) in U.
    apply andb_prop in U as [U _]. exact U.
  - destruct (IH k ltac:(simpl in Hk; lia)) as [H1 H2].
    split; [exact H1|]. intros Hk'. apply H2. simpl in Hk'. lia.
Qed.

Lemma at_firstn (l : list QPointF) (n k : nat) :
  (k < n)%nat -> at_ (firstn n l) k = at_ l k.
Proof.
  unfold at_. revert n k. induction l as [|a l IH]; intros [|n] [|k] H; simpl; try lia; auto.
  apply IH. lia.
Qed.

Lemma at_upd_eq (i : nat) (v : QPointF) (l : list QPointF) :
  (i < length l)%nat -> at_ (upd i v l) i = v.
Proof. apply nth_upd_eq. Qed.

Lemma at_upd_neq (i j : nat) (v : QPointF) (l : list QPointF) :
  i <> j -> at_ (upd i v l) j = at_ l j.
Proof. apply nth_upd_neq. Qed.

(** The second loop of the sanitation, from [src[s]] on. *)
Lemma copy_fold_inv (src dest0 : list QPointF) (src_len : nat) (k : nat) :
  forall s di dest idx,
    (s + k = src_len)%nat -> (src_len <= length dest0)%nat ->
    (di < s)%nat -> length dest = length dest0 ->
    clean dest (S di) ->
    (forall i, (i <= di)%nat -> at_ dest i = at_ src (idx i) /\ (idx i < s)%nat) ->
    (forall i j, (i < j <= di)%nat -> (idx i < idx j)%nat) ->
    (forall i, (di < i)%nat -> at_ dest i = at_ dest0 i) ->
    exists di' dest' idx',
      fold_left (copy_step src) (seq s k) (di, dest) = (di', dest')
      /\ (di <= di' < src_len)%nat /\ length dest' = length dest0
      /\ clean dest' (S di')
      /\ (forall i, (i <= di')%nat -> at_ dest' i = at_ src (idx' i) /\ (idx' i < src_len)%nat)
      /\ (forall i j, (i < j <= di')%nat -> (idx' i < idx' j)%nat)
      /\ (forall i, (i <= di)%nat -> idx' i = idx i)
      /\ (forall i, (di' < i)%nat -> at_ dest' i = at_ dest0 i).
Proof.
  induction k as [|k IH]; intros s di dest idx Hs Hl Hd Hlen Hc Hi Hm Hf.
  - exists di, dest, idx. cbn [seq fold_left].
    split; [reflexivity|]. split; [lia|]. split; [exact Hlen|]. split; [exact Hc|].
    split; [intros i Hi'; destruct (Hi i Hi'); split; [assumption|lia]|].
    split; [exact Hm|]. split; [reflexivity|exact Hf].
  - cbn [seq fold_left]. unfold copy_step at 2.
    destruct (pt_neqb (at_ src s) (at_ dest di) && negb (isNaN (px (at_ src s)))
              && negb (isNaN (py (at_ src s)))) eqn:E.
    + apply andb_prop in E as [E Ey]. apply andb_prop in E as [En Ex].
      destruct (IH (S s) (S di) (upd (S di) (at_ src s) dest)
                   (fun i => if (i =? S di)%nat then s else idx i))
        as (di' & dest' & idx' & F & B & L & C & I & M & K & Fr); try lia.
      * rewrite length_upd. exact Hlen.
      * intros j Hj. destruct (Nat.eq_dec j (S di)) as [->|N].
        -- rewrite at_upd_eq by lia. split; [|lia]. unfold no_nan. now rewrite Ex, Ey.
        -- rewrite at_upd_neq by lia. destruct (Hc j ltac:(lia)) as [H1 H2].
           split; [exact H1|]. intros _.
           destruct (Nat.eq_dec (S j) (S di)) as [Ej|Nj].
           ++ rewrite Ej. rewrite at_upd_eq by lia.
              replace j with di by lia. exact En.
           ++ rewrite at_upd_neq by lia. apply H2. lia.
      * intros i Hi'. destruct (Nat.eqb_spec i (S di)) as [->|N].
        -- rewrite at_upd_eq by lia. split; [reflexivity|lia].
        -- rewrite at_upd_neq by lia. destruct (Hi i ltac:(lia)). split; [assumption|lia].
      * intros i j Hij. destruct (Nat.eqb_spec i (S di)) as [->|Ni]; [lia|].
        destruct (Nat.eqb_spec j (S di)) as [->|Nj].
        -- destruct (Hi i ltac:(lia)). lia.
        -- apply Hm. lia.
      * intros i Hi'. rewrite at_upd_neq by lia. apply Hf. lia.
      * exists di', dest', idx'. split; [exact F|]. split; [lia|]. split; [exact L|].
        split; [exact C|]. split; [exact I|]. split; [exact M|].
        split; [|exact Fr].
        intros i Hi'. rewrite K by lia.
        destruct (Nat.eqb_spec i (S di)); [lia|reflexivity].
    + destruct (IH (S s) di dest idx) as (di' & dest' & idx' & F & B & L & C & I & M & K & Fr);
        try assumption; try lia.
      * intros i Hi'. destruct (Hi i Hi'). split; [assumption|lia].
      * exists di', dest', idx'. auto 10.
Qed.

(** X1: called on [src_len >= 1] points the first of which has no NaN
    coordinate, with room for [src_len] points in [dest],
    [copy_without_nans_or_adjacent_duplicates] returns a length [n] with
    [1 <= n <= src_len]; the first [n] entries of [dest] then hold no NaN
    and no two equal neighbours, they are points of [src] in their order
    of appearance, starting with [src[0]], and the entries of [dest] from
    [n] on are as before. *)
Theorem sanitation_sanitizes (fuel : nat) (src : list QPointF) (src_len : nat)
        (dest : list QPointF) :
  (0 < src_len <= length src)%nat -> (src_len <= length dest)%nat ->
  no_nan (at_ src 0) = true ->
  exists n dest' idx,
    copy_without_nans_or_adjacent_duplicates (S fuel) src src_len dest = Ret (n, dest')
    /\ (1 <= n <= src_len)%nat
    /\ length dest' = length dest
    /\ sanitized (firstn n dest') = true
    /\ idx 0%nat = 0%nat
    /\ (forall i, (i < n)%nat -> at_ dest' i = at_ src (idx i) /\ (idx i < src_len)%nat)
    /\ (forall i j, (i < j < n)%nat -> (idx i < idx j)%nat)
    /\ (forall i, (n <= i)%nat -> at_ dest' i = at_ dest i).
Proof.
  intros [Hl _] Hd Hn. unfold copy_without_nans_or_adjacent_duplicates.
  rewrite copy_first_found by assumption. cbn [bind].
  destruct (copy_fold_inv src dest src_len (src_len - 1) 1 0 (upd 0 (at_ src 0) dest)
                          (fun _ => 0%nat))
    as (di' & dest' & idx' & F & B & L & C & I & M & K & Fr); try lia.
  - apply length_upd.
  - intros k Hk. replace k with 0%nat by lia. rewrite at_upd_eq by lia. split; [exact Hn|lia].
  - intros i Hi. replace i with 0%nat by lia. rewrite at_upd_eq by lia. split; [reflexivity|lia].
  - intros i Hi. rewrite at_upd_neq by lia. reflexivity.
  - rewrite F.
    replace (di' + 1 <=? src_len)%nat with true by (symmetry; apply Nat.leb_le; lia).
    exists (di' + 1)%nat, dest', idx'. split; [reflexivity|]. split; [lia|].
    split; [exact L|]. split.
    + apply sanitized_clean.
      assert (Hlen : length (firstn (di' + 1) dest') = (di' + 1)%nat)
        by (rewrite length_firstn; lia).
      rewrite Hlen. intros k Hk. rewrite at_firstn by lia.
      destruct (C k ltac:(lia)) as [H1 H2]. split; [exact H1|].
      intros Hk'. rewrite at_firstn by lia. apply H2. lia.
    + split; [apply K; lia|]. split; [intros i Hi; apply I; lia|].
      split; [intros i j Hij; apply M; lia|]. intros i Hi. apply Fr. lia.
Qed.


Lemma upd_extends (d : list QPointF) : forall (s : nat) (dest0 : list QPointF),
  (s < length d)%nat -> (s < length dest0)%nat ->
  upd s (at_ d s) (firstn s d ++ skipn s dest0) = firstn (S s) d ++ skipn (S s) dest0.
Proof.
  induction d as [|a d IH]; intros [|s] [|c dest0] Hd Hl; simpl in *; try lia.
  - reflexivity.
  - f_equal. apply (IH s dest0); lia.
Qed.

Lemma copy_fold_id (d dest0 : list QPointF) (k : nat) : forall s,
  (1 <= s)%nat -> (s + k = length d)%nat -> (length d <= length dest0)%nat ->
  clean d (length d) ->
  fold_left (copy_step d) (seq s k) ((s - 1)%nat, firstn s d ++ skipn s dest0)
  = ((length d - 1)%nat, d ++ skipn (length d) dest0).
Proof.
  induction k as [|k IH]; intros s Hs Hk Hl Hc; cbn [seq fold_left].
  - replace s with (length d) by lia. now rewrite firstn_all.
  - unfold copy_step at 2.
    assert (E : at_ (firstn s d ++ skipn s dest0) (s - 1) = at_ d (s - 1)).
    { unfold at_. rewrite app_nth1 by (rewrite length_firstn; lia).
      apply at_firstn. lia. }
    rewrite E. destruct (Hc (s - 1)%nat ltac:(lia)) as [_ H2].
    replace (S (s - 1)) with s in H2 by lia. rewrite (H2 ltac:(lia)).
    destruct (Hc s ltac:(lia)) as [H1 _]. unfold no_nan in H1.
    apply andb_prop in H1 as [Hx Hy]. rewrite Hx, Hy. cbn [andb].
    replace (S (s - 1)) with s by lia.
    rewrite upd_extends by lia.
    pose proof (IH (S s) ltac:(lia) ltac:(lia) Hl Hc) as R.
    replace (S s - 1)%nat with s in R by lia. exact R.
Qed.

Lemma copy_sanitized (fuel : nat) (d dest : list QPointF) :
  sanitized d = true -> d <> [] -> (length d <= length dest)%nat ->
  copy_without_nans_or_adjacent_duplicates (S fuel) d (length d) dest
  = Ret (length d, d ++ skipn (length d) dest).
Proof.
  intros Hs Hn Hl. pose proof (clean_sanitized d Hs) as Hc.
  assert (H0 : (0 < length d)%nat) by (destruct d; [congruence|simpl; lia]).
  destruct (Hc 0%nat H0) as [N0 _].
  unfold copy_without_nans_or_adjacent_duplicates.
  rewrite copy_first_found by assumption. cbn [bind].
  replace (upd 0 (at_ d 0) dest) with (firstn 1 d ++ skipn 1 dest).
  2:{ rewrite <- (upd_extends d 0 dest) by lia. reflexivity. }
  pose proof (copy_fold_id d dest (length d - 1) 1 ltac:(lia) ltac:(lia) Hl Hc) as R.
  change (1 - 1)%nat with 0%nat in R. rewrite R.
  replace (length d - 1 + 1)%nat with (length d) by lia.
  rewrite Nat.leb_refl. reflexivity.
Qed.

(** X2: on input that is sanitized already (no NaN, no two equal
    neighbours) the sanitation is the identity: it returns the length of
    the input and has copied the input to the front of [dest]. *)
Theorem sanitation_keeps_sanitized (fuel : nat) (d dest : list QPointF) :
  sanitized d = true -> d <> [] -> (length d <= length dest)%nat ->
  copy_without_nans_or_adjacent_duplicates (S fuel) d (length d) dest
  = Ret (length d, d ++ skipn (length d) dest).
Proof. exact (copy_sanitized fuel d dest). Qed.

(** X3: when the first point of the input has a NaN coordinate, a call of
    [sp_bezier_fit_cubic_r] that passes its argument checks does not
    return: the first loop of the sanitation does not advance past that
    point, and the model runs out of fuel whatever fuel it is given. *)
Theorem leading_nan_never_returns (fuel : nat) (st : store) (b : nat) (d : list QPointF)
        (len : Z) (error : double) (max_beziers : Z) :
  (0 < len)%Z -> (Z.to_nat len <= length d)%nat -> (max_beziers < 2 ^ 25)%Z ->
  no_nan (at_ d 0) = false ->
  sp_bezier_fit_cubic_r fuel st (Some b) (Some d) len error max_beziers = OutOfFuel.
Proof.
  intros Hl _ Hm Hn. unfold sp_bezier_fit_cubic_r.
  replace (0 <? len)%Z with true by (symmetry; apply Z.ltb_lt; lia).
  replace (max_beziers <? Z.shiftl 1 (31 - 2 - 1 - 3))%Z with true
    by (symmetry; apply Z.ltb_lt; exact Hm).
  cbn [negb]. unfold copy_without_nans_or_adjacent_duplicates.
  rewrite copy_first_stuck by (try lia; exact Hn). reflexivity.
Qed.

Lemma copy_fold_coincident (d dest : list QPointF) (l : list nat) :
  (forall i, In i l -> no_nan (at_ d i) = false \/ pt_eqb (at_ d i) (at_ dest 0) = true) ->
  fold_left (copy_step d) l (0%nat, dest) = (0%nat, dest).
Proof.
  induction l as [|i l IH]; intros H; [reflexivity|]. cbn [fold_left].
  unfold copy_step at 2.
  replace (pt_neqb (at_ d i) (at_ dest 0) && negb (isNaN (px (at_ d i)))
           && negb (isNaN (py (at_ d i)))) with false.
  - apply IH. intros j Hj. apply H. now right.
  - symmetry. destruct (H i (or_introl eq_refl)) as [N|E].
    + unfold no_nan in N. rewrite <- andb_assoc, N. apply andb_false_r.
    + unfold pt_neqb. rewrite E. reflexivity.
Qed.

(** X4: when the first point has no NaN coordinate and every point after it
    either has one or equals the first point, [sp_bezier_fit_cubic_r]
    returns 0 and leaves the output buffer as it was. *)
Theorem coincident_points_give_no_segment (fuel : nat) (st : store) (b : nat)
        (d : list QPointF) (len : Z) (error : double) (max_beziers : Z) :
  (0 < len)%Z -> (Z.to_nat len <= length d)%nat -> (max_beziers < 2 ^ 25)%Z ->
  no_nan (at_ d 0) = true ->
  (forall i, (1 <= i < Z.to_nat len)%nat ->
             no_nan (at_ d i) = false \/ pt_eqb (at_ d i) (at_ d 0) = true) ->
  sp_bezier_fit_cubic_r (S fuel) st (Some b) (Some d) len error max_beziers
  = Ret (0%Z, st).
Proof.
  intros Hl _ Hm Hn Hall. unfold sp_bezier_fit_cubic_r.
  replace (0 <? len)%Z with true by (symmetry; apply Z.ltb_lt; lia).
  replace (max_beziers <? Z.shiftl 1 (31 - 2 - 1 - 3))%Z with true
    by (symmetry; apply Z.ltb_lt; exact Hm).
  cbn [negb]. unfold copy_without_nans_or_adjacent_duplicates.
  rewrite copy_first_found by (try lia; exact Hn). cbn [bind].
  rewrite copy_fold_coincident.
  - cbn [Nat.add]. replace (1 <=? Z.to_nat len)%nat with true
      by (symmetry; apply Nat.leb_le; lia).
    reflexivity.
  - intros i Hi. apply in_seq in Hi.
    rewrite at_upd_eq by (rewrite repeat_length; lia). apply Hall. lia.
Qed.

(** ** The tangents at the ends *)






(** ** The attempts at one segment *)

Section Fitting.
Context {L : ArithLaws AR} {RL : RoundingLaws AR} {FL : FitLaws AR}.

Lemma uat_upd_eq (i : nat) (v : double) (l : list double) :
  (i < length l)%nat -> uat (upd i v l) i = v.
Proof. apply nth_upd_eq. Qed.

Lemma uat_upd_neq (i j : nat) (v : double) (l : list double) :
  i <> j -> uat (upd i v l) j = uat l j.
Proof. apply nth_upd_neq. Qed.

Lemma uniform_loop (n0 : nat) (n : nat) : forall s u,
  (s + n <= length u)%nat ->
  let u' := fold_left
              (fun u i => upd i (of_Z (Z.of_nat i) / of_Z (Z.of_nat n0))%D u)
              (seq s n) u in
  length u' = length u
  /\ forall j, uat u' j = if ((s <=? j) && (j <? s + n))%nat
                          then (of_Z (Z.of_nat j) / of_Z (Z.of_nat n0))%D
                          else uat u j.
Proof.
  induction n as [|n IH]; intros s u Hl; cbn [seq fold_left]; cbv zeta.
  - split; [reflexivity|]. intros j.
    destruct (Nat.leb_spec s j), (Nat.ltb_spec j (s + 0)); try reflexivity. lia.
  - destruct (IH (S s) (upd s (of_Z (Z.of_nat s) / of_Z (Z.of_nat n0))%D u)) as [E1 E2].
    + rewrite length_upd. lia.
    + cbv zeta in E1, E2. rewrite E1, length_upd. split; [reflexivity|].
      intros j. rewrite E2. unfold uat.
      destruct (Nat.eq_dec j s) as [->|N].
      * destruct (Nat.leb_spec (S s) s), (Nat.ltb_spec s (S s + n)),
                 (Nat.leb_spec s s), (Nat.ltb_spec s (s + S n)); try lia; cbn [andb];
          rewrite nth_upd_eq by lia; reflexivity.
      * rewrite !nth_upd_neq by lia.
        destruct (Nat.leb_spec (S s) j), (Nat.ltb_spec j (S s + n)),
                 (Nat.leb_spec s j), (Nat.ltb_spec j (s + S n)); try lia; reflexivity.
Qed.

(** Every partial sum of a finite path is at most the whole. *)
Lemma path_le_total (d : list QPointF) (n : nat) :
  isFinite (path_length d n) = true ->
  forall i, (i <= n)%nat -> (path_length d i <=? path_length d n)%D = true.
Proof.
  intros F. pose proof (path_finite d n F) as PF.
  assert (H : forall k i, (i + k = n)%nat ->
                          (path_length d i <=? path_length d n)%D = true).
  { induction k as [|k IH]; intros i Hi.
    - replace i with n by lia. destruct (PF n (le_n n)) as (Fn & Pn & _).
      apply not_lt_ge; try (apply finite_not_nan, Fn). apply ltb_irrefl.
    - destruct (PF i ltac:(lia)) as (_ & Pi & Mi).
      apply (le_trans0 _ (path_length d (S i))); [exact Pi|apply Mi; lia|apply IH; lia]. }
  intros i Hi. apply (H (n - i)%nat). lia.
Qed.

Lemma chord_params (d : list QPointF) (u : list double) (len : nat) :
  (2 <= len)%nat -> (Z.of_nat len < 2 ^ 32)%Z -> (len <= length u)%nat ->
  (path_length d (len - 1) =? d0)%D = false ->
  let u' := chord_length_parameterize d u len in
  length u' = length u
  /\ uat u' 0 = d0
  /\ uat u' (len - 1) = d1
  /\ forall i, (i < len)%nat -> in_unit (uat u' i).
Proof.
  intros Hn H32 Hl Hp. unfold chord_length_parameterize.
  replace (2 <=? len)%nat with true by (symmetry; apply Nat.leb_le; lia).
  cbn [negb].
  destruct (sums_loop d (len - 1) 1 (upd 0 d0 u)) as [E1 E2].
  { lia. }
  { rewrite length_upd. lia. }
  { intros j Hj. replace j with 0%nat by lia. unfold uat.
    rewrite nth_upd_eq by lia. reflexivity. }
  cbv zeta in E1, E2. rewrite length_upd in E1.
  set (u1 := fold_left _ (seq 1 (len - 1)) (upd 0 d0 u)) in *.
  rewrite (E2 (len - 1)%nat) by lia.
  set (tot := path_length d (len - 1)) in *.
  rewrite Hp.
  assert (Final : forall u2 : list double,
             length u2 = length u -> uat u2 0 = d0 ->
             (forall j, (1 <= j < len)%nat -> in_unit (uat u2 j)) ->
             let u' := if (uat u2 (len - 1) !=? d1)%D then upd (len - 1) d1 u2 else u2 in
             length u' = length u /\ uat u' 0 = d0 /\ uat u' (len - 1) = d1
             /\ forall i, (i < len)%nat -> in_unit (uat u' i)).
  { intros u2 L2 U0 Ui. cbv zeta.
    destruct (uat u2 (len - 1) =? d1)%D eqn:E; cbn [negb].
    - apply eq_one_leibniz in E. split; [exact L2|]. split; [exact U0|].
      split; [exact E|]. intros i Hi. destruct (Nat.eq_dec i 0) as [->|N].
      + rewrite U0. apply in_unit_0.
      + apply Ui. lia.
    - rewrite length_upd. split; [exact L2|]. unfold uat.
      split; [rewrite nth_upd_neq by lia; exact U0|].
      split; [rewrite nth_upd_eq by lia; reflexivity|].
      intros i Hi. destruct (Nat.eq_dec i (len - 1)) as [->|N].
      + rewrite nth_upd_eq by lia. apply in_unit_1.
      + rewrite nth_upd_neq by lia. destruct (Nat.eq_dec i 0) as [->|N0].
        * fold (uat u2 0). rewrite U0. apply in_unit_0.
        * apply Ui. lia. }
  destruct (isFinite tot) eqn:Hf.
  - destruct (scale_loop tot (len - 1) 1 u1) as [E3 E4]; [lia|].
    cbv zeta in E3, E4.
    set (u2 := fold_left _ (seq 1 (len - 1)) u1) in *.
    pose proof (path_finite d (len - 1) Hf) as PF. fold tot in PF.
    pose proof (path_le_total d (len - 1) Hf) as PT. fold tot in PT.
    destruct (PF (len - 1)%nat (le_n _)) as (_ & P0 & _).
    pose proof (le_neq_lt0 _ P0 Hp) as Pos.
    apply Final.
    + lia.
    + rewrite E4. cbn [Nat.leb andb]. rewrite E2 by lia. reflexivity.
    + intros j Hj. rewrite E4.
      replace ((1 <=? j) && (j <? 1 + (len - 1)))%nat with true
        by (symmetry; apply andb_true_iff; split;
            [apply Nat.leb_le|apply Nat.ltb_lt]; lia).
      rewrite E2 by lia. destruct (PF j ltac:(lia)) as (_ & Pj & _).
      split; [apply div_nonneg; assumption|].
      apply div_le_one; try assumption. apply PT. lia.
  - destruct (uniform_loop (len - 1) (len - 1) 1 u1) as [E3 E4]; [lia|].
    cbv zeta in E3, E4.
    set (u2 := fold_left _ (seq 1 (len - 1)) u1) in *.
    apply Final.
    + lia.
    + rewrite E4. cbn [Nat.leb andb]. rewrite E2 by lia. reflexivity.
    + intros j Hj. rewrite E4.
      replace ((1 <=? j) && (j <? 1 + (len - 1)))%nat with true
        by (symmetry; apply andb_true_iff; split;
            [apply Nat.leb_le|apply Nat.ltb_lt]; lia).
      apply of_nat_ratio; lia.
Qed.

(** What a call of [NewtonRaphsonRootFind] on a parameter in [[0, 1]] gives. *)
Lemma newton_raphson_unit (Q : list QPointF) (P : QPointF) (u : double) :
  in_unit u ->
  exists u',
    NewtonRaphsonRootFind Q P u = Ret u'
    /\ in_unit u'
    /\ (sq_dist Q P u' >? sq_dist Q P u)%D = false.
Proof.
  intros Hu. pose proof Hu as [H0 H1].
  unfold NewtonRaphsonRootFind. rewrite H0, H1.
  cbn [bezier_pt Nat.ltb Nat.leb bind].
  match goal with
  | |- context [nr_blend nr_fuel Q P u ?dl ?p (if negb (isFinite ?st) then _ else _)] =>
      set (step := st); change dl with (sq_dist Q P u); change p with (proportion 0)
  end.
  exact (nr_blend_improves 8 0 nr_fuel Q P u _ eq_refl ltac:(unfold nr_fuel; lia) Hu
                           (clamp_in_unit u step Hu)).
Qed.

Lemma reparameterize_loop (d : list QPointF) (bz : list QPointF) (u0 : list double)
      (len : nat) (n : nat) : forall s u,
  (1 <= s)%nat -> (s + n <= len)%nat -> (len <= length u)%nat -> length u = length u0 ->
  (forall i, (i < len)%nat -> in_unit (uat u i)) ->
  (forall i, (s <= i)%nat -> uat u i = uat u0 i) ->
  exists u',
    fold_left
      (fun ru i => u <- ru ;;
                   ui <- NewtonRaphsonRootFind bz (at_ d i) (uat u i) ;;
                   Ret (upd i ui u))
      (seq s n) (Ret u) = Ret u'
    /\ length u' = length u0
    /\ (forall i, (i < len)%nat -> in_unit (uat u' i))
    /\ (forall i, (i < s \/ s + n <= i)%nat -> uat u' i = uat u i)
    /\ (forall i, (s <= i < s + n)%nat ->
          (sq_dist bz (at_ d i) (uat u' i) >? sq_dist bz (at_ d i) (uat u0 i))%D = false).
Proof.
  induction n as [|n IH]; intros s u Hs Hn Hl Hlen Hu H0; cbn [seq fold_left].
  - exists u. split; [reflexivity|]. split; [exact Hlen|]. split; [exact Hu|].
    split; [reflexivity|]. intros i Hi. lia.
  - cbn [bind].
    destruct (newton_raphson_unit bz (at_ d s) (uat u s) (Hu s ltac:(lia)))
      as (ui & E & Ui & Di).
    rewrite E. cbn [bind].
    destruct (IH (S s) (upd s ui u)) as (u' & F & L' & U' & Fr & Dd); try lia.
    + rewrite length_upd. lia.
    + rewrite length_upd. exact Hlen.
    + intros i Hi. unfold uat. destruct (Nat.eq_dec i s) as [->|N].
      * rewrite nth_upd_eq by lia. exact Ui.
      * rewrite nth_upd_neq by lia. apply Hu. exact Hi.
    + intros i Hi. unfold uat. rewrite nth_upd_neq by lia. apply H0. lia.
    + exists u'. split; [exact F|]. split; [exact L'|]. split; [exact U'|]. split.
      * intros i Hi. rewrite Fr by lia. unfold uat. rewrite nth_upd_neq by lia. reflexivity.
      * intros i Hi. destruct (Nat.eq_dec i s) as [->|N].
        -- rewrite Fr by lia. rewrite uat_upd_eq by lia.
           rewrite <- (H0 s) by lia. exact Di.
        -- apply Dd. lia.
Qed.

Lemma reparameterize_params (d : list QPointF) (len : nat) (u : list double)
        (bz : list QPointF) :
  (2 <= len)%nat -> (len <= length u)%nat ->
  pt_eqb (at_ bz 0) (at_ d 0) = true ->
  pt_eqb (at_ bz 3) (at_ d (len - 1)) = true ->
  (uat u 0 =? d0)%D = true ->
  (uat u (len - 1) =? d1)%D = true ->
  (forall i, (i < len)%nat -> in_unit (uat u i)) ->
  exists u',
    reparameterize d len u bz = Ret u'
    /\ length u' = length u
    /\ uat u' 0 = uat u 0
    /\ uat u' (len - 1) = uat u (len - 1)
    /\ (forall i, (i < len)%nat -> in_unit (uat u' i))
    /\ (forall i, (1 <= i < len - 1)%nat ->
          (sq_dist bz (at_ d i) (uat u' i) >? sq_dist bz (at_ d i) (uat u i))%D = false).
Proof.
  intros Hn Hl B0 B3 U0 U1 Hu. unfold reparameterize.
  replace (2 <=? len)%nat with true by (symmetry; apply Nat.leb_le; lia).
  cbv zeta. rewrite B0, B3, U0, U1.
  destruct (reparameterize_loop d bz u len (len - 1 - 1) 1 u)
    as (u' & F & L' & U' & Fr & Dd); try lia; auto.
  exists u'. split; [exact F|]. split; [exact L'|].
  split; [apply Fr; lia|]. split; [apply Fr; lia|]. split; [exact U'|].
  intros i Hi. apply Dd. lia.
Qed.

(** X7: for [2 <= len < 2^32] points whose summed chord length is not
    [0.0] (it may be infinite; the parameters are then spread evenly),
    [chord_length_parameterize] leaves [u[0] = 0.0], [u[len - 1] = 1.0]
    and every [u[i]], [i < len], in [[0, 1]]; the array keeps its
    length. *)
Theorem chord_parameters_in_unit (d : list QPointF) (u : list double) (len : nat) :
  (2 <= len <= length d)%nat -> (Z.of_nat len < 2 ^ 32)%Z -> (len <= length u)%nat ->
  (path_length d (len - 1) =? d0)%D = false ->
  let u' := chord_length_parameterize d u len in
  length u' = length u
  /\ uat u' 0 = d0
  /\ uat u' (len - 1) = d1
  /\ forall i, (i < len)%nat -> in_unit (uat u' i).
Proof.
  intros [Hn _] H32 Hl Hp. exact (chord_params d u len Hn H32 Hl Hp).
Qed.

(** X8: called with parameters in [[0, 1]], [u[0] == 0.0],
    [u[len - 1] == 1.0], and a curve that starts at [d[0]] and ends at
    [d[len - 1]], [reparameterize] passes its assertions and returns; it
    leaves [u[0]] and [u[len - 1]] alone, every parameter stays in
    [[0, 1]], and for no inner point is the squared distance from the
    curve at the new parameter greater than at the old one. *)
Theorem reparameterize_keeps_unit (d : list QPointF) (len : nat) (u : list double)
        (bz : list QPointF) :
  (2 <= len <= length d)%nat -> (len <= length u)%nat -> length bz = 4%nat ->
  pt_eqb (at_ bz 0) (at_ d 0) = true ->
  pt_eqb (at_ bz 3) (at_ d (len - 1)) = true ->
  (uat u 0 =? d0)%D = true ->
  (uat u (len - 1) =? d1)%D = true ->
  (forall i, (i < len)%nat -> in_unit (uat u i)) ->
  exists u',
    reparameterize d len u bz = Ret u'
    /\ length u' = length u
    /\ uat u' 0 = uat u 0
    /\ uat u' (len - 1) = uat u (len - 1)
    /\ (forall i, (i < len)%nat -> in_unit (uat u' i))
    /\ (forall i, (1 <= i < len - 1)%nat ->
          (sq_dist bz (at_ d i) (uat u' i) >? sq_dist bz (at_ d i) (uat u i))%D = false).
Proof.
  intros [Hn _] Hl _. exact (reparameterize_params d len u bz Hn Hl).
Qed.

(** After the rounds [1 .. k] of the loop, [maxDistsq] is not below the
    squared distance of any of the data points [1 .. k] from the curve. *)
Lemma mer_loop_max (d : list QPointF) (u : list double) (bz : list QPointF)
      (tol : double) (sp0 : option nat) (k : nat) : forall st,
  mer_loop d u bz tol (seq 1 k) (mkMer d0 d0 0 (at_ bz 0) sp0) = Ret st ->
  isNaN (maxDistsq st) = false
  /\ forall i, (1 <= i <= k)%nat ->
       isNaN (sq_dist bz (at_ d i) (uat u i)) = false ->
       (sq_dist bz (at_ d i) (uat u i) <=? maxDistsq st)%D = true.
Proof.
  induction k as [|k IH]; intros st H.
  - injection H as <-. cbn [maxDistsq].
    split; [apply (le_not_nan_r _ _ zero_le_zero)|]. intros i Hi. lia.
  - unfold mer_loop in H. rewrite seq_S, fold_left_app in H. cbn [fold_left Nat.add] in H.
    apply bind_Ret in H as (st1 & H1 & H).
    destruct (IH st1 H1) as [N1 M1].
    unfold mer_step in H. rewrite bezier_pt_cubic in H. cbn [bind] in H.
    change (lensq (pt_sub (curve_pt bz (uat u (S k))) (at_ d (S k))))
      with (sq_dist bz (at_ d (S k)) (uat u (S k))) in H.
    set (ds := sq_dist bz (at_ d (S k)) (uat u (S k))) in *.
    destruct (maxDistsq st1 <? ds)%D eqn:E.
    + apply bind_Ret in H as (h & _ & H).
      pose proof (dlt_le _ _ E) as Le.
      assert (Nd : isNaN ds = false) by (apply (le_not_nan_r _ _ Le)).
      assert (M : maxDistsq st = ds)
        by (destruct (max_hook_ratio st1 <? h)%D; injection H as <-; reflexivity).
      rewrite M. split; [exact Nd|]. intros i Hi Ni.
      destruct (Nat.eq_dec i (S k)) as [->|Ne].
      * apply not_lt_ge; try assumption. apply ltb_irrefl.
      * apply (le_trans0 _ (maxDistsq st1)); [|apply M1; [lia|exact Ni]|exact Le].
        apply sum_squares_nonneg. exact Ni.
    + apply bind_Ret in H as (h & _ & H).
      assert (M : maxDistsq st = maxDistsq st1)
        by (destruct (max_hook_ratio st1 <? h)%D; injection H as <-; reflexivity).
      rewrite M. split; [exact N1|]. intros i Hi Ni.
      destruct (Nat.eq_dec i (S k)) as [->|Ne].
      * apply not_lt_ge; assumption.
      * apply M1; [lia|exact Ni].
Qed.

(** An error ratio that is accepted bounds the distance of every data point
    from the curve. *)
Lemma accepted_ratio (d : list QPointF) (u : list double) (n : nat) (bz : list QPointF)
      (tol : double) (sp0 : option nat) (r : double) (sp : option nat) :
  compute_max_error_ratio d u n bz tol sp0 = Ret (r, sp) ->
  (d0 <? tol)%D = true -> isFinite tol = true ->
  (fabs r <=? d1)%D = true ->
  forall i, (1 <= i <= n - 1)%nat ->
    isNaN (sq_dist bz (at_ d i) (uat u i)) = false ->
    (dsqrt (sq_dist bz (at_ d i) (uat u i)) / tol <=? d1)%D = true.
Proof.
  intros H Ht Hf Hr i Hi Ni.
  unfold compute_max_error_ratio in H. apply bind_Ret in H as ([r' sp'] & H & H2).
  cbv zeta in H2. destruct (mer_post (n - 1) r' sp'); [|discriminate].
  injection H2 as -> ->.
  unfold mer_result in H.
  destruct (2 <=? n)%nat; [|discriminate].
  destruct (pt_eqb (at_ bz 0) _); [|discriminate].
  destruct (pt_eqb (at_ bz 3) _) eqn:Hb; [|discriminate].
  destruct (uat u 0 =? d0)%D; [|discriminate].
  destruct (uat u (n - 1) =? d1)%D eqn:Hu; [|discriminate].
  apply bind_Ret in H as (st & Hl & H).
  pose proof (mer_loop_inv d u bz tol (n - 1) sp0 (n - 1) st Hb Hu (le_n _) Hl)
    as (Im & _ & Ih & _).
  destruct (mer_loop_max d u bz tol sp0 (n - 1) st Hl) as [Nm Mx].
  specialize (Mx i Hi Ni).
  pose proof (sum_squares_nonneg _ _ Ni) as P0.
  fold (dot (pt_sub (curve_pt bz (uat u i)) (at_ d i))
            (pt_sub (curve_pt bz (uat u i)) (at_ d i))) in P0.
  change (dot ?p ?p) with (lensq p) in P0.
  change (lensq (pt_sub (curve_pt bz (uat u i)) (at_ d i)))
    with (sq_dist bz (at_ d i) (uat u i)) in P0.
  set (D := (dsqrt (maxDistsq st) / tol)%D) in *.
  assert (PD : (d0 <=? D)%D = true) by (apply div_nonneg; [apply sqrt_nonneg|..]; assumption).
  assert (Le : (dsqrt (sq_dist bz (at_ d i) (uat u i)) / tol <=? D)%D = true).
  { apply div_mono_pos; try assumption; [apply sqrt_nonneg, P0|apply sqrt_mono; assumption]. }
  assert (P1 : (d0 <=? dsqrt (sq_dist bz (at_ d i) (uat u i)) / tol)%D = true).
  { apply div_nonneg; [apply sqrt_nonneg, P0|assumption..]. }
  destruct (max_hook_ratio st <=? D)%D eqn:E.
  - injection H as <- _. rewrite (fabs_nonneg_le _ _ PD) in Hr.
    apply (le_trans0 _ D); assumption.
  - destruct (0 <? snap_end st)%nat; [|discriminate].
    injection H as <- _. rewrite (fabs_neg_le _ _ Ih) in Hr.
    assert (DH : (D <=? max_hook_ratio st)%D = true).
    { apply not_le_ge; [apply (le_not_nan_r _ _ Ih)|apply (le_not_nan_r _ _ PD)|exact E]. }
    apply (le_trans0 _ D); [exact P1|exact Le|].
    apply (le_trans0 _ (max_hook_ratio st)); assumption.
Qed.

(** A parameter [NewtonRaphsonRootFind] returns is in [[0, 1]]. *)
Lemma newton_raphson_Ret_unit (Q : list QPointF) (P : QPointF) (u u' : double) :
  NewtonRaphsonRootFind Q P u = Ret u' -> in_unit u'.
Proof.
  intros H.
  assert (Hu : in_unit u).
  { unfold NewtonRaphsonRootFind in H.
    destruct (d0 <=? u)%D eqn:E0; [|discriminate].
    destruct (u <=? d1)%D eqn:E1; [|discriminate].
    split; assumption. }
  destruct (newton_raphson_unit Q P u Hu) as (u'' & E & I & _).
  rewrite E in H. injection H as <-. exact I.
Qed.

Lemma reparameterize_fold_unit (d bz : list QPointF) (l : list nat) : forall u u',
  fold_left
    (fun ru i => u <- ru ;;
                 ui <- NewtonRaphsonRootFind bz (at_ d i) (uat u i) ;;
                 Ret (upd i ui u))
    l (Ret u) = Ret u' ->
  forall j, In j l -> in_unit (uat u' j).
Proof.
  induction l as [|i l IH] using rev_ind; intros u u' H j Hj; [contradiction|].
  rewrite fold_left_app in H. cbn [fold_left] in H.
  apply bind_Ret in H as (u1 & H1 & H).
  apply bind_Ret in H as (ui & Hn & H). injection H as <-.
  destruct (Nat.eq_dec j i) as [->|Ne].
  - destruct (Nat.lt_ge_cases i (length u1)) as [In|Out].
    + rewrite uat_upd_eq by exact In. eapply newton_raphson_Ret_unit, Hn.
    + rewrite upd_out by exact Out. unfold uat. rewrite nth_overflow by exact Out.
      apply in_unit_0.
  - rewrite uat_upd_neq by congruence. apply (IH u u1 H1).
    apply in_app_or in Hj as [Hj|[Hj|[]]]; [exact Hj|congruence].
Qed.

Lemma reparameterize_Ret_unit (d : list QPointF) (n : nat) (u : list double)
      (bz : list QPointF) (u' : list double) :
  reparameterize d n u bz = Ret u' ->
  forall i, (1 <= i < n - 1)%nat -> in_unit (uat u' i).
Proof.
  unfold reparameterize. intros H i Hi.
  destruct (2 <=? n)%nat; [|discriminate]. cbv zeta in H.
  destruct (pt_eqb (at_ bz 0) _); [|discriminate].
  destruct (pt_eqb (at_ bz 3) _); [|discriminate].
  destruct (uat u 0 =? d0)%D; [|discriminate].
  destruct (uat u (n - 1) =? d1)%D; [|discriminate].
  apply (reparameterize_fold_unit _ _ _ _ _ H). apply in_seq. lia.
Qed.

Lemma iterate_accepted (k : nat) : forall d n t1 t2 e tol bz u r0 sp0 bz',
  iterate k d n t1 t2 e tol bz u r0 sp0 = Ret (Accepted bz') ->
  exists u0 u' sp1 r sp,
    reparameterize d n u0 bz' = Ret u'
    /\ compute_max_error_ratio d u' n bz' tol sp1 = Ret (r, sp)
    /\ (fabs r <=? d1)%D = true.
Proof.
  induction k as [|k IH]; intros d n t1 t2 e tol bz u r0 sp0 bz' H; simpl in H;
    [discriminate|].
  apply bind_Ret in H as (bz1 & _ & H).
  apply bind_Ret in H as (u1 & Hr & H).
  apply bind_Ret in H as ([r1 sp1] & Hc & H).
  destruct (fabs r1 <=? d1)%D eqn:E.
  - injection H as <-. exists u, u1, sp0, r1, sp1. auto.
  - eapply IH, H.
Qed.

Lemma fit_attempts_accepted w d n t1 t2 e bz :
  fit_attempts w d n t1 t2 e = Ret (Some (Accepted bz)) ->
  exists u0 u sp1 r sp,
    reparameterize d n u0 bz = Ret u
    /\ compute_max_error_ratio d u n bz (dsqrt (e + dlit 1e-9)%D) sp1 = Ret (r, sp)
    /\ (fabs r <=? d1)%D = true.
Proof.
  unfold fit_attempts. intros H.
  destruct (_ =? _)%D; [discriminate|].
  apply bind_Ret in H as (bz1 & _ & H).
  apply bind_Ret in H as (u1 & Hr & H).
  apply bind_Ret in H as ([r1 sp1] & Hc & H).
  destruct (fabs r1 <=? d1)%D eqn:E.
  - injection H as <-. eexists _, u1, None, r1, sp1. eauto.
  - destruct (_ && _); [|discriminate].
    apply bind_Ret in H as (a & Hi & H). injection H as ->.
    eapply iterate_accepted, Hi.
Qed.

Lemma compute_Ret_pre d u n bz tol sp0 r sp :
  compute_max_error_ratio d u n bz tol sp0 = Ret (r, sp) ->
  (2 <= n)%nat
  /\ pt_eqb (at_ bz 0) (at_ d 0) = true
  /\ pt_eqb (at_ bz 3) (at_ d (n - 1)) = true
  /\ (uat u 0 =? d0)%D = true
  /\ (uat u (n - 1) =? d1)%D = true.
Proof.
  unfold compute_max_error_ratio, mer_result. intros H.
  destruct (Nat.leb_spec 2 n); [|discriminate].
  destruct (pt_eqb (at_ bz 0) _); [|discriminate].
  destruct (pt_eqb (at_ bz 3) _); [|discriminate].
  destruct (uat u 0 =? d0)%D; [|discriminate].
  destruct (uat u (n - 1) =? d1)%D; [|discriminate].
  auto.
Qed.

(** X9: when the attempts of [sp_bezier_fit_cubic_full] at one segment
    end in a curve that is accepted (the call then returns 1), with a
    finite [error >= 0], that curve starts at [d[0]] and ends at
    [d[len - 1]], and every other point [d[i]] has a parameter [u[i]] in
    [[0, 1]] at which the distance of the curve from [d[i]], divided by
    the tolerance [sqrt(error + 1e-9)], is [<= 1.0], unless the squared
    distance is a NaN. *)
Theorem accepted_within_tolerance (w d : list QPointF) (n : nat) (tHat1 tHat2 : QPointF)
        (error : double) (bz : list QPointF) :
  length w = 4%nat -> (n <= length d)%nat ->
  (d0 <=? error)%D = true -> isFinite error = true ->
  fit_attempts w d n tHat1 tHat2 error = Ret (Some (Accepted bz)) ->
  exists u,
    pt_eqb (at_ bz 0) (at_ d 0) = true
    /\ pt_eqb (at_ bz 3) (at_ d (n - 1)) = true
    /\ forall i, (1 <= i <= n - 1)%nat ->
         in_unit (uat u i)
         /\ (isNaN (sq_dist bz (at_ d i) (uat u i)) = false ->
             (dsqrt (sq_dist bz (at_ d i) (uat u i)) / dsqrt (error + dlit 1e-9)
              <=? d1)%D = true).
Proof.
  intros _ _ He Hf H.
  destruct (fit_attempts_accepted _ _ _ _ _ _ _ H) as (u0 & u & sp1 & r & sp & Hp & Hc & Hr).
  destruct (tolerance_pos error He Hf) as [Tp Tf].
  destruct (compute_Ret_pre _ _ _ _ _ _ _ _ Hc) as (_ & B0 & B3 & U0 & U1).
  exists u. split; [exact B0|]. split; [exact B3|].
  intros i Hi. split.
  - destruct (Nat.eq_dec i (n - 1)) as [->|Ne].
    + rewrite (eq_one_leibniz _ U1). apply in_unit_1.
    + apply (reparameterize_Ret_unit _ _ _ _ _ Hp). lia.
  - intros Ni. eapply accepted_ratio; eauto.
Qed.

(** After the rounds [1 .. k] of the loop, [*splitPoint] is a point whose
    squared distance from the curve is [maxDistsq], unless nothing was
    stored in it. *)
Lemma mer_loop_argmax (d : list QPointF) (u : list double) (bz : list QPointF)
      (tol : double) (sp0 : option nat) (k : nat) : forall st,
  mer_loop d u bz tol (seq 1 k) (mkMer d0 d0 0 (at_ bz 0) sp0) = Ret st ->
  (exists i, splitPoint st = Some i /\ (1 <= i <= k)%nat
             /\ maxDistsq st = sq_dist bz (at_ d i) (uat u i))
  \/ (maxDistsq st = d0 /\ splitPoint st = sp0).
Proof.
  induction k as [|k IH]; intros st H.
  - injection H as <-. right. split; reflexivity.
  - unfold mer_loop in H. rewrite seq_S, fold_left_app in H. cbn [fold_left Nat.add] in H.
    apply bind_Ret in H as (st1 & H1 & H).
    specialize (IH st1 H1).
    unfold mer_step in H. rewrite bezier_pt_cubic in H. cbn [bind] in H.
    change (lensq (pt_sub (curve_pt bz (uat u (S k))) (at_ d (S k))))
      with (sq_dist bz (at_ d (S k)) (uat u (S k))) in H.
    destruct (maxDistsq st1 <? _)%D.
    + apply bind_Ret in H as (h & _ & H).
      left. exists (S k).
      destruct (max_hook_ratio st1 <? h)%D; injection H as <-; cbn [splitPoint maxDistsq];
        (split; [reflexivity|split; [lia|reflexivity]]).
    + apply bind_Ret in H as (h & _ & H).
      assert (E : maxDistsq st = maxDistsq st1 /\ splitPoint st = splitPoint st1)
        by (destruct (max_hook_ratio st1 <? h)%D; injection H as <-; split; reflexivity).
      destruct E as [-> ->].
      destruct IH as [(i & Hs & Hi & Hm)|[Hm Hs]]; [left|right; auto].
      exists i. split; [exact Hs|]. split; [lia|exact Hm].
Qed.

(** X10: when [compute_max_error_ratio] returns a ratio that is neither
    negative (a corner) nor [== 0.0], [*splitPoint] is an inner point [s],
    [1 <= s < len - 1], the ratio is [sqrt(distsq) / tolerance] for the
    squared distance of [d[s]] from the curve at [u[s]], and no point
    [d[i]] has a greater squared distance from the curve at [u[i]] (NaNs
    apart). *)
Theorem split_at_max_error (d : list QPointF) (u : list double) (n : nat)
        (bz : list QPointF) (tolerance : double) (sp0 : option nat)
        (r : double) (sp : option nat) :
  (n <= length d)%nat -> (n <= length u)%nat -> length bz = 4%nat ->
  compute_max_error_ratio d u n bz tolerance sp0 = Ret (r, sp) ->
  (r <? d0)%D = false -> (r =? d0)%D = false ->
  exists s,
    sp = Some s /\ (1 <= s < n - 1)%nat
    /\ r = (dsqrt (sq_dist bz (at_ d s) (uat u s)) / tolerance)%D
    /\ forall i, (1 <= i <= n - 1)%nat ->
         isNaN (sq_dist bz (at_ d i) (uat u i)) = false ->
         (sq_dist bz (at_ d i) (uat u i) <=? sq_dist bz (at_ d s) (uat u s))%D = true.
Proof.
  intros _ _ _ H Hc Hz.
  pose proof (compute_Ret_post _ _ _ _ _ _ _ _ H) as Hp.
  unfold compute_max_error_ratio in H. apply bind_Ret in H as ([r' sp'] & H & H2).
  cbv zeta in H2. destruct (mer_post (n - 1) r' sp'); [|discriminate].
  injection H2 as -> ->.
  unfold mer_result in H.
  destruct (2 <=? n)%nat; [|discriminate].
  destruct (pt_eqb (at_ bz 0) _); [|discriminate].
  destruct (pt_eqb (at_ bz 3) _) eqn:Hb; [|discriminate].
  destruct (uat u 0 =? d0)%D; [|discriminate].
  destruct (uat u (n - 1) =? d1)%D eqn:Hu; [|discriminate].
  apply bind_Ret in H as (st & Hl & H).
  pose proof (mer_loop_inv d u bz tolerance (n - 1) sp0 (n - 1) st Hb Hu (le_n _) Hl)
    as (Im & _ & Ih & _).
  destruct (mer_loop_max d u bz tolerance sp0 (n - 1) st Hl) as [Nm Mx].
  pose proof (mer_loop_argmax d u bz tolerance sp0 (n - 1) st Hl) as Am.
  destruct (max_hook_ratio st <=? _)%D eqn:E.
  - injection H as <- <-.
    destruct Am as [(s & Hs & Hi & Hm)|[Hm Hs]].
    + exists s. split; [exact Hs|].
      unfold mer_post in Hp. rewrite Hz, Hs in Hp. cbn [orb] in Hp.
      apply andb_prop in Hp as [Hlt _]. apply Nat.ltb_lt in Hlt.
      split; [lia|]. rewrite Hm. split; [reflexivity|].
      intros i Hi' Ni. rewrite <- Hm. apply Mx; assumption.
    + exfalso. rewrite Hm, sqrt_zero in Hz, E.
      destruct (div_zero_l tolerance) as [Z|Z]; [congruence|].
      apply le_not_nan_r in E. congruence.
  - destruct (0 <? snap_end st)%nat; [|discriminate].
    injection H as <- _. exfalso.
    destruct (neg_nonneg _ Ih); congruence.
Qed.

(** The caller's arrays have room for the budget [m]: [4 * m] points
    behind [bezier], and [m - 1] split points behind [split_points]
    unless that is [NULL]. *)
Definition room (st : store) (b : nat) (sp : option nat) (m : Z) : Prop :=
  (b + 4 * Z.to_nat m <= length (bez st))%nat
  /\ match sp with
     | None => True
     | Some p => (p + (Z.to_nat m - 1) <= length (splits st))%nat
     end.

(** No assertion of the source fails. *)
Definition safe {A : Type} (r : res A) : Prop := r <> Abort.

Lemma safe_bind {A B : Type} (m : res A) (k : A -> res B) :
  safe m -> (forall a, m = Ret a -> safe (k a)) -> safe (bind m k).
Proof.
  unfold safe. destruct m; cbn [bind]; intros Hm Hk.
  - apply Hk. reflexivity.
  - now destruct Hm.
  - discriminate.
Qed.

Lemma safe_Ret {A : Type} (a : A) : safe (Ret a).
Proof. discriminate. Qed.

Lemma clean_le (d : list QPointF) (n k : nat) : clean d n -> (k <= n)%nat -> clean d k.
Proof.
  intros H Hk i Hi. destruct (H i ltac:(lia)) as [H1 H2].
  split; [exact H1|]. intros Hi'. apply H2. lia.
Qed.

Lemma clean_skipn (d : list QPointF) (n s : nat) :
  clean d n -> (s <= n)%nat -> clean (skipn s d) (n - s).
Proof.
  intros H Hs i Hi. rewrite !at_skipn. destruct (H (s + i)%nat ltac:(lia)) as [H1 H2].
  split; [exact H1|]. intros Hi'. replace (s + S i)%nat with (S (s + i)) by lia.
  apply H2. lia.
Qed.

Lemma pt_eqb_refl (p : QPointF) : no_nan p = true -> pt_eqb p p = true.
Proof.
  unfold no_nan, pt_eqb. intros H. apply andb_prop in H as [Hx Hy].
  apply negb_true_iff in Hx, Hy. now rewrite !deqb_refl.
Qed.

Lemma pt_neqb_sym (p q : QPointF) : pt_neqb p q = pt_neqb q p.
Proof. unfold pt_neqb, pt_eqb. now rewrite (deqb_sym (px p)), (deqb_sym (py p)). Qed.

(** *** The tangents at the ends *)

Lemma left_tangent_loop_safe (fuel : nat) : forall d len tol i,
  (2 <= len)%nat -> pt_neqb (at_ d 0) (at_ d 1) = true ->
  safe (left_tangent_loop fuel d len tol i).
Proof.
  induction fuel as [|fuel IH]; intros d len tol i Hn Hd; cbn [left_tangent_loop];
    [discriminate|].
  destruct (_ <? _)%D; [discriminate|].
  destruct (_ =? _)%nat; [|apply IH; assumption].
  destruct (_ =? _)%D; [|discriminate].
  unfold sp_darray_left_tangent.
  replace (2 <=? len)%nat with true by (symmetry; apply Nat.leb_le; lia).
  rewrite Hd. discriminate.
Qed.

Lemma right_tangent_loop_safe (fuel : nat) : forall d len tol i,
  (2 <= len)%nat -> pt_neqb (at_ d (len - 1)) (at_ d (len - 1 - 1)) = true ->
  safe (right_tangent_loop fuel d len tol i).
Proof.
  induction fuel as [|fuel IH]; intros d len tol i Hn Hd; cbn [right_tangent_loop];
    [discriminate|].
  destruct (_ <? _)%D; [discriminate|].
  destruct (_ =? _)%nat; [|apply IH; assumption].
  destruct (_ =? _)%D; [|discriminate].
  unfold sp_darray_right_tangent.
  replace (2 <=? len)%nat with true by (symmetry; apply Nat.leb_le; lia).
  cbv zeta. rewrite Hd. discriminate.
Qed.

Lemma generate_bezier_safe (w d : list QPointF) (u : list double) (n : nat)
      (t1 t2 : QPointF) (e : double) :
  (2 <= n)%nat -> clean d n -> (d0 <=? e)%D = true ->
  safe (generate_bezier w d u n t1 t2 e).
Proof.
  intros Hn Hc He. unfold generate_bezier. cbv zeta.
  apply safe_bind.
  { destruct (is_zero t1); [|discriminate].
    unfold sp_darray_left_tangent_tol.
    replace (2 <=? n)%nat with true by (symmetry; apply Nat.leb_le; lia).
    rewrite He. apply left_tangent_loop_safe; [exact Hn|].
    rewrite pt_neqb_sym. destruct (Hc 0%nat ltac:(lia)) as [_ H]. apply H. lia. }
  intros e1 _. apply safe_bind.
  { destruct (is_zero t2); [|discriminate].
    unfold sp_darray_right_tangent_tol.
    replace (2 <=? n)%nat with true by (symmetry; apply Nat.leb_le; lia).
    rewrite He. cbv zeta. apply right_tangent_loop_safe; [exact Hn|].
    destruct (Hc (n - 1 - 1)%nat ltac:(lia)) as [_ H].
    replace (S (n - 1 - 1)) with (n - 1)%nat in H by lia. apply H. lia. }
  intros e2 _. destruct (is_zero t1); discriminate.
Qed.

(** *** One attempt at a segment *)

(** The parameters [u[0 .. n - 1]] as the attempts keep them. *)
Definition params_ok (u : list double) (n : nat) : Prop :=
  (n <= length u)%nat
  /\ (uat u 0 =? d0)%D = true
  /\ (uat u (n - 1) =? d1)%D = true
  /\ forall i, (i < n)%nat -> in_unit (uat u i).

Lemma spans_eqb (bz d : list QPointF) (n : nat) :
  spans bz d n -> clean d n -> (1 <= n)%nat ->
  pt_eqb (at_ bz 0) (at_ d 0) = true /\ pt_eqb (at_ bz 3) (at_ d (n - 1)) = true.
Proof.
  intros (_ & E0 & E3) Hc Hn. rewrite E0, E3.
  split; apply pt_eqb_refl; apply Hc; lia.
Qed.

Lemma compute_returns d u n bz tol sp0 :
  (2 <= n)%nat ->
  pt_eqb (at_ bz 0) (at_ d 0) = true ->
  pt_eqb (at_ bz 3) (at_ d (n - 1)) = true ->
  (uat u 0 =? d0)%D = true ->
  (uat u (n - 1) =? d1)%D = true ->
  (d0 <? tol)%D = true -> isFinite tol = true ->
  exists ret sp, compute_max_error_ratio d u n bz tol sp0 = Ret (ret, sp).
Proof.
  intros Hn H0 H3 Hu0 Hu1 Ht Hf.
  destruct (mer_result_returns d u n bz tol sp0 Hn H0 H3 Hu0 Hu1 Ht Hf) as (ret & sp & H).
  exists ret, sp. unfold compute_max_error_ratio. rewrite H. cbn [bind].
  now rewrite (mer_result_post _ _ _ _ _ _ _ _ H).
Qed.

(** One round: fit, reparameterize, measure. *)
Lemma round_safe {A : Type} (w d : list QPointF) (u : list double) (n : nat)
      (t1 t2 : QPointF) (e tol : double) (sp0 : option nat)
      (k : list QPointF -> list double -> double -> option nat -> res A) :
  (2 <= n)%nat -> clean d n -> (d0 <=? e)%D = true ->
  (d0 <? tol)%D = true -> isFinite tol = true ->
  length w = 4%nat -> params_ok u n ->
  (forall bz u' r sp, length bz = 4%nat -> params_ok u' n -> safe (k bz u' r sp)) ->
  safe (bz <- generate_bezier w d u n t1 t2 e ;;
        u' <- reparameterize d n u bz ;;
        ' (r, sp) <- compute_max_error_ratio d u' n bz tol sp0 ;;
        k bz u' r sp).
Proof.
  intros Hn Hc He Ht Hf Hw (Ul & U0 & U1 & Ui) Hk.
  apply safe_bind; [apply generate_bezier_safe; assumption|].
  intros bz Hg. pose proof (generate_bezier_spans _ _ _ _ _ _ _ _ Hw Hg) as Hs.
  destruct (spans_eqb _ _ _ Hs Hc ltac:(lia)) as [B0 B3].
  destruct (reparameterize_params d n u bz Hn Ul B0 B3 U0 U1 Ui)
    as (u' & R & L' & V0 & V1 & Vi & _).
  rewrite R. cbn [bind].
  assert (P' : params_ok u' n).
  { split; [lia|]. rewrite V0, V1. auto. }
  destruct P' as (Ul' & U0' & U1' & Ui').
  destruct (compute_returns d u' n bz tol sp0 Hn B0 B3 U0' U1' Ht Hf) as (r & sp & C).
  rewrite C. cbn [bind]. apply Hk; [apply Hs|]. split; auto.
Qed.

Lemma iterate_safe (k : nat) : forall d n t1 t2 e tol bz u r sp,
  (2 <= n)%nat -> clean d n -> (d0 <=? e)%D = true ->
  (d0 <? tol)%D = true -> isFinite tol = true ->
  length bz = 4%nat -> params_ok u n ->
  safe (iterate k d n t1 t2 e tol bz u r sp).
Proof.
  induction k as [|k IH]; intros d n t1 t2 e tol bz u r sp Hn Hc He Ht Hf Hw Hu;
    cbn [iterate]; [discriminate|].
  apply (round_safe bz d u n t1 t2 e tol sp
           (fun bz u r sp => if (fabs r <=? d1)%D then Ret (Accepted bz)
                             else iterate k d n t1 t2 e tol bz u r sp));
    try assumption.
  intros bz' u' r' sp' Hw' Hu'. cbv beta.
  destruct (fabs r' <=? d1)%D; [apply safe_Ret|]. apply IH; assumption.
Qed.

(** A path of length [!= 0.0] as the driver tests it. *)
Lemma zero_length_path (d : list QPointF) (n : nat) :
  zero_length d n = false ->
  (2 <= n)%nat /\ (path_length d (n - 1) =? d0)%D = false.
Proof.
  unfold zero_length, chord_length_parameterize. intros H.
  destruct (Nat.leb_spec 2 n) as [Hn|Hn]; cbn [negb] in H.
  2:{ exfalso. destruct n as [|[|n]]; try lia; cbn in H;
        rewrite zero_eq_zero in H; discriminate. }
  split; [exact Hn|].
  destruct (sums_loop d (n - 1) 1 (upd 0 d0 (repeat d0 n))) as [E1 E2].
  { lia. }
  { rewrite length_upd, repeat_length. lia. }
  { intros j Hj. replace j with 0%nat by lia. unfold uat.
    rewrite nth_upd_eq by (rewrite repeat_length; lia). reflexivity. }
  cbv zeta in E1, E2.
  set (u1 := fold_left _ (seq 1 (n - 1)) (upd 0 d0 (repeat d0 n))) in *.
  rewrite (E2 (n - 1)%nat) in H by lia.
  destruct (path_length d (n - 1) =? d0)%D eqn:P; [|reflexivity].
  rewrite (E2 (n - 1)%nat) in H by lia. congruence.
Qed.

Lemma fit_attempts_safe (w d : list QPointF) (n : nat) (t1 t2 : QPointF) (e : double) :
  (2 <= n)%nat -> (Z.of_nat n < 2 ^ 32)%Z -> clean d n ->
  (d0 <=? e)%D = true -> isFinite e = true -> length w = 4%nat ->
  safe (fit_attempts w d n t1 t2 e).
Proof.
  intros Hn H32 Hc He Hf Hw. unfold fit_attempts. cbv zeta.
  destruct (uat _ _ =? d0)%D eqn:Z; [discriminate|].
  destruct (zero_length_path d n Z) as [_ Hp].
  destruct (chord_params d (repeat d0 n) n Hn H32
              ltac:(rewrite repeat_length; lia) Hp) as (Ul & U0 & U1 & Ui).
  rewrite repeat_length in Ul.
  destruct (tolerance_pos e He Hf) as [Tp Tf].
  apply (round_safe w d _ n t1 t2 e _ None
           (fun bz u r sp =>
              if (fabs r <=? d1)%D then Ret (Some (Accepted bz))
              else if (d0 <=? r)%D && (r <=? of_Z 3)%D then
                a <- iterate maxIterations d n t1 t2 e (dsqrt (e + dlit 1e-9)%D) bz u r sp ;;
                Ret (Some a)
              else Ret (Some (Rejected bz r sp))));
    try assumption.
  - split; [lia|]. rewrite U0, U1. split; [apply zero_eq_zero|].
    split; [apply one_eq_one|exact Ui].
  - intros bz u r sp Hw' Hu'. cbv beta.
    destruct (fabs r <=? d1)%D; [apply safe_Ret|].
    destruct (_ && _); [|apply safe_Ret].
    apply safe_bind; [apply iterate_safe; assumption|]. intros; apply safe_Ret.
Qed.

(** *** The driver *)

Lemma fits_length st b sp d n m N st' :
  fits st b sp d n m N st' -> (0 <= m < 2 ^ 32)%Z -> length (bez st') = length (bez st).
Proof. intros H Hm. apply (fits_frame _ _ _ _ _ _ _ _ H Hm). Qed.

Lemma full_safe (fuel : nat) : forall st b sp d len t1 t2 e m,
  (0 <= m < 2 ^ 32)%Z -> (len < 2 ^ 32)%Z ->
  clean d (Z.to_nat len) -> no_zero_length_range d (Z.to_nat len) ->
  isFinite e = true ->
  (b + 4 * Z.to_nat m <= length (bez st))%nat ->
  safe (sp_bezier_fit_cubic_full fuel st (Some b) sp (Some d) len t1 t2 e m).
Proof.
  induction fuel as [|fuel IH]; intros st b sp d len t1 t2 e m Hm H32 Hc Hz Hf Hb;
    [discriminate|].
  cbn [sp_bezier_fit_cubic_full].
  destruct (Z.ltb_spec 0 len) as [Hl0|]; cbn [negb]; [|discriminate].
  destruct (Z.leb_spec 1 m) as [Hm1|]; cbn [negb]; [|discriminate].
  destruct (d0 <=? e)%D eqn:He; cbn [negb]; [|discriminate].
  destruct (Z.ltb_spec len 2) as [|Hl2]; [discriminate|].
  destruct (Z.eqb_spec len 2) as [|Hl3]; [discriminate|].
  set (n := Z.to_nat len) in *.
  assert (Hn : (3 <= n)%nat) by lia.
  assert (Hw : length (load4 st b) = 4%nat) by (apply length_load4; lia).
  apply safe_bind.
  { apply fit_attempts_safe; try assumption; lia. }
  intros [[bz|bz r sp']|] Ha; try discriminate.
  destruct (fit_attempts_rejected _ _ _ _ _ _ _ _ _ Ha) as [Hp Hfr].
  destruct (corner_block_in_range n r sp' t1 t2 Hn Hp Hfr) as [C|(s & C & Hs)]; rewrite C.
  - apply IH; try assumption. rewrite length_store4. exact Hb.
  - unfold split_block. fold n.
    destruct (Z.ltb_spec 1 m) as [Hm2|]; [|discriminate].
    replace ((0 <? s)%nat && (s <? n - 1)%nat) with true
      by (symmetry; apply andb_true_iff; split; apply Nat.ltb_lt; lia).
    cbn [negb]. rewrite andb_false_r.
    apply safe_bind.
    { destruct (r <? d0)%D; [discriminate|]. unfold sp_darray_center_tangent.
      replace (s =? 0)%nat with false by (symmetry; apply Nat.eqb_neq; lia).
      replace (s <? n - 1)%nat with true by (symmetry; apply Nat.ltb_lt; lia).
      discriminate. }
    intros rt _.
    assert (Hu1 : u32 (m - 1) = (m - 1)%Z) by (apply u32_small; lia).
    apply safe_bind.
    { apply IH.
      - rewrite Hu1. lia.
      - lia.
      - apply (clean_le d n); [exact Hc|lia].
      - intros i k Hk Hik. apply Hz; lia.
      - exact Hf.
      - rewrite length_store4, Hu1. lia. }
    intros [n1 st1] H1. cbv zeta.
    destruct (Z.ltb_spec n1 0) as [|Hn1]; [discriminate|].
    pose proof (full_shape _ _ _ _ _ _ _ _ _ _ _ _ H1 ltac:(rewrite Hu1; lia) Hn1) as F1.
    assert (Hn10 : n1 <> 0%Z).
    { intros ->. apply fits_zero in F1 as [_ [F1|F1]]; [lia|].
      pose proof (Hz 0%nat (Z.to_nat (Z.of_nat s + 1)) ltac:(lia) ltac:(lia)) as Z0.
      cbn [skipn] in Z0. congruence. }
    replace (n1 =? 0)%Z with false by (symmetry; apply Z.eqb_neq; exact Hn10).
    cbn [negb].
    pose proof (fits_count _ _ _ _ _ _ _ _ F1 ltac:(rewrite Hu1; lia)) as Hc1.
    rewrite Hu1 in Hc1.
    pose proof (fits_length _ _ _ _ _ _ _ _ F1 ltac:(rewrite Hu1; lia)) as Hl1.
    rewrite length_store4 in Hl1.
    assert (Hu2 : u32 (m - n1) = (m - n1)%Z) by (apply u32_small; lia).
    apply safe_bind.
    { apply IH.
      - rewrite Hu2. lia.
      - lia.
      - replace (Z.to_nat (len - Z.of_nat s)) with (n - s)%nat by lia.
        apply clean_skipn; [exact Hc|lia].
      - replace (Z.to_nat (len - Z.of_nat s)) with (n - s)%nat by lia.
        intros i k Hk Hik. rewrite skipn_skipn. apply Hz; lia.
      - exact Hf.
      - rewrite store_split_bez, Hl1, Hu2. lia. }
    intros [n2 st2] _. cbv zeta. destruct (n2 <? 0)%Z; discriminate.
Qed.


Lemma full_ge_m1 (fuel : nat) : forall st bezier sp data len t1 t2 e m N st',
  sp_bezier_fit_cubic_full fuel st bezier sp data len t1 t2 e m = Ret (N, st') ->
  (-1 <= N)%Z.
Proof.
  induction fuel as [|fuel IH]; intros st bezier sp data len t1 t2 e m N st' H;
    [discriminate|].
  cbn [sp_bezier_fit_cubic_full] in H.
  destruct bezier as [b|]; [|injection H as <- <-; lia].
  destruct data as [d|]; [|injection H as <- <-; lia].
  destruct (negb (0 <? len)%Z); [injection H as <- <-; lia|].
  destruct (negb (1 <=? m)%Z); [injection H as <- <-; lia|].
  destruct (negb (d0 <=? e)%D); [injection H as <- <-; lia|].
  destruct (len <? 2)%Z; [injection H as <- <-; lia|].
  destruct (len =? 2)%Z; [injection H as <- <-; lia|].
  apply bind_Ret in H as (a & Ha & H).
  destruct a as [[bz|bz r spt]|]; try (injection H as <- <-; lia).
  cbv zeta in H.
  destruct (corner_block _ _ _ _ _) as [spt'| | |]; try discriminate;
    try (eapply IH, H).
  unfold split_block in H.
  destruct (1 <? m)%Z; [|injection H as <- <-; lia].
  destruct spt' as [s|]; [|discriminate].
  cbv zeta in H.
  destruct (_ && negb _); [injection H as <- <-; lia|].
  apply bind_Ret in H as (recT2 & HT & H).
  apply bind_Ret in H as ([n1 st2] & H1 & H).
  destruct (Z.ltb_spec n1 0); [injection H as <- <-; lia|].
  destruct (negb (n1 =? 0)%Z); [|discriminate].
  apply bind_Ret in H as ([n2 st4] & H2 & H).
  destruct (Z.ltb_spec n2 0); injection H as <- <-; lia.
Qed.

Lemma sanitized_firstn_clean (d : list QPointF) (n : nat) :
  (n <= length d)%nat -> sanitized (firstn n d) = true -> clean d n.
Proof.
  intros Hn Hs. apply clean_sanitized in Hs. rewrite length_firstn in Hs.
  replace (Nat.min n (length d)) with n in Hs by lia.
  intros k Hk. destruct (Hs k Hk) as [H1 H2]. rewrite at_firstn in H1 by lia.
  split; [exact H1|]. intros Hk'. specialize (H2 Hk').
  rewrite !at_firstn in H2 by lia. exact H2.
Qed.

Lemma safe_stops_Ret {A : Type} (r : res A) : safe r -> stops r -> exists a, r = Ret a.
Proof.
  unfold safe, stops. destruct r; intros H1 H2; [eexists; reflexivity| |]; congruence.
Qed.

(** X11: on at least two and fewer than [2^32] sanitized points none of
    whose stretches has chord length 0.0, with a finite tolerance and
    room in the caller's arrays for the budget, no assertion of
    [sp_bezier_fit_cubic_full] or of the functions it calls fails: the
    call returns, within a recursion depth of [3 * max_beziers], either
    -1 or a count between 1 and [max_beziers]. *)
Theorem sanitized_fit_returns (fuel : nat) (st : store) (b : nat) (sp : option nat)
        (d : list QPointF) (len : Z) (tHat1 tHat2 : QPointF) (error : double)
        (max_beziers : Z) :
  (1 <= max_beziers < 2 ^ 32)%Z ->
  (3 * Z.to_nat max_beziers <= fuel)%nat ->
  (2 <= len < 2 ^ 32)%Z ->
  (Z.to_nat len <= length d)%nat ->
  sanitized (firstn (Z.to_nat len) d) = true ->
  no_zero_length_range d (Z.to_nat len) ->
  isFinite error = true ->
  room st b sp max_beziers ->
  exists N st',
    sp_bezier_fit_cubic_full fuel st (Some b) sp (Some d) len tHat1 tHat2
                             error max_beziers = Ret (N, st')
    /\ (N = -1 \/ 1 <= N <= max_beziers)%Z.
Proof.
  intros Hm Hfuel Hlen Hd Hs Hz Hf [Hb _].
  destruct (safe_stops_Ret
              (sp_bezier_fit_cubic_full fuel st (Some b) sp (Some d) len tHat1 tHat2
                                        error max_beziers)) as ([N st'] & H).
  - apply full_safe; try assumption; try lia.
    apply sanitized_firstn_clean; assumption.
  - apply full_stops; try lia. pose proof (constrained_le_2 tHat1 tHat2). lia.
  - exists N, st'. split; [exact H|].
    pose proof (full_ge_m1 _ _ _ _ _ _ _ _ _ _ _ _ H) as Hge.
    destruct (Z.eq_dec N (-1)) as [->|Hne]; [left; reflexivity|right].
    pose proof (full_shape _ _ _ _ _ _ _ _ _ _ _ _ H ltac:(lia) ltac:(lia)) as F.
    pose proof (fits_count _ _ _ _ _ _ _ _ F ltac:(lia)) as Hc.
    destruct (Z.eq_dec N 0) as [->|Hn0]; [|lia].
    apply fits_zero in F as [_ [F|F]]; [lia|].
    pose proof (Hz 0%nat (Z.to_nat len) ltac:(lia) ltac:(lia)) as Z0.
    cbn [skipn] in Z0. congruence.
Qed.

(** X12: on at least two sanitized points and with [tolerance_sq >= 0],
    [generate_bezier] fails none of the assertions of the tangent
    estimators and returns four control points, the first [d[0]] and the
    last [d[len - 1]], whatever the end tangents given. *)
Theorem generate_bezier_ends (w d : list QPointF) (u : list double) (n : nat)
        (tHat1 tHat2 : QPointF) (tolerance_sq : double) :
  (2 <= n <= length d)%nat -> (n <= length u)%nat ->
  sanitized (firstn n d) = true ->
  (d0 <=? tolerance_sq)%D = true -> length w = 4%nat ->
  exists bz,
    generate_bezier w d u n tHat1 tHat2 tolerance_sq = Ret bz
    /\ length bz = 4%nat /\ at_ bz 0 = at_ d 0 /\ at_ bz 3 = at_ d (n - 1).
Proof.
  intros Hn _ Hs He Hw.
  destruct (safe_stops_Ret (generate_bezier w d u n tHat1 tHat2 tolerance_sq)) as (bz & H).
  - apply generate_bezier_safe; [lia| |exact He].
    apply sanitized_firstn_clean; [lia|exact Hs].
  - apply generate_bezier_stops.
  - exists bz. split; [exact H|]. exact (generate_bezier_spans _ _ _ _ _ _ _ _ Hw H).
Qed.

End Fitting.

(** ** What a call writes, and what it returns *)

(** *** What a call writes *)

(** What a call with budget [m] on [len] points may have changed in the
    array behind [split_points]. *)
Definition splits_written (sp : option nat) (old new : list Z) (m len : Z) : Prop :=
  match sp with
  | None => new = old
  | Some p =>
      length new = length old
      /\ forall i, nth i new 0%Z <> nth i old 0%Z ->
                   (p <= i)%nat /\ (Z.of_nat i + 1 < Z.of_nat p + m)%Z
                   /\ (0 < nth i new 0 < len - 1)%Z
  end.

Lemma splits_written_refl (sp : option nat) (l : list Z) (m len : Z) :
  splits_written sp l l m len.
Proof.
  destruct sp as [p|]; [|reflexivity]. split; [reflexivity|].
  intros i H. congruence.
Qed.

Lemma full_writes (fuel : nat) : forall st b sp d len t1 t2 e m N st',
  (0 <= m < 2 ^ 32)%Z ->
  sp_bezier_fit_cubic_full fuel st (Some b) sp (Some d) len t1 t2 e m = Ret (N, st') ->
  length (bez st') = length (bez st)
  /\ (forall i, (i < b \/ b + 4 * Z.to_nat m <= i)%nat -> at_ (bez st') i = at_ (bez st) i)
  /\ splits_written sp (splits st) (splits st') m len.
Proof.
  induction fuel as [|fuel IH]; intros st b sp d len t1 t2 e m N st' Hm H;
    [discriminate|].
  assert (Same : forall s : store, length (bez s) = length (bez s)
             /\ (forall i, (i < b \/ b + 4 * Z.to_nat m <= i)%nat ->
                           at_ (bez s) i = at_ (bez s) i)
             /\ splits_written sp (splits s) (splits s) m len).
  { intros s. split; [reflexivity|]. split; [reflexivity|apply splits_written_refl]. }
  cbn [sp_bezier_fit_cubic_full] in H.
  destruct (0 <? len)%Z eqn:Hlen; cbn [negb] in H; [|injection H as <- <-; apply Same].
  destruct (1 <=? m)%Z eqn:Hm1; cbn [negb] in H; [|injection H as <- <-; apply Same].
  destruct (d0 <=? e)%D eqn:He; cbn [negb] in H; [|injection H as <- <-; apply Same].
  apply Z.ltb_lt in Hlen. apply Z.leb_le in Hm1.
  destruct (len <? 2)%Z eqn:Hl2; [injection H as <- <-; apply Same|].
  apply Z.ltb_ge in Hl2.
  assert (One : forall c : list QPointF,
             length (bez (store4 st b c)) = length (bez st)
             /\ (forall i, (i < b \/ b + 4 * Z.to_nat m <= i)%nat ->
                           at_ (bez (store4 st b c)) i = at_ (bez st) i)
             /\ splits_written sp (splits st) (splits (store4 st b c)) m len).
  { intros c. split; [apply length_store4|].
    split; [intros i Hi; apply store4_frame; lia|].
    rewrite splits_store4. apply splits_written_refl. }
  destruct (len =? 2)%Z eqn:Hl3; [injection H as <- <-; apply One|].
  apply Z.eqb_neq in Hl3.
  apply bind_Ret in H as (a & Ha & H).
  destruct a as [[bz|bz r spt]|]; try (injection H as <- <-; first [apply One|apply Same]).
  cbv zeta in H.
  assert (Retry : forall t1' t2',
             sp_bezier_fit_cubic_full fuel (store4 st b bz) (Some b) sp (Some d) len
                                      t1' t2' e m = Ret (N, st') ->
             length (bez st') = length (bez st)
             /\ (forall i, (i < b \/ b + 4 * Z.to_nat m <= i)%nat ->
                           at_ (bez st') i = at_ (bez st) i)
             /\ splits_written sp (splits st) (splits st') m len).
  { intros t1' t2' H'. destruct (IH _ _ _ _ _ _ _ _ _ _ _ Hm H') as (L & F & S).
    rewrite length_store4 in L. rewrite splits_store4 in S.
    split; [exact L|]. split; [|exact S].
    intros i Hi. rewrite F by exact Hi. apply store4_frame. lia. }
  destruct (corner_block _ _ _ _ _) as [spt'| | |] eqn:Hcb;
    [|eapply Retry, H|eapply Retry, H|discriminate].
  unfold split_block in H.
  destruct (1 <? m)%Z eqn:Hm2; [|injection H as <- <-; apply One].
  apply Z.ltb_lt in Hm2.
  destruct spt' as [s|]; [|discriminate].
  cbv zeta in H.
  destruct (_ && negb _) eqn:Hg; [injection H as <- <-; apply One|].
  apply bind_Ret in H as (recT2 & HT & H).
  assert (Hs_range : (0 < s < Z.to_nat len - 1)%nat).
  { destruct (r <? d0)%D; cbn [andb] in Hg.
    - apply negb_false_iff, andb_prop in Hg as [G1 G2].
      apply Nat.ltb_lt in G1, G2. lia.
    - eapply center_tangent_range, HT. }
  apply bind_Ret in H as ([n1 st2] & H1 & H).
  assert (Hu1 : u32 (m - 1) = (m - 1)%Z) by (apply u32_small; lia).
  rewrite Hu1 in H1.
  destruct (fun A => IH _ _ _ _ _ _ _ _ _ _ _ A H1) as (L1 & F1 & S1); [lia|].
  rewrite length_store4 in L1. rewrite splits_store4 in S1.
  assert (Left : length (bez st2) = length (bez st)
             /\ (forall i, (i < b \/ b + 4 * Z.to_nat m <= i)%nat ->
                           at_ (bez st2) i = at_ (bez st) i)
             /\ splits_written sp (splits st) (splits st2) m len).
  { split; [exact L1|]. split.
    - intros i Hi. rewrite F1 by lia. apply store4_frame. lia.
    - destruct sp as [p|]; [|exact S1]. destruct S1 as [SL S1].
      split; [exact SL|]. intros i Hi. specialize (S1 i Hi). lia. }
  destruct (n1 <? 0)%Z eqn:Hn1; [injection H as <- <-; exact Left|].
  apply Z.ltb_ge in Hn1.
  destruct (n1 =? 0)%Z eqn:Hn10; [discriminate|]. cbn [negb] in H.
  apply Z.eqb_neq in Hn10.
  pose proof (full_shape _ _ _ _ _ _ _ _ _ _ _ _ H1 ltac:(lia) Hn1) as Sh1.
  pose proof (fits_count _ _ _ _ _ _ _ _ Sh1 ltac:(lia)) as Hc1.
  assert (Hu2 : u32 (m - n1) = (m - n1)%Z) by (apply u32_small; lia).
  rewrite Hu2 in H.
  apply bind_Ret in H as ([n2 st4] & H2 & H).
  destruct (fun A => IH _ _ _ _ _ _ _ _ _ _ _ A H2) as (L2 & F2 & S2); [lia|].
  rewrite store_split_bez in L2, F2.
  assert (Both : length (bez st4) = length (bez st)
             /\ (forall i, (i < b \/ b + 4 * Z.to_nat m <= i)%nat ->
                           at_ (bez st4) i = at_ (bez st) i)
             /\ splits_written sp (splits st) (splits st4) m len).
  { destruct Left as (_ & FL & SL).
    split; [lia|]. split.
    - intros i Hi. rewrite F2 by lia. apply FL. exact Hi.
    - destruct sp as [p|]; cbn [option_map store_split splits splits_written] in *.
      + destruct SL as [LL SL]. destruct S2 as [LS S2].
        rewrite length_upd in LS.
        split; [lia|]. intros i Hi.
        destruct (Z.eq_dec (nth i (splits st4) 0%Z)
                           (nth i (upd (p + Z.to_nat (n1 - 1)) (Z.of_nat s) (splits st2)) 0%Z))
          as [E4|E4].
        * rewrite E4 in *.
          destruct (Nat.eq_dec i (p + Z.to_nat (n1 - 1))) as [Ei|Ei].
          -- subst i.
             destruct (Nat.lt_ge_cases (p + Z.to_nat (n1 - 1)) (length (splits st2)))
               as [In|Out].
             ++ rewrite nth_upd_eq by exact In. lia.
             ++ rewrite upd_out in Hi by lia. rewrite upd_out by lia.
                specialize (SL _ Hi). lia.
          -- rewrite nth_upd_neq in Hi by lia. rewrite nth_upd_neq by lia.
             apply SL, Hi.
        * specialize (S2 i E4). lia.
      + rewrite S2. exact SL. }
  destruct (n2 <? 0)%Z; injection H as <- <-; exact Both.
Qed.

(** X13: whatever a call of [sp_bezier_fit_cubic_full] returns, a count
    or -1, the result is between -1 and [max_beziers], and the call has
    written nothing outside [bezier[0 .. 4 * max_beziers - 1]]. *)
Theorem writes_within_budget (fuel : nat) (st : store) (b : nat) (sp : option nat)
        (d : list QPointF) (len : Z) (tHat1 tHat2 : QPointF) (error : double)
        (max_beziers N : Z) (st' : store) :
  (0 <= max_beziers < 2 ^ 32)%Z ->
  (Z.to_nat len <= length d)%nat -> room st b sp max_beziers ->
  sp_bezier_fit_cubic_full fuel st (Some b) sp (Some d) len tHat1 tHat2 error max_beziers
  = Ret (N, st') ->
  (-1 <= N <= max_beziers)%Z
  /\ length (bez st') = length (bez st)
  /\ forall i, (i < b \/ b + 4 * Z.to_nat max_beziers <= i)%nat ->
               at_ (bez st') i = at_ (bez st) i.
Proof.
  intros Hm _ _ H. destruct (full_writes fuel _ _ _ _ _ _ _ _ _ _ _ Hm H) as (L & F & _).
  split; [|split; assumption].
  pose proof (full_ge_m1 _ _ _ _ _ _ _ _ _ _ _ _ H) as G. split; [exact G|].
  destruct (Z_lt_le_dec N 0) as [Neg|Pos]; [lia|].
  pose proof (full_shape _ _ _ _ _ _ _ _ _ _ _ _ H Hm Pos) as Sh.
  apply (fits_count _ _ _ _ _ _ _ _ Sh Hm).
Qed.

(** X14: a call with a split-point array changes at most its first
    [max_beziers - 1] entries, and every value it stores is a split
    index strictly between 0 and [len - 1]. *)
Theorem split_points_written (fuel : nat) (st : store) (b p : nat)
        (d : list QPointF) (len : Z) (tHat1 tHat2 : QPointF) (error : double)
        (max_beziers N : Z) (st' : store) :
  (0 <= max_beziers < 2 ^ 32)%Z ->
  (Z.to_nat len <= length d)%nat -> room st b (Some p) max_beziers ->
  sp_bezier_fit_cubic_full fuel st (Some b) (Some p) (Some d) len tHat1 tHat2 error
                           max_beziers = Ret (N, st') ->
  length (splits st') = length (splits st)
  /\ forall i, nth i (splits st') 0%Z <> nth i (splits st) 0%Z ->
               (p <= i)%nat /\ (Z.of_nat i + 1 < Z.of_nat p + max_beziers)%Z
               /\ (0 < nth i (splits st') 0 < len - 1)%Z.
Proof.
  intros Hm _ _ H. destruct (full_writes fuel _ _ _ _ _ _ _ _ _ _ _ Hm H) as (_ & _ & S).
  exact S.
Qed.

(** *** The contents of the output buffer do not matter *)

Lemma window4 {A : Type} (w : list A) :
  length w = 4%nat -> exists a b c e, w = [a; b; c; e].
Proof.
  destruct w as [|a [|b [|c [|e [|f w]]]]]; try discriminate. intros _. eauto.
Qed.

Lemma estimate_lengths_window (w w' d : list QPointF) (u : list double) (n : nat)
      (t1 t2 : QPointF) :
  length w = 4%nat -> length w' = 4%nat ->
  estimate_lengths w d u n t1 t2 = estimate_lengths w' d u n t1 t2.
Proof.
  intros H H'. destruct (window4 w H) as (a & b & c & e & ->).
  destruct (window4 w' H') as (a' & b' & c' & e' & ->). reflexivity.
Qed.

Lemma generate_bezier_window (w w' d : list QPointF) (u : list double) (n : nat)
      (t1 t2 : QPointF) (e : double) :
  length w = 4%nat -> length w' = 4%nat ->
  generate_bezier w d u n t1 t2 e = generate_bezier w' d u n t1 t2 e.
Proof.
  intros H H'. unfold generate_bezier. cbv zeta.
  destruct (if is_zero t1 then _ else _) as [e1| |]; cbn [bind]; try reflexivity.
  destruct (if is_zero t2 then _ else _) as [e2| |]; cbn [bind]; try reflexivity.
  rewrite (estimate_lengths_window w w') by assumption. reflexivity.
Qed.

Lemma fit_attempts_window (w w' d : list QPointF) (n : nat) (t1 t2 : QPointF) (e : double) :
  length w = 4%nat -> length w' = 4%nat ->
  fit_attempts w d n t1 t2 e = fit_attempts w' d n t1 t2 e.
Proof.
  intros H H'. unfold fit_attempts. cbv zeta.
  rewrite (generate_bezier_window w w') by assumption. reflexivity.
Qed.

Lemma fit_two_points_window (w w' d : list QPointF) (n : nat) (t1 t2 : QPointF) :
  length w = 4%nat -> length w' = 4%nat ->
  fit_two_points w d n t1 t2 = fit_two_points w' d n t1 t2.
Proof.
  intros H H'. destruct (window4 w H) as (a & b & c & e & ->).
  destruct (window4 w' H') as (a' & b' & c' & e' & ->).
  unfold fit_two_points. destruct (isNaN _); reflexivity.
Qed.


Lemma store4_window (st st2 : store) (b : nat) (c : list QPointF) (i : nat) :
  (b + 4 <= length (bez st))%nat -> length (bez st2) = length (bez st) ->
  (b <= i < b + 4)%nat ->
  at_ (bez (store4 st2 b c)) i = at_ (bez (store4 st b c)) i.
Proof.
  intros Hb Hl Hi. replace i with (b + (i - b))%nat by lia.
  rewrite !store4_at by lia. reflexivity.
Qed.

(** Two runs that differ in the contents of the output buffer only. *)
Lemma full_indep (fuel : nat) : forall st st2 b sp d len t1 t2 e m N st',
  (0 <= m < 2 ^ 32)%Z ->
  length (bez st2) = length (bez st) -> splits st2 = splits st ->
  (b + 4 * Z.to_nat m <= length (bez st))%nat ->
  sp_bezier_fit_cubic_full fuel st (Some b) sp (Some d) len t1 t2 e m = Ret (N, st') ->
  exists st2',
    sp_bezier_fit_cubic_full fuel st2 (Some b) sp (Some d) len t1 t2 e m = Ret (N, st2')
    /\ splits st2' = splits st'
    /\ forall i, (b <= i < b + 4 * Z.to_nat N)%nat -> at_ (bez st2') i = at_ (bez st') i.
Proof.
  induction fuel as [|fuel IH]; intros st st2 b sp d len t1 t2 e m N st' Hm Hl Hsp Hb H;
    [discriminate|].
  assert (Same : N = (-1)%Z \/ N = 0%Z -> st' = st ->
                 exists st2', Ret (N, st2) = Ret (N, st2')
                   /\ splits st2' = splits st'
                   /\ forall i, (b <= i < b + 4 * Z.to_nat N)%nat ->
                                at_ (bez st2') i = at_ (bez st') i).
  { intros HN ->. exists st2. split; [reflexivity|]. split; [exact Hsp|].
    intros i Hi. lia. }
  cbn [sp_bezier_fit_cubic_full] in H |- *.
  destruct (0 <? len)%Z eqn:Hlen; cbn [negb] in H |- *;
    [|injection H as <- <-; apply Same; auto].
  destruct (1 <=? m)%Z eqn:Hm1; cbn [negb] in H |- *;
    [|injection H as <- <-; apply Same; auto].
  destruct (d0 <=? e)%D eqn:He; cbn [negb] in H |- *;
    [|injection H as <- <-; apply Same; auto].
  apply Z.ltb_lt in Hlen. apply Z.leb_le in Hm1.
  destruct (len <? 2)%Z eqn:Hl2; [injection H as <- <-; apply Same; auto|].
  apply Z.ltb_ge in Hl2.
  assert (W : length (load4 st b) = 4%nat) by (apply length_load4; lia).
  assert (W2 : length (load4 st2 b) = 4%nat) by (apply length_load4; lia).
  assert (One : forall c, exists st2',
             Ret (1%Z, store4 st2 b c) = Ret (1%Z, st2')
             /\ splits st2' = splits (store4 st b c)
             /\ forall i, (b <= i < b + 4 * Z.to_nat 1)%nat ->
                          at_ (bez st2') i = at_ (bez (store4 st b c)) i).
  { intros c. exists (store4 st2 b c). split; [reflexivity|].
    split; [rewrite !splits_store4; exact Hsp|].
    intros i Hi. apply store4_window; lia. }
  assert (Fail : forall c, exists st2',
             Ret ((-1)%Z, store4 st2 b c) = Ret ((-1)%Z, st2')
             /\ splits st2' = splits (store4 st b c)
             /\ forall i, (b <= i < b + 4 * Z.to_nat (-1))%nat ->
                          at_ (bez st2') i = at_ (bez (store4 st b c)) i).
  { intros c. exists (store4 st2 b c). split; [reflexivity|].
    split; [rewrite !splits_store4; exact Hsp|]. intros i Hi. lia. }
  destruct (len =? 2)%Z eqn:Hl3.
  { injection H as <- <-.
    rewrite (fit_two_points_window (load4 st2 b) (load4 st b)) by assumption.
    apply One. }
  apply Z.eqb_neq in Hl3.
  rewrite (fit_attempts_window (load4 st2 b) (load4 st b)) by assumption.
  apply bind_Ret in H as (a & Ha & H). rewrite Ha. cbn [bind].
  destruct a as [[bz|bz r spt]|];
    try (injection H as <- <-; first [apply One|apply Same; auto]).
  cbv zeta in H |- *.
  assert (Retry : forall t1' t2',
             sp_bezier_fit_cubic_full fuel (store4 st b bz) (Some b) sp (Some d) len
                                      t1' t2' e m = Ret (N, st') ->
             exists st2',
               sp_bezier_fit_cubic_full fuel (store4 st2 b bz) (Some b) sp (Some d) len
                                        t1' t2' e m = Ret (N, st2')
               /\ splits st2' = splits st'
               /\ forall i, (b <= i < b + 4 * Z.to_nat N)%nat ->
                            at_ (bez st2') i = at_ (bez st') i).
  { intros t1' t2' H'. apply (IH (store4 st b bz)); try assumption.
    - now rewrite !length_store4.
    - now rewrite length_store4. }
  destruct (corner_block _ _ _ _ _) as [spt'| | |] eqn:Hcb;
    [|eapply Retry, H|eapply Retry, H|discriminate].
  unfold split_block in H |- *.
  destruct (1 <? m)%Z eqn:Hm2; [|injection H as <- <-; apply Fail].
  apply Z.ltb_lt in Hm2.
  destruct spt' as [s|]; [|discriminate].
  cbv zeta in H |- *.
  destruct (_ && negb _) eqn:Hg; [injection H as <- <-; apply Fail|].
  apply bind_Ret in H as (recT2 & HT & H). rewrite HT. cbn [bind].
  apply bind_Ret in H as ([n1 st1] & H1 & H).
  assert (Hu1 : u32 (m - 1) = (m - 1)%Z) by (apply u32_small; lia).
  rewrite Hu1 in H1 |- *.
  destruct (fun A B C D => IH _ (store4 st2 b bz) _ _ _ _ _ _ _ _ _ _ A B C D H1)
    as (st1' & R1 & S1 & F1);
    [lia|now rewrite !length_store4|exact Hsp|rewrite length_store4; lia|].
  rewrite R1. cbn [bind].
  destruct (fun A => full_writes fuel _ _ _ _ _ _ _ _ _ _ _ A H1) as (L1 & _ & _); [lia|].
  destruct (fun A => full_writes fuel _ _ _ _ _ _ _ _ _ _ _ A R1) as (L1' & _ & _); [lia|].
  rewrite length_store4 in L1, L1'.
  destruct (n1 <? 0)%Z eqn:Hn1.
  { injection H as <- <-. exists st1'. split; [reflexivity|]. split; [exact S1|].
    intros i Hi. apply Z.ltb_lt in Hn1. lia. }
  apply Z.ltb_ge in Hn1.
  destruct (n1 =? 0)%Z eqn:Hn10; [discriminate|]. cbn [negb] in H |- *.
  apply Z.eqb_neq in Hn10.
  pose proof (full_shape _ _ _ _ _ _ _ _ _ _ _ _ H1 ltac:(lia) Hn1) as Sh1.
  pose proof (fits_count _ _ _ _ _ _ _ _ Sh1 ltac:(lia)) as Hc1.
  assert (Hu2 : u32 (m - n1) = (m - n1)%Z) by (apply u32_small; lia).
  rewrite Hu2 in H |- *.
  apply bind_Ret in H as ([n2 st4] & H2 & H).
  destruct (fun A B C D =>
              IH _ (store_split st1' sp (Z.to_nat (n1 - 1)) (Z.of_nat s))
                 _ _ _ _ _ _ _ _ _ _ A B C D H2)
    as (st4' & R2 & S2 & F2).
  { lia. }
  { rewrite !store_split_bez. lia. }
  { destruct sp as [p|]; cbn [store_split splits]; [now rewrite S1|exact S1]. }
  { rewrite store_split_bez. lia. }
  rewrite R2. cbn [bind].
  destruct (fun A => full_writes fuel _ _ _ _ _ _ _ _ _ _ _ A H2) as (_ & Fr & _); [lia|].
  destruct (fun A => full_writes fuel _ _ _ _ _ _ _ _ _ _ _ A R2) as (_ & Fr' & _); [lia|].
  rewrite store_split_bez in Fr, Fr'.
  destruct (n2 <? 0)%Z eqn:Hn2.
  { injection H as <- <-. exists st4'. split; [reflexivity|]. split; [exact S2|].
    intros i Hi. lia. }
  apply Z.ltb_ge in Hn2.
  injection H as <- <-. exists st4'. split; [reflexivity|]. split; [exact S2|].
  intros i Hi.
  destruct (Nat.lt_ge_cases i (b + Z.to_nat n1 * 4)) as [Lo|Hi'].
  - rewrite Fr by lia. rewrite Fr' by lia. apply F1. lia.
  - apply F2. lia.
Qed.

(** X15: the answer does not depend on what the output buffer held
    before: two calls that differ only in the contents of the buffer (of
    the same size, with room for the budget) return the same count, the
    same split points and the same control points of the segments
    counted. *)
Theorem output_ignores_buffer (fuel : nat) (st st2 : store) (b : nat) (sp : option nat)
        (d : list QPointF) (len : Z) (tHat1 tHat2 : QPointF) (error : double)
        (max_beziers N : Z) (st' : store) :
  (0 <= max_beziers < 2 ^ 32)%Z ->
  (Z.to_nat len <= length d)%nat -> room st b sp max_beziers ->
  length (bez st2) = length (bez st) -> splits st2 = splits st ->
  sp_bezier_fit_cubic_full fuel st (Some b) sp (Some d) len tHat1 tHat2 error max_beziers
  = Ret (N, st') ->
  exists st2',
    sp_bezier_fit_cubic_full fuel st2 (Some b) sp (Some d) len tHat1 tHat2 error
                             max_beziers = Ret (N, st2')
    /\ splits st2' = splits st'
    /\ forall i, (b <= i < b + 4 * Z.to_nat N)%nat -> at_ (bez st2') i = at_ (bez st') i.
Proof.
  intros Hm _ [Hb _] Hl Hs H. exact (full_indep fuel _ _ _ _ _ _ _ _ _ _ _ _ Hm Hl Hs Hb H).
Qed.


(** *** The callers *)

(** X16: on sanitized input of at least two points, and a budget below
    [2^25], [sp_bezier_fit_cubic_r] does what [sp_bezier_fit_cubic_full]
    does on the same points with no split-point array and both end
    tangents unconstrained. *)
Theorem r_on_sanitized (fuel : nat) (st : store) (b : nat) (d : list QPointF)
        (error : double) (max_beziers : Z) :
  sanitized d = true -> (2 <= length d)%nat -> (max_beziers < 2 ^ 25)%Z ->
  sp_bezier_fit_cubic_r (S fuel) st (Some b) (Some d) (Z.of_nat (length d)) error
                        max_beziers
  = sp_bezier_fit_cubic_full (S fuel) st (Some b) None (Some d) (Z.of_nat (length d))
                             unconstrained_tangent unconstrained_tangent error max_beziers.
Proof.
  intros Hs Hl Hm. unfold sp_bezier_fit_cubic_r.
  replace (0 <? Z.of_nat (length d))%Z with true by (symmetry; apply Z.ltb_lt; lia).
  replace (max_beziers <? Z.shiftl 1 (31 - 2 - 1 - 3))%Z with true
    by (symmetry; apply Z.ltb_lt; exact Hm).
  cbn [negb]. rewrite Nat2Z.id.
  rewrite copy_sanitized; [|exact Hs|destruct d; [simpl in Hl; lia|discriminate]
                           |rewrite repeat_length; lia].
  cbn [bind].
  rewrite skipn_all2 by (rewrite repeat_length; lia). rewrite app_nil_r.
  replace (length d <? 2)%nat with false by (symmetry; apply Nat.ltb_ge; lia).
  reflexivity.
Qed.

(** X17: [sp_bezier_fit_cubic], the fit with a budget of one segment,
    returns -1, 0 or 1, and writes nothing but [bezier[0..3]]. *)
Theorem single_segment_fit (fuel : nat) (st : store) (b : nat) (d : list QPointF)
        (len : Z) (error : double) (N : Z) (st' : store) :
  (Z.to_nat len <= length d)%nat -> (b + 4 <= length (bez st))%nat ->
  sp_bezier_fit_cubic fuel st (Some b) (Some d) len error = Ret (N, st') ->
  (N = -1 \/ N = 0 \/ N = 1)%Z
  /\ length (bez st') = length (bez st)
  /\ splits st' = splits st
  /\ forall i, (i < b \/ b + 4 <= i)%nat -> at_ (bez st') i = at_ (bez st) i.
Proof.
  unfold sp_bezier_fit_cubic, sp_bezier_fit_cubic_r. intros _ _ H.
  assert (Same : forall n : Z, (n = -1 \/ n = 0)%Z ->
             (n = -1 \/ n = 0 \/ n = 1)%Z
             /\ length (bez st) = length (bez st) /\ splits st = splits st
             /\ forall i, (i < b \/ b + 4 <= i)%nat -> at_ (bez st) i = at_ (bez st) i).
  { intros n Hn. split; [lia|]. auto. }
  destruct (negb (0 <? len)%Z); [injection H as <- <-; apply Same; auto|].
  destruct (negb (1 <? _)%Z); [injection H as <- <-; apply Same; auto|].
  apply bind_Ret in H as ([ul ud] & _ & H). cbv zeta in H.
  destruct (ul <? 2)%nat; [injection H as <- <-; apply Same; auto|].
  destruct (fun A => full_writes fuel _ _ _ _ _ _ _ _ _ _ _ A H) as (L & F & S); [lia|].
  cbn [splits_written] in S.
  pose proof (full_ge_m1 _ _ _ _ _ _ _ _ _ _ _ _ H) as G.
  split; [|split; [exact L|split; [exact S|exact F]]].
  destruct (Z_lt_le_dec N 0) as [Neg|Pos]; [lia|].
  pose proof (full_shape _ _ _ _ _ _ _ _ _ _ _ _ H ltac:(lia) Pos) as Sh.
  pose proof (fits_count _ _ _ _ _ _ _ _ Sh ltac:(lia)). lia.
Qed.

(** X18: with valid arguments, [sp_bezier_fit_cubic_full] returns the
    count 0 exactly when it is given a single point, or three or more
    points that the chord-length parameterization leaves with
    [u[len - 1] == 0.0] (a path without length); the arrays are then as
    they were.  Two points give the count 1, coincident or not: one
    segment, the one of the two-point branch, written at [bezier], and
    nothing else changed. *)
Theorem zero_count (fuel : nat) (st : store) (b : nat) (sp : option nat)
        (d : list QPointF) (len : Z) (tHat1 tHat2 : QPointF) (error : double)
        (max_beziers N : Z) (st' : store) :
  (0 < len)%Z -> (Z.to_nat len <= length d)%nat ->
  (1 <= max_beziers < 2 ^ 32)%Z -> room st b sp max_beziers ->
  (d0 <=? error)%D = true ->
  sp_bezier_fit_cubic_full fuel st (Some b) sp (Some d) len tHat1 tHat2 error max_beziers
  = Ret (N, st') ->
  (N = 0%Z <-> len = 1%Z \/ ((3 <= len)%Z /\ zero_length d (Z.to_nat len) = true))
  /\ (N = 0%Z -> st' = st)
  /\ (len = 2%Z ->
      N = 1%Z /\ st' = store4 st b (fit_two_points (load4 st b) d 2 tHat1 tHat2)).
Proof.
  intros Hl _ Hm _ He H. split; [|split].
  - split.
    + intros ->.
      pose proof (full_shape _ _ _ _ _ _ _ _ _ _ _ _ H ltac:(lia) ltac:(lia)) as Sh.
      apply fits_zero in Sh as [_ [Sh|Sh]]; [left; lia|].
      destruct (Z.eq_dec len 1) as [E1|N1]; [left; exact E1|].
      destruct (Z.eq_dec len 2) as [->|N2]; [|right; split; [lia|exact Sh]].
      destruct fuel as [|fuel]; [discriminate|].
      cbn [sp_bezier_fit_cubic_full] in H. rewrite He in H.
      replace (1 <=? max_beziers)%Z with true in H by (symmetry; apply Z.leb_le; lia).
      cbn in H. discriminate.
    + destruct fuel as [|fuel]; [discriminate|].
      cbn [sp_bezier_fit_cubic_full] in H. rewrite He in H.
      replace (0 <? len)%Z with true in H by (symmetry; apply Z.ltb_lt; lia).
      replace (1 <=? max_beziers)%Z with true in H by (symmetry; apply Z.leb_le; lia).
      cbn [negb] in H.
      intros [->|[H3 Hz]].
      * cbn in H. injection H as <- _. reflexivity.
      * replace (len <? 2)%Z with false in H by (symmetry; apply Z.ltb_ge; lia).
        replace (len =? 2)%Z with false in H by (symmetry; apply Z.eqb_neq; lia).
        unfold fit_attempts in H. unfold zero_length in Hz. cbv zeta in H.
        rewrite Hz in H. cbn [bind] in H. injection H as <- _. reflexivity.
  - intros ->.
    pose proof (full_shape _ _ _ _ _ _ _ _ _ _ _ _ H ltac:(lia) ltac:(lia)) as Sh.
    apply fits_zero in Sh as [E _]. exact E.
  - intros ->.
    destruct fuel as [|fuel]; [discriminate|].
    cbn [sp_bezier_fit_cubic_full] in H. rewrite He in H.
    replace (1 <=? max_beziers)%Z with true in H by (symmetry; apply Z.leb_le; lia).
    cbn in H. injection H as <- <-. split; reflexivity.
Qed.

(** ** The segments of a result on sanitized input *)

(** *** Sanitized input has no stretch of length 0.0 *)

Lemma copy_first_Some (fuel : nat) (src : list QPointF) (src_len si0 si : nat) :
  copy_first fuel src src_len si0 = Ret (Some si) ->
  si = si0 /\ si0 <> src_len /\ no_nan (at_ src si0) = true.
Proof.
  induction fuel as [|fuel IH]; intros H; [discriminate|].
  cbn [copy_first] in H.
  destruct (Nat.eqb_spec si0 src_len) as [E|E]; [discriminate|].
  destruct (negb (isNaN (px (at_ src si0))) && negb (isNaN (py (at_ src si0)))) eqn:N.
  - injection H as <-. auto.
  - apply IH, H.
Qed.

(** What the sanitation returns is sanitized. *)
Lemma copy_Ret_clean (fuel : nat) (src : list QPointF) (src_len : nat)
      (dest : list QPointF) (n : nat) (dest' : list QPointF) :
  (src_len <= length dest)%nat ->
  copy_without_nans_or_adjacent_duplicates fuel src src_len dest = Ret (n, dest') ->
  (1 <= n)%nat ->
  clean dest' n /\ (n <= src_len)%nat /\ length dest' = length dest.
Proof.
  intros Hd H Hn. unfold copy_without_nans_or_adjacent_duplicates in H.
  apply bind_Ret in H as (found & Hf & H).
  destruct found as [si|]; [|injection H as <- _; lia].
  apply copy_first_Some in Hf as (-> & Hl & Hnn).
  cbv zeta in H.
  destruct (copy_fold_inv src dest src_len (src_len - 1) 1 0 (upd 0 (at_ src 0) dest)
                          (fun _ => 0%nat))
    as (di' & dest1 & idx' & F & B & L & C & _); try lia.
  - apply length_upd.
  - intros k Hk. replace k with 0%nat by lia. rewrite at_upd_eq by lia. split; [exact Hnn|lia].
  - intros i Hi. replace i with 0%nat by lia. rewrite at_upd_eq by lia. split; [reflexivity|lia].
  - intros i Hi. rewrite at_upd_neq by lia. reflexivity.
  - rewrite F in H.
    destruct (di' + 1 <=? src_len)%nat; [|discriminate].
    injection H as <- <-. replace (di' + 1)%nat with (S di') by lia.
    split; [exact C|]. split; [lia|exact L].
Qed.

Lemma clean_sanitized_firstn (d : list QPointF) (n : nat) :
  (n <= length d)%nat -> clean d n -> sanitized (firstn n d) = true.
Proof.
  intros Hn Hc. apply sanitized_clean.
  rewrite length_firstn. replace (Nat.min n (length d)) with n by lia.
  intros k Hk. rewrite at_firstn by lia.
  destruct (Hc k Hk) as [H1 H2]. split; [exact H1|].
  intros Hk'. rewrite at_firstn by lia. apply H2, Hk'.
Qed.

Section Chaining.
Context {CL : ChordLaws AR}.

(** Along sanitized points the path sums stay away from 0.0: each is
    positive, an infinity or a NaN. *)
Lemma path_positive (d : list QPointF) (n : nat) :
  clean d n ->
  forall i, (i < n)%nat ->
    (path_length d i <? d0)%D = false
    /\ ((1 <= i)%nat -> (path_length d i =? d0)%D = false).
Proof.
  intros Hc. induction i as [|i IH]; intros Hi.
  - cbn [path_length]. split; [apply zero_not_neg|lia].
  - destruct (IH ltac:(lia)) as [Hneg _]. cbn [path_length].
    destruct (Hc i ltac:(lia)) as [_ Hd]. specialize (Hd Hi).
    assert (Hh : (L2 (pt_sub (at_ d (S i)) (at_ d i)) =? d0)%D = false
                 /\ (L2 (pt_sub (at_ d (S i)) (at_ d i)) <? d0)%D = false).
    { unfold L2, pt_sub. cbn [px py]. apply hypot_pos.
      unfold pt_neqb, pt_eqb in Hd. apply negb_true_iff, andb_false_iff in Hd.
      destruct Hd as [Hd|Hd]; [left|right]; apply sub_neq, Hd. }
    destruct Hh as [H0 Hn].
    destruct (add_pos _ _ Hneg H0 Hn) as [A0 An]. auto.
Qed.

(** A path sum that is not 0.0 is scaled to [u[len - 1] == 1.0]. *)
Lemma nonzero_path_length (d : list QPointF) (n : nat) :
  (2 <= n)%nat -> (path_length d (n - 1) =? d0)%D = false -> zero_length d n = false.
Proof.
  intros Hn Hp. unfold zero_length, chord_length_parameterize.
  replace (2 <=? n)%nat with true by (symmetry; apply Nat.leb_le; lia).
  cbn [negb].
  destruct (sums_loop d (n - 1) 1 (upd 0 d0 (repeat d0 n))) as [E1 E2].
  { lia. }
  { rewrite length_upd, repeat_length. lia. }
  { intros j Hj. replace j with 0%nat by lia. unfold uat.
    rewrite nth_upd_eq by (rewrite repeat_length; lia). reflexivity. }
  cbv zeta in E1, E2. rewrite length_upd, repeat_length in E1.
  set (u1 := fold_left _ (seq 1 (n - 1)) (upd 0 d0 (repeat d0 n))) in *.
  rewrite (E2 (n - 1)%nat) by lia. rewrite Hp.
  assert (Final : forall u2 : list double,
             length u2 = n ->
             (uat (if (uat u2 (n - 1) !=? d1)%D then upd (n - 1) d1 u2 else u2) (n - 1)
              =? d0)%D = false).
  { intros u2 L2. destruct (uat u2 (n - 1) =? d1)%D eqn:E; cbn [negb].
    - apply eq_one_neq_zero, E.
    - rewrite uat_upd_eq by lia. apply one_neq_zero. }
  destruct (isFinite (path_length d (n - 1))).
  - destruct (scale_loop (path_length d (n - 1)) (n - 1) 1 u1) as [S1 _]; [lia|].
    cbv zeta in S1. apply Final. rewrite S1. exact E1.
  - destruct (uniform_loop (n - 1) (n - 1) 1 u1) as [S1 _]; [lia|].
    cbv zeta in S1. apply Final. rewrite S1. exact E1.
Qed.

Lemma clean_no_zero_length_range (d : list QPointF) (n : nat) :
  clean d n -> no_zero_length_range d n.
Proof.
  intros Hc i k Hk Hik.
  apply nonzero_path_length; [exact Hk|].
  assert (Hs : clean (skipn i d) k).
  { apply (clean_le _ (n - i)); [|lia]. apply clean_skipn; [exact Hc|lia]. }
  apply (path_positive _ _ Hs (k - 1)%nat); lia.
Qed.

(** The segments of a run on sanitized points are chained. *)
Lemma full_chained (fuel : nat) (st : store) (b : nat) (sp : option nat)
      (d : list QPointF) (len : Z) (t1 t2 : QPointF) (e : double) (m N : Z) (st' : store) :
  (0 <= m < 2 ^ 32)%Z ->
  (b + 4 * Z.to_nat m <= length (bez st))%nat ->
  (1 <= N)%Z ->
  clean d (Z.to_nat len) ->
  sp_bezier_fit_cubic_full fuel st (Some b) sp (Some d) len t1 t2 e m = Ret (N, st') ->
  chained (bez st') b d (Z.to_nat len) (Z.to_nat N).
Proof.
  intros Hm Hroom HN Hc H.
  destruct (full_fits fuel _ _ _ _ _ _ _ _ _ _ _ Hm H) as [_ F].
  eapply fits_chained; eauto; [apply F; lia|].
  apply clean_no_zero_length_range, Hc.
Qed.

(** C1: when a call of [sp_bezier_fit_cubic_full] on sanitized input (no
    NaN, no two adjacent points equal) returns a count [N >= 1], the [N]
    segments it leaves in the output buffer are chained: segment [k] runs
    from the first to the last data point of the sub-range it was fitted to,
    and its fourth control point is the first control point of segment
    [k + 1].  The same holds of [sp_bezier_fit_cubic_r] (and so of
    [sp_bezier_fit_cubic]) on any input, for the points its sanitation
    keeps, which are sanitized.  The buffer has room for the budget, and the
    arithmetic is one in which distinct points are at a distance that is not
    0.0 ([ChordLaws]). *)
Theorem segments_chained (fuel : nat) (st : store) (b : nat) (max_beziers : Z)
        (error : double) (N : Z) (st' : store) :
  (0 <= max_beziers < 2 ^ 32)%Z ->
  (b + 4 * Z.to_nat max_beziers <= length (bez st))%nat ->
  (1 <= N)%Z ->
  (forall sp d len tHat1 tHat2,
      (Z.to_nat len <= length d)%nat ->
      sanitized (firstn (Z.to_nat len) d) = true ->
      sp_bezier_fit_cubic_full fuel st (Some b) sp (Some d) len tHat1 tHat2
                               error max_beziers = Ret (N, st') ->
      chained (bez st') b d (Z.to_nat len) (Z.to_nat N))
  /\ (forall d len,
         sp_bezier_fit_cubic_r fuel st (Some b) (Some d) len error max_beziers
         = Ret (N, st') ->
         exists uniqued_len uniqued_data,
           copy_without_nans_or_adjacent_duplicates fuel d (Z.to_nat len)
                                                    (repeat pt0 (Z.to_nat len))
           = Ret (uniqued_len, uniqued_data)
           /\ sanitized (firstn uniqued_len uniqued_data) = true
           /\ chained (bez st') b uniqued_data uniqued_len (Z.to_nat N)).
Proof.
  intros Hm Hroom HN. split.
  - intros sp d len tHat1 tHat2 Hl Hs H.
    eapply full_chained; eauto. apply sanitized_firstn_clean; assumption.
  - intros d len H. unfold sp_bezier_fit_cubic_r in H.
    destruct (negb (0 <? len)%Z); [injection H as <- <-; lia|].
    destruct (negb (max_beziers <? _)%Z); [injection H as <- <-; lia|].
    apply bind_Ret in H as ([ul ud] & Hc & H). cbv zeta in H.
    destruct (ul <? 2)%nat eqn:Hu; [injection H as <- <-; lia|].
    apply Nat.ltb_ge in Hu.
    destruct (fun A B => copy_Ret_clean _ _ _ _ _ _ A Hc B) as (Hcl & Hle & Hlen);
      [rewrite repeat_length; lia|lia|].
    rewrite repeat_length in Hlen.
    exists ul, ud. split; [exact Hc|].
    split; [apply clean_sanitized_firstn; [lia|assumption]|].
    pose proof (full_chained fuel st b None ud (Z.of_nat ul) unconstrained_tangent unconstrained_tangent error max_beziers N st'
                             Hm Hroom HN) as R.
    rewrite Nat2Z.id in R. apply R; assumption.
Qed.

End Chaining.

End Properties.

(** ** The facts of the arithmetic, on binary64 *)

Lemma Prim2SF_zero : Prim2SF PrimFloat.zero = S754_zero false.
Proof. reflexivity. Qed.

Lemma Prim2SF_one : Prim2SF PrimFloat.one = S754_finite false 4503599627370496 (-52).
Proof. reflexivity. Qed.

Lemma b64_lt0_not_ge0 (x : float) :
  PrimFloat.ltb x PrimFloat.zero = true -> PrimFloat.leb PrimFloat.zero x = false.
Proof.
  rewrite FloatAxioms.ltb_spec, FloatAxioms.leb_spec, Prim2SF_zero.
  unfold SFltb, SFleb.
  destruct (Prim2SF x) as [[]|[]| |[] m e]; simpl; try discriminate; reflexivity.
Qed.

(** Facts of the specification [SpecFloat] of the operations. *)
Lemma SFcompare_refl (f : spec_float) :
  SFcompare f f = match f with S754_nan => None | _ => Some Eq end.
Proof.
  destruct f as [s|s| |s m e]; simpl; try reflexivity.
  - destruct s; reflexivity.
  - rewrite Z.compare_refl, Pos.compare_cont_refl. destruct s; reflexivity.
Qed.

Lemma SFcompare_Eq (f g : spec_float) :
  SFcompare f g = Some Eq ->
  match f, g with
  | S754_zero _, S754_zero _ => True
  | S754_infinity s, S754_infinity s' => s = s'
  | S754_finite s m e, S754_finite s' m' e' => s = s' /\ m = m' /\ e = e'
  | _, _ => False
  end.
Proof.
  destruct f as [s|s| |s m e], g as [s'|s'| |s' m' e']; simpl; try discriminate; auto;
    try (destruct s; discriminate); try (destruct s'; discriminate).
  - destruct s, s'; try discriminate; auto.
  - destruct s, s'; try discriminate;
      (destruct (Z.compare e e') eqn:E; try discriminate);
      apply Z.compare_eq in E; subst e'; intros H;
      [assert (C : Pos.compare_cont Eq m m' = Eq)
        by (destruct (Pos.compare_cont Eq m m'); simpl in H; congruence)
      |assert (C : Pos.compare_cont Eq m m' = Eq) by congruence];
      apply Pos.compare_eq in C; subst; auto.
Qed.

Definition is_zn (f : spec_float) : bool :=
  match f with S754_zero _ | S754_nan => true | _ => false end.

Lemma b64_is_nan (x : float) : PrimFloat.is_nan x = match Prim2SF x with S754_nan => true | _ => false end.
Proof.
  unfold PrimFloat.is_nan. rewrite FloatAxioms.eqb_spec. unfold SFeqb.
  rewrite SFcompare_refl. destruct (Prim2SF x); reflexivity.
Qed.

Lemma b64_eq_zero (x : float) : PrimFloat.eqb x PrimFloat.zero = match Prim2SF x with S754_zero _ => true | _ => false end.
Proof.
  rewrite FloatAxioms.eqb_spec, Prim2SF_zero. unfold SFeqb.
  destruct (Prim2SF x) as [s|s| |s m e]; simpl; try reflexivity; destruct s; reflexivity.
Qed.

Abbreviation znb := (@zn Binary64).

Lemma b64_zn (x : float) : znb x <-> is_zn (Prim2SF x) = true.
Proof.
  unfold zn. change (@deqb Binary64 x d0) with (PrimFloat.eqb x PrimFloat.zero).
  change (@isNaN Binary64 x) with (PrimFloat.is_nan x).
  rewrite b64_eq_zero, b64_is_nan.
  destruct (Prim2SF x); simpl; intuition congruence.
Qed.

Lemma b64_mul_zero_r (x : float) : znb (PrimFloat.mul x PrimFloat.zero).
Proof.
  apply b64_zn. rewrite FloatAxioms.mul_spec, Prim2SF_zero.
  destruct (Prim2SF x); reflexivity.
Qed.

Lemma b64_mul_zn (a b : float) : znb a -> znb (PrimFloat.mul a b).
Proof.
  rewrite !b64_zn, FloatAxioms.mul_spec.
  destruct (Prim2SF a), (Prim2SF b); simpl; auto; discriminate.
Qed.

Lemma b64_add_zn (a b : float) : znb a -> znb b -> znb (PrimFloat.add a b).
Proof.
  rewrite !b64_zn, FloatAxioms.add_spec.
  destruct (Prim2SF a) as [[]| | |], (Prim2SF b) as [[]| | |]; simpl; auto; discriminate.
Qed.

Lemma b64_div_zero_l (t : float) : znb (PrimFloat.div PrimFloat.zero t).
Proof.
  apply b64_zn. rewrite FloatAxioms.div_spec, Prim2SF_zero.
  destruct (Prim2SF t); reflexivity.
Qed.

Lemma b64_zero_le_iff (m : float) :
  PrimFloat.leb PrimFloat.zero m =
  match Prim2SF m with
  | S754_zero _ | S754_infinity false | S754_finite false _ _ => true
  | _ => false
  end.
Proof.
  rewrite FloatAxioms.leb_spec, Prim2SF_zero. unfold SFleb.
  destruct (Prim2SF m) as [[]|[]| |[] mm e]; reflexivity.
Qed.

Lemma b64_le_lt_trans0 (m x : float) :
  PrimFloat.leb PrimFloat.zero m = true -> PrimFloat.ltb m x = true ->
  PrimFloat.leb PrimFloat.zero x = true.
Proof.
  rewrite !b64_zero_le_iff, FloatAxioms.ltb_spec. unfold SFltb.
  destruct (Prim2SF m) as [s|s| |s mm e], (Prim2SF x) as [s'|s'| |s' mx ex]; simpl;
    try discriminate; auto;
    try (destruct s; try discriminate); try (destruct s'; try discriminate); auto.
Qed.

Lemma b64_zn_not_gt (z m : float) :
  znb z -> PrimFloat.leb PrimFloat.zero m = true -> PrimFloat.ltb m z = false.
Proof.
  rewrite b64_zn, b64_zero_le_iff, FloatAxioms.ltb_spec. unfold SFltb.
  destruct (Prim2SF m) as [s|s| |s mm e], (Prim2SF z) as [s'|s'| |s' mx ex]; simpl;
    try discriminate; auto;
    try (destruct s; try discriminate); try (destruct s'; try discriminate); auto.
Qed.

Lemma b64_le_not_nan_r (a b : float) : PrimFloat.leb a b = true -> PrimFloat.is_nan b = false.
Proof.
  rewrite FloatAxioms.leb_spec, b64_is_nan. unfold SFleb.
  destruct (Prim2SF a), (Prim2SF b); simpl; auto; discriminate.
Qed.

Lemma b64_neg_nonneg (h : float) :
  PrimFloat.leb PrimFloat.zero h = true ->
  PrimFloat.ltb (PrimFloat.opp h) PrimFloat.zero = true \/ PrimFloat.eqb (PrimFloat.opp h) PrimFloat.zero = true.
Proof.
  rewrite b64_zero_le_iff, FloatAxioms.ltb_spec, b64_eq_zero, FloatAxioms.opp_spec, Prim2SF_zero.
  unfold SFltb.
  destruct (Prim2SF h) as [[]|[]| |[] mm e]; simpl; try discriminate; auto.
Qed.

Lemma b64_eq0_accepted (r : float) :
  PrimFloat.eqb r PrimFloat.zero = true -> PrimFloat.leb (PrimFloat.abs r) PrimFloat.one = true.
Proof.
  rewrite b64_eq_zero, FloatAxioms.leb_spec, FloatAxioms.abs_spec, Prim2SF_one.
  destruct (Prim2SF r); try discriminate. reflexivity.
Qed.

Lemma b64_eq_one_leibniz (x : float) : PrimFloat.eqb x PrimFloat.one = true -> x = PrimFloat.one.
Proof.
  rewrite FloatAxioms.eqb_spec, Prim2SF_one. unfold SFeqb. intros H.
  apply Prim2SF_inj. rewrite Prim2SF_one.
  destruct (SFcompare _ _) as [[]|] eqn:E; try discriminate.
  apply SFcompare_Eq in E. destruct (Prim2SF x); try contradiction.
  destruct E as (-> & -> & ->). reflexivity.
Qed.

Lemma b64_eq_or_nan (c x : float) :
  @eq_or_nan Binary64 c x <->
  (SFcompare (Prim2SF c) (Prim2SF x) = Some Eq \/ Prim2SF c = S754_nan).
Proof.
  unfold eq_or_nan.
  change (@deqb Binary64 c x) with (PrimFloat.eqb c x).
  change (@isNaN Binary64 c) with (PrimFloat.is_nan c).
  rewrite FloatAxioms.eqb_spec, b64_is_nan. unfold SFeqb.
  destruct (SFcompare _ _) as [[]|]; destruct (Prim2SF c); intuition congruence.
Qed.

Lemma b64_zn_add_l (a x : float) : znb a -> @eq_or_nan Binary64 (PrimFloat.add a x) x.
Proof.
  rewrite b64_zn, b64_eq_or_nan, FloatAxioms.add_spec.
  destruct (Prim2SF a) as [sa|sa| |sa ma ea]; try discriminate; intros _.
  - destruct (Prim2SF x) as [sx|sx| |sx mx ex] eqn:E.
    + left. destruct sa, sx; reflexivity.
    + left. change (SF64add (S754_zero sa) (S754_infinity sx)) with (S754_infinity sx).
      rewrite SFcompare_refl. reflexivity.
    + right. reflexivity.
    + left. change (SF64add (S754_zero sa) (S754_finite sx mx ex)) with (S754_finite sx mx ex).
      rewrite SFcompare_refl. reflexivity.
  - right. reflexivity.
Qed.

Lemma b64_sub_zn (c x y : float) :
  @eq_or_nan Binary64 c x -> PrimFloat.eqb x y = true -> znb (PrimFloat.sub c y).
Proof.
  rewrite b64_eq_or_nan, b64_zn, FloatAxioms.sub_spec, FloatAxioms.eqb_spec. unfold SFeqb.
  intros [H|H] H2.
  - destruct (SFcompare (Prim2SF x) (Prim2SF y)) as [[]|] eqn:E2; try discriminate.
    apply SFcompare_Eq in H, E2.
    destruct (Prim2SF c) as [sc|sc| |sc mc ec], (Prim2SF x) as [sx|sx| |sx mx ex];
      try contradiction;
      destruct (Prim2SF y) as [sy|sy| |sy my ey]; try contradiction.
    + destruct sc, sy; reflexivity.
    + subst. destruct sy; reflexivity.
    + destruct H as (-> & -> & ->), E2 as (-> & -> & ->).
      unfold SF64sub, SFsub. rewrite Z.sub_diag. reflexivity.
  - rewrite H. reflexivity.
Qed.

(** [binary_round_aux] keeps the sign, and gives no NaN on a mantissa [>= 0]. *)
Lemma iter_pos_inv {A : Type} (f : A -> A) (Pr : A -> Prop) :
  (forall x, Pr x -> Pr (f x)) -> forall p x, Pr x -> Pr (SpecFloat.iter_pos f p x).
Proof.
  intros Hf. induction p as [p IH|p IH|]; intros x Hx; simpl; auto.
Qed.

Lemma shr_1_nonneg (mrs : shr_record) : (0 <= shr_m mrs)%Z -> (0 <= shr_m (shr_1 mrs))%Z.
Proof.
  destruct mrs as [m r s]. simpl. intros H.
  destruct m as [|[p|p|]|[p|p|]]; simpl; lia.
Qed.

Lemma shr_fexp_nonneg (m e : Z) (l : location) :
  (0 <= m)%Z -> (0 <= shr_m (fst (shr_fexp prec emax m e l)))%Z.
Proof.
  intros H. unfold shr_fexp, shr.
  assert (H0 : (0 <= shr_m (shr_record_of_loc m l))%Z).
  { destruct l as [|[]]; exact H. }
  destruct (_ - e)%Z; simpl; auto.
  apply iter_pos_inv; [apply shr_1_nonneg|exact H0].
Qed.

Definition has_sign (s : bool) (f : spec_float) : Prop :=
  match f with
  | S754_zero s' | S754_infinity s' | S754_finite s' _ _ => s' = s
  | S754_nan => False
  end.

Lemma binary_round_aux_sign (s : bool) (m e : Z) (l : location) :
  (0 <= m)%Z -> has_sign s (binary_round_aux prec emax s m e l).
Proof.
  intros H. unfold binary_round_aux.
  pose proof (shr_fexp_nonneg m e l H) as H1.
  destruct (shr_fexp prec emax m e l) as [mrs' e']. simpl in H1.
  assert (H2 : (0 <= round_nearest_even (shr_m mrs') (loc_of_shr_record mrs'))%Z).
  { unfold round_nearest_even. destruct (loc_of_shr_record mrs') as [|[]]; try lia.
    destruct (Z.even _); lia. }
  pose proof (shr_fexp_nonneg _ e' loc_Exact H2) as H3.
  destruct (shr_fexp prec emax _ e' loc_Exact) as [mrs'' e'']. simpl in H3.
  destruct (shr_m mrs''); simpl; try reflexivity; try lia.
  destruct (Z.leb _ _); reflexivity.
Qed.

Lemma nonneg_of_sign (f : spec_float) :
  has_sign false f ->
  match f with
  | S754_zero _ | S754_infinity false | S754_finite false _ _ => true
  | _ => false
  end = true.
Proof. destruct f as [[]|[]| |[] m e]; simpl; intros H; congruence || contradiction. Qed.

Lemma b64_sqrt_nonneg (x : float) :
  PrimFloat.leb PrimFloat.zero x = true -> PrimFloat.leb PrimFloat.zero (PrimFloat.sqrt x) = true.
Proof.
  rewrite !b64_zero_le_iff, FloatAxioms.sqrt_spec.
  destruct (Prim2SF x) as [[]|[]| |[] m e]; try discriminate; try reflexivity.
  intros _. unfold SF64sqrt, SFsqrt.
  destruct (SFsqrt_core_binary prec emax (Zpos m) e) as [[mz ez] lz] eqn:E.
  apply nonneg_of_sign, binary_round_aux_sign.
  unfold SFsqrt_core_binary in E.
  destruct (Z.sqrtrem _) as [q r] eqn:Eq. injection E as <- _ _.
  change q with (fst (q, r)). rewrite <- Eq, Z.sqrtrem_sqrt. apply Z.sqrt_nonneg.
Qed.

Lemma Prim2SF_infinity : Prim2SF PrimFloat.infinity = S754_infinity false.
Proof. reflexivity. Qed.

Lemma b64_is_finite (x : float) :
  PrimFloat.is_finite x =
  match Prim2SF x with S754_zero _ | S754_finite _ _ _ => true | _ => false end.
Proof.
  unfold PrimFloat.is_finite, PrimFloat.is_infinity.
  rewrite b64_is_nan, FloatAxioms.eqb_spec, FloatAxioms.abs_spec, Prim2SF_infinity. unfold SFeqb.
  destruct (Prim2SF x) as [[]|[]| |[] m e]; reflexivity.
Qed.

Lemma b64_div_nonneg (a t : float) :
  PrimFloat.leb PrimFloat.zero a = true -> PrimFloat.ltb PrimFloat.zero t = true ->
  PrimFloat.is_finite t = true ->
  PrimFloat.leb PrimFloat.zero (PrimFloat.div a t) = true.
Proof.
  rewrite !b64_zero_le_iff, b64_is_finite, FloatAxioms.ltb_spec, Prim2SF_zero, FloatAxioms.div_spec.
  unfold SFltb.
  destruct (Prim2SF t) as [[]|[]| |[] mt et]; try discriminate; intros Ha _ _.
  destruct (Prim2SF a) as [[]|[]| |[] ma ea]; try discriminate; try reflexivity.
  unfold SF64div, SFdiv.
  destruct (SFdiv_core_binary prec emax (Zpos ma) ea (Zpos mt) et) as [[mz ez] lz] eqn:E.
  apply nonneg_of_sign. apply (binary_round_aux_sign false).
  unfold SFdiv_core_binary in E.
  destruct (Z.div_eucl _ _) as [q r] eqn:Eq. injection E as <- _ _.
  change q with (fst (q, r)). rewrite <- Eq.
  match goal with |- (0 <= fst (Z.div_eucl ?n ?d))%Z =>
    change (fst (Z.div_eucl n d)) with (Z.div n d); apply Z.div_pos; [|lia] end.
  destruct (_ - _ - _)%Z; try lia. apply Z.shiftl_nonneg. lia.
Qed.

Lemma digits2_pos_shift52 (m : positive) :
  Zpos (digits2_pos (m * 4503599627370496)) = (Zpos (digits2_pos m) + 52)%Z.
Proof.
  rewrite Pos.mul_comm. cbn [Pos.mul digits2_pos]. lia.
Qed.

Lemma shr_52 (m : positive) :
  SpecFloat.iter_pos shr_1 52 (Build_shr_record (Zpos (m * 4503599627370496)) false false)
  = Build_shr_record (Zpos m) false false.
Proof.
  rewrite Pos.mul_comm. reflexivity.
Qed.

Lemma round_times_one (s : bool) (m : positive) (e : Z) :
  valid_binary (S754_finite s m e) = true ->
  binary_round_aux prec emax s (Zpos (m * 4503599627370496)) (e + -52) loc_Exact
  = S754_finite s m e.
Proof.
  intros V. unfold valid_binary, bounded, canonical_mantissa in V.
  apply andb_prop in V as [Vc Vb]. apply Z.eqb_eq in Vc.
  unfold binary_round_aux, shr_fexp.
  unfold Zdigits2 at 1. rewrite digits2_pos_shift52.
  replace (Zpos (digits2_pos m) + 52 + (e + -52))%Z with (Zpos (digits2_pos m) + e)%Z by lia.
  rewrite Vc.
  replace (e - (e + -52))%Z with 52%Z by lia.
  unfold shr at 1. cbn [shr_record_of_loc]. rewrite shr_52.
  cbn [shr_m loc_of_shr_record round_nearest_even].
  replace (e + -52 + 52)%Z with e by lia.
  unfold Zdigits2. rewrite Vc, Z.sub_diag. cbn [shr shr_record_of_loc shr_m].
  rewrite Vb. reflexivity.
Qed.

Lemma b64_mul_one_r (x : float) : PrimFloat.mul x PrimFloat.one = x.
Proof.
  apply Prim2SF_inj. rewrite FloatAxioms.mul_spec, Prim2SF_one.
  pose proof (Prim2SF_valid x) as V.
  destruct (Prim2SF x) as [s|s| |s m e].
  - destruct s; reflexivity.
  - destruct s; reflexivity.
  - reflexivity.
  - unfold SF64mul, SFmul. rewrite xorb_false_r.
    change (Z.add e (Zneg 52)) with (e + -52)%Z.
    apply round_times_one, V.
Qed.

Lemma Binary64_laws : ArithLaws Binary64.
Proof.
  constructor.
  - reflexivity.
  - reflexivity.
  - reflexivity.
  - reflexivity.
  - reflexivity.
  - reflexivity.
  - reflexivity.
  - reflexivity.
  - exact b64_lt0_not_ge0.
  - exact b64_le_lt_trans0.
  - exact b64_le_not_nan_r.
  - exact b64_eq_one_leibniz.
  - exact b64_neg_nonneg.
  - exact b64_eq0_accepted.
  - exact b64_mul_zero_r.
  - exact b64_mul_zn.
  - exact b64_add_zn.
  - exact b64_zn_add_l.
  - exact b64_sub_zn.
  - exact b64_div_zero_l.
  - exact b64_zn_not_gt.
  - exact b64_mul_one_r.
  - exact b64_sqrt_nonneg.
  - exact b64_div_nonneg.
Qed.

(** ** Rounding is monotone

    The operations of binary64 round the exact result to the nearest
    representable number.  The lemmas below follow the specification
    [SpecFloat] of the primitive floats: a non-negative real [x] is given by a
    mantissa, an exponent and a location [(m, e, l)], the shifts keep it, and
    the rounded numbers are ordered as the reals are. *)

Section Rounding.
Local Open Scope Z_scope.

(** [2 ^ e], for an exponent of either sign. *)
Definition bpow (e : Z) : R := powerRZ 2 e.

Lemma bpow_pos (e : Z) : (0 < bpow e)%R.
Proof. apply powerRZ_lt. lra. Qed.

Lemma bpow_add (a b : Z) : bpow (a + b) = (bpow a * bpow b)%R.
Proof. apply powerRZ_add. lra. Qed.

Lemma bpow_0 : bpow 0 = 1%R.
Proof. reflexivity. Qed.

Lemma bpow_1 : bpow 1 = 2%R.
Proof. unfold bpow. simpl. lra. Qed.

Lemma bpow_succ (e : Z) : bpow (e + 1) = (2 * bpow e)%R.
Proof. rewrite bpow_add, bpow_1. lra. Qed.

Lemma bpow_nat_ge1 (n : nat) : (1 <= bpow (Z.of_nat n))%R.
Proof.
  induction n as [|n IH]; [change (1 <= 1)%R; lra|].
  rewrite Nat2Z.inj_succ. unfold Z.succ. rewrite bpow_succ. lra.
Qed.

Lemma bpow_le (a b : Z) : a <= b -> (bpow a <= bpow b)%R.
Proof.
  intros H. replace b with (a + Z.of_nat (Z.to_nat (b - a))) by lia.
  rewrite bpow_add. pose proof (bpow_nat_ge1 (Z.to_nat (b - a))).
  pose proof (bpow_pos a). nra.
Qed.

Lemma bpow_lt (a b : Z) : a < b -> (bpow a < bpow b)%R.
Proof.
  intros H. assert (H1 : a + 1 <= b) by lia. apply bpow_le in H1.
  rewrite bpow_succ in H1. pose proof (bpow_pos a). lra.
Qed.

Lemma bpow_lt_inv (a b : Z) : (bpow a < bpow b)%R -> a < b.
Proof.
  intros H. destruct (Z_lt_le_dec a b) as [L|L]; [exact L|].
  apply bpow_le in L. lra.
Qed.

Lemma bpow_IZR (n : Z) : 0 <= n -> bpow n = IZR (2 ^ n).
Proof.
  intros H. rewrite <- (Z2Nat.id n H). generalize (Z.to_nat n). clear. intros n.
  induction n as [|n IH]; [reflexivity|].
  rewrite Nat2Z.inj_succ. unfold Z.succ at 1. rewrite bpow_succ, IH.
  rewrite Z.pow_succ_r by lia. rewrite mult_IZR. reflexivity.
Qed.

(** The real [m * 2 ^ e] of a mantissa and an exponent. *)
Definition F2R (m e : Z) : R := (IZR m * bpow e)%R.

Lemma F2R_le (m n e : Z) : m <= n -> (F2R m e <= F2R n e)%R.
Proof.
  intros H. unfold F2R. apply IZR_le in H. pose proof (bpow_pos e). nra.
Qed.

Lemma F2R_lt (m n e : Z) : m < n -> (F2R m e < F2R n e)%R.
Proof.
  intros H. unfold F2R. apply IZR_lt in H. pose proof (bpow_pos e). nra.
Qed.

Lemma F2R_lt_inv (m n e : Z) : (F2R m e < F2R n e)%R -> m < n.
Proof.
  intros H. destruct (Z_lt_le_dec m n) as [L|L]; [exact L|].
  apply (F2R_le _ _ e) in L. lra.
Qed.

Lemma F2R_shift (m e k : Z) : 0 <= k -> F2R m (e + k) = F2R (m * 2 ^ k) e.
Proof.
  intros H. unfold F2R. rewrite bpow_add, mult_IZR, <- bpow_IZR by exact H. ring.
Qed.

Lemma F2R_bpow (g e : Z) : e <= g -> bpow g = F2R (2 ^ (g - e)) e.
Proof.
  intros H. unfold F2R. rewrite <- bpow_IZR by lia. rewrite <- bpow_add. f_equal. lia.
Qed.

(** The number of binary digits of a mantissa bounds it from both sides. *)
Lemma digits2_bounds (p : positive) :
  2 ^ (Zpos (digits2_pos p) - 1) <= Zpos p < 2 ^ Zpos (digits2_pos p).
Proof.
  induction p as [p IH|p IH|]; simpl digits2_pos.
  - rewrite Pos2Z.inj_succ. replace (Z.succ (Z.pos (digits2_pos p)) - 1) with (Z.succ (Z.pos (digits2_pos p) - 1)) by lia.
    rewrite !Z.pow_succ_r by lia. lia.
  - rewrite Pos2Z.inj_succ. replace (Z.succ (Z.pos (digits2_pos p)) - 1) with (Z.succ (Z.pos (digits2_pos p) - 1)) by lia.
    rewrite !Z.pow_succ_r by lia. lia.
  - simpl. lia.
Qed.

Lemma Zdigits2_nonneg (m : Z) : 0 <= Zdigits2 m.
Proof. destruct m; simpl; lia. Qed.

Lemma F2R_digits_lt (m e : Z) : 0 <= m -> (F2R (m + 1) e <= bpow (Zdigits2 m + e))%R.
Proof.
  intros H. rewrite (F2R_bpow (Zdigits2 m + e) e) by (pose proof (Zdigits2_nonneg m); lia).
  apply F2R_le. replace (Zdigits2 m + e - e) with (Zdigits2 m) by lia.
  destruct m as [|p|p]; [simpl; lia| |lia].
  pose proof (digits2_bounds p). simpl. lia.
Qed.

Lemma F2R_digits_ge (m e : Z) : 0 < m -> (bpow (Zdigits2 m - 1 + e) <= F2R m e)%R.
Proof.
  intros H. destruct m as [|p|p]; try lia.
  pose proof (digits2_bounds p) as B. simpl Zdigits2.
  rewrite (F2R_bpow _ e) by lia. apply F2R_le.
  replace (Z.pos (digits2_pos p) - 1 + e - e) with (Z.pos (digits2_pos p) - 1) by lia. lia.
Qed.

Lemma digits_le_of_lt (m k : Z) : 0 <= m -> 0 <= k -> m < 2 ^ k -> Zdigits2 m <= k.
Proof.
  intros H Hk L. destruct m as [|p|p]; [simpl; lia| |lia]. simpl.
  pose proof (digits2_bounds p) as B.
  destruct (Z_le_gt_dec (Zpos (digits2_pos p)) k) as [G|G]; [exact G|].
  assert (2 ^ k <= 2 ^ (Zpos (digits2_pos p) - 1)) by (apply Z.pow_le_mono_r; lia). lia.
Qed.

Lemma digits_ge_of_le (m k : Z) : 0 <= k -> 2 ^ k <= m -> k + 1 <= Zdigits2 m.
Proof.
  intros Hk L. assert (0 < m) by (pose proof (Z.pow_pos_nonneg 2 k); lia).
  destruct m as [|p|p]; try lia. simpl.
  pose proof (digits2_bounds p) as B.
  destruct (Z_le_gt_dec (k + 1) (Zpos (digits2_pos p))) as [G|G]; [exact G|].
  assert (2 ^ (Zpos (digits2_pos p)) <= 2 ^ k) by (apply Z.pow_le_mono_r; lia). lia.
Qed.

(** [x] lies in [[m * 2 ^ e, (m + 1) * 2 ^ e)] at the location [l]: on the
    lower end, or inside and below, at or above the middle. *)
Definition inb (m e : Z) (x : R) (l : location) : Prop :=
  match l with
  | loc_Exact => x = F2R m e
  | loc_Inexact c =>
      (F2R m e < x < F2R (m + 1) e)%R
      /\ match c with
         | Lt => (x < F2R m e + bpow e / 2)%R
         | Eq => x = (F2R m e + bpow e / 2)%R
         | Gt => (F2R m e + bpow e / 2 < x)%R
         end
  end.

Lemma inb_bounds (m e : Z) (x : R) (l : location) :
  inb m e x l -> (F2R m e <= x < F2R (m + 1) e)%R.
Proof.
  unfold inb, F2R. rewrite plus_IZR. pose proof (bpow_pos e).
  destruct l as [|c]; intros Hx; [subst x; nra|]. lra.
Qed.

(** A shift by one bit keeps the real and its location. *)
Lemma shr_1_inb (mrs : shr_record) (e : Z) (x : R) :
  0 <= shr_m mrs -> inb (shr_m mrs) e x (loc_of_shr_record mrs) ->
  inb (shr_m (shr_1 mrs)) (e + 1) x (loc_of_shr_record (shr_1 mrs)).
Proof.
  destruct mrs as [m r s]. cbn [shr_m]. intros Hm.
  pose proof (bpow_pos e) as Hu.
  destruct m as [|[p|p|]|p]; try lia.
  - destruct r, s; cbn [shr_1 shr_m loc_of_shr_record orb]; unfold inb, F2R;
      rewrite ?bpow_succ, ?plus_IZR; intros Hx; nra.
  - destruct r, s; cbn [shr_1 shr_m loc_of_shr_record orb]; unfold inb, F2R;
      rewrite ?bpow_succ, ?plus_IZR;
      change (IZR (Z.pos p~1)) with (IZR (2 * Z.pos p + 1));
      rewrite ?plus_IZR, ?mult_IZR;
      set (a := IZR (Z.pos p)); set (u := bpow e) in *; intros Hx; nra.
  - destruct r, s; cbn [shr_1 shr_m loc_of_shr_record orb]; unfold inb, F2R;
      rewrite ?bpow_succ, ?plus_IZR;
      change (IZR (Z.pos p~0)) with (IZR (2 * Z.pos p));
      rewrite ?plus_IZR, ?mult_IZR;
      set (a := IZR (Z.pos p)); set (u := bpow e) in *; intros Hx; nra.
  - destruct r, s; cbn [shr_1 shr_m loc_of_shr_record orb]; unfold inb, F2R;
      rewrite ?bpow_succ, ?plus_IZR; intros Hx; nra.
Qed.

Local Abbreviation fexp := (SpecFloat.fexp prec emax).

Lemma fexp_eq (e : Z) : fexp e = Z.max (e - 53) (-1074).
Proof. reflexivity. Qed.

Lemma loc_of_loc (m : Z) (l : location) :
  loc_of_shr_record (shr_record_of_loc m l) = l.
Proof. destruct l as [|[]]; reflexivity. Qed.

Lemma shr_m_of_loc (m : Z) (l : location) : shr_m (shr_record_of_loc m l) = m.
Proof. destruct l as [|[]]; reflexivity. Qed.

Lemma iter_shr_inb (x : R) (p : positive) :
  forall mrs e,
    0 <= shr_m mrs -> inb (shr_m mrs) e x (loc_of_shr_record mrs) ->
    0 <= shr_m (SpecFloat.iter_pos shr_1 p mrs)
    /\ inb (shr_m (SpecFloat.iter_pos shr_1 p mrs)) (e + Zpos p) x
           (loc_of_shr_record (SpecFloat.iter_pos shr_1 p mrs)).
Proof.
  assert (S1 : forall mrs, 0 <= shr_m mrs -> 0 <= shr_m (shr_1 mrs)).
  { intros [m r s]. simpl. intros H. destruct m as [|[q|q|]|[q|q|]]; simpl; lia. }
  induction p as [p IH|p IH|]; intros mrs e Hm Hx; cbn [SpecFloat.iter_pos].
  - pose proof (shr_1_inb _ _ _ Hm Hx) as H1.
    destruct (IH _ _ (S1 _ Hm) H1) as [Hm2 H2].
    destruct (IH _ _ Hm2 H2) as [Hm3 H3].
    split; [exact Hm3|].
    replace (e + Z.pos p~1) with (e + 1 + Z.pos p + Z.pos p) by lia. exact H3.
  - destruct (IH _ _ Hm Hx) as [Hm2 H2].
    destruct (IH _ _ Hm2 H2) as [Hm3 H3].
    split; [exact Hm3|].
    replace (e + Z.pos p~0) with (e + Z.pos p + Z.pos p) by lia. exact H3.
  - split; [apply S1, Hm|apply shr_1_inb; assumption].
Qed.

Lemma shr_fexp_inb (m e : Z) (l : location) (x : R) :
  0 <= m -> inb m e x l -> e <= fexp (Zdigits2 m + e) ->
  exists m' l',
    shr_fexp prec emax m e l = (shr_record_of_loc m' l', fexp (Zdigits2 m + e))
    /\ 0 <= m' /\ inb m' (fexp (Zdigits2 m + e)) x l'.
Proof.
  intros Hm Hx He. unfold shr_fexp, shr.
  assert (R : forall mrs, shr_record_of_loc (shr_m mrs) (loc_of_shr_record mrs) = mrs).
  { intros [m0 [] []]; reflexivity. }
  destruct (fexp (Zdigits2 m + e) - e) as [|p|p] eqn:E; try lia.
  - exists m, l. replace (fexp (Zdigits2 m + e)) with e by lia. auto.
  - destruct (iter_shr_inb x p (shr_record_of_loc m l) e) as [H1 H2].
    + rewrite shr_m_of_loc. exact Hm.
    + rewrite shr_m_of_loc, loc_of_loc. exact Hx.
    + exists (shr_m (SpecFloat.iter_pos shr_1 p (shr_record_of_loc m l))),
             (loc_of_shr_record (SpecFloat.iter_pos shr_1 p (shr_record_of_loc m l))).
      rewrite R. replace (fexp (Zdigits2 m + e)) with (e + Z.pos p) by lia.
      auto.
Qed.

(** The float [binary_round_aux] makes of the rounded mantissa [m] at the
    exponent [e]: a mantissa of 54 digits is [2 ^ 53] and moves to the next
    exponent, and an exponent above [emax - prec] gives the infinity. *)
Definition pack (m e : Z) : spec_float :=
  match m with
  | Z0 => S754_zero false
  | Zpos p =>
      if m <? 2 ^ 53 then
        if e <=? 971 then S754_finite false p e else S754_infinity false
      else if e + 1 <=? 971 then S754_finite false (2 ^ 52)%positive (e + 1)
           else S754_infinity false
  | Zneg _ => S754_nan
  end.

Lemma second_shift (m e : Z) :
  0 <= m <= 2 ^ 53 -> -1074 <= e ->
  (let '(mrs, e') := shr_fexp prec emax m e loc_Exact in
   match shr_m mrs with
   | Z0 => S754_zero false
   | Zpos p => if e' <=? emax - prec then S754_finite false p e' else S754_infinity false
   | Zneg _ => S754_nan
   end) = pack m e.
Proof.
  intros Hm He. unfold shr_fexp, shr.
  destruct (Z.eq_dec m (2 ^ 53)) as [->|N].
  - change (Zdigits2 (2 ^ 53)) with 54. rewrite fexp_eq.
    replace (Z.max (54 + e - 53) (-1074) - e) with 1 by lia.
    cbn [SpecFloat.iter_pos]. change (emax - prec) with 971. reflexivity.
  - assert (D : Zdigits2 m <= 53) by (apply digits_le_of_lt; lia).
    rewrite fexp_eq.
    destruct (Z.max (Zdigits2 m + e - 53) (-1074) - e) as [|p|p] eqn:E; try lia;
      cbn [shr_record_of_loc shr_m]; unfold pack; destruct m as [|q|q]; try lia;
      try reflexivity;
      (replace (Z.pos q <? 2 ^ 53) with true by (symmetry; apply Z.ltb_lt; lia));
      reflexivity.
Qed.

Lemma rne_bounds (m : Z) (l : location) :
  m <= round_nearest_even m l <= m + 1.
Proof. destruct l as [|[]]; simpl; try lia. destruct (Z.even m); lia. Qed.

(** The mantissa has the digits the format asks for at its exponent, so
    that [binary_round_aux] shifts it to the exponent [fexp] gives. *)
Definition enough_digits (m e : Z) : Prop := 0 <= m /\ e <= fexp (Zdigits2 m + e).

(** What [binary_round_aux] computes: the mantissa of [x] at the exponent
    [fexp] gives, rounded to the nearest, the even one in a tie. *)
Lemma round_spec (m e : Z) (l : location) (x : R) :
  enough_digits m e -> inb m e x l ->
  exists m' l',
    0 <= m' < 2 ^ 53 /\ inb m' (fexp (Zdigits2 m + e)) x l'
    /\ binary_round_aux prec emax false m e l
       = pack (round_nearest_even m' l') (fexp (Zdigits2 m + e)).
Proof.
  intros [Hm He] Hx.
  destruct (shr_fexp_inb m e l x Hm Hx He) as (m' & l' & E & Hm' & Hx').
  exists m', l'.
  assert (B : m' < 2 ^ 53).
  { pose proof (inb_bounds _ _ _ _ Hx) as [_ U].
    pose proof (inb_bounds _ _ _ _ Hx') as [L _].
    pose proof (F2R_digits_lt m e Hm) as D.
    set (g := Zdigits2 m + e) in *.
    destruct (Z_le_gt_dec (fexp g) g) as [G|G].
    - rewrite (F2R_bpow g (fexp g) G) in D.
      assert (m' < 2 ^ (g - fexp g)) by (apply (F2R_lt_inv _ _ (fexp g)); lra).
      assert (2 ^ (g - fexp g) <= 2 ^ 53) by (pose proof (fexp_eq g); apply Z.pow_le_mono_r; lia).
      lia.
    - assert (bpow g < bpow (fexp g))%R by (apply bpow_lt; lia).
      assert (m' < 1).
      { apply (F2R_lt_inv _ _ (fexp g)). unfold F2R at 2. lra. }
      lia. }
  split; [lia|]. split; [exact Hx'|].
  unfold binary_round_aux. rewrite E. rewrite shr_m_of_loc, loc_of_loc.
  apply second_shift.
  - pose proof (rne_bounds m' l'). lia.
  - rewrite fexp_eq. lia.
Qed.

Lemma SFleb_finite (m1 : positive) (e1 : Z) (m2 : positive) (e2 : Z) :
  e1 < e2 \/ (e1 = e2 /\ Zpos m1 <= Zpos m2) ->
  SFleb (S754_finite false m1 e1) (S754_finite false m2 e2) = true.
Proof.
  intros H. unfold SFleb, SFcompare.
  destruct (Z.compare_spec e1 e2) as [E|E|E]; try lia; try reflexivity.
  change (Pos.compare_cont Eq m1 m2) with (Pos.compare m1 m2).
  destruct (Pos.compare_spec m1 m2); try reflexivity. lia.
Qed.

Lemma pack_le (n1 e1 n2 e2 : Z) :
  0 <= n1 <= 2 ^ 53 -> 0 <= n2 <= 2 ^ 53 ->
  (e1 = e2 /\ n1 <= n2) \/ (e1 < e2 /\ 2 ^ 52 <= n2) ->
  SFleb (pack n1 e1) (pack n2 e2) = true.
Proof.
  intros H1 H2 H. unfold pack.
  change (2 ^ 52)%positive with 4503599627370496%positive.
  destruct n1 as [|p1|p1], n2 as [|p2|p2]; try lia;
    repeat match goal with
           | |- context [Z.ltb ?a ?b] => destruct (Z.ltb_spec a b)
           | |- context [Z.leb ?a ?b] => destruct (Z.leb_spec a b)
           end;
    try reflexivity; try lia; apply SFleb_finite; lia.
Qed.

(** Rounding keeps the order of the exact values. *)
Theorem round_mono (m1 e1 : Z) (l1 : location) (x1 : R)
        (m2 e2 : Z) (l2 : location) (x2 : R) :
  enough_digits m1 e1 -> inb m1 e1 x1 l1 ->
  enough_digits m2 e2 -> inb m2 e2 x2 l2 ->
  (x1 <= x2)%R ->
  SFleb (binary_round_aux prec emax false m1 e1 l1)
        (binary_round_aux prec emax false m2 e2 l2) = true.
Proof.
  intros N1 I1 N2 I2 Hx.
  destruct (round_spec _ _ _ _ N1 I1) as (a1 & k1 & B1 & J1 & ->).
  destruct (round_spec _ _ _ _ N2 I2) as (a2 & k2 & B2 & J2 & ->).
  destruct N1 as [P1 N1], N2 as [P2 N2].
  set (g1 := Zdigits2 m1 + e1) in *. set (g2 := Zdigits2 m2 + e2) in *.
  pose proof (rne_bounds a1 k1) as R1. pose proof (rne_bounds a2 k2) as R2.
  pose proof (inb_bounds _ _ _ _ I1) as [L1 U1].
  pose proof (inb_bounds _ _ _ _ I2) as [L2 U2].
  pose proof (inb_bounds _ _ _ _ J1) as [L1' U1'].
  pose proof (inb_bounds _ _ _ _ J2) as [L2' U2'].
  pose proof (F2R_digits_lt m2 e2 P2) as D2.
  pose proof (fexp_eq g1) as F1. pose proof (fexp_eq g2) as F2.
  assert (G : fexp g1 <= fexp g2).
  { destruct (Z.eq_dec m1 0) as [Z1|Z1].
    - subst m1. change (Zdigits2 0) with 0 in g1. lia.
    - pose proof (F2R_digits_ge m1 e1 ltac:(lia)) as D1.
      assert (g1 - 1 < g2).
      { apply bpow_lt_inv. replace (g1 - 1) with (Zdigits2 m1 - 1 + e1) by (unfold g1; lia).
        fold g2 in D2. lra. }
      lia. }
  apply pack_le; try lia.
  destruct (Z.eq_dec (fexp g1) (fexp g2)) as [E|E].
  - left. split; [exact E|].
    rewrite E in *.
    assert (Ha : a1 <= a2).
    { assert (a1 < a2 + 1) by (apply (F2R_lt_inv _ _ (fexp g2)); lra). lia. }
    destruct (Z.eq_dec a1 a2) as [Ea|Ea]; [|lia].
    subst a2. clear - J1 J2 Hx.
    unfold inb in J1, J2. pose proof (bpow_pos (fexp g2)).
    destruct k1 as [|[]], k2 as [|[]]; simpl; try lia; try (exfalso; lra);
      destruct (Z.even a1); try lia; exfalso; lra.
  - right. split; [lia|].
    assert (Z2 : 0 < m2).
    { destruct (Z.eq_dec m2 0) as [Z2|Z2]; [|lia].
      subst m2. change (Zdigits2 0) with 0 in g2. lia. }
    pose proof (F2R_digits_ge m2 e2 Z2) as D2'.
    replace (Zdigits2 m2 - 1 + e2) with (g2 - 1) in D2' by (unfold g2; lia).
    rewrite (F2R_bpow (g2 - 1) (fexp g2)) in D2' by lia.
    replace (g2 - 1 - fexp g2) with 52 in D2' by lia.
    assert (2 ^ 52 < a2 + 1) by (apply (F2R_lt_inv _ _ (fexp g2)); lra).
    lia.
Qed.

(** The real value of a float that is a zero or positive and finite. *)
Definition SF2R (f : spec_float) : R :=
  match f with
  | S754_finite false m e => F2R (Zpos m) e
  | _ => 0%R
  end.

(** [f] is a valid float that is a zero or positive and finite. *)
Definition nonneg_fin (f : spec_float) : Prop :=
  valid_binary f = true
  /\ match f with
     | S754_zero _ | S754_finite false _ _ => True
     | _ => False
     end.

Lemma SF2R_nonneg (f : spec_float) : (0 <= SF2R f)%R.
Proof.
  destruct f as [s|s| |[] m e]; simpl; try lra.
  unfold F2R. pose proof (bpow_pos e). assert (0 < IZR (Z.pos m))%R by (apply IZR_lt; lia). nra.
Qed.

Lemma valid_finite (s : bool) (m : positive) (e : Z) :
  valid_binary (S754_finite s m e) = true ->
  e = fexp (Zpos (digits2_pos m) + e) /\ e <= 971.
Proof.
  simpl. unfold bounded, canonical_mantissa. intros H.
  apply andb_prop in H as [H1 H2]. apply Z.eqb_eq in H1. apply Z.leb_le in H2.
  change (emax - prec) with 971 in H2. split; [symmetry; exact H1|exact H2].
Qed.

(** [f] is what an operation returns for the exact result [x >= 0]: a zero
    for [x = 0], and else the rounding of a mantissa, exponent and location
    that give [x]. *)
Definition rounds_to (x : R) (f : spec_float) : Prop :=
  (x = 0%R /\ exists s, f = S754_zero s)
  \/ (exists m e l, enough_digits m e /\ inb m e x l
                    /\ f = binary_round_aux prec emax false m e l).

Lemma round_exact (m : positive) (e : Z) :
  valid_binary (S754_finite false m e) = true ->
  binary_round_aux prec emax false (Zpos m) e loc_Exact = S754_finite false m e.
Proof.
  intros V. apply valid_finite in V as [C B].
  assert (N : enough_digits (Zpos m) e).
  { split; [lia|]. apply Z.eq_le_incl, C. }
  destruct (round_spec (Zpos m) e loc_Exact (F2R (Zpos m) e) N eq_refl)
    as (m' & l' & Bm & I & ->).
  cbn [Zdigits2] in *. rewrite <- C in *.
  pose proof (inb_bounds _ _ _ _ I) as [L U].
  pose proof (F2R_lt (Zpos m) (Zpos m + 1) e ltac:(lia)).
  assert (m' < Zpos m + 1) by (apply (F2R_lt_inv _ _ e); lra).
  assert (Zpos m < m' + 1) by (apply (F2R_lt_inv _ _ e); lra).
  assert (m' = Zpos m) by lia. subst m'.
  assert (l' = loc_Exact).
  { destruct l' as [|c]; [reflexivity|]. destruct I as [[I _] _]. lra. }
  subst l'. simpl round_nearest_even. unfold pack.
  replace (Z.pos m <? 2 ^ 53) with true by (symmetry; apply Z.ltb_lt; lia).
  replace (e <=? 971) with true by (symmetry; apply Z.leb_le; lia).
  reflexivity.
Qed.

Lemma rounds_to_self (f : spec_float) : nonneg_fin f -> rounds_to (SF2R f) f.
Proof.
  intros [V H]. destruct f as [s|s| |[] m e]; try contradiction.
  - left. split; [reflexivity|eauto].
  - right. exists (Zpos m), e, loc_Exact.
    pose proof (valid_finite _ _ _ V) as [C B].
    split; [split; [lia|apply Z.eq_le_incl, C]|].
    split; [reflexivity|]. symmetry. apply round_exact, V.
Qed.

Lemma SFleb_zero_pack (s : bool) (n e : Z) : 0 <= n -> SFleb (S754_zero s) (pack n e) = true.
Proof.
  intros H. unfold pack. destruct n as [|p|p]; try lia; try reflexivity.
  destruct (_ <? _); destruct (_ <=? _); reflexivity.
Qed.

Theorem rounds_mono (x1 x2 : R) (f1 f2 : spec_float) :
  rounds_to x1 f1 -> rounds_to x2 f2 -> (0 <= x1 <= x2)%R -> SFleb f1 f2 = true.
Proof.
  intros [[-> [s1 ->]]|(m1 & e1 & l1 & N1 & I1 & ->)]
         [[-> [s2 ->]]|(m2 & e2 & l2 & N2 & I2 & ->)] Hx.
  - reflexivity.
  - destruct (round_spec _ _ _ _ N2 I2) as (a & k & B & J & ->).
    apply SFleb_zero_pack. pose proof (rne_bounds a k). lia.
  - assert (x1 = 0%R) by lra. subst x1.
    destruct (round_spec _ _ _ _ N1 I1) as (a & k & B & J & ->).
    pose proof (inb_bounds _ _ _ _ J) as [L U].
    assert (a < 1).
    { apply (F2R_lt_inv _ _ (fexp (Zdigits2 m1 + e1))).
      unfold F2R at 2. pose proof (bpow_pos (fexp (Zdigits2 m1 + e1))). lra. }
    assert (a = 0) by lia. subst a.
    assert (k = loc_Exact).
    { destruct k as [|c]; [reflexivity|]. destruct J as [[J _] _].
      unfold F2R in J. lra. }
    subst k. reflexivity.
  - apply (round_mono _ _ _ x1 _ _ _ x2); tauto.
Qed.

(** The order of the floats is the order of their values. *)
Lemma SFleb_F2R (a b : spec_float) :
  nonneg_fin a -> nonneg_fin b -> SFleb a b = true -> (SF2R a <= SF2R b)%R.
Proof.
  intros [Va Ha] [Vb Hb] H.
  destruct a as [sa|sa| |[] ma ea]; try contradiction; [apply SF2R_nonneg|].
  destruct b as [sb|sb| |[] mb eb]; try contradiction; [discriminate|].
  apply valid_finite in Va as [Ca _], Vb as [Cb _].
  unfold SFleb, SFcompare in H. simpl SF2R.
  pose proof (fexp_eq (Z.pos (digits2_pos ma) + ea)) as Fa.
  pose proof (fexp_eq (Z.pos (digits2_pos mb) + eb)) as Fb.
  destruct (Z.compare_spec ea eb) as [E|E|E]; try discriminate.
  - subst eb. apply F2R_le.
    change (Pos.compare_cont Eq ma mb) with (Pos.compare ma mb) in H.
    destruct (Pos.compare_spec ma mb); try discriminate; lia.
  - pose proof (F2R_digits_lt (Zpos ma - 1) ea ltac:(lia)) as U.
    replace (Z.pos ma - 1 + 1) with (Z.pos ma) in U by lia.
    pose proof (F2R_digits_lt (Zpos ma) ea ltac:(lia)) as U'.
    pose proof (F2R_le (Zpos ma) (Zpos ma + 1) ea ltac:(lia)) as U''.
    pose proof (F2R_digits_ge (Zpos mb) eb ltac:(lia)) as L.
    cbn [Zdigits2] in U', L.
    assert (bpow (Z.pos (digits2_pos ma) + ea) <= bpow (Z.pos (digits2_pos mb) - 1 + eb))%R
      by (apply bpow_le; lia).
    lra.
Qed.

Lemma digits_pos_ge1 (m : positive) : 1 <= Zpos (digits2_pos m).
Proof. lia. Qed.

(** The operations return the rounding of the exact result. *)
Lemma SFmul_rounds (a b : spec_float) :
  nonneg_fin a -> nonneg_fin b -> rounds_to (SF2R a * SF2R b) (SFmul prec emax a b).
Proof.
  intros [Va Ha] [Vb Hb].
  destruct a as [sa|sa| |[] ma ea]; try contradiction;
    destruct b as [sb|sb| |[] mb eb]; try contradiction;
    try (left; simpl; split; [ring|eauto]).
  right. exists (Zpos (ma * mb)), (ea + eb), loc_Exact.
  apply valid_finite in Va as [Ca _], Vb as [Cb _].
  split; [|split; [|reflexivity]].
  - split; [lia|].
    pose proof (digits2_bounds ma) as Da. pose proof (digits2_bounds mb) as Db.
    assert (D : Zpos (digits2_pos ma) + Zpos (digits2_pos mb) - 2 + 1
                <= Zdigits2 (Zpos (ma * mb))).
    { apply digits_ge_of_le; [lia|].
      replace (Zpos (digits2_pos ma) + Zpos (digits2_pos mb) - 2)
        with ((Zpos (digits2_pos ma) - 1) + (Zpos (digits2_pos mb) - 1)) by lia.
      rewrite Z.pow_add_r by lia. rewrite Pos2Z.inj_mul.
      apply Z.mul_le_mono_nonneg; lia. }
    rewrite fexp_eq in *. lia.
  - simpl. unfold F2R. rewrite Pos2Z.inj_mul, mult_IZR, bpow_add. ring.
Qed.

Lemma iter_xO (d m : positive) : Zpos (Pos.iter xO m d) = Zpos m * 2 ^ Zpos d.
Proof.
  induction d as [|d IH] using Pos.peano_ind.
  - simpl. lia.
  - rewrite Pos.iter_succ, Pos2Z.inj_succ, Z.pow_succ_r by lia.
    rewrite Pos2Z.inj_xO, IH. ring.
Qed.

Lemma digits_iter_xO (d m : positive) :
  Zpos (digits2_pos (Pos.iter xO m d)) = Zpos (digits2_pos m) + Zpos d.
Proof.
  induction d as [|d IH] using Pos.peano_ind.
  - simpl. lia.
  - rewrite Pos.iter_succ. simpl digits2_pos. lia.
Qed.

Lemma shl_align_spec (mx : positive) (ex ex' : Z) :
  F2R (Zpos (fst (shl_align mx ex ex'))) (snd (shl_align mx ex ex')) = F2R (Zpos mx) ex
  /\ Zpos (digits2_pos (fst (shl_align mx ex ex'))) + snd (shl_align mx ex ex')
     = Zpos (digits2_pos mx) + ex
  /\ snd (shl_align mx ex ex') = Z.min ex ex'.
Proof.
  unfold shl_align. destruct (ex' - ex) as [|d|d] eqn:E; simpl fst; simpl snd.
  - split; [reflexivity|]. split; lia.
  - split; [reflexivity|]. split; lia.
  - rewrite digits_iter_xO. split; [|split; lia].
    replace ex with (ex' + Zpos d) by lia. rewrite F2R_shift by lia.
    rewrite iter_xO. reflexivity.
Qed.

Lemma binary_round_rounds (m : positive) (e : Z) :
  rounds_to (F2R (Zpos m) e) (binary_round prec emax false m e).
Proof.
  right. unfold binary_round.
  pose proof (shl_align_spec m e (fexp (Zpos (digits2_pos m) + e))) as (V & D & E).
  destruct (shl_align m e (fexp (Zpos (digits2_pos m) + e))) as [mz ez].
  simpl fst in *. simpl snd in *.
  exists (Zpos mz), ez, loc_Exact. split; [|split; [symmetry; exact V|reflexivity]].
  split; [lia|]. cbn [Zdigits2]. rewrite D. lia.
Qed.

Lemma SFadd_rounds (a b : spec_float) :
  nonneg_fin a -> nonneg_fin b -> rounds_to (SF2R a + SF2R b) (SFadd prec emax a b).
Proof.
  intros Na Nb. pose proof Na as [Va Ha]. pose proof Nb as [Vb Hb].
  destruct a as [sa|sa| |[] ma ea]; try contradiction;
    destruct b as [sb|sb| |[] mb eb]; try contradiction.
  - left. simpl. split; [ring|]. destruct sa, sb; eauto.
  - replace (SF2R (S754_zero sa) + SF2R (S754_finite false mb eb))%R
      with (SF2R (S754_finite false mb eb)) by (simpl; ring).
    apply rounds_to_self, Nb.
  - replace (SF2R (S754_finite false ma ea) + SF2R (S754_zero sb))%R
      with (SF2R (S754_finite false ma ea)) by (simpl; ring).
    apply rounds_to_self, Na.
  - unfold SFadd. cbn [cond_Zopp].
    pose proof (shl_align_spec ma ea (Z.min ea eb)) as (V1 & _ & E1).
    pose proof (shl_align_spec mb eb (Z.min ea eb)) as (V2 & _ & E2).
    destruct (shl_align ma ea (Z.min ea eb)) as [m1 z1].
    destruct (shl_align mb eb (Z.min ea eb)) as [m2 z2].
    simpl fst in *. simpl snd in *.
    change (Z.pos m1 + Z.pos m2) with (Z.pos (m1 + m2)). cbn [binary_normalize].
    replace (SF2R (S754_finite false ma ea) + SF2R (S754_finite false mb eb))%R
      with (F2R (Zpos (m1 + m2)) (Z.min ea eb)); [apply binary_round_rounds|].
    simpl SF2R. rewrite <- V1, <- V2.
    replace z1 with (Z.min ea eb) by lia. replace z2 with (Z.min ea eb) by lia.
    unfold F2R. rewrite Pos2Z.inj_add, plus_IZR. ring.
Qed.

(** The quotient [q] and the remainder [k] of a division by [nb] give the
    real [q + k / nb] and its location. *)
Lemma new_location_inb (nb k q e : Z) (x : R) :
  0 < nb -> 0 <= k < nb ->
  x = ((IZR q + IZR k / IZR nb) * bpow e)%R ->
  inb q e x (new_location nb k).
Proof.
  intros Hn Hk ->. pose proof (bpow_pos e) as Hu.
  assert (M : (0 < IZR nb)%R) by (apply IZR_lt; lia).
  set (rho := (IZR k / IZR nb)%R).
  assert (Hr : (rho * IZR nb = IZR k)%R) by (unfold rho; field; lra).
  assert (K0 : (0 <= IZR k)%R) by (apply IZR_le; lia).
  assert (K1 : (IZR k < IZR nb)%R) by (apply IZR_lt; lia).
  assert (R0 : (0 <= rho)%R) by (apply Rmult_le_reg_r with (IZR nb); lra).
  assert (R1 : (rho < 1)%R) by (apply Rmult_lt_reg_r with (IZR nb); lra).
  assert (Lo : 2 * k < nb -> (rho < 1 / 2)%R).
  { intros H. apply IZR_lt in H. rewrite mult_IZR in H.
    apply Rmult_lt_reg_r with (IZR nb); lra. }
  assert (Hi : nb < 2 * k -> (1 / 2 < rho)%R).
  { intros H. apply IZR_lt in H. rewrite mult_IZR in H.
    apply Rmult_lt_reg_r with (IZR nb); lra. }
  assert (Mi : nb = 2 * k -> (rho = 1 / 2)%R).
  { intros H. apply (f_equal IZR) in H. rewrite mult_IZR in H.
    apply Rmult_eq_reg_r with (IZR nb); lra. }
  assert (P0 : k <> 0 -> (0 < rho)%R).
  { intros H. assert (0 < IZR k)%R by (apply IZR_lt; lia).
    apply Rmult_lt_reg_r with (IZR nb); lra. }
  unfold new_location, new_location_even, new_location_odd.
  destruct (Z.even nb) eqn:Ev; destruct (Z.eqb_spec k 0) as [Z|Z].
  - subst k. unfold inb, F2R. unfold rho. unfold Rdiv. ring.
  - specialize (P0 Z). unfold inb, F2R. rewrite plus_IZR.
    destruct (Z.compare_spec (2 * k) nb) as [C|C|C].
    + symmetry in C. specialize (Mi C). split; nra.
    + specialize (Lo C). split; nra.
    + specialize (Hi C). split; nra.
  - subst k. unfold inb, F2R. unfold rho. unfold Rdiv. ring.
  - specialize (P0 Z). unfold inb, F2R. rewrite plus_IZR.
    assert (Od : nb <> 2 * k).
    { intros C. rewrite C, Z.even_mul in Ev. discriminate. }
    destruct (Z.compare_spec (2 * k + 1) nb) as [C|C|C].
    + assert (C' : 2 * k < nb) by lia. specialize (Lo C'). split; nra.
    + assert (C' : 2 * k < nb) by lia. specialize (Lo C'). split; nra.
    + assert (C' : nb < 2 * k) by lia. specialize (Hi C'). split; nra.
Qed.

Lemma SFdiv_core_rounds (ma : positive) (ea : Z) (mt : positive) (et : Z) :
  let '(q, e, l) := SFdiv_core_binary prec emax (Zpos ma) ea (Zpos mt) et in
  enough_digits q e /\ inb q e (F2R (Zpos ma) ea / F2R (Zpos mt) et) l.
Proof.
  unfold SFdiv_core_binary. cbn [Zdigits2].
  set (d1 := Zpos (digits2_pos ma)). set (d2 := Zpos (digits2_pos mt)).
  set (e' := Z.min (fexp (d1 + ea - (d2 + et))) (ea - et)).
  set (s := ea - et - e').
  assert (Hs : 0 <= s) by (unfold s, e'; lia).
  set (m' := match s with Z.pos _ => Z.shiftl (Z.pos ma) s | Z0 => Z.pos ma | Z.neg _ => 0 end).
  assert (Hm : m' = Zpos ma * 2 ^ s).
  { unfold m'. destruct s as [|p|p]; try lia.
    - rewrite Z.shiftl_mul_pow2 by lia. reflexivity. }
  pose proof (Z_div_mod m' (Zpos mt) ltac:(lia)) as DM.
  destruct (Z.div_eucl m' (Z.pos mt)) as [q r]. destruct DM as [DM Hr].
  pose proof (digits2_bounds ma) as Ba. pose proof (digits2_bounds mt) as Bt.
  fold d1 in Ba. fold d2 in Bt.
  assert (P2 : 0 < 2 ^ s) by (apply Z.pow_pos_nonneg; lia).
  assert (Hq : 0 <= q) by nia.
  split.
  - split; [exact Hq|].
    pose proof (fexp_eq (Zdigits2 q + e')) as F.
    destruct (Z_le_gt_dec e' (-1074)) as [L|L]; [lia|].
    pose proof (fexp_eq (d1 + ea - (d2 + et))) as FG.
    assert (K : 0 <= d1 - 1 + s - d2) by (unfold s; lia).
    assert (Q : 2 ^ (d1 - 1 + s - d2) <= q).
    { assert (A : 2 ^ (d1 - 1 + s - d2) * 2 ^ d2 = 2 ^ (d1 - 1) * 2 ^ s).
      { rewrite <- !Z.pow_add_r by lia. f_equal. lia. }
      assert (P3 : 0 < 2 ^ (d1 - 1 + s - d2)) by (apply Z.pow_pos_nonneg; lia).
      assert (2 ^ (d1 - 1 + s - d2) * Zpos mt < m') by nia.
      nia. }
    apply digits_ge_of_le in Q; [|exact K]. unfold s in Q. lia.
  - apply new_location_inb; [lia|lia|].
    assert (M : (0 < IZR (Zpos mt))%R) by (apply IZR_lt; lia).
    unfold F2R. replace ea with (s + e' + et) by (unfold s; lia).
    rewrite !bpow_add. rewrite (bpow_IZR s Hs).
    apply (f_equal IZR) in DM. rewrite Hm, plus_IZR, !mult_IZR in DM.
    pose proof (bpow_pos et). pose proof (bpow_pos e').
    replace (IZR (Z.pos ma) * (IZR (2 ^ s) * bpow e' * bpow et))%R
      with ((IZR (Z.pos mt) * IZR q + IZR r) * bpow e' * bpow et)%R
      by (rewrite <- DM; ring).
    field. lra.
Qed.

Lemma SFdiv_rounds (a t : spec_float) :
  nonneg_fin a -> nonneg_fin t -> (0 < SF2R t)%R ->
  rounds_to (SF2R a / SF2R t) (SFdiv prec emax a t).
Proof.
  intros [Va Ha] [Vt Ht] Pt.
  destruct t as [st|st| |[] mt et]; try contradiction; [simpl in Pt; lra|].
  destruct a as [sa|sa| |[] ma ea]; try contradiction.
  - left. simpl. split; [unfold Rdiv; ring|eauto].
  - right. unfold SFdiv.
    pose proof (SFdiv_core_rounds ma ea mt et) as H.
    destruct (SFdiv_core_binary prec emax (Z.pos ma) ea (Z.pos mt) et) as [[q e] l].
    destruct H as [N I]. exists q, e, l. auto.
Qed.

Lemma SFcompare_antisym (f g : spec_float) :
  SFcompare g f = option_map CompOpp (SFcompare f g).
Proof.
  destruct f as [s|s| |s m e], g as [s'|s'| |s' m' e']; simpl; try reflexivity;
    try (destruct s; reflexivity); try (destruct s'; reflexivity);
    try (destruct s, s'; reflexivity).
  destruct s, s'; try reflexivity; rewrite (Z.compare_antisym e e');
    destruct (e ?= e'); simpl; try reflexivity;
    rewrite Pos.compare_cont_antisym, ?CompOpp_involutive; reflexivity.
Qed.

Lemma b64_ltb_irrefl (x : float) : PrimFloat.ltb x x = false.
Proof.
  rewrite FloatAxioms.ltb_spec. unfold SFltb. rewrite SFcompare_refl.
  destruct (Prim2SF x); reflexivity.
Qed.

Lemma b64_finite_not_nan (x : float) :
  PrimFloat.is_finite x = true -> PrimFloat.is_nan x = false.
Proof. rewrite b64_is_finite, b64_is_nan. destruct (Prim2SF x); auto; discriminate. Qed.

Lemma b64_not_lt_ge (a b : float) :
  PrimFloat.is_nan a = false -> PrimFloat.is_nan b = false ->
  PrimFloat.ltb a b = false -> PrimFloat.leb b a = true.
Proof.
  rewrite !b64_is_nan, FloatAxioms.ltb_spec, FloatAxioms.leb_spec.
  unfold SFltb, SFleb. rewrite (SFcompare_antisym (Prim2SF a) (Prim2SF b)).
  destruct (Prim2SF a) as [s|s| |s m e] eqn:Ea; try discriminate;
    destruct (Prim2SF b) as [s'|s'| |s' m' e'] eqn:Eb; try discriminate;
    intros _ _; destruct (SFcompare _ _) as [[]|] eqn:C; simpl; try reflexivity;
      try discriminate; simpl in C; discriminate.
Qed.

Lemma b64_lt_neq0 (x : float) :
  PrimFloat.ltb PrimFloat.zero x = true -> PrimFloat.eqb x PrimFloat.zero = false.
Proof.
  rewrite FloatAxioms.ltb_spec, b64_eq_zero, Prim2SF_zero. unfold SFltb.
  destruct (Prim2SF x) as [s|s| |s m e]; simpl; auto; discriminate.
Qed.

Lemma b64_add_finite (a b : float) :
  PrimFloat.is_finite (PrimFloat.add a b) = true ->
  PrimFloat.is_finite a = true /\ PrimFloat.is_finite b = true.
Proof.
  rewrite !b64_is_finite, FloatAxioms.add_spec.
  destruct (Prim2SF a) as [s|s| |s m e], (Prim2SF b) as [s'|s'| |s' m' e']; simpl; auto;
    try discriminate; destruct s, s'; simpl; auto; discriminate.
Qed.

Lemma b64_nonneg_fin (x : float) :
  PrimFloat.leb PrimFloat.zero x = true -> PrimFloat.is_finite x = true ->
  nonneg_fin (Prim2SF x).
Proof.
  rewrite b64_zero_le_iff, b64_is_finite. pose proof (FloatAxioms.Prim2SF_valid x) as V.
  unfold nonneg_fin. destruct (Prim2SF x) as [s|[]| |[] m e]; try discriminate; auto.
Qed.

Lemma b64_le_of_rounds (f1 f2 : float) (x1 x2 : R) :
  rounds_to x1 (Prim2SF f1) -> rounds_to x2 (Prim2SF f2) -> (0 <= x1 <= x2)%R ->
  PrimFloat.leb f1 f2 = true.
Proof. intros H1 H2 Hx. rewrite FloatAxioms.leb_spec. exact (rounds_mono _ _ _ _ H1 H2 Hx). Qed.

Lemma b64_leb_R (a b : float) :
  nonneg_fin (Prim2SF a) -> nonneg_fin (Prim2SF b) -> PrimFloat.leb a b = true ->
  (SF2R (Prim2SF a) <= SF2R (Prim2SF b))%R.
Proof. intros Ha Hb. rewrite FloatAxioms.leb_spec. apply SFleb_F2R; assumption. Qed.

(** A float that is [>= 0] is a zero, positive and finite, or the infinity. *)
Lemma b64_nonneg_cases (x : float) :
  PrimFloat.leb PrimFloat.zero x = true ->
  nonneg_fin (Prim2SF x) \/ Prim2SF x = S754_infinity false.
Proof.
  rewrite b64_zero_le_iff. pose proof (FloatAxioms.Prim2SF_valid x) as V.
  unfold nonneg_fin. destruct (Prim2SF x) as [s|[]| |[] m e]; try discriminate; auto.
Qed.

Lemma SFadd_inf_r (a : spec_float) :
  nonneg_fin a \/ a = S754_infinity false ->
  SFadd prec emax a (S754_infinity false) = S754_infinity false.
Proof.
  intros [[_ H]| ->]; [|reflexivity].
  destruct a as [s|s| |[] m e]; try contradiction; reflexivity.
Qed.

Lemma SFadd_inf_l (b : spec_float) :
  nonneg_fin b \/ b = S754_infinity false ->
  SFadd prec emax (S754_infinity false) b = S754_infinity false.
Proof.
  intros [[_ H]| ->]; [|reflexivity].
  destruct b as [s|s| |[] m e]; try contradiction; reflexivity.
Qed.

Lemma SFleb_inf (a : spec_float) :
  nonneg_fin a \/ a = S754_infinity false -> SFleb a (S754_infinity false) = true.
Proof.
  intros [[_ H]| ->]; [|reflexivity].
  destruct a as [s|s| |[] m e]; try contradiction; reflexivity.
Qed.

Lemma b64_add_nonneg_le (a b : float) :
  PrimFloat.leb PrimFloat.zero a = true -> PrimFloat.leb PrimFloat.zero b = true ->
  PrimFloat.leb a (PrimFloat.add a b) = true.
Proof.
  intros Ha Hb.
  pose proof (b64_nonneg_cases a Ha) as Ca. pose proof (b64_nonneg_cases b Hb) as Cb.
  destruct Cb as [Fb|Ib].
  - destruct Ca as [Fa|Ia].
    + apply (b64_le_of_rounds _ _ (SF2R (Prim2SF a)) (SF2R (Prim2SF a) + SF2R (Prim2SF b))).
      * apply rounds_to_self, Fa.
      * rewrite FloatAxioms.add_spec. apply SFadd_rounds; assumption.
      * pose proof (SF2R_nonneg (Prim2SF a)). pose proof (SF2R_nonneg (Prim2SF b)). lra.
    + rewrite FloatAxioms.leb_spec, FloatAxioms.add_spec, Ia, SFadd_inf_l by auto. reflexivity.
  - rewrite FloatAxioms.leb_spec, FloatAxioms.add_spec, Ib, SFadd_inf_r by exact Ca.
    apply SFleb_inf, Ca.
Qed.

Lemma b64_add_nonneg (a b : float) :
  PrimFloat.leb PrimFloat.zero a = true -> PrimFloat.leb PrimFloat.zero b = true ->
  PrimFloat.leb PrimFloat.zero (PrimFloat.add a b) = true.
Proof.
  intros Ha Hb.
  pose proof (b64_nonneg_cases a Ha) as Ca. pose proof (b64_nonneg_cases b Hb) as Cb.
  destruct Cb as [Fb|Ib].
  - destruct Ca as [Fa|Ia].
    + apply (b64_le_of_rounds _ _ 0 (SF2R (Prim2SF a) + SF2R (Prim2SF b))).
      * left. split; [reflexivity|]. exists false. reflexivity.
      * rewrite FloatAxioms.add_spec. apply SFadd_rounds; assumption.
      * pose proof (SF2R_nonneg (Prim2SF a)). pose proof (SF2R_nonneg (Prim2SF b)). lra.
    + rewrite b64_zero_le_iff, FloatAxioms.add_spec, Ia, SFadd_inf_l by auto. reflexivity.
  - rewrite b64_zero_le_iff, FloatAxioms.add_spec, Ib, SFadd_inf_r by exact Ca. reflexivity.
Qed.

Lemma b64_pos_R (t : float) :
  PrimFloat.ltb PrimFloat.zero t = true -> PrimFloat.is_finite t = true ->
  nonneg_fin (Prim2SF t) /\ (0 < SF2R (Prim2SF t))%R.
Proof.
  rewrite FloatAxioms.ltb_spec, b64_is_finite, Prim2SF_zero.
  pose proof (FloatAxioms.Prim2SF_valid t) as V. unfold SFltb, nonneg_fin.
  destruct (Prim2SF t) as [s|[]| |[] m e]; simpl; try discriminate. intros _ _.
  split; [auto|]. unfold F2R. pose proof (bpow_pos e).
  assert (0 < IZR (Z.pos m))%R by (apply IZR_lt; lia). nra.
Qed.

Lemma b64_div_mono (a b t : float) :
  PrimFloat.leb PrimFloat.zero a = true -> PrimFloat.leb a b = true ->
  PrimFloat.is_finite b = true ->
  PrimFloat.ltb PrimFloat.zero t = true -> PrimFloat.is_finite t = true ->
  PrimFloat.leb (PrimFloat.div a t) (PrimFloat.div b t) = true.
Proof.
  intros Ha Hab Fb Ht Ft.
  destruct (b64_pos_R t Ht Ft) as [Nt Pt].
  assert (Nb : nonneg_fin (Prim2SF b)).
  { apply b64_nonneg_fin; [|exact Fb].
    revert Ha Hab. rewrite !b64_zero_le_iff, FloatAxioms.leb_spec. unfold SFleb.
    destruct (Prim2SF a) as [s|[]| |[] m e]; try discriminate;
      destruct (Prim2SF b) as [s'|[]| |[] m' e']; simpl; auto; discriminate. }
  assert (Na : nonneg_fin (Prim2SF a)).
  { destruct (b64_nonneg_cases a Ha) as [N|I]; [exact N|].
    revert Hab. rewrite FloatAxioms.leb_spec, I. destruct Nb as [_ Nb].
    destruct (Prim2SF b) as [s'|[]| |[] m' e']; try contradiction; discriminate. }
  pose proof (b64_leb_R a b Na Nb Hab) as Le.
  pose proof (SF2R_nonneg (Prim2SF a)) as Pa.
  apply (b64_le_of_rounds _ _ (SF2R (Prim2SF a) / SF2R (Prim2SF t))
                          (SF2R (Prim2SF b) / SF2R (Prim2SF t))).
  - rewrite FloatAxioms.div_spec. apply SFdiv_rounds; assumption.
  - rewrite FloatAxioms.div_spec. apply SFdiv_rounds; assumption.
  - assert (0 < / SF2R (Prim2SF t))%R by (apply Rinv_0_lt_compat; exact Pt).
    unfold Rdiv. split; nra.
Qed.

Lemma SF2R_one : SF2R (Prim2SF PrimFloat.one) = 1%R.
Proof.
  rewrite Prim2SF_one. simpl. unfold F2R.
  change 4503599627370496 with (2 ^ 52). rewrite <- bpow_IZR by lia.
  rewrite <- bpow_add. reflexivity.
Qed.

Lemma nonneg_fin_one : nonneg_fin (Prim2SF PrimFloat.one).
Proof. rewrite Prim2SF_one. split; [reflexivity|exact I]. Qed.

Lemma b64_div_le_one (a t : float) :
  PrimFloat.leb PrimFloat.zero a = true -> PrimFloat.leb a t = true ->
  PrimFloat.ltb PrimFloat.zero t = true -> PrimFloat.is_finite t = true ->
  PrimFloat.leb (PrimFloat.div a t) PrimFloat.one = true.
Proof.
  intros Ha Hat Ht Ft.
  destruct (b64_pos_R t Ht Ft) as [Nt Pt].
  assert (Na : nonneg_fin (Prim2SF a)).
  { destruct (b64_nonneg_cases a Ha) as [N|I]; [exact N|].
    revert Hat. rewrite FloatAxioms.leb_spec, I. destruct Nt as [_ Nt].
    destruct (Prim2SF t) as [s'|[]| |[] m' e']; try contradiction; discriminate. }
  pose proof (b64_leb_R a t Na Nt Hat) as Le.
  pose proof (SF2R_nonneg (Prim2SF a)) as Pa.
  apply (b64_le_of_rounds _ _ (SF2R (Prim2SF a) / SF2R (Prim2SF t)) 1).
  - rewrite FloatAxioms.div_spec. apply SFdiv_rounds; assumption.
  - rewrite <- SF2R_one. apply rounds_to_self, nonneg_fin_one.
  - assert (0 < / SF2R (Prim2SF t))%R by (apply Rinv_0_lt_compat; exact Pt).
    unfold Rdiv. split; [nra|].
    apply Rmult_le_reg_r with (SF2R (Prim2SF t)); [exact Pt|].
    rewrite Rmult_assoc, Rinv_l by lra. lra.
Qed.

Lemma rounds_to_zero : rounds_to 0 (Prim2SF PrimFloat.zero).
Proof. left. split; [reflexivity|]. exists false. reflexivity. Qed.

Lemma b64_hypot_nonneg (x y : float) :
  PrimFloat.is_finite (f_hypot x y) = true ->
  PrimFloat.leb PrimFloat.zero (f_hypot x y) = true.
Proof.
  unfold f_hypot. set (z := PrimFloat.add _ _). intros F.
  apply b64_sqrt_nonneg. rewrite b64_zero_le_iff.
  rewrite b64_is_finite, FloatAxioms.sqrt_spec in F.
  destruct (Prim2SF z) as [[]|[]| |[] m e]; try reflexivity; discriminate.
Qed.

Lemma b64_unit_fin (a : float) :
  PrimFloat.leb PrimFloat.zero a = true -> PrimFloat.leb a PrimFloat.one = true ->
  nonneg_fin (Prim2SF a) /\ (SF2R (Prim2SF a) <= 1)%R.
Proof.
  intros H0 H1.
  assert (N : nonneg_fin (Prim2SF a)).
  { destruct (b64_nonneg_cases a H0) as [N|I]; [exact N|].
    rewrite FloatAxioms.leb_spec, I, Prim2SF_one in H1. discriminate. }
  split; [exact N|]. rewrite <- SF2R_one. apply b64_leb_R; [exact N|apply nonneg_fin_one|exact H1].
Qed.

Lemma b64_mul_le (c a : float) :
  nonneg_fin (Prim2SF c) ->
  PrimFloat.leb PrimFloat.zero a = true -> PrimFloat.leb a PrimFloat.one = true ->
  nonneg_fin (Prim2SF (PrimFloat.mul c a))
  /\ (SF2R (Prim2SF (PrimFloat.mul c a)) <= SF2R (Prim2SF c))%R.
Proof.
  intros Nc H0 H1. destruct (b64_unit_fin a H0 H1) as [Na Ra].
  pose proof (SF2R_nonneg (Prim2SF c)) as Pc.
  pose proof (SF2R_nonneg (Prim2SF a)) as Pa.
  assert (Rm : rounds_to (SF2R (Prim2SF c) * SF2R (Prim2SF a))
                         (Prim2SF (PrimFloat.mul c a))).
  { rewrite FloatAxioms.mul_spec. apply SFmul_rounds; assumption. }
  assert (Le : PrimFloat.leb (PrimFloat.mul c a) c = true).
  { apply (b64_le_of_rounds _ _ _ _ Rm (rounds_to_self _ Nc)). split; nra. }
  assert (Ge : PrimFloat.leb PrimFloat.zero (PrimFloat.mul c a) = true).
  { apply (b64_le_of_rounds PrimFloat.zero _ 0 _ rounds_to_zero Rm).
    split; nra. }
  assert (Nm : nonneg_fin (Prim2SF (PrimFloat.mul c a))).
  { destruct (b64_nonneg_cases _ Ge) as [N|I]; [exact N|].
    rewrite FloatAxioms.leb_spec, I in Le. destruct Nc as [_ Nc].
    destruct (Prim2SF c) as [s|[]| |[] m e]; try contradiction; discriminate. }
  split; [exact Nm|]. apply b64_leb_R; assumption.
Qed.

(** [c * a + p * u] stays in [[0, 1]] when [c + p] is [1.0]. *)
Lemma b64_blend (c p a u : float) :
  PrimFloat.leb PrimFloat.zero c = true -> PrimFloat.is_finite c = true ->
  PrimFloat.leb PrimFloat.zero p = true -> PrimFloat.is_finite p = true ->
  PrimFloat.add c p = PrimFloat.one ->
  @in_unit Binary64 a -> @in_unit Binary64 u ->
  @in_unit Binary64 (PrimFloat.add (PrimFloat.mul c a) (PrimFloat.mul p u)).
Proof.
  intros Pc Fc Pp Fp E [A0 A1] [U0 U1].
  pose proof (b64_nonneg_fin c Pc Fc) as Nc. pose proof (b64_nonneg_fin p Pp Fp) as Np.
  destruct (b64_mul_le c a Nc A0 A1) as [N1 R1].
  destruct (b64_mul_le p u Np U0 U1) as [N2 R2].
  pose proof (SF2R_nonneg (Prim2SF (PrimFloat.mul c a))) as P1.
  pose proof (SF2R_nonneg (Prim2SF (PrimFloat.mul p u))) as P2.
  assert (Rs : rounds_to (SF2R (Prim2SF (PrimFloat.mul c a))
                          + SF2R (Prim2SF (PrimFloat.mul p u)))
                         (Prim2SF (PrimFloat.add (PrimFloat.mul c a) (PrimFloat.mul p u)))).
  { rewrite FloatAxioms.add_spec. apply SFadd_rounds; assumption. }
  split.
  - apply (b64_le_of_rounds PrimFloat.zero _ 0 _ rounds_to_zero Rs).
    split; lra.
  - change (@d1 Binary64) with PrimFloat.one. rewrite <- E.
    apply (b64_le_of_rounds _ _ _ (SF2R (Prim2SF c) + SF2R (Prim2SF p)) Rs).
    + rewrite FloatAxioms.add_spec. apply SFadd_rounds; assumption.
    + split; lra.
Qed.

Lemma b64_blend_unit (k : nat) (a u : float) :
  (k <= 7)%nat -> @in_unit Binary64 a -> @in_unit Binary64 u ->
  @in_unit Binary64
    (PrimFloat.add (PrimFloat.mul (PrimFloat.sub (@d1 Binary64) (@proportion Binary64 k)) a)
                   (PrimFloat.mul (@proportion Binary64 k) u)).
Proof.
  intros Hk Ha Hu.
  do 8 (destruct k as [|k];
        [apply b64_blend; try assumption; vm_compute; reflexivity|]).
  lia.
Qed.

Lemma Binary64_rounding : RoundingLaws Binary64.
Proof.
  constructor.
  - reflexivity.
  - reflexivity.
  - exact b64_ltb_irrefl.
  - exact b64_lt_neq0.
  - exact b64_finite_not_nan.
  - exact b64_not_lt_ge.
  - exact b64_blend_unit.
  - exact b64_add_finite.
  - exact b64_hypot_nonneg.
  - exact b64_add_nonneg.
  - exact b64_add_nonneg_le.
  - exact b64_div_mono.
  - exact b64_div_le_one.
Qed.

End Rounding.

(** ** More facts of the arithmetic, on binary64 *)

Section FitRounding.
Local Open Scope Z_scope.
Local Abbreviation fexp := (SpecFloat.fexp prec emax).

Lemma b64_eqb_sym (a b : float) : PrimFloat.eqb a b = PrimFloat.eqb b a.
Proof.
  rewrite !FloatAxioms.eqb_spec. unfold SFeqb.
  rewrite (SFcompare_antisym (Prim2SF a) (Prim2SF b)).
  destruct (SFcompare (Prim2SF a) (Prim2SF b)) as [[]|]; reflexivity.
Qed.

Lemma b64_eqb_refl (x : float) : PrimFloat.is_nan x = false -> PrimFloat.eqb x x = true.
Proof.
  rewrite b64_is_nan, FloatAxioms.eqb_spec. unfold SFeqb. rewrite SFcompare_refl.
  destruct (Prim2SF x); try reflexivity. discriminate.
Qed.

Lemma b64_lt_le (a b : float) : PrimFloat.ltb a b = true -> PrimFloat.leb a b = true.
Proof.
  rewrite FloatAxioms.ltb_spec, FloatAxioms.leb_spec. unfold SFltb, SFleb.
  destruct (SFcompare _ _) as [[]|]; auto.
Qed.

Lemma b64_not_le_ge (a b : float) :
  PrimFloat.is_nan a = false -> PrimFloat.is_nan b = false ->
  PrimFloat.leb a b = false -> PrimFloat.leb b a = true.
Proof.
  rewrite !b64_is_nan, !FloatAxioms.leb_spec.
  unfold SFleb. rewrite (SFcompare_antisym (Prim2SF a) (Prim2SF b)).
  destruct (Prim2SF a) as [s|s| |s m e] eqn:Ea; try discriminate;
    destruct (Prim2SF b) as [s'|s'| |s' m' e'] eqn:Eb; try discriminate;
    intros _ _; destruct (SFcompare _ _) as [[]|] eqn:C; simpl; try reflexivity;
      try discriminate; simpl in C; discriminate.
Qed.

Lemma b64_le_neq_lt0 (x : float) :
  PrimFloat.leb PrimFloat.zero x = true -> PrimFloat.eqb x PrimFloat.zero = false ->
  PrimFloat.ltb PrimFloat.zero x = true.
Proof.
  rewrite b64_zero_le_iff, b64_eq_zero, FloatAxioms.ltb_spec, Prim2SF_zero. unfold SFltb.
  destruct (Prim2SF x) as [s|[]| |[] m e]; simpl; auto; discriminate.
Qed.

(** A float above one that is [>= 0] is [>= 0]. *)
Lemma b64_nonneg_up (a b : float) :
  PrimFloat.leb PrimFloat.zero a = true -> PrimFloat.leb a b = true ->
  PrimFloat.leb PrimFloat.zero b = true.
Proof.
  rewrite !b64_zero_le_iff, FloatAxioms.leb_spec. unfold SFleb.
  destruct (Prim2SF a) as [s|[]| |[] m e]; try discriminate;
    destruct (Prim2SF b) as [s'|[]| |[] m' e']; simpl; auto; discriminate.
Qed.

(** A float [>= 0] below a finite one is finite. *)
Lemma b64_fin_down (a b : float) :
  PrimFloat.leb PrimFloat.zero a = true -> PrimFloat.leb a b = true ->
  nonneg_fin (Prim2SF b) -> nonneg_fin (Prim2SF a).
Proof.
  intros Ha Hab Nb. destruct (b64_nonneg_cases a Ha) as [N|I]; [exact N|].
  revert Hab. rewrite FloatAxioms.leb_spec, I. destruct Nb as [_ Nb].
  destruct (Prim2SF b) as [s'|[]| |[] m' e']; try contradiction; discriminate.
Qed.

Lemma b64_le_inf (a b : float) :
  PrimFloat.leb PrimFloat.zero a = true -> Prim2SF b = S754_infinity false ->
  PrimFloat.leb a b = true.
Proof.
  intros Ha Ib. rewrite FloatAxioms.leb_spec, Ib. apply SFleb_inf, b64_nonneg_cases, Ha.
Qed.

Lemma b64_le_trans0 (a b c : float) :
  PrimFloat.leb PrimFloat.zero a = true -> PrimFloat.leb a b = true ->
  PrimFloat.leb b c = true -> PrimFloat.leb a c = true.
Proof.
  intros Ha Hab Hbc.
  pose proof (b64_nonneg_up a b Ha Hab) as Hb.
  pose proof (b64_nonneg_up b c Hb Hbc) as Hc.
  destruct (b64_nonneg_cases c Hc) as [Nc|Ic]; [|apply b64_le_inf; assumption].
  pose proof (b64_fin_down b c Hb Hbc Nc) as Nb.
  pose proof (b64_fin_down a b Ha Hab Nb) as Na.
  pose proof (b64_leb_R a b Na Nb Hab). pose proof (b64_leb_R b c Nb Nc Hbc).
  pose proof (SF2R_nonneg (Prim2SF a)).
  apply (b64_le_of_rounds _ _ _ _ (rounds_to_self _ Na) (rounds_to_self _ Nc)). lra.
Qed.

Lemma b64_nonneg_fin_finite (x : float) :
  nonneg_fin (Prim2SF x) -> PrimFloat.is_finite x = true.
Proof.
  rewrite b64_is_finite. intros [_ H].
  destruct (Prim2SF x) as [s|s| |[] m e]; try contradiction; reflexivity.
Qed.

Lemma b64_div_mono_pos (a b t : float) :
  PrimFloat.leb PrimFloat.zero a = true -> PrimFloat.leb a b = true ->
  PrimFloat.ltb PrimFloat.zero t = true -> PrimFloat.is_finite t = true ->
  PrimFloat.leb (PrimFloat.div a t) (PrimFloat.div b t) = true.
Proof.
  intros Ha Hab Ht Ft.
  pose proof (b64_nonneg_up a b Ha Hab) as Hb.
  destruct (b64_nonneg_cases b Hb) as [Nb|Ib].
  - apply b64_div_mono; try assumption. apply b64_nonneg_fin_finite, Nb.
  - apply b64_le_inf; [apply b64_div_nonneg; assumption|].
    rewrite FloatAxioms.div_spec, Ib.
    revert Ht Ft. rewrite FloatAxioms.ltb_spec, b64_is_finite, Prim2SF_zero. unfold SFltb.
    destruct (Prim2SF t) as [s|[]| |[] m e]; simpl; try discriminate. reflexivity.
Qed.

Lemma b64_fabs_nonneg_le (x c : float) :
  PrimFloat.leb PrimFloat.zero x = true ->
  PrimFloat.leb (PrimFloat.abs x) c = PrimFloat.leb x c.
Proof.
  rewrite b64_zero_le_iff, !FloatAxioms.leb_spec, FloatAxioms.abs_spec. unfold SFleb.
  destruct (Prim2SF x) as [s|[]| |[] m e]; try discriminate; intros _; try reflexivity;
    destruct (Prim2SF c) as [s'|s'| |s' m' e']; destruct s; reflexivity.
Qed.

Lemma b64_fabs_neg_le (h c : float) :
  PrimFloat.leb PrimFloat.zero h = true ->
  PrimFloat.leb (PrimFloat.abs (PrimFloat.opp h)) c = PrimFloat.leb h c.
Proof.
  rewrite b64_zero_le_iff, !FloatAxioms.leb_spec, FloatAxioms.abs_spec,
    FloatAxioms.opp_spec. unfold SFleb.
  destruct (Prim2SF h) as [s|[]| |[] m e]; try discriminate; intros _; try reflexivity;
    destruct (Prim2SF c) as [s'|s'| |s' m' e']; destruct s; reflexivity.
Qed.

(** A square is [>= 0] or a NaN. *)
Lemma b64_square_nonneg (x : float) :
  PrimFloat.is_nan (PrimFloat.mul x x) = false ->
  PrimFloat.leb PrimFloat.zero (PrimFloat.mul x x) = true.
Proof.
  rewrite b64_is_nan, b64_zero_le_iff, FloatAxioms.mul_spec.
  destruct (Prim2SF x) as [[]|[]| |[] m e]; try discriminate; try reflexivity;
    intros _; cbn [SFmul xorb]; apply nonneg_of_sign, binary_round_aux_sign; lia.
Qed.

Lemma b64_add_not_nan (a b : float) :
  PrimFloat.is_nan (PrimFloat.add a b) = false ->
  PrimFloat.is_nan a = false /\ PrimFloat.is_nan b = false.
Proof.
  rewrite !b64_is_nan, FloatAxioms.add_spec.
  destruct (Prim2SF a) as [s|s| |s m e], (Prim2SF b) as [s'|s'| |s' m' e']; simpl; auto.
Qed.

Lemma b64_sum_squares_nonneg (x y : float) :
  PrimFloat.is_nan (PrimFloat.add (PrimFloat.mul x x) (PrimFloat.mul y y)) = false ->
  PrimFloat.leb PrimFloat.zero (PrimFloat.add (PrimFloat.mul x x) (PrimFloat.mul y y)) = true.
Proof.
  intros H. apply b64_add_not_nan in H as [Hx Hy].
  apply b64_add_nonneg; apply b64_square_nonneg; assumption.
Qed.


(** *** The square root *)

Lemma div2_bounds (z : Z) : 2 * Z.div2 z <= z <= 2 * Z.div2 z + 1.
Proof.
  rewrite Z.div2_div. pose proof (Z.div_mod z 2 ltac:(lia)).
  pose proof (Z.mod_pos_bound z 2 ltac:(lia)). lia.
Qed.

(** The integer square root [q] and the remainder [r] of [n] give the
    real [sqrt n] and its location. *)
Lemma sqrt_location (n q r : Z) (y : R) :
  n = q * q + r -> 0 <= r <= 2 * q ->
  (0 <= y)%R -> (y * y = IZR n)%R ->
  match (if r =? 0 then loc_Exact else loc_Inexact (if r <=? q then Lt else Gt)) with
  | loc_Exact => y = IZR q
  | loc_Inexact c =>
      (IZR q < y < IZR q + 1)%R
      /\ match c with
         | Lt => (y < IZR q + 1 / 2)%R
         | Eq => False
         | Gt => (IZR q + 1 / 2 < y)%R
         end
  end.
Proof.
  intros Hn Hr Hy Hyy.
  assert (Q0 : (0 <= IZR q)%R) by (apply IZR_le; lia).
  assert (E : (y * y = IZR q * IZR q + IZR r)%R).
  { rewrite Hyy, Hn, plus_IZR, mult_IZR. reflexivity. }
  destruct (Z.eqb_spec r 0) as [R0|R0].
  - subst r. assert (Y : (y * y = IZR q * IZR q)%R) by lra.
    destruct (Rle_lt_dec y (IZR q)) as [C|C].
    + destruct (Req_dec y (IZR q)) as [K|K]; [exact K|]. exfalso. nra.
    + exfalso. nra.
  - assert (R1 : (1 <= IZR r)%R) by (apply IZR_le; lia).
    assert (R2 : (IZR r <= 2 * IZR q)%R).
    { rewrite <- mult_IZR. apply IZR_le. lia. }
    split; [split; nra|].
    destruct (Z.leb_spec r q) as [C|C].
    + assert (IZR r <= IZR q)%R by (apply IZR_le; lia). nra.
    + assert (IZR q + 1 <= IZR r)%R by (rewrite <- plus_IZR; apply IZR_le; lia). nra.
Qed.

Lemma SFsqrt_core_rounds (m : positive) (e : Z) :
  let '(q, e', l) := SFsqrt_core_binary prec emax (Zpos m) e in
  enough_digits q e' /\ inb q e' (R_sqrt.sqrt (F2R (Zpos m) e)) l.
Proof.
  unfold SFsqrt_core_binary. cbn [Zdigits2].
  set (d := Zpos (digits2_pos m)).
  set (e' := Z.min (fexp (Z.div2 (d + e + 1))) (Z.div2 e)).
  set (s := e - 2 * e').
  pose proof (div2_bounds e) as De. pose proof (div2_bounds (d + e + 1)) as Dd.
  assert (Hs : 0 <= s) by (unfold s, e'; lia).
  set (m' := match s with Z.pos _ => Z.shiftl (Z.pos m) s | Z0 => Z.pos m | Z.neg _ => 0 end).
  assert (Hm : m' = Zpos m * 2 ^ s).
  { unfold m'. destruct s as [|p|p]; try lia.
    rewrite Z.shiftl_mul_pow2 by lia. reflexivity. }
  assert (P2 : 0 < 2 ^ s) by (apply Z.pow_pos_nonneg; lia).
  assert (Hm0 : 0 <= m') by nia.
  pose proof (Z.sqrtrem_spec m' Hm0) as SP.
  destruct (Z.sqrtrem m') as [q r]. destruct SP as [SP Hr].
  assert (Hq : 0 <= q) by lia.
  pose proof (digits2_bounds m) as Bm. fold d in Bm.
  split.
  - split; [exact Hq|].
    pose proof (fexp_eq (Zdigits2 q + e')) as F.
    destruct (Z_le_gt_dec e' (-1074)) as [L|L]; [lia|].
    pose proof (fexp_eq (Z.div2 (d + e + 1))) as FG.
    assert (K : 104 <= d - 1 + s) by (unfold s; lia).
    assert (M104 : 2 ^ 104 <= m').
    { rewrite Hm. replace 104 with ((d - 1) + (104 - (d - 1))) by lia.
      destruct (Z_le_gt_dec (d - 1) 104) as [G|G].
      - rewrite Z.pow_add_r by lia.
        assert (2 ^ (104 - (d - 1)) <= 2 ^ s) by (apply Z.pow_le_mono_r; lia).
        assert (0 < 2 ^ (104 - (d - 1))) by (apply Z.pow_pos_nonneg; lia).
        nia.
      - replace (d - 1 + (104 - (d - 1))) with 104 by lia.
        assert (2 ^ 104 <= 2 ^ (d - 1)) by (apply Z.pow_le_mono_r; lia). nia. }
    assert (Q : 2 ^ 52 <= q).
    { destruct (Z_le_gt_dec (2 ^ 52) q) as [G|G]; [exact G|]. exfalso.
      change (2 ^ 104) with (2 ^ 52 * 2 ^ 52) in M104.
      assert (q + 1 <= 2 ^ 52) by lia.
      assert ((q + 1) * (q + 1) <= 2 ^ 52 * 2 ^ 52) by (apply Z.mul_le_mono_nonneg; lia).
      lia. }
    apply digits_ge_of_le in Q; [|lia]. lia.
  - set (y := R_sqrt.sqrt (IZR m')).
    assert (M0 : (0 <= IZR m')%R) by (apply IZR_le; exact Hm0).
    assert (Y0 : (0 <= y)%R) by apply sqrt_pos.
    assert (YY : (y * y = IZR m')%R) by (apply sqrt_sqrt; exact M0).
    pose proof (bpow_pos e') as Hb.
    assert (X : R_sqrt.sqrt (F2R (Zpos m) e) = (y * bpow e')%R).
    { unfold F2R. replace e with (s + (e' + e')) by (unfold s; lia).
      rewrite !bpow_add, (bpow_IZR s Hs).
      replace (IZR (Z.pos m) * (IZR (2 ^ s) * (bpow e' * bpow e')))%R
        with (IZR m' * (bpow e' * bpow e'))%R
        by (rewrite Hm, mult_IZR; ring).
      rewrite sqrt_mult_alt by exact M0. rewrite sqrt_square by lra. reflexivity. }
    rewrite X.
    pose proof (sqrt_location m' q r y SP Hr Y0 YY) as Loc.
    destruct (r =? 0).
    + unfold inb, F2R. rewrite Loc. reflexivity.
    + unfold inb, F2R. rewrite plus_IZR. destruct Loc as [[L1 L2] L3].
      split; [split; nra|]. destruct (r <=? q); nra.
Qed.

Lemma SFsqrt_rounds (a : spec_float) :
  nonneg_fin a -> rounds_to (R_sqrt.sqrt (SF2R a)) (SFsqrt prec emax a).
Proof.
  intros [Va Ha]. destruct a as [sa|sa| |[] ma ea]; try contradiction.
  - left. simpl. split; [apply sqrt_0|eauto].
  - right. unfold SFsqrt.
    pose proof (SFsqrt_core_rounds ma ea) as H.
    destruct (SFsqrt_core_binary prec emax (Z.pos ma) ea) as [[q e] l].
    destruct H as [N I]. exists q, e, l. auto.
Qed.

Lemma b64_sqrt_mono (a b : float) :
  PrimFloat.leb PrimFloat.zero a = true -> PrimFloat.leb a b = true ->
  PrimFloat.leb (PrimFloat.sqrt a) (PrimFloat.sqrt b) = true.
Proof.
  intros Ha Hab.
  pose proof (b64_nonneg_up a b Ha Hab) as Hb.
  destruct (b64_nonneg_cases b Hb) as [Nb|Ib].
  - pose proof (b64_fin_down a b Ha Hab Nb) as Na.
    pose proof (b64_leb_R a b Na Nb Hab) as Le.
    pose proof (SF2R_nonneg (Prim2SF a)) as Pa.
    apply (b64_le_of_rounds _ _ (R_sqrt.sqrt (SF2R (Prim2SF a)))
                            (R_sqrt.sqrt (SF2R (Prim2SF b)))).
    + rewrite FloatAxioms.sqrt_spec. apply SFsqrt_rounds, Na.
    + rewrite FloatAxioms.sqrt_spec. apply SFsqrt_rounds, Nb.
    + split; [apply sqrt_pos|apply sqrt_le_1_alt, Le].
  - apply b64_le_inf; [apply b64_sqrt_nonneg, Ha|].
    rewrite FloatAxioms.sqrt_spec, Ib. reflexivity.
Qed.


(** *** The largest finite float *)

Definition max_float : float := 0x1.fffffffffffffp+1023%float.

Lemma Prim2SF_max : Prim2SF max_float = S754_finite false 9007199254740991 971.
Proof. reflexivity. Qed.

Lemma b64_le_max (x : float) :
  nonneg_fin (Prim2SF x) -> PrimFloat.leb x max_float = true.
Proof.
  rewrite FloatAxioms.leb_spec, Prim2SF_max. intros [V H].
  destruct (Prim2SF x) as [s|s| |[] m e]; try contradiction; [reflexivity|].
  apply valid_finite in V as [C B]. apply SFleb_finite.
  destruct (Z_lt_le_dec e 971) as [G|G]; [left; exact G|right].
  split; [lia|].
  rewrite fexp_eq in C. pose proof (digits2_bounds m) as D.
  assert (Zpos (digits2_pos m) = 53) by lia.
  replace (Zpos (digits2_pos m)) with 53 in D by lia.
  change (2 ^ 53) with 9007199254740992 in D. lia.
Qed.

Lemma b64_lt_le_trans0 (a b : float) :
  PrimFloat.ltb PrimFloat.zero a = true -> PrimFloat.leb a b = true ->
  PrimFloat.ltb PrimFloat.zero b = true.
Proof.
  rewrite !FloatAxioms.ltb_spec, FloatAxioms.leb_spec, Prim2SF_zero. unfold SFltb, SFleb.
  destruct (Prim2SF a) as [s|[]| |[] m e]; try discriminate;
    destruct (Prim2SF b) as [s'|[]| |[] m' e']; simpl; auto; discriminate.
Qed.

(** [tolerance = sqrt(error + 1e-9)] is positive and finite. *)
Lemma b64_tolerance_pos (e : float) :
  PrimFloat.leb PrimFloat.zero e = true -> PrimFloat.is_finite e = true ->
  PrimFloat.ltb PrimFloat.zero (PrimFloat.sqrt (PrimFloat.add e (@dlit Binary64 1e-9))) = true
  /\ PrimFloat.is_finite (PrimFloat.sqrt (PrimFloat.add e (@dlit Binary64 1e-9))) = true.
Proof.
  intros He Fe. set (c := @dlit Binary64 1e-9).
  assert (Nc : nonneg_fin (Prim2SF c)) by (split; [vm_compute; reflexivity|exact I]).
  assert (Hc : PrimFloat.leb PrimFloat.zero c = true) by (vm_compute; reflexivity).
  pose proof (b64_nonneg_fin e He Fe) as Ne.
  pose proof (SF2R_nonneg (Prim2SF e)) as Pe.
  pose proof (SF2R_nonneg (Prim2SF c)) as Pc.
  assert (Rs : rounds_to (SF2R (Prim2SF e) + SF2R (Prim2SF c))
                         (Prim2SF (PrimFloat.add e c))).
  { rewrite FloatAxioms.add_spec. apply SFadd_rounds; assumption. }
  assert (Lc : PrimFloat.leb c (PrimFloat.add e c) = true).
  { apply (b64_le_of_rounds _ _ _ _ (rounds_to_self _ Nc) Rs). lra. }
  assert (Nm : nonneg_fin (Prim2SF max_float)) by (split; [vm_compute; reflexivity|exact I]).
  assert (Lm : PrimFloat.leb (PrimFloat.add e c) max_float = true).
  { assert (Em : PrimFloat.add max_float c = max_float) by (vm_compute; reflexivity).
    rewrite <- Em.
    apply (b64_le_of_rounds _ _ _ (SF2R (Prim2SF max_float) + SF2R (Prim2SF c)) Rs).
    - rewrite FloatAxioms.add_spec. apply SFadd_rounds; assumption.
    - pose proof (b64_leb_R e max_float Ne Nm (b64_le_max e Ne)). lra. }
  pose proof (b64_nonneg_up c _ Hc Lc) as Hs.
  pose proof (b64_sqrt_mono c _ Hc Lc) as S1.
  pose proof (b64_sqrt_mono _ max_float Hs Lm) as S2.
  split.
  - apply (b64_lt_le_trans0 (PrimFloat.sqrt c)); [vm_compute; reflexivity|exact S1].
  - apply b64_nonneg_fin_finite.
    apply (b64_fin_down _ (PrimFloat.sqrt max_float)); [apply b64_sqrt_nonneg, Hs|exact S2|].
    split; [vm_compute; reflexivity|exact I].
Qed.

(** *** The conversion of the integers *)

Lemma b64_of_pos_rounds (z : Z) :
  0 < z < 2 ^ 63 -> rounds_to (IZR z) (Prim2SF (f_of_Z z)).
Proof.
  intros Hz. destruct z as [|p|p]; try lia. unfold f_of_Z.
  rewrite FloatAxioms.of_uint63_spec, Uint63.of_Z_spec.
  rewrite Z.mod_small by (change wB with (2 ^ 63); lia).
  cbn [binary_normalize].
  replace (IZR (Zpos p)) with (F2R (Zpos p) 0) by (unfold F2R; rewrite bpow_0; ring).
  apply binary_round_rounds.
Qed.

Lemma b64_of_nat_ratio (i n : nat) :
  (1 <= i <= n)%nat -> Z.of_nat n < 2 ^ 32 ->
  @in_unit Binary64 (PrimFloat.div (f_of_Z (Z.of_nat i)) (f_of_Z (Z.of_nat n))).
Proof.
  intros Hi Hn.
  set (a := f_of_Z (Z.of_nat i)). set (t := f_of_Z (Z.of_nat n)).
  assert (Ra : rounds_to (IZR (Z.of_nat i)) (Prim2SF a)) by (apply b64_of_pos_rounds; lia).
  assert (Rt : rounds_to (IZR (Z.of_nat n)) (Prim2SF t)) by (apply b64_of_pos_rounds; lia).
  assert (I1 : (1 <= IZR (Z.of_nat i))%R) by (apply IZR_le; lia).
  assert (I2 : (IZR (Z.of_nat i) <= IZR (Z.of_nat n))%R) by (apply IZR_le; lia).
  assert (I3 : (IZR (Z.of_nat n) <= IZR (2 ^ 32))%R) by (apply IZR_le; lia).
  assert (A0 : PrimFloat.leb PrimFloat.zero a = true).
  { apply (b64_le_of_rounds PrimFloat.zero _ 0 _ rounds_to_zero Ra). lra. }
  assert (At : PrimFloat.leb a t = true).
  { apply (b64_le_of_rounds _ _ _ _ Ra Rt). lra. }
  assert (T1 : PrimFloat.leb PrimFloat.one t = true).
  { apply (b64_le_of_rounds _ _ 1 _ ltac:(rewrite <- SF2R_one;
                                           apply rounds_to_self, nonneg_fin_one) Rt). lra. }
  assert (T0 : PrimFloat.ltb PrimFloat.zero t = true).
  { apply (b64_lt_le_trans0 PrimFloat.one); [reflexivity|exact T1]. }
  assert (Tf : PrimFloat.is_finite t = true).
  { apply b64_nonneg_fin_finite.
    apply (b64_fin_down _ (f_of_Z (2 ^ 32))).
    - apply b64_lt_le, T0.
    - apply (b64_le_of_rounds _ _ _ (IZR (2 ^ 32)) Rt).
      + apply b64_of_pos_rounds. lia.
      + lra.
    - split; [vm_compute; reflexivity|exact I]. }
  split.
  - apply b64_div_nonneg; assumption.
  - apply b64_div_le_one; assumption.
Qed.

Lemma Binary64_fit : FitLaws Binary64.
Proof.
  constructor.
  - reflexivity.
  - exact b64_eqb_sym.
  - exact b64_eqb_refl.
  - exact b64_lt_le.
  - exact b64_le_trans0.
  - exact b64_le_neq_lt0.
  - exact b64_not_le_ge.
  - exact b64_sum_squares_nonneg.
  - exact b64_sqrt_mono.
  - exact b64_div_mono_pos.
  - exact b64_fabs_nonneg_le.
  - exact b64_fabs_neg_le.
  - exact b64_tolerance_pos.
  - exact b64_of_nat_ratio.
Qed.

End FitRounding.

(** ** The path sums of sanitized points, on binary64 *)

Section ChordRounding.
Local Open Scope Z_scope.
Local Abbreviation fexp := (SpecFloat.fexp prec emax).

(** [f_hypot] squares before it adds: the square of a tiny coordinate
    underflows, and the norm of a vector that is not null comes out as 0.0.
    [f_hypot_scaled] returns the coordinate. *)
Lemma f_hypot_underflows :
  PrimFloat.eqb (f_hypot 0 1e-200) PrimFloat.zero = true
  /\ f_hypot_scaled 0 1e-200 = 1e-200%float.
Proof. split; reflexivity. Qed.

(** [f] is a zero. *)
Definition is_zero_sf (f : spec_float) : bool :=
  match f with S754_zero _ => true | _ => false end.

Lemma SFeqb_zero (f : spec_float) : SFeqb f (S754_zero false) = is_zero_sf f.
Proof. destruct f as [s|[]| |[] m e]; reflexivity. Qed.

(** [f] is positive, or a NaN. *)
Definition pos_or_nan (f : spec_float) : bool :=
  match f with
  | S754_infinity false | S754_finite false _ _ | S754_nan => true
  | _ => false
  end.

Lemma pos_or_nan_spec (x : float) :
  pos_or_nan (Prim2SF x) = true ->
  PrimFloat.eqb x PrimFloat.zero = false /\ PrimFloat.ltb x PrimFloat.zero = false.
Proof.
  rewrite FloatAxioms.eqb_spec, FloatAxioms.ltb_spec, Prim2SF_zero.
  destruct (Prim2SF x) as [s|[]| |[] m e]; simpl; try discriminate; auto.
Qed.

Lemma pos_or_nan_of (x : float) :
  PrimFloat.eqb x PrimFloat.zero = false -> PrimFloat.ltb x PrimFloat.zero = false ->
  pos_or_nan (Prim2SF x) = true.
Proof.
  rewrite FloatAxioms.eqb_spec, FloatAxioms.ltb_spec, Prim2SF_zero.
  destruct (Prim2SF x) as [s|[]| |[] m e]; simpl; try discriminate; auto.
Qed.

(** Whether a rounding is a zero does not depend on the sign. *)
Lemma binary_round_aux_zero (s : bool) (m e : Z) (l : location) :
  is_zero_sf (binary_round_aux prec emax s m e l)
  = is_zero_sf (binary_round_aux prec emax false m e l).
Proof.
  unfold binary_round_aux.
  destruct (shr_fexp prec emax m e l) as [mrs' e'].
  destruct (shr_fexp prec emax _ e' loc_Exact) as [mrs'' e''].
  destruct (shr_m mrs''); simpl; try reflexivity.
  destruct (Z.leb _ _); reflexivity.
Qed.

Lemma binary_round_zero (s : bool) (m : positive) (e : Z) :
  is_zero_sf (binary_round prec emax s m e) = is_zero_sf (binary_round prec emax false m e).
Proof.
  unfold binary_round. destruct (shl_align _ _ _) as [mz ez].
  apply binary_round_aux_zero.
Qed.

(** The least positive number. *)
Definition min_sub : spec_float := S754_finite false 1 (-1074).

Lemma nonneg_fin_min_sub : nonneg_fin min_sub.
Proof. split; [reflexivity|exact I]. Qed.

(** What is at least the least positive number is not rounded to a zero. *)
Lemma binary_round_not_zero (s : bool) (m : positive) (e : Z) :
  -1074 <= e -> is_zero_sf (binary_round prec emax s m e) = false.
Proof.
  intros He. rewrite binary_round_zero.
  assert (L : SFleb min_sub (binary_round prec emax false m e) = true).
  { apply (rounds_mono (SF2R min_sub) (F2R (Zpos m) e)).
    - apply rounds_to_self, nonneg_fin_min_sub.
    - apply binary_round_rounds.
    - split; [apply SF2R_nonneg|].
      simpl SF2R. unfold F2R.
      pose proof (bpow_le (-1074) e He) as B. pose proof (bpow_pos (-1074)) as B0.
      assert (1 <= IZR (Zpos m))%R by (apply IZR_le; lia).
      change (IZR 1) with 1%R. nra. }
  destruct (binary_round prec emax false m e) as [s'|[]| |[] m' e']; try reflexivity.
  discriminate.
Qed.

Lemma valid_exponent (s : bool) (m : positive) (e : Z) :
  valid_binary (S754_finite s m e) = true -> -1074 <= e.
Proof.
  intros V. apply valid_finite in V as [C _]. rewrite fexp_eq in C. lia.
Qed.

(** Two valid numbers of the same value are the same number. *)
Lemma aligned_eq (mx : positive) (ex : Z) (my : positive) (ey : Z) (s : bool) :
  valid_binary (S754_finite s mx ex) = true ->
  valid_binary (S754_finite s my ey) = true ->
  fst (shl_align mx ex (Z.min ex ey)) = fst (shl_align my ey (Z.min ex ey)) ->
  mx = my /\ ex = ey.
Proof.
  intros Vx Vy E.
  apply valid_finite in Vx as [Cx _], Vy as [Cy _].
  pose proof (shl_align_spec mx ex (Z.min ex ey)) as (_ & Dx & Sx).
  pose proof (shl_align_spec my ey (Z.min ex ey)) as (_ & Dy & Sy).
  rewrite E in Dx.
  assert (Ee : ex = ey).
  { rewrite Cx, Cy. f_equal. lia. }
  subst ey. split; [|reflexivity].
  rewrite Z.min_id in E. unfold shl_align in E. rewrite Z.sub_diag in E. exact E.
Qed.

Lemma SFsub_neq (x y : spec_float) :
  valid_binary x = true -> valid_binary y = true ->
  SFeqb x y = false -> is_zero_sf (SFsub prec emax x y) = false.
Proof.
  intros Vx Vy H.
  destruct x as [sx|sx| |sx mx ex], y as [sy|sy| |sy my ey]; try reflexivity;
    try (destruct sx, sy; reflexivity); try (destruct sx, sy; discriminate).
  cbn [SFsub].
  pose proof (valid_exponent _ _ _ Vx) as Bx. pose proof (valid_exponent _ _ _ Vy) as By.
  set (ez := Z.min ex ey).
  set (ax := fst (shl_align mx ex ez)). set (ay := fst (shl_align my ey ez)).
  assert (Hne : sx = sy -> ax <> ay).
  { intros -> E. destruct (aligned_eq mx ex my ey sy Vx Vy E) as [-> ->].
    unfold SFeqb in H. rewrite SFcompare_refl in H. discriminate. }
  destruct (cond_Zopp sx (Zpos ax) - cond_Zopp sy (Zpos ay)) as [|p|p] eqn:M.
  - exfalso. destruct sx, sy; cbn [cond_Zopp] in M; try lia;
      apply (Hne eq_refl); lia.
  - cbn [binary_normalize]. apply binary_round_not_zero. unfold ez. lia.
  - cbn [binary_normalize]. apply binary_round_not_zero. unfold ez. lia.
Qed.

Lemma b64_sub_neq (x y : float) :
  PrimFloat.eqb x y = false -> PrimFloat.eqb (PrimFloat.sub x y) PrimFloat.zero = false.
Proof.
  rewrite !FloatAxioms.eqb_spec, FloatAxioms.sub_spec, Prim2SF_zero, SFeqb_zero.
  apply SFsub_neq; apply FloatAxioms.Prim2SF_valid.
Qed.

Lemma SFleb_pos (m : positive) (e : Z) (f : spec_float) :
  SFleb (S754_finite false m e) f = true -> pos_or_nan f = true.
Proof. destruct f as [s|[]| |[] m' e']; simpl; try discriminate; auto. Qed.

Lemma SFadd_pos (a b : spec_float) :
  valid_binary a = true -> valid_binary b = true ->
  SFltb a (S754_zero false) = false ->
  pos_or_nan b = true -> pos_or_nan (SFadd prec emax a b) = true.
Proof.
  intros Va Vb Ha Hb.
  destruct a as [sa|[]| |[] ma ea]; try discriminate;
    destruct b as [sb|[]| |[] mb eb]; try discriminate; try reflexivity.
  apply (SFleb_pos mb eb).
  apply (rounds_mono (SF2R (S754_finite false mb eb))
                     (SF2R (S754_finite false ma ea) + SF2R (S754_finite false mb eb))).
  - apply rounds_to_self. split; [exact Vb|exact I].
  - apply SFadd_rounds; split; auto; exact I.
  - pose proof (SF2R_nonneg (S754_finite false ma ea)).
    pose proof (SF2R_nonneg (S754_finite false mb eb)). lra.
Qed.

Lemma b64_add_pos (a b : float) :
  PrimFloat.ltb a PrimFloat.zero = false ->
  PrimFloat.eqb b PrimFloat.zero = false -> PrimFloat.ltb b PrimFloat.zero = false ->
  PrimFloat.eqb (PrimFloat.add a b) PrimFloat.zero = false
  /\ PrimFloat.ltb (PrimFloat.add a b) PrimFloat.zero = false.
Proof.
  intros Ha Hb0 Hb. apply pos_or_nan_spec. rewrite FloatAxioms.add_spec.
  apply SFadd_pos; try apply FloatAxioms.Prim2SF_valid.
  - rewrite <- Prim2SF_zero, <- FloatAxioms.ltb_spec. exact Ha.
  - apply pos_or_nan_of; assumption.
Qed.

(** The magnitude of a number that is neither infinite nor a NaN. *)
Lemma b64_abs_fin (x : float) :
  PrimFloat.eqb (PrimFloat.abs x) PrimFloat.infinity = false ->
  PrimFloat.is_nan (PrimFloat.abs x) = false ->
  nonneg_fin (Prim2SF (PrimFloat.abs x))
  /\ (PrimFloat.eqb x PrimFloat.zero = false ->
      PrimFloat.ltb PrimFloat.zero (PrimFloat.abs x) = true).
Proof.
  rewrite b64_is_nan, !FloatAxioms.eqb_spec, FloatAxioms.ltb_spec, Prim2SF_zero,
    Prim2SF_infinity.
  pose proof (FloatAxioms.Prim2SF_valid (PrimFloat.abs x)) as V. revert V.
  rewrite FloatAxioms.abs_spec. unfold nonneg_fin.
  destruct (Prim2SF x) as [s|s| |s m e]; simpl; intros V; try discriminate; auto.
Qed.

Lemma nonneg_fin_leb (x : float) :
  nonneg_fin (Prim2SF x) -> PrimFloat.leb PrimFloat.zero x = true.
Proof.
  intros [_ H]. rewrite b64_zero_le_iff.
  destruct (Prim2SF x) as [s|[]| |[] m e]; try contradiction; reflexivity.
Qed.

Lemma b64_pos_not_neg (x : float) :
  PrimFloat.ltb PrimFloat.zero x = true ->
  PrimFloat.eqb x PrimFloat.zero = false /\ PrimFloat.ltb x PrimFloat.zero = false.
Proof.
  rewrite FloatAxioms.eqb_spec, !FloatAxioms.ltb_spec, Prim2SF_zero.
  destruct (Prim2SF x) as [s|[]| |[] m e]; simpl; try discriminate; auto.
Qed.

(** The larger of two magnitudes one of which is not a zero is positive. *)
Lemma b64_larger_pos (a b : float) :
  nonneg_fin (Prim2SF a) -> nonneg_fin (Prim2SF b) ->
  PrimFloat.ltb PrimFloat.zero a = true \/ PrimFloat.ltb PrimFloat.zero b = true ->
  let hi := if PrimFloat.ltb a b then b else a in
  let lo := if PrimFloat.ltb a b then a else b in
  PrimFloat.ltb PrimFloat.zero hi = true /\ PrimFloat.leb lo hi = true
  /\ nonneg_fin (Prim2SF hi) /\ nonneg_fin (Prim2SF lo).
Proof.
  intros Na Nb H. cbv zeta.
  destruct (PrimFloat.ltb a b) eqn:E.
  - split; [|split; [apply b64_lt_le, E|auto]].
    revert E. rewrite !FloatAxioms.ltb_spec, Prim2SF_zero.
    destruct Na as [_ Na], Nb as [_ Nb].
    destruct (Prim2SF a) as [s|[]| |[] m e]; try contradiction;
      destruct (Prim2SF b) as [s'|[]| |[] m' e']; try contradiction;
      simpl; auto; discriminate.
  - assert (L : PrimFloat.leb b a = true).
    { apply b64_not_lt_ge; [| |exact E].
      - rewrite b64_is_nan. destruct Na as [_ Na].
        destruct (Prim2SF a) as [s|[]| |[] m e]; try contradiction; reflexivity.
      - rewrite b64_is_nan. destruct Nb as [_ Nb].
        destruct (Prim2SF b) as [s|[]| |[] m e]; try contradiction; reflexivity. }
    split; [|auto].
    destruct H as [H|H]; [exact H|].
    apply (b64_lt_le_trans0 b a); assumption.
Qed.

Lemma sqrt_one : PrimFloat.sqrt PrimFloat.one = PrimFloat.one.
Proof. reflexivity. Qed.

(** [hi * q >= hi > 0] for [q >= 1]. *)
Lemma b64_mul_ge_one (hi q : float) :
  nonneg_fin (Prim2SF hi) -> PrimFloat.ltb PrimFloat.zero hi = true ->
  PrimFloat.leb PrimFloat.one q = true ->
  PrimFloat.ltb PrimFloat.zero (PrimFloat.mul hi q) = true.
Proof.
  intros Nh Hh Hq.
  assert (Q0 : PrimFloat.leb PrimFloat.zero q = true).
  { apply (b64_nonneg_up PrimFloat.one); [reflexivity|exact Hq]. }
  destruct (b64_nonneg_cases q Q0) as [Nq|Iq].
  - apply (b64_lt_le_trans0 hi); [exact Hh|].
    apply (b64_le_of_rounds _ _ (SF2R (Prim2SF hi)) (SF2R (Prim2SF hi) * SF2R (Prim2SF q))).
    + apply rounds_to_self, Nh.
    + rewrite FloatAxioms.mul_spec. apply SFmul_rounds; assumption.
    + pose proof (SF2R_nonneg (Prim2SF hi)) as P.
      pose proof (b64_leb_R _ _ nonneg_fin_one Nq Hq) as G. rewrite SF2R_one in G.
      split; [exact P|]. nra.
  - revert Hh. rewrite !FloatAxioms.ltb_spec, FloatAxioms.mul_spec, Iq, Prim2SF_zero.
    destruct Nh as [_ Nh].
    destruct (Prim2SF hi) as [s|[]| |[] m e]; try contradiction; simpl; auto.
Qed.

Lemma b64_hypot_pos (x y : float) :
  PrimFloat.eqb x PrimFloat.zero = false \/ PrimFloat.eqb y PrimFloat.zero = false ->
  PrimFloat.eqb (f_hypot_scaled x y) PrimFloat.zero = false
  /\ PrimFloat.ltb (f_hypot_scaled x y) PrimFloat.zero = false.
Proof.
  intros H. unfold f_hypot_scaled. cbv zeta.
  destruct (PrimFloat.eqb (PrimFloat.abs x) PrimFloat.infinity) eqn:Ix;
    [split; reflexivity|].
  destruct (PrimFloat.eqb (PrimFloat.abs y) PrimFloat.infinity) eqn:Iy;
    [split; reflexivity|].
  cbn [orb].
  destruct (PrimFloat.is_nan (PrimFloat.abs x)) eqn:Nx; [split; reflexivity|].
  destruct (PrimFloat.is_nan (PrimFloat.abs y)) eqn:Ny; [split; reflexivity|].
  cbn [orb].
  destruct (b64_abs_fin x Ix Nx) as [Fa Pa]. destruct (b64_abs_fin y Iy Ny) as [Fb Pb].
  assert (Hp : PrimFloat.ltb PrimFloat.zero (PrimFloat.abs x) = true
               \/ PrimFloat.ltb PrimFloat.zero (PrimFloat.abs y) = true)
    by (destruct H; [left; auto|right; auto]).
  destruct (b64_larger_pos _ _ Fa Fb Hp) as (Hh & Hl & Nh & Nl). cbv zeta in Hh, Hl, Nh, Nl.
  set (hi := if PrimFloat.ltb (PrimFloat.abs x) (PrimFloat.abs y)
             then PrimFloat.abs y else PrimFloat.abs x) in *.
  set (lo := if PrimFloat.ltb (PrimFloat.abs x) (PrimFloat.abs y)
             then PrimFloat.abs x else PrimFloat.abs y) in *.
  destruct (b64_pos_not_neg hi Hh) as [Hz _]. rewrite Hz.
  apply b64_pos_not_neg.
  set (r := PrimFloat.div lo hi).
  assert (Fh : PrimFloat.is_finite hi = true) by apply b64_nonneg_fin_finite, Nh.
  assert (R0 : PrimFloat.leb PrimFloat.zero r = true)
    by (apply b64_div_nonneg; [apply nonneg_fin_leb, Nl|exact Hh|exact Fh]).
  assert (R1 : PrimFloat.leb r PrimFloat.one = true)
    by (apply b64_div_le_one; [apply nonneg_fin_leb, Nl|exact Hl|exact Hh|exact Fh]).
  destruct (b64_unit_fin r R0 R1) as [Nr _].
  destruct (b64_mul_le r r Nr R0 R1) as [Nrr _].
  apply b64_mul_ge_one; [exact Nh|exact Hh|].
  rewrite <- sqrt_one at 1.
  apply b64_sqrt_mono; [reflexivity|].
  apply b64_add_nonneg_le; [reflexivity|apply nonneg_fin_leb, Nrr].
Qed.

Lemma Binary64_chord : ChordLaws Binary64_scaled.
Proof.
  constructor.
  - reflexivity.
  - intros x H. apply b64_eq_one_leibniz in H. subst x. reflexivity.
  - reflexivity.
  - exact b64_sub_neq.
  - exact b64_hypot_pos.
  - exact b64_add_pos.
Qed.

End ChordRounding.

(** ** Runs on binary64 *)

Section Binary64Runs.
Local Existing Instance Binary64.

Definition P (x y : float) : QPointF := mkPoint (x : double) y.

(** An output buffer for [n] segments. *)
Definition buffer (n : nat) : store := mkStore (repeat pt0 (4 * n)) [].

(** The scenario of C8: the input [(0,0), (1,1)] with tolerance 0 gives one
    segment from (0,0) to (1,1). *)
Lemma two_point_fit_witness :
  one_segment_between
    (sp_bezier_fit_cubic 1 (buffer 1) (Some 0%nat) (Some [P 0 0; P 1 1]) 2 0%float)
    0 (P 0 0) (P 1 1).
Proof.
  apply (two_point_fit 0 (buffer 1) 0 (P 0 0) (P 1 1) 0%float 1).
  - vm_compute; reflexivity.
  - simpl; lia.
  - vm_compute; reflexivity.
  - lia.
Defined.

Lemma budget_check_witness :
  sp_bezier_fit_cubic_r 1 (buffer 1) (Some 0%nat) (Some [P 0 0; P 1 1]) 2 0%float (2 ^ 25)
  = Ret ((-1)%Z, buffer 1).
Proof.
  apply (budget_check 1 (buffer 1) 0 [P 0 0; P 1 1] 2 0%float (2 ^ 25)); lia.
Defined.

(** C4 as stated fails: the budget 2^25 is below 2^27, yet the call is
    turned down for its budget (the same call with budget 1 returns one
    segment). *)
Lemma budget_check_counterexample :
  (2 ^ 25 < 2 ^ 27)%Z
  /\ sp_bezier_fit_cubic_r 1 (buffer 1) (Some 0%nat) (Some [P 0 0; P 1 1]) 2 0%float (2 ^ 25)
     = Ret ((-1)%Z, buffer 1)
  /\ exists st',
      sp_bezier_fit_cubic_r 1 (buffer 1) (Some 0%nat) (Some [P 0 0; P 1 1]) 2 0%float 1
      = Ret (1%Z, st').
Proof.
  split; [lia|]. split; [vm_compute; reflexivity|].
  eexists. vm_compute. reflexivity.
Qed.

Lemma negative_tolerance_witness :
  exists uniqued_len uniqued_data,
    copy_without_nans_or_adjacent_duplicates 1 [P 0 0; P 1 0; P 1 0; P 2 1] 4 (repeat pt0 4)
    = Ret (uniqued_len, uniqued_data)
    /\ sp_bezier_fit_cubic_r 1 (buffer 1) (Some 0%nat) (Some [P 0 0; P 1 0; P 1 0; P 2 1]) 4
                             (-1)%float 1
       = Ret ((if (uniqued_len <? 2)%nat then 0 else -1)%Z, buffer 1).
Proof.
  apply (negative_tolerance (L := Binary64_laws) 0 (buffer 1) 0
                            [P 0 0; P 1 0; P 1 0; P 2 1] 4 (-1)%float 1).
  - lia.
  - lia.
  - vm_compute; reflexivity.
  - vm_compute; reflexivity.
Defined.

(** C5 as stated fails: a single point, with a negative tolerance and
    everything else in order, is answered with 0, not with a negative
    result. *)
Lemma negative_tolerance_counterexample :
  sp_bezier_fit_cubic_r 1 (buffer 1) (Some 0%nat) (Some [P 0 0]) 1 (-1)%float 1
  = Ret (0%Z, buffer 1).
Proof. vm_compute; reflexivity. Qed.

(** A zigzag of four points, fitted with tolerance 0 and budget 3: three
    segments. *)
Definition zigzag : list QPointF := [P 0 0; P 1 0; P 1 1; P 2 1].

Definition zigzag_result : store :=
  Eval vm_compute in
    match sp_bezier_fit_cubic_full 9 (mkStore (repeat pt0 12) [0; 0; 0]%Z)
                                   (Some 0%nat) (Some 0%nat) (Some zigzag) 4
                                   (P 0 0) (P 0 0) 0%float 3 with
    | Ret (_, st) => st
    | _ => mkStore [] []
    end.

Lemma zigzag_run :
  sp_bezier_fit_cubic_full 9 (mkStore (repeat pt0 12) [0; 0; 0]%Z)
                           (Some 0%nat) (Some 0%nat) (Some zigzag) 4
                           (P 0 0) (P 0 0) 0%float 3
  = Ret (3%Z, zigzag_result).
Proof. vm_compute; reflexivity. Qed.

Lemma zigzag_no_zero_length_range : no_zero_length_range zigzag 4.
Proof.
  intros i k Hk Hik.
  destruct i as [|[|[|i]]];
    (destruct k as [|[|[|[|[|k]]]]]; try lia; vm_compute; reflexivity).
Qed.

(** The same fit into the middle of a larger buffer: the call is given
    [bezier = buffer + 4] and room for three segments. *)
Definition zigzag_buffer : store := mkStore (repeat (P 9 9) 20) [0; 0; 0]%Z.

Definition zigzag_inner_result : store :=
  Eval vm_compute in
    match sp_bezier_fit_cubic_full 9 zigzag_buffer (Some 4%nat) (Some 0%nat) (Some zigzag) 4
                                   (P 0 0) (P 0 0) 0%float 3 with
    | Ret (_, st) => st
    | _ => zigzag_buffer
    end.

Lemma zigzag_inner_run :
  sp_bezier_fit_cubic_full 9 zigzag_buffer (Some 4%nat) (Some 0%nat) (Some zigzag) 4
                           (P 0 0) (P 0 0) 0%float 3
  = Ret (3%Z, zigzag_inner_result).
Proof. vm_compute; reflexivity. Qed.

(** What the first attempt of that call, which is rejected, leaves in the
    window. *)
Definition zigzag_first_attempt : list QPointF :=
  Eval vm_compute in
    match fit_attempts (load4 zigzag_buffer 4) zigzag 4 (P 0 0) (P 0 0) 0%float with
    | Ret (Some a) => attempt_bezier a
    | _ => []
    end.

Lemma count_within_budget_witness :
  (3 <= 3)%Z
  /\ length (bez zigzag_inner_result) = length (bez zigzag_buffer)
  /\ holds_segments (bez zigzag_inner_result) 4 zigzag (Z.to_nat 4) (P 0 0) (P 0 0) 0%float
                    (Z.to_nat 3)
  /\ (forall i, (i < 4 \/ 4 + 4 * Z.to_nat 3 <= i)%nat ->
                at_ (bez zigzag_inner_result) i = at_ (bez zigzag_buffer) i)
  /\ (exists s recTHat2 recTHat1 nsegs1 st1 nsegs2,
         Some 1%nat = Some s
         /\ sp_bezier_fit_cubic_full 8 (store4 zigzag_buffer 4 zigzag_first_attempt)
              (Some 4%nat) (Some 0%nat) (Some zigzag) (Z.of_nat s + 1)
              (P 0 0) recTHat2 0%float (3 - 1) = Ret (nsegs1, st1)
         /\ (1 <= nsegs1 <= 3 - 1)%Z
         /\ sp_bezier_fit_cubic_full 8
              (store_split st1 (Some 0%nat) (Z.to_nat (nsegs1 - 1)) (Z.of_nat s))
              (Some (4 + Z.to_nat nsegs1 * 4)%nat)
              (option_map (fun p => (p + Z.to_nat nsegs1)%nat) (Some 0%nat))
              (Some (skipn s zigzag)) (4 - Z.of_nat s) recTHat1 (P 0 0)
              0%float (3 - nsegs1) = Ret (nsegs2, zigzag_inner_result)
         /\ (0 <= nsegs2)%Z
         /\ 3%Z = (nsegs1 + nsegs2)%Z
         /\ (forall i, (i < 4 + 4 * Z.to_nat nsegs1)%nat ->
                       at_ (bez zigzag_inner_result) i = at_ (bez st1) i)).
Proof.
  destruct (count_within_budget (AR := Binary64) 9 zigzag_buffer 4 (Some 0%nat) zigzag 4
                                (P 0 0) (P 0 0) 0%float 3 3 zigzag_inner_result
                                ltac:(lia) zigzag_inner_run ltac:(lia))
    as (A & B & C & D & E).
  split; [exact A|]. split; [exact B|]. split; [apply C; simpl; lia|]. split; [exact D|].
  apply (E 8%nat (store4 zigzag_buffer 4 zigzag_first_attempt) false (Some 1%nat)).
  - reflexivity.
  - vm_compute; reflexivity.
Defined.

(** A path that turns twice, fitted with tolerance 0.01 and budget 4. *)
Definition hooked_path : list QPointF :=
  [P 0 0; P (-1) 1; P (-2) 2; P (-3) 3; P (-2) 4; P 0 4; P 0 5].

Lemma recursion_depth_witness :
  sp_bezier_fit_cubic_full 12 (buffer 4) (Some 0%nat) None (Some hooked_path) 7
                           (P 0 0) (P 0 0) 0.01%float 4 <> OutOfFuel.
Proof.
  apply (recursion_depth (L := Binary64_laws) 12 (buffer 4) (Some 0%nat) None
                         (Some hooked_path) 7 (P 0 0) (P 0 0) 0.01%float 4).
  - lia.
  - simpl; lia.
Defined.

(** C9 as stated fails: with budget 4 the fit of [hooked_path] returns four
    segments, but not within a recursion of depth 5 (the call and four
    calls nested in it); it takes depth 6. *)
Lemma recursion_depth_counterexample :
  sp_bezier_fit_cubic_full 5 (buffer 4) (Some 0%nat) None (Some hooked_path) 7
                           (P 0 0) (P 0 0) 0.01%float 4 = OutOfFuel
  /\ exists st',
      sp_bezier_fit_cubic_full 6 (buffer 4) (Some 0%nat) None (Some hooked_path) 7
                               (P 0 0) (P 0 0) 0.01%float 4 = Ret (4%Z, st').
Proof.
  split; [vm_compute; reflexivity|].
  eexists. vm_compute. reflexivity.
Qed.

(** On three points and the straight curve through the end points, with
    tolerance 1, the call returns the ratio 16 and the split point 1; on
    [hooked_path] the first attempt is rejected and goes on to a split
    inside the range. *)
Lemma split_point_in_range_witness :
  (let d := [P 0 0; P 12 16; P 24 0] in
   let u := [0; 0.5; 1]%float : list double in
   let bz := [P 0 0; P 8 0; P 16 0; P 24 0] in
   exists ret sp,
     compute_max_error_ratio d u 3 bz 1%float None = Ret (ret, sp)
     /\ ((ret =? d0)%D = true
         \/ exists s, sp = Some s /\ (s < 3 - 1)%nat
                      /\ (s <> 0%nat \/ (ret <? d0)%D = true)))
  /\ (let t1 := unit_vector (P (-1) 1) in
      let t2 := unit_vector (P 0 (-1)) in
      exists bz r sp,
        fit_attempts (repeat pt0 4) hooked_path 7 t1 t2 0.01%float
        = Ret (Some (Rejected bz r sp))
        /\ (corner_block (r <? d0)%D sp 7 t1 t2 = RetryLeft
            \/ exists s, corner_block (r <? d0)%D sp 7 t1 t2 = Proceed (Some s)
                         /\ (2 <= s + 1)%nat /\ (2 <= 7 - s)%nat)).
Proof.
  cbv zeta. split.
  - apply (proj1 (split_point_in_range (L := Binary64_laws))
                 [P 0 0; P 12 16; P 24 0] [0; 0.5; 1]%float 3%nat
                 [P 0 0; P 8 0; P 16 0; P 24 0] 1%float None);
      try reflexivity. lia.
  - eexists _, _, _. split; [vm_compute; reflexivity|].
    eapply (proj2 (split_point_in_range (L := Binary64_laws))
                  (repeat pt0 4) hooked_path 7%nat
                  (unit_vector (P (-1) 1)) (unit_vector (P 0 (-1))) 0.01%float).
    + lia.
    + vm_compute; reflexivity.
Defined.

(** A step towards the point [(6, 1)] on the straight curve from [(0, 0)] to
    [(24, 0)], from [u = 0.5]. *)
Lemma newton_raphson_improves_witness :
  in_unit (AR := Binary64) 0.5%float
  /\ exists u' q q' step,
      NewtonRaphsonRootFind [P 0 0; P 8 0; P 16 0; P 24 0] (P 6 1) 0.5%float = Ret u'
      /\ in_unit u'
      /\ bezier_pt 3 [P 0 0; P 8 0; P 16 0; P 24 0] 0.5%float = Ret q
      /\ bezier_pt 3 [P 0 0; P 8 0; P 16 0; P 24 0] u' = Ret q'
      /\ (lensq (pt_sub q' (P 6 1)) >? lensq (pt_sub q (P 6 1)))%D = false
      /\ (isNaN (lensq (pt_sub q' (P 6 1))) = false ->
          isNaN (lensq (pt_sub q (P 6 1))) = false ->
          (lensq (pt_sub q' (P 6 1)) <=? lensq (pt_sub q (P 6 1)))%D = true)
      /\ newton_step_of [P 0 0; P 8 0; P 16 0; P 24 0] (P 6 1) 0.5%float = Ret step
      /\ (isFinite step = false -> u' = 0.5%float).
Proof.
  assert (H : in_unit (AR := Binary64) 0.5%float) by (split; vm_compute; reflexivity).
  split; [exact H|].
  exact (newton_raphson_improves (L := Binary64_laws) (RL := Binary64_rounding)
           [P 0 0; P 8 0; P 16 0; P 24 0] (P 6 1) 0.5%float H).
Defined.

(** Three points with the chords 5 and 6. *)
Lemma chord_length_parameters_witness :
  (2 <= 3)%nat
  /\ (3 <= length (repeat (d0 (AR := Binary64)) 3))%nat
  /\ (d0 <? path_length [P 0 0; P 3 4; P 3 10] (3 - 1))%D = true
  /\ isFinite (path_length [P 0 0; P 3 4; P 3 10] (3 - 1)) = true
  /\ uat (chord_length_parameterize [P 0 0; P 3 4; P 3 10] (repeat d0 3) 3) 0 = d0
  /\ uat (chord_length_parameterize [P 0 0; P 3 4; P 3 10] (repeat d0 3) 3) (3 - 1) = d1
  /\ (forall i, (1 <= i <= 3 - 1)%nat ->
        (uat (chord_length_parameterize [P 0 0; P 3 4; P 3 10] (repeat d0 3) 3) (i - 1)
         <=? uat (chord_length_parameterize [P 0 0; P 3 4; P 3 10] (repeat d0 3) 3) i)%D
        = true).
Proof.
  assert (H1 : (2 <= 3)%nat) by lia.
  assert (H2 : (3 <= length (repeat (d0 (AR := Binary64)) 3))%nat) by (simpl; lia).
  assert (H3 : (d0 <? path_length (AR := Binary64) [P 0 0; P 3 4; P 3 10] (3 - 1))%D = true)
    by (vm_compute; reflexivity).
  assert (H4 : isFinite (path_length (AR := Binary64) [P 0 0; P 3 4; P 3 10] (3 - 1)) = true)
    by (vm_compute; reflexivity).
  split; [exact H1|]. split; [exact H2|]. split; [exact H3|]. split; [exact H4|].
  exact (chord_length_parameters (L := Binary64_laws) (RL := Binary64_rounding)
           [P 0 0; P 3 4; P 3 10] (repeat d0 3) 3 H1 H2 H3 H4).
Defined.

(** C3 as stated fails.  The curve is the straight cubic from (0,0) to
    (24,0), the data points (0,0), (12,16), (24,0) have the parameters 0,
    0.5, 1, and the tolerance is 1.  For the first pair the curve at the
    midpoint parameter 0.25 is (6,0); the midpoint of the two data points is
    (6,8), at distance 8, so the claim's ratio is 8 / (0.2 * 20 + 1) = 1.6;
    the code measures from the midpoint of the curve points (0,0) and
    (12,0), which is (6,0) itself, and its ratio is 0. *)
Lemma hook_ratio_counterexample :
  let d := [P 0 0; P 12 16; P 24 0] in
  let u := [0; 0.5; 1]%float : list double in
  let bz := [P 0 0; P 8 0; P 16 0; P 24 0] in
  hook_ratio_as_claimed d u bz 1%float 1 = 1.6%float
  /\ hook_ratio u bz 1%float 1 = 0%float
  /\ exists st,
      mer_step d u bz 1%float (mkMer d0 d0 0 (at_ bz 0) None) 1 = Ret st
      /\ max_hook_ratio st = 0%float /\ snap_end st = 0%nat.
Proof.
  cbv zeta. split; [vm_compute; reflexivity|]. split; [vm_compute; reflexivity|].
  eexists. split; [vm_compute; reflexivity|]. split; reflexivity.
Qed.

(** *** Further runs *)

Lemma sanitation_sanitizes_witness :
  let src := [P 0 0; P 0 0; P PrimFloat.nan 1; P 1 1] in
  exists n dest' idx,
    copy_without_nans_or_adjacent_duplicates 1 src 4 (repeat pt0 4) = Ret (n, dest')
    /\ (1 <= n <= 4)%nat
    /\ length dest' = length (repeat pt0 4)
    /\ sanitized (firstn n dest') = true
    /\ idx 0%nat = 0%nat
    /\ (forall i, (i < n)%nat -> at_ dest' i = at_ src (idx i) /\ (idx i < 4)%nat)
    /\ (forall i j, (i < j < n)%nat -> (idx i < idx j)%nat)
    /\ (forall i, (n <= i)%nat -> at_ dest' i = at_ (repeat pt0 4) i).
Proof.
  cbv zeta.
  apply (sanitation_sanitizes (AR := Binary64) 0
           [P 0 0; P 0 0; P PrimFloat.nan 1; P 1 1] 4 (repeat pt0 4)).
  - simpl; lia.
  - simpl; lia.
  - vm_compute; reflexivity.
Defined.

Lemma sanitation_keeps_sanitized_witness :
  copy_without_nans_or_adjacent_duplicates 1 zigzag (length zigzag) (repeat pt0 6)
  = Ret (length zigzag, zigzag ++ skipn (length zigzag) (repeat pt0 6)).
Proof.
  apply (sanitation_keeps_sanitized (AR := Binary64) 0 zigzag (repeat pt0 6)).
  - vm_compute; reflexivity.
  - unfold zigzag; discriminate.
  - simpl; lia.
Defined.

Lemma leading_nan_never_returns_witness :
  sp_bezier_fit_cubic_r 1000 (buffer 1) (Some 0%nat) (Some [P PrimFloat.nan 0; P 1 1]) 2
                        0%float 1
  = OutOfFuel.
Proof.
  apply (leading_nan_never_returns (AR := Binary64) 1000 (buffer 1) 0
           [P PrimFloat.nan 0; P 1 1] 2 0%float 1).
  - lia.
  - simpl; lia.
  - lia.
  - vm_compute; reflexivity.
Defined.

Lemma coincident_points_give_no_segment_witness :
  sp_bezier_fit_cubic_r 1 (buffer 1) (Some 0%nat)
                        (Some [P 1 1; P 1 1; P PrimFloat.nan 0; P 1 1]) 4 0%float 1
  = Ret (0%Z, buffer 1).
Proof.
  apply (coincident_points_give_no_segment (AR := Binary64) 0 (buffer 1) 0
           [P 1 1; P 1 1; P PrimFloat.nan 0; P 1 1] 4 0%float 1).
  - lia.
  - simpl; lia.
  - lia.
  - vm_compute; reflexivity.
  - intros i Hi. destruct i as [|[|[|[|i]]]]; try (simpl in Hi; lia);
      first [left; vm_compute; reflexivity|right; vm_compute; reflexivity].
Defined.

Lemma r_on_sanitized_witness :
  sp_bezier_fit_cubic_r 9 (buffer 3) (Some 0%nat) (Some zigzag) (Z.of_nat (length zigzag))
                        0%float 3
  = sp_bezier_fit_cubic_full 9 (buffer 3) (Some 0%nat) None (Some zigzag)
                             (Z.of_nat (length zigzag))
                             unconstrained_tangent unconstrained_tangent 0%float 3.
Proof.
  apply (r_on_sanitized (AR := Binary64) 8 (buffer 3) 0 zigzag 0%float 3).
  - vm_compute; reflexivity.
  - simpl; lia.
  - lia.
Defined.

(** Two points, fitted by [sp_bezier_fit_cubic]. *)
Definition line_result : store :=
  Eval vm_compute in
    match sp_bezier_fit_cubic 1 (buffer 1) (Some 0%nat) (Some [P 0 0; P 1 1]) 2 0%float with
    | Ret (_, st) => st
    | _ => mkStore [] []
    end.

Lemma line_run :
  sp_bezier_fit_cubic 1 (buffer 1) (Some 0%nat) (Some [P 0 0; P 1 1]) 2 0%float
  = Ret (1%Z, line_result).
Proof. vm_compute; reflexivity. Qed.

Lemma single_segment_fit_witness :
  (1 = -1 \/ 1 = 0 \/ 1 = 1)%Z
  /\ length (bez line_result) = length (bez (buffer 1))
  /\ splits line_result = splits (buffer 1)
  /\ forall i, (i < 0 \/ 0 + 4 <= i)%nat ->
               at_ (bez line_result) i = at_ (bez (buffer 1)) i.
Proof.
  exact (single_segment_fit (AR := Binary64) 1 (buffer 1) 0 [P 0 0; P 1 1] 2 0%float 1
                            line_result ltac:(simpl; lia) ltac:(simpl; lia) line_run).
Defined.

Lemma chord_parameters_in_unit_witness :
  let u' := chord_length_parameterize [P 0 0; P 3 4; P 3 10] (repeat d0 3) 3 in
  length u' = length (repeat (d0 (AR := Binary64)) 3)
  /\ uat u' 0 = d0
  /\ uat u' (3 - 1) = d1
  /\ forall i, (i < 3)%nat -> in_unit (uat u' i).
Proof.
  apply (chord_parameters_in_unit (L := Binary64_laws) (RL := Binary64_rounding)
           (FL := Binary64_fit) [P 0 0; P 3 4; P 3 10] (repeat d0 3) 3).
  - simpl; lia.
  - simpl; lia.
  - simpl; lia.
  - vm_compute; reflexivity.
Defined.

Lemma reparameterize_keeps_unit_witness :
  let d := [P 0 0; P 12 16; P 24 0] in
  let u := [0; 0.5; 1]%float : list double in
  let bz := [P 0 0; P 8 0; P 16 0; P 24 0] in
  exists u',
    reparameterize d 3 u bz = Ret u'
    /\ length u' = length u
    /\ uat u' 0 = uat u 0
    /\ uat u' (3 - 1) = uat u (3 - 1)
    /\ (forall i, (i < 3)%nat -> in_unit (uat u' i))
    /\ (forall i, (1 <= i < 3 - 1)%nat ->
          (sq_dist bz (at_ d i) (uat u' i) >? sq_dist bz (at_ d i) (uat u i))%D = false).
Proof.
  cbv zeta.
  apply (reparameterize_keeps_unit (L := Binary64_laws) (RL := Binary64_rounding)
           [P 0 0; P 12 16; P 24 0] 3 [0; 0.5; 1]%float [P 0 0; P 8 0; P 16 0; P 24 0]).
  - simpl; lia.
  - simpl; lia.
  - reflexivity.
  - vm_compute; reflexivity.
  - vm_compute; reflexivity.
  - vm_compute; reflexivity.
  - vm_compute; reflexivity.
  - intros i Hi. destruct i as [|[|[|i]]]; try lia; split; vm_compute; reflexivity.
Defined.

Lemma generate_bezier_ends_witness :
  exists bz,
    generate_bezier (repeat pt0 4) zigzag [0; 0.25; 0.5; 1]%float 4 (P 0 0) (P 0 0) 0%float
    = Ret bz
    /\ length bz = 4%nat /\ at_ bz 0 = at_ zigzag 0 /\ at_ bz 3 = at_ zigzag (4 - 1).
Proof.
  apply (generate_bezier_ends (FL := Binary64_fit) (repeat pt0 4) zigzag
           [0; 0.25; 0.5; 1]%float 4 (P 0 0) (P 0 0) 0%float).
  - simpl; lia.
  - simpl; lia.
  - vm_compute; reflexivity.
  - vm_compute; reflexivity.
  - reflexivity.
Defined.

(** Three points on a line, fitted with tolerance 0.01: the first attempt
    is accepted. *)
Definition line3 : list QPointF := [P 0 0; P 1 1; P 2 2].

Definition line3_curve : list QPointF :=
  Eval vm_compute in
    match fit_attempts (repeat pt0 4) line3 3 (P 0 0) (P 0 0) 0.01%float with
    | Ret (Some (Accepted bz)) => bz
    | _ => []
    end.

Lemma line3_run :
  fit_attempts (repeat pt0 4) line3 3 (P 0 0) (P 0 0) 0.01%float
  = Ret (Some (Accepted line3_curve)).
Proof. vm_compute; reflexivity. Qed.

Lemma accepted_within_tolerance_witness :
  exists u,
    pt_eqb (at_ line3_curve 0) (at_ line3 0) = true
    /\ pt_eqb (at_ line3_curve 3) (at_ line3 (3 - 1)) = true
    /\ forall i, (1 <= i <= 3 - 1)%nat ->
         in_unit (uat u i)
         /\ (isNaN (sq_dist line3_curve (at_ line3 i) (uat u i)) = false ->
             (dsqrt (sq_dist line3_curve (at_ line3 i) (uat u i))
              / dsqrt (0.01%float + dlit 1e-9)
              <=? d1)%D = true).
Proof.
  apply (accepted_within_tolerance (L := Binary64_laws) (RL := Binary64_rounding)
           (FL := Binary64_fit) (repeat pt0 4) line3 3 (P 0 0) (P 0 0) 0.01%float
           line3_curve).
  - reflexivity.
  - simpl; lia.
  - vm_compute; reflexivity.
  - vm_compute; reflexivity.
  - exact line3_run.
Defined.

Lemma sanitized_fit_returns_witness :
  exists N st',
    sp_bezier_fit_cubic_full 9 (mkStore (repeat pt0 12) [0; 0; 0]%Z)
                             (Some 0%nat) (Some 0%nat) (Some zigzag) 4
                             (P 0 0) (P 0 0) 0%float 3 = Ret (N, st')
    /\ (N = -1 \/ 1 <= N <= 3)%Z.
Proof.
  apply (sanitized_fit_returns (L := Binary64_laws) (RL := Binary64_rounding)
           (FL := Binary64_fit) 9 (mkStore (repeat pt0 12) [0; 0; 0]%Z) 0 (Some 0%nat)
           zigzag 4 (P 0 0) (P 0 0) 0%float 3).
  - lia.
  - simpl; lia.
  - lia.
  - simpl; lia.
  - vm_compute; reflexivity.
  - exact zigzag_no_zero_length_range.
  - vm_compute; reflexivity.
  - split; simpl; lia.
Defined.

Lemma writes_within_budget_witness :
  (-1 <= 3 <= 3)%Z
  /\ length (bez zigzag_result) = length (repeat (pt0 (AR := Binary64)) 12)
  /\ forall i, (i < 0 \/ 0 + 4 * Z.to_nat 3 <= i)%nat ->
               at_ (bez zigzag_result) i = at_ (repeat pt0 12) i.
Proof.
  exact (writes_within_budget (AR := Binary64) 9 (mkStore (repeat pt0 12) [0; 0; 0]%Z) 0
           (Some 0%nat) zigzag 4 (P 0 0) (P 0 0) 0%float 3 3 zigzag_result
           ltac:(lia) ltac:(simpl; lia) ltac:(split; simpl; lia) zigzag_run).
Defined.

Lemma split_points_written_witness :
  length (splits zigzag_result) = length [0; 0; 0]%Z
  /\ forall i, nth i (splits zigzag_result) 0%Z <> nth i [0; 0; 0]%Z 0%Z ->
               (0 <= i)%nat /\ (Z.of_nat i + 1 < Z.of_nat 0 + 3)%Z
               /\ (0 < nth i (splits zigzag_result) 0 < 4 - 1)%Z.
Proof.
  exact (split_points_written (AR := Binary64) 9 (mkStore (repeat pt0 12) [0; 0; 0]%Z) 0 0
           zigzag 4 (P 0 0) (P 0 0) 0%float 3 3 zigzag_result
           ltac:(lia) ltac:(simpl; lia) ltac:(split; simpl; lia) zigzag_run).
Defined.

Lemma output_ignores_buffer_witness :
  exists st2',
    sp_bezier_fit_cubic_full 9 (mkStore (repeat (P 7 7) 12) [0; 0; 0]%Z)
                             (Some 0%nat) (Some 0%nat) (Some zigzag) 4
                             (P 0 0) (P 0 0) 0%float 3 = Ret (3%Z, st2')
    /\ splits st2' = splits zigzag_result
    /\ forall i, (0 <= i < 0 + 4 * Z.to_nat 3)%nat ->
                 at_ (bez st2') i = at_ (bez zigzag_result) i.
Proof.
  apply (output_ignores_buffer (AR := Binary64) 9 (mkStore (repeat pt0 12) [0; 0; 0]%Z)
           (mkStore (repeat (P 7 7) 12) [0; 0; 0]%Z) 0 (Some 0%nat) zigzag 4
           (P 0 0) (P 0 0) 0%float 3 3 zigzag_result).
  - lia.
  - simpl; lia.
  - split; simpl; lia.
  - reflexivity.
  - reflexivity.
  - exact zigzag_run.
Defined.

(** Three times the same point: no segment; twice the same point: one. *)
Lemma zero_count_witness :
  ((0%Z = 0%Z <-> 3%Z = 1%Z \/ ((3 <= 3)%Z /\ zero_length [P 1 1; P 1 1; P 1 1] (Z.to_nat 3) = true))
   /\ (0%Z = 0%Z -> buffer 1 = buffer 1)
   /\ (3%Z = 2%Z ->
       0%Z = 1%Z
       /\ buffer 1 = store4 (buffer 1) 0
                            (fit_two_points (load4 (buffer 1) 0) [P 1 1; P 1 1; P 1 1] 2
                                            (P 0 0) (P 0 0))))
  /\ let two := store4 (buffer 1) 0
                       (fit_two_points (load4 (buffer 1) 0) [P 1 1; P 1 1] 2 (P 0 0) (P 0 0)) in
     (1%Z = 0%Z <-> 2%Z = 1%Z \/ ((3 <= 2)%Z /\ zero_length [P 1 1; P 1 1] (Z.to_nat 2) = true))
     /\ (1%Z = 0%Z -> two = buffer 1)
     /\ (2%Z = 2%Z -> 1%Z = 1%Z /\ two = two).
Proof.
  split.
  - apply (zero_count (AR := Binary64) 1 (buffer 1) 0 None [P 1 1; P 1 1; P 1 1] 3
                      (P 0 0) (P 0 0) 0%float 1 0 (buffer 1)).
    + lia.
    + simpl; lia.
    + lia.
    + split; [simpl; lia|exact I].
    + vm_compute; reflexivity.
    + vm_compute; reflexivity.
  - cbv zeta.
    apply (zero_count (AR := Binary64) 1 (buffer 1) 0 None [P 1 1; P 1 1] 2
                      (P 0 0) (P 0 0) 0%float 1 1).
    + lia.
    + simpl; lia.
    + lia.
    + split; [simpl; lia|exact I].
    + vm_compute; reflexivity.
    + vm_compute; reflexivity.
Defined.



(** The three points of the run for C10: the ratio 16, the split point 1. *)
Lemma split_at_max_error_witness :
  let d := [P 0 0; P 12 16; P 24 0] in
  let u := [0; 0.5; 1]%float : list double in
  let bz := [P 0 0; P 8 0; P 16 0; P 24 0] in
  exists s,
    Some 1%nat = Some s /\ (1 <= s < 3 - 1)%nat
    /\ 16%float = (dsqrt (sq_dist bz (at_ d s) (uat u s)) / 1%float)%D
    /\ forall i, (1 <= i <= 3 - 1)%nat ->
         isNaN (sq_dist bz (at_ d i) (uat u i)) = false ->
         (sq_dist bz (at_ d i) (uat u i) <=? sq_dist bz (at_ d s) (uat u s))%D = true.
Proof.
  cbv zeta.
  apply (split_at_max_error (L := Binary64_laws) (RL := Binary64_rounding)
           (FL := Binary64_fit) [P 0 0; P 12 16; P 24 0] [0; 0.5; 1]%float 3
           [P 0 0; P 8 0; P 16 0; P 24 0] 1%float None 16%float (Some 1%nat)).
  - simpl; lia.
  - simpl; lia.
  - reflexivity.
  - vm_compute; reflexivity.
  - vm_compute; reflexivity.
  - vm_compute; reflexivity.
Defined.

End Binary64Runs.

(** ** Runs on binary64 with the scaled [hypot] *)

Section ScaledRuns.
Local Existing Instance Binary64_scaled.

Definition Ps (x y : float) : QPointF := mkPoint (x : double) y.

(** Sanitized points, two of them [1e-200] apart: the square of that
    distance underflows, the distance does not. *)
Definition near_points : list QPointF := [Ps 0 0; Ps 0 1e-200; Ps 1 0; Ps 1 1; Ps 2 1].

Definition near_points_result : store :=
  Eval vm_compute in
    match sp_bezier_fit_cubic_full 12 (mkStore (repeat pt0 16) []) (Some 0%nat) None
                                   (Some near_points) 5 (Ps 0 0) (Ps 0 0) 0%float 4 with
    | Ret (_, st) => st
    | _ => mkStore [] []
    end.

Lemma near_points_run :
  sp_bezier_fit_cubic_full 12 (mkStore (repeat pt0 16) []) (Some 0%nat) None
                           (Some near_points) 5 (Ps 0 0) (Ps 0 0) 0%float 4
  = Ret (3%Z, near_points_result).
Proof. vm_compute; reflexivity. Qed.

(** Points with repetitions and a NaN, as [sp_bezier_fit_cubic_r] takes
    them. *)
Definition raw_points : list QPointF :=
  [Ps 0 0; Ps 0 0; Ps 1 0; Ps nan 3; Ps 1 1; Ps 1 1; Ps 2 1].

Definition raw_points_result : store :=
  Eval vm_compute in
    match sp_bezier_fit_cubic_r 12 (mkStore (repeat pt0 16) []) (Some 0%nat)
                                (Some raw_points) 7 0%float 4 with
    | Ret (_, st) => st
    | _ => mkStore [] []
    end.

Lemma raw_points_run :
  sp_bezier_fit_cubic_r 12 (mkStore (repeat pt0 16) []) (Some 0%nat)
                        (Some raw_points) 7 0%float 4
  = Ret (3%Z, raw_points_result).
Proof. vm_compute; reflexivity. Qed.

Lemma segments_chained_witness :
  chained (bez near_points_result) 0 near_points (Z.to_nat 5) (Z.to_nat 3)
  /\ exists uniqued_len uniqued_data,
      copy_without_nans_or_adjacent_duplicates 12 raw_points (Z.to_nat 7)
                                               (repeat pt0 (Z.to_nat 7))
      = Ret (uniqued_len, uniqued_data)
      /\ sanitized (firstn uniqued_len uniqued_data) = true
      /\ chained (bez raw_points_result) 0 uniqued_data uniqued_len (Z.to_nat 3).
Proof.
  split.
  - apply (proj1 (segments_chained (AR := Binary64_scaled) (CL := Binary64_chord)
                                   12 (mkStore (repeat pt0 16) []) 0 4 0%float 3
                                   near_points_result
                                   ltac:(lia) ltac:(simpl; lia) ltac:(lia))
                 None near_points 5%Z (Ps 0 0) (Ps 0 0)).
    + simpl; lia.
    + vm_compute; reflexivity.
    + exact near_points_run.
  - apply (proj2 (segments_chained (AR := Binary64_scaled) (CL := Binary64_chord)
                                   12 (mkStore (repeat pt0 16) []) 0 4 0%float 3
                                   raw_points_result
                                   ltac:(lia) ltac:(simpl; lia) ltac:(lia))
                 raw_points 7%Z).
    exact raw_points_run.
Defined.

End ScaledRuns.
